(* ===== verification/_CoqProject ===== *)
-Q . S2P
Prelude.v
ByteStream.v
Wrap32.v
Reassembler.v
TCPReceiver.v
TCPSender.v
NetworkInterface.v
Router.v
Connection.v
EthernetLink.v
Internet.v
LossyLink.v
