(* ===== verification/Prelude.v ===== *)
(** * A verification development of the minnow user-space TCP/IP stack

    The repository (src/src/*.cc, *.hh) implements the core of a TCP/IP
    stack in C++: a bounded byte stream, a stream reassembler, 32-bit
    wrapping sequence numbers, a TCP receiver, a TCP sender with a
    retransmission timer, an Ethernet network interface speaking ARP, and
    an IPv4 router.  Everything is single threaded and driven by calls:
    the caller invokes [push], [receive], [tick], [recv_frame],
    [send_datagram] and [route] in sequence, and output leaves through
    callbacks ([transmit]) that this development records as lists.

    ** How the parts interact

    - [ByteStream] (byte_stream.cc) is a FIFO with a writer half and a
      reader half.  The reassembler writes into one; the sender reads from
      one.
    - [Reassembler] (reassembler.cc) orders substrings by absolute index
      and pushes the contiguous prefix into its output stream.  It is
      written against the [Writer] type class of ByteStream.v, so its
      theorems hold for every writer satisfying the class laws, and the
      concrete ByteStream discharges those laws.
    - [Wrap32] (wrapping_integers.cc) maps 64-bit absolute sequence
      numbers to and from the 32-bit wire space.
    - [TCPReceiver] (tcp_receiver.cc) unwraps the segment's sequence
      number and calls the reassembler; it produces acknowledgements.
    - [TCPSender] (tcp_sender.cc, tcp_sender.hh) reads the outbound
      stream, carves segments, keeps the outstanding queue and the
      [RetryTimer].
    - [NetworkInterface] (network_interface.cc, .hh) resolves next hops
      with ARP, queues datagrams that wait for a reply and ages its
      tables on [tick].
    - [Router] (router.cc) drains every interface's received datagrams
      and forwards them by longest-prefix match through another
      interface's [send_datagram].

    ** Files of the development (in dependency order)

    - Prelude.v (this file): the [minnow_scope] notations, machine-width
      arithmetic ([u16], [u32], [u64] as [Z] with the wrap written out),
      the shared list lemmas, the [minnow] hint database and tactics
      ([bool_prop], [case_ifs], [split_conj]), and [eventually], the
      liveness predicate over a step relation.
    - ByteStream.v: [Module ByteStream] is the state of byte_stream.cc
      (queue of chunks, [prefix_len_], counters, flags) with [push],
      [pop] (its loop as [pop_loop]), [peek], [close], [set_error];
      [Module StreamSpec] is the abstract stream (one flat buffer);
      [Module ByteStreamFacts] proves the refinement and the bounds; the
      [Writer] class with [WriterLaws] is what the reassembler asks of
      its output, and the ByteStream instance discharges it.
    - Wrap32.v: [Module Wrap32], [wrap] and [unwrap] of
      wrapping_integers.cc with their masks as [Z.land]/[Z.lor].
    - Reassembler.v: [Section Reassembler] over any [Writer]: [split],
      [insert], [flush] and [close_if_done] of reassembler.cc, the
      [std::map] as its sorted entry list, and the invariant [rinv].
    - TCPReceiver.v: [Module TCPReceiver], [receive], [send] and [read]
      of tcp_receiver.cc over a ByteStream-backed reassembler.
    - TCPSender.v: [Module RetryTimer] (tcp_sender.hh) and [Module
      TCPSender]: [push] (outer loop [push_loop], body [push_body], inner
      peek/pop loop [fill]), [receive] (its pop loop [ack_loop]), [tick],
      [make_empty_message]; the invariant [sinv].
    - NetworkInterface.v (stdpp): [Module NetworkInterface],
      [send_datagram], [recv_frame] and [tick] over [gmap]s, the table
      invariant [ni_inv], and runs of timed events ([run_from]).
    - Router.v (stdpp): [Section Router], [add_route] and [route]
      ([route_from] over the interfaces, [route_queue] over one queue,
      [route_datagram] for one datagram, [lookup_route]/[scan] for the
      table walk), calling NetworkInterface's [send_datagram].
    - Connection.v: [Module Connection] composes TCPSender.v and
      TCPReceiver.v over a link that loses and reorders nothing: the
      relation [sync] (the receiver has taken in exactly what the
      sender sent), delivery of [push]'s segments one by one to
      [TCPReceiver.receive], and the acknowledgement of
      [TCPReceiver.send] taken back by [TCPSender.receive].
    - LossyLink.v: [Module LossyLink] composes the same two over an
      unreliable link, a soup of every segment and acknowledgement ever
      sent from which any one may be delivered at any time (so messages
      are lost, duplicated and reordered), with [tick] retransmitting;
      [seg_ok] says a segment is a slice of the stream the sender read,
      [stream_ok] that the receiver's reassembler holds part of it, and
      [net_inv] is their conjunction over a reachable state; [acks_inv]
      bounds every acknowledgement in the soup and the sender's
      [ack_sequence_number_] by the receiver's absolute ackno [ack_abs].
    - EthernetLink.v (stdpp): [Module EthernetLink], the abstract
      [OutputPort] of network_interface.hh as a [Class] and its private
      [transmit] helper ([transmit_all]); two NetworkInterfaces whose
      ports put their frames on one shared FIFO medium ([wire]), a
      delivery hands the oldest frame to the other side's [recv_frame]
      ([wire_deliver], [wire_settle]), and the invariant [wire_ok] of a
      settled segment.
    - Internet.v (stdpp): [Module Internet], two hosts on two segments
      joined by the router of Router.v with two interfaces: a send
      settles the sender's segment, [route] runs, its frames go onto the
      segment of the interface that sent them, and both segments settle
      ([inet_step]); [inet_ok] is both segments settled, the router's
      queues drained and each host's address routed directly to its
      segment.
    Each component file ends with a scenario module that runs the
    definitions on the spec's examples and holds the witnesses.

    ** What is proved

    - Invariants preserved by every operation and therefore by every run
      from the initial state: ByteStream well-formedness, the reassembler's
      [rinv] (ordered, disjoint, in-window storage with exact
      [pending_num]), the receiver's, the sender's [sinv] (in-flight
      accounting, [next = ack + in flight], timer running exactly when
      something is outstanding, contiguous outstanding queue) and the
      interface's [ni_inv].
    - Functional behaviour: what [insert] delivers, that inserting the
      same substring twice changes nothing observable, in-order reception,
      what [push] reads and transmits, [tick] on expiry, [receive] of
      any valid acknowledgement (exactly the fully acknowledged prefix of
      the queue is removed), the ARP exchange (the datagrams waiting for
      a next hop leave in the order sent when its address is learned),
      longest-prefix match.
    - Refinement and equivalence: the chunked ByteStream refines the
      flat stream; [fill] equals one read; the router's shifting scan
      equals the spec's per-length probe with 32 tables; [route], with
      its loops over interfaces and queues, equals the spec's router
      ([route_spec]: every received datagram's forwarding decision,
      carried out in order).
    - Safety and conservation: ARP requests for one address at least
      5000 ms apart; no datagram lost by the interface; routed datagrams
      have TTL at least 1 and [route] drains every received queue;
      [push] stays inside the effective window; the receiver's
      acknowledgement number and the right edge of its window never
      move back.
    - [unwrap] is the spec's function (a 64-bit value with the right low
      32 bits, none closer to the checkpoint), and [wrap] then [unwrap]
      is the identity for every checkpoint less than [2^31] away.
    - Composition (Connection.v): [push] then delivery moves exactly the
      bytes read from the sender's input onto the receiver's stream and
      keeps [sync]; with the acknowledgement back, nothing is left
      outstanding; over any schedule of writes, closes, rounds and reads
      the connection is one byte stream (read ++ buffered at the
      receiver ++ unread at the sender = accepted writes).  Over the
      unreliable link of LossyLink.v, whatever is lost, duplicated,
      reordered or retransmitted, the receiving application sees only a
      prefix of the bytes written, and all of them once its stream is
      closed; and the sender never counts as acknowledged (so never
      drops from its retransmission queue) a sequence number beyond the
      receiver's own absolute ackno, which in turn never passes the
      sender's [next_seq_number_] ([lossy_acks_received]).  Two
      NetworkInterfaces on one Ethernet segment (EthernetLink.v) are two
      FIFO datagram channels: ARP resolution, expiry of ARP entries and
      re-resolution never lose, duplicate or reorder a datagram
      ([link_delivers]).  Across the router (Internet.v) each host
      receives exactly what the other sent with a TTL above 1, in order,
      with the TTL decremented and the checksum recomputed
      ([internet_delivers]).
    - Error paths: an RST makes the receiver ignore every later segment
      and acknowledge with RST; the sender's [receive] on RST, on an
      errored input and on an acknowledgement of unsent data; and
      [Writer::push], which does not look at the error flag; the
      router's undefined [_interfaces[num]] indexing, never reached when
      every route names an existing interface.
    - Types: the acknowledgement fits [uint16_t]/32-bit fields; the
      sender's timer fields and the interface's [TimeoutTracker] ages
      stay 64-bit values (the ages below their lifetimes) in every
      reachable state.
    - Liveness, with the inductive [eventually] of this file over a
      step relation in which the environment chooses any tick length:
      an outstanding segment is eventually retransmitted; an
      unanswered ARP request eventually times out, and the next
      datagram for its address then asks again.
    - Divergences, each a general theorem with a run as its witness:
      every exact tie of [unwrap] goes to the higher value; after [k]
      backoffs the 64-bit RTO is [RTO * 2^k mod 2^64], hence 0 after 64;
      a duplicate acknowledgement may shrink the window below what is in
      flight and [push] leaves it so; a segment at the ISN without SYN
      is dropped; the reassembler can push past its end position and
      then never closes; with 33 route tables the lookup matches [dst >>
      1] against a /32 host route instead of [dst]; a prefix with host
      bits is ignored.

    ** Fuel and bounds

    - [TCPSender.push] runs [push_loop] with fuel [effective_window + 1]:
      every turn but the last adds at least one sequence number in flight,
      so the loop stops within that many turns ([push_terminates] shows
      that any larger fuel gives the same result).  [fill] gets
      [payload_len] turns: each turn either appends at least one byte or
      stops.  [ByteStream.pop_loop], [flush], [ack_loop], [scan] and the
      router's loops recurse structurally on the list they walk.
    - The liveness theorems let every tick be of any length from 1 ms
      up to a bound: [2^32] ms for the sender (its RTO and elapsed time
      must stay [2^32] below [2^64], so the 64-bit sum cannot wrap past
      the RTO), [2^64 - 30000] ms for the interface (no tracker of an
      in-range age can wrap).  The measure is the time left before
      expiry, which every tick decreases.
    - The composition theorems assume the sequence numbers stay below
      [2^64] and the receiver has room for the sender's window, as a
      window learned from that receiver guarantees.  Over the
      unreliable link the stream is bounded by [MAX_STREAM = 2^31 - 2]
      bytes, so that every segment's absolute sequence number is within
      [2^31] of the receiver's checkpoint and [unwrap] recovers it
      exactly ([Wrap32.unwrap_near]); a longer stream lets a stale
      segment alias a new position, which TCP avoids by the
      segment lifetime, not by anything in this code.
    - Byte and sequence counters are [nat] (2^64 bytes are out of reach);
      the 32-bit sequence numbers, the 64-bit stream index of the
      receiver, the RTO, all timer ages and IPv4 addresses are [Z] with
      the wrap of their width.

    ** Modelling choices

    - Byte strings are [list Byte.byte]; the C++ [std::string] and
      [std::string_view] become lists, [resize n] is [firstn n],
      [substr p] is [skipn p].
    - Undefined behaviour of the C++ ([Reader::pop] of more than is
      buffered, indexing past the interface vector or the route tables)
      is excluded by the theorems' hypotheses or returned as [None].
    - Callbacks ([transmit]) are the list of what each call emits, in
      order; [std::unordered_map]s are [gmap]s, the reassembler's
      [std::map] is an ordered association list.

    ** Not modelled

    The wire codecs (IPv4, Ethernet, ARP parse/serialize and the IPv4
    header checksum, taken by Router.v as a parameter), the concrete
    [OutputPort] implementations (EthernetLink.v uses a model of a
    shared medium), the CLI drivers, the debug output and the socket
    layer are outside src/; they are represented by the data they carry.
    router.hh is absent, so the number of route tables is left open and
    the theorems say for which number the lookup is right.  The links
    between hosts are the two of Connection.v and LossyLink.v and the
    Ethernet segment of EthernetLink.v (reliable: it settles in three
    deliveries per send, [SETTLE_FUEL], which is exactly an ARP request,
    its reply and the datagram); a link
    that corrupts or forges segments is not modelled (the checksum is a
    codec's, outside src/).  Nothing of
    the program is left unmodelled inside src/ except the debug output
    to [cerr], the accessors that return references, and the
    NetworkInterface constructor's [notnull] check of its port (which
    throws on a null [OutputPort]; [NetworkInterface.create] has no
    port, and EthernetLink.v always supplies one).
*)

From Stdlib Require Import ZArith List Lia Bool.
From Stdlib Require String.
Export String.StringSyntax.
Import ListNotations.

Declare Scope minnow_scope.
Delimit Scope minnow_scope with minnow.
Open Scope minnow_scope.

(** ** Bytes *)

(** A C++ [std::string] of the stack: a list of bytes. *)
Abbreviation bytes := (list Byte.byte).

(** A literal byte string, for examples: [bstr "cat"]. *)
Definition bstr (s : String.string) : bytes := String.list_byte_of_string s.
Arguments bstr s%_string_scope.

(** Total length of a queue of chunks. *)
Definition total_len (q : list bytes) : nat := list_sum (map (@length _) q).

Lemma total_len_nil : total_len [] = 0.
Proof. reflexivity. Qed.

Lemma total_len_cons c q : total_len (c :: q) = length c + total_len q.
Proof. reflexivity. Qed.

Lemma total_len_app q1 q2 : total_len (q1 ++ q2) = total_len q1 + total_len q2.
Proof. unfold total_len. now rewrite map_app, list_sum_app. Qed.

Lemma length_concat_total q : length (concat q) = total_len q.
Proof. induction q as [|c q IH]; simpl; [reflexivity|]. rewrite length_app, IH. reflexivity. Qed.

(** ** Machine-width integers *)

Open Scope Z_scope.

Definition u16 (z : Z) : Z := z mod 2 ^ 16.
Definition u32 (z : Z) : Z := z mod 2 ^ 32.
Definition u64 (z : Z) : Z := z mod 2 ^ 64.

Definition UINT16_MAX : Z := 2 ^ 16 - 1.

Lemma u32_range z : 0 <= u32 z < 2 ^ 32.
Proof. unfold u32. apply Z.mod_pos_bound. lia. Qed.

Lemma u64_range z : 0 <= u64 z < 2 ^ 64.
Proof. unfold u64. apply Z.mod_pos_bound. lia. Qed.

Lemma u32_small z : 0 <= z < 2 ^ 32 -> u32 z = z.
Proof. unfold u32. apply Z.mod_small. Qed.

Lemma u64_small z : 0 <= z < 2 ^ 64 -> u64 z = z.
Proof. unfold u64. apply Z.mod_small. Qed.

Lemma u32_idem z : u32 (u32 z) = u32 z.
Proof. unfold u32. apply Z.mod_mod. lia. Qed.

(** Wrapping never makes a non-negative quantity larger. *)
Lemma u64_le z : 0 <= z -> u64 z <= z.
Proof. intros Hz. unfold u64. apply Z.mod_le; lia. Qed.

Lemma u32_add_l a b : u32 (u32 a + b) = u32 (a + b).
Proof. unfold u32. rewrite Z.add_mod_idemp_l by lia. reflexivity. Qed.

Lemma u32_add_r a b : u32 (a + u32 b) = u32 (a + b).
Proof. unfold u32. rewrite Z.add_mod_idemp_r by lia. reflexivity. Qed.

Lemma u32_sub_r a b : u32 (a - u32 b) = u32 (a - b).
Proof. unfold u32. rewrite Zminus_mod_idemp_r. reflexivity. Qed.

(** A value below [2^w] has no bit at or above [w]. *)
Lemma testbit_high a w i : 0 <= a < 2 ^ w -> w <= i -> Z.testbit a i = false.
Proof.
  intros Ha Hi. destruct (Z.eq_dec a 0) as [->|]; [apply Z.testbit_0_l|].
  apply Z.bits_above_log2; [lia|]. assert (Z.log2 a < w) by (apply Z.log2_lt_pow2; lia). lia.
Qed.

(** [hi << w | lo] is [hi * 2^w + lo] when [lo] fits in [w] bits. *)
Lemma lor_shifted_low h n w :
  0 <= w -> 0 <= n < 2 ^ w -> Z.lor (h * 2 ^ w) n = h * 2 ^ w + n.
Proof.
  intros Hw Hn. rewrite <- Z.add_lor_land.
  enough (Z.land (h * 2 ^ w) n = 0) by lia.
  rewrite <- Z.shiftl_mul_pow2 by lia.
  apply Z.bits_inj'. intros i Hi. rewrite Z.land_spec, Z.testbit_0_l.
  destruct (Z.ltb_spec i w).
  - rewrite Z.shiftl_spec_low by lia. reflexivity.
  - rewrite (testbit_high n w i) by lia. apply andb_false_r.
Qed.

Close Scope Z_scope.

(** ** Automation *)

Create HintDb minnow.
Create Rewrite HintDb minnow_rw.

#[export] Hint Rewrite total_len_nil total_len_cons total_len_app length_app
  length_firstn length_skipn : minnow_rw.
#[export] Hint Resolve u32_range u64_range : minnow.

(** Turn the boolean comparisons of the code into propositions. *)
Ltac bool_prop :=
  repeat match goal with
  | H : (_ =? _) = true |- _ => apply Nat.eqb_eq in H
  | H : (_ =? _) = false |- _ => apply Nat.eqb_neq in H
  | H : (_ <? _) = true |- _ => apply Nat.ltb_lt in H
  | H : (_ <? _) = false |- _ => apply Nat.ltb_ge in H
  | H : (_ <=? _) = true |- _ => apply Nat.leb_le in H
  | H : (_ <=? _) = false |- _ => apply Nat.leb_gt in H
  | H : (_ =? _)%Z = true |- _ => apply Z.eqb_eq in H
  | H : (_ =? _)%Z = false |- _ => apply Z.eqb_neq in H
  | H : (_ <? _)%Z = true |- _ => apply Z.ltb_lt in H
  | H : (_ <? _)%Z = false |- _ => apply Z.ltb_ge in H
  | H : (_ <=? _)%Z = true |- _ => apply Z.leb_le in H
  | H : (_ <=? _)%Z = false |- _ => apply Z.leb_gt in H
  | H : (_ || _)%bool = true |- _ => apply orb_true_iff in H as [H|H]
  | H : (_ || _)%bool = false |- _ => apply orb_false_iff in H as [? ?]
  | H : (_ && _)%bool = true |- _ => apply andb_true_iff in H as [? ?]
  | H : negb _ = true |- _ => apply negb_true_iff in H
  | H : negb _ = false |- _ => apply negb_false_iff in H
  end.

(** Case on every [if] of the goal, naming the tests and making them props. *)
Ltac case_ifs :=
  repeat match goal with
  | |- context [if ?c then _ else _] =>
      let E := fresh "E" in destruct c eqn:E
  end; bool_prop.

(** Split a goal that is a conjunction, and only conjunctions (a
    [Record] invariant is left whole). *)
Ltac split_conj := repeat match goal with |- _ /\ _ => split end.

(** ** Lists *)

Lemma skipn_app_ge {A} (n : nat) (l1 l2 : list A) :
  length l1 <= n -> skipn n (l1 ++ l2) = skipn (n - length l1) l2.
Proof. intros H. rewrite skipn_app, skipn_all2 by exact H. reflexivity. Qed.

Lemma skipn_app_lt {A} (n : nat) (l1 l2 : list A) :
  n <= length l1 -> skipn n (l1 ++ l2) = skipn n l1 ++ l2.
Proof. intros H. rewrite skipn_app. now replace (n - length l1) with 0 by lia. Qed.

Lemma firstn_app_le {A} (n : nat) (l1 l2 : list A) :
  n <= length l1 -> firstn n (l1 ++ l2) = firstn n l1.
Proof. intros H. rewrite firstn_app. replace (n - length l1) with 0 by lia. apply app_nil_r. Qed.

Lemma neq_nil_length {A} (l : list A) : l <> [] <-> 0 < length l.
Proof. destruct l; simpl; split; intros H; try congruence; lia. Qed.

(** A list that agrees with [d] on [d]'s positions and is at least as
    long starts with [d]. *)
Lemma prefix_nth {A} (d D : list A) :
  length d <= length D -> (forall j, j < length d -> nth_error D j = nth_error d j) ->
  D = d ++ skipn (length d) D.
Proof.
  revert D. induction d as [|x d IH]; intros [|y D] Hl Hj; simpl in *; try lia; try reflexivity.
  pose proof (Hj 0 ltac:(lia)) as H0. simpl in H0. injection H0 as ->.
  f_equal. apply IH; [lia|]. intros j Hjl. apply (Hj (S j)). lia.
Qed.

Lemma firstn_plus {A} (a b : nat) (l : list A) :
  firstn (a + b) l = firstn a l ++ firstn b (skipn a l).
Proof.
  revert l. induction a as [|a IH]; intros [|x l]; simpl; auto.
  - now rewrite firstn_nil.
  - now rewrite IH.
Qed.

Lemma firstn_min_length {A} (n : nat) (l : list A) : firstn (min n (length l)) l = firstn n l.
Proof.
  revert n. induction l as [|x l IH]; intros [|n]; simpl; auto.
  now rewrite IH.
Qed.

Lemma firstn_S_nth {A} (P : nat) (l : list A) x :
  nth_error l P = Some x -> firstn (S P) l = firstn P l ++ [x].
Proof.
  revert P. induction l as [|y l IH]; intros [|P] H; cbn in *; try discriminate.
  - injection H as ->. reflexivity.
  - now rewrite (IH P H).
Qed.

(** A prefix of [l] followed by the elements [l] has next is a longer
    prefix of [l]. *)
Lemma firstn_extend {A} (P : nat) (D l : list A) :
  (forall j, j < length D -> nth_error l (P + j) = nth_error D j) ->
  firstn P l ++ D = firstn (P + length D) l.
Proof.
  revert P. induction D as [|x D IH]; intros P H; cbn [length].
  - now rewrite app_nil_r, Nat.add_0_r.
  - pose proof (H 0 ltac:(cbn; lia)) as H0. rewrite Nat.add_0_r in H0.
    rewrite <- Nat.add_succ_comm, <- IH, (firstn_S_nth P l x H0), <- app_assoc; [reflexivity|].
    intros j Hj. rewrite Nat.add_succ_comm. apply (H (S j)). cbn. lia.
Qed.

(** ** Liveness over a step relation

    [step s next] says that from [s] every move the environment may
    choose (every tick length, say) leads to a state satisfying [next].
    [eventually step P s]: whatever the environment chooses, [P] holds
    after finitely many moves.  [eventually_by_measure] is the usual way
    to establish it: an invariant [I] under which each move either
    reaches [P] or decreases a measure. *)
Section Eventually.
Context {State : Type} (step : State -> (State -> Prop) -> Prop).

Inductive eventually (P : State -> Prop) (s : State) : Prop :=
| eventually_done : P s -> eventually P s
| eventually_step (next : State -> Prop) :
    step s next -> (forall s', next s' -> eventually P s') -> eventually P s.

Lemma eventually_weaken (P Q : State -> Prop) s :
  eventually P s -> (forall s', P s' -> Q s') -> eventually Q s.
Proof.
  induction 1 as [s HP | s next Hs _ IH]; intros HPQ.
  - apply eventually_done, HPQ, HP.
  - apply (eventually_step _ _ next Hs). intros s' Hn. apply IH; assumption.
Qed.

Lemma eventually_by_measure (P I : State -> Prop) (measure : State -> nat) :
  (forall s, I s -> P s \/ step s (fun s' => I s' /\ measure s' < measure s)) ->
  forall s, I s -> eventually P s.
Proof.
  intros Hstep s. remember (measure s) as n eqn:Hn. revert s Hn.
  induction n as [n IH] using (well_founded_induction lt_wf). intros s Hn Hs.
  destruct (Hstep s Hs) as [HP | Hmove]; [now apply eventually_done|].
  apply (eventually_step _ _ _ Hmove). intros s' [Hs' Hlt].
  apply (IH (measure s')); [lia | reflexivity | exact Hs'].
Qed.

End Eventually.

Arguments eventually {State} step P s.
