(* ===== verification/ByteStream.v ===== *)
(** * ByteStream: the bounded FIFO of byte_stream.cc

    The C++ keeps the buffered bytes as a [std::queue<std::string>] of the
    pushed chunks plus [prefix_len_], the number of bytes already popped
    from the front chunk, and three counters.  [Module ByteStream] models
    that state and every operation; [Module StreamSpec] is the abstract
    stream (one flat buffer of the unread bytes) and the theorems of this
    file show that the chunked queue refines it.  The [Writer] class at
    the end is what the reassembler needs of its output stream. *)

From Stdlib Require Import List Lia Bool Arith.
From S2P Require Import Prelude.
Import ListNotations.

(** ** The abstract stream

    What a byte stream promises: a capacity, the closed and error flags,
    the two counters and the unread bytes as one flat buffer.  [push]
    appends what fits, [pop n] drops the first [n] unread bytes. *)
Module StreamSpec.

Record t := mk {
  cap : nat;
  closed : bool;
  error : bool;
  pushed : nat;
  popped : nat;
  buf : bytes
}.

Definition push (data : bytes) (a : t) : t :=
  if closed a then a
  else let d := firstn (cap a - length (buf a)) data in
       mk (cap a) (closed a) (error a) (pushed a + length d) (popped a) (buf a ++ d).

Definition pop (n : nat) (a : t) : t :=
  mk (cap a) (closed a) (error a) (pushed a) (popped a + n) (skipn n (buf a)).

Definition close (a : t) : t :=
  mk (cap a) true (error a) (pushed a) (popped a) (buf a).

Definition set_error (a : t) : t :=
  mk (cap a) (closed a) true (pushed a) (popped a) (buf a).

(** One call on either half of a stream. *)
Inductive op :=
| Push (data : bytes)
| Pop (n : nat)
| Close
| SetError.

(** A call of the abstract stream; popping more than is buffered is
    refused (it is undefined in the C++). *)
Definition step (o : op) (a : t) : option t :=
  match o with
  | Push d => Some (push d a)
  | Pop n => if n <=? length (buf a) then Some (pop n a) else None
  | Close => Some (close a)
  | SetError => Some (set_error a)
  end.

Fixpoint run (os : list op) (a : t) : option t :=
  match os with
  | [] => Some a
  | o :: os' => match step o a with Some a' => run os' a' | None => None end
  end.

Lemma pop_0 a : pop 0 a = a.
Proof. destruct a. unfold pop. simpl. now rewrite Nat.add_0_r. Qed.

Lemma pop_pop m n a : pop n (pop m a) = pop (m + n) a.
Proof. unfold pop. simpl. now rewrite skipn_skipn, Nat.add_assoc, (Nat.add_comm n m). Qed.

End StreamSpec.

Module ByteStream.

(** The fields of [ByteStream] (byte_stream.hh) as the .cc uses them.
    [error_] is the out-of-band error flag of the header. *)
Record t := mk {
  capacity_ : nat;
  closed_ : bool;
  error_ : bool;
  pushed_sum_ : nat;
  popped_sum_ : nat;
  buffered_sum_ : nat;
  stream_q : list bytes;
  prefix_len_ : nat
}.

(** [ByteStream::ByteStream(capacity)]. *)
Definition create (capacity : nat) : t := mk capacity false false 0 0 0 [] 0.

(** *** Writer *)

Definition is_closed (s : t) : bool := closed_ s.

Definition available_capacity (s : t) : nat := capacity_ s - buffered_sum_ s.

Definition bytes_pushed (s : t) : nat := pushed_sum_ s.

(** [Writer::push]: drop empty data, a full or a closed stream; cut the
    data to the available capacity; enqueue it as one chunk. *)
Definition push (data : bytes) (s : t) : t :=
  if (length data =? 0) || (available_capacity s =? 0) || is_closed s then s
  else
    let data := if available_capacity s <? length data
                then firstn (available_capacity s) data else data in
    mk (capacity_ s) (closed_ s) (error_ s)
       (pushed_sum_ s + length data) (popped_sum_ s)
       (buffered_sum_ s + length data)
       (stream_q s ++ [data]) (prefix_len_ s).

(** [Writer::close]. *)
Definition close (s : t) : t :=
  mk (capacity_ s) true (error_ s) (pushed_sum_ s) (popped_sum_ s)
     (buffered_sum_ s) (stream_q s) (prefix_len_ s).

(** [set_error] / [has_error] of byte_stream.hh. *)
Definition set_error (s : t) : t :=
  mk (capacity_ s) (closed_ s) true (pushed_sum_ s) (popped_sum_ s)
     (buffered_sum_ s) (stream_q s) (prefix_len_ s).

Definition has_error (s : t) : bool := error_ s.

(** *** Reader *)

Definition is_finished (s : t) : bool := closed_ s && (buffered_sum_ s =? 0).

Definition bytes_popped (s : t) : nat := popped_sum_ s.

Definition bytes_buffered (s : t) : nat := buffered_sum_ s.

(** [Reader::peek]: the unread part of the front chunk only. *)
Definition peek (s : t) : bytes :=
  match stream_q s with
  | [] => []
  | front :: _ => skipn (prefix_len_ s) front
  end.

(** The [while (len != 0)] loop of [Reader::pop]: drop whole chunks, or
    advance the prefix inside the front chunk.  On an empty queue the C++
    reads [front()] of an empty queue (undefined); that case is excluded
    by [len <= bytes_buffered], see [pop_loop_spec]. *)
Fixpoint pop_loop (len : nat) (q : list bytes) (prefix : nat) {struct q}
  : list bytes * nat :=
  match len with
  | 0 => (q, prefix)
  | S _ =>
      match q with
      | [] => (q, prefix)
      | front :: rest =>
          let size := length front - prefix in
          if len <? size then (q, prefix + len)
          else pop_loop (len - size) rest 0
      end
  end.

(** [Reader::pop]: the counters first, then the loop. *)
Definition pop (len : nat) (s : t) : t :=
  let '(q, p) := pop_loop len (stream_q s) (prefix_len_ s) in
  mk (capacity_ s) (closed_ s) (error_ s) (pushed_sum_ s)
     (popped_sum_ s + len) (buffered_sum_ s - len) q p.

(** *** Well-formedness

    Every queued chunk is non-empty ([push] refuses empty data), the
    prefix lies inside the front chunk, the counters agree with the
    queue, and the buffer respects the capacity. *)
Definition front_ok (q : list bytes) (prefix : nat) : Prop :=
  match q with
  | [] => prefix = 0
  | front :: _ => prefix < length front
  end.

Record inv (s : t) : Prop := {
  inv_chunks : Forall (fun c => c <> []) (stream_q s);
  inv_front : front_ok (stream_q s) (prefix_len_ s);
  inv_buffered : buffered_sum_ s + prefix_len_ s = total_len (stream_q s);
  inv_cap : buffered_sum_ s <= capacity_ s;
  inv_pushed : pushed_sum_ s = popped_sum_ s + buffered_sum_ s
}.

(** The bytes buffered, in order: the queue without the popped prefix. *)
Definition contents (s : t) : bytes := skipn (prefix_len_ s) (concat (stream_q s)).

#[local] Hint Unfold front_ok : minnow.

(** The pop loop consumes exactly [len] bytes of the flattened queue and
    keeps the queue well formed, when [len] does not exceed what is
    buffered. *)
Lemma pop_loop_spec len q p :
  Forall (fun c => c <> []) q -> front_ok q p -> len + p <= total_len q ->
  let '(q', p') := pop_loop len q p in
  Forall (fun c => c <> []) q' /\ front_ok q' p' /\
  total_len q' = p' + (total_len q - p - len) /\
  skipn p' (concat q') = skipn len (skipn p (concat q)).
Proof.
  revert len p. induction q as [|c rest IH]; intros len p Hne Hfr Hle.
  - rewrite total_len_nil in Hle. simpl in Hfr. subst p.
    destruct len; [|lia]. simpl. repeat split; auto.
  - inversion Hne as [|? ? Hc Hrest]; subst. simpl in Hfr.
    rewrite total_len_cons in Hle. destruct len as [|len'].
    + simpl. rewrite total_len_cons. repeat split; auto; lia.
    + cbn [pop_loop]. set (len := S len') in *.
      destruct (len <? length c - p) eqn:E; bool_prop.
      * rewrite total_len_cons. repeat split; auto; [simpl; lia | lia |].
        now rewrite skipn_skipn, Nat.add_comm.
      * assert (Hfr' : front_ok rest 0).
        { destruct rest as [|c' ?]; simpl; [reflexivity|].
          inversion Hrest; subst. destruct c'; [congruence|simpl; lia]. }
        specialize (IH (len - (length c - p)) 0 Hrest Hfr' ltac:(lia)).
        destruct (pop_loop _ rest 0) as [q' p'].
        destruct IH as (? & ? & Htot & Hsk). repeat split; auto.
        -- rewrite Htot, total_len_cons. lia.
        -- rewrite Hsk, skipn_skipn, Nat.add_0_r. simpl concat.
           rewrite skipn_skipn, skipn_app_ge by lia. f_equal. lia.
Qed.

Lemma inv_create c : inv (create c).
Proof. split; simpl; auto; lia. Qed.

Lemma contents_length s : inv s -> length (contents s) = buffered_sum_ s.
Proof.
  intros [_ _ Hb _ _]. unfold contents.
  rewrite length_skipn, length_concat_total. lia.
Qed.

(** The abstraction function: the chunked queue read as one buffer. *)
Definition absr (s : t) : StreamSpec.t :=
  StreamSpec.mk (capacity_ s) (closed_ s) (error_ s) (pushed_sum_ s) (popped_sum_ s)
    (contents s).

(** The chunk [push] enqueues: the data cut to the available capacity. *)
Lemma push_chunk s (data : bytes) :
  (if available_capacity s <? length data then firstn (available_capacity s) data else data)
  = firstn (available_capacity s) data.
Proof. case_ifs; [reflexivity|]. symmetry. apply firstn_all2. lia. Qed.

Lemma push_inv s (data : bytes) : inv s -> inv (push data s).
Proof.
  intros I. unfold push. destruct (_ || _ || _) eqn:E; [exact I|]. bool_prop.
  rewrite push_chunk.
  destruct I as [Hc Hf Hb Hcap Hp]. unfold available_capacity in *.
  assert (Hlen : length (firstn (capacity_ s - buffered_sum_ s) data) <= capacity_ s - buffered_sum_ s)
    by (rewrite length_firstn; lia).
  split; simpl.
  - apply Forall_app. split; auto. constructor; auto.
    intros Hnil. apply (f_equal (@length _)) in Hnil. rewrite length_firstn in Hnil.
    simpl in Hnil. lia.
  - destruct (stream_q s) as [|c q]; simpl in *; [|exact Hf].
    subst. rewrite length_firstn. lia.
  - rewrite total_len_app. simpl. rewrite total_len_cons, total_len_nil. lia.
  - lia.
  - lia.
Qed.

Lemma push_refines s (data : bytes) : inv s -> absr (push data s) = StreamSpec.push data (absr s).
Proof.
  intros I. pose proof (contents_length s I) as Hl.
  unfold push, StreamSpec.push, absr, is_closed; simpl. rewrite Hl.
  destruct (closed_ s) eqn:Hcl; [rewrite orb_true_r; simpl; rewrite Hcl; reflexivity|].
  rewrite orb_false_r.
  destruct ((length data =? 0) || (available_capacity s =? 0)) eqn:E.
  - assert (firstn (capacity_ s - buffered_sum_ s) data = []) as ->.
    { unfold available_capacity in *. bool_prop.
      - destruct data; [apply firstn_nil|discriminate].
      - rewrite E. reflexivity. }
    rewrite app_nil_r, Nat.add_0_r, Hcl. reflexivity.
  - rewrite push_chunk. unfold available_capacity, contents. simpl.
    rewrite concat_app. simpl. rewrite app_nil_r, skipn_app_lt; [reflexivity|].
    destruct I as [_ _ Hb _ _]. rewrite length_concat_total. lia.
Qed.

Lemma pop_inv s n : inv s -> n <= bytes_buffered s -> inv (pop n s).
Proof.
  intros [Hc Hf Hb Hcap Hp] Hn. unfold pop, bytes_buffered in *.
  pose proof (pop_loop_spec n (stream_q s) (prefix_len_ s) Hc Hf ltac:(lia)) as H.
  destruct (pop_loop _ _ _) as [q' p']. destruct H as (? & ? & Htot & _).
  split; simpl; auto; lia.
Qed.

Lemma pop_refines s n :
  inv s -> n <= bytes_buffered s -> absr (pop n s) = StreamSpec.pop n (absr s).
Proof.
  intros [Hc Hf Hb Hcap Hp] Hn. unfold pop, absr, StreamSpec.pop, contents, bytes_buffered in *.
  pose proof (pop_loop_spec n (stream_q s) (prefix_len_ s) Hc Hf ltac:(lia)) as H.
  destruct (pop_loop _ _ _) as [q' p']. destruct H as (_ & _ & _ & Hsk).
  simpl. now rewrite Hsk.
Qed.

Lemma close_inv s : inv s -> inv (close s).
Proof. intros [Hc Hf Hb Hcap Hp]. split; auto. Qed.

Lemma set_error_inv s : inv s -> inv (set_error s).
Proof. intros [Hc Hf Hb Hcap Hp]. split; auto. Qed.

#[export] Hint Resolve inv_create push_inv pop_inv close_inv set_error_inv : minnow.

(** Reading frees room in the stream and changes nothing on the writer
    side but the available capacity. *)
Lemma pop_fields s n : inv s -> n <= bytes_buffered s ->
  bytes_pushed (pop n s) = bytes_pushed s /\
  available_capacity (pop n s) = available_capacity s + n /\
  is_closed (pop n s) = is_closed s /\ has_error (pop n s) = has_error s.
Proof.
  intros [_ _ _ Hcap _] Hn. unfold pop, bytes_buffered in *.
  destruct (pop_loop _ _ _). unfold available_capacity. simpl. repeat split; lia.
Qed.

(** One call on the concrete stream, and a sequence of calls. *)
Definition step (o : StreamSpec.op) (s : t) : t :=
  match o with
  | StreamSpec.Push d => push d s
  | StreamSpec.Pop n => pop n s
  | StreamSpec.Close => close s
  | StreamSpec.SetError => set_error s
  end.

Fixpoint run (os : list StreamSpec.op) (s : t) : t :=
  match os with
  | [] => s
  | o :: os' => run os' (step o s)
  end.

Lemma step_refines o s a :
  inv s -> StreamSpec.step o (absr s) = Some a -> absr (step o s) = a /\ inv (step o s).
Proof.
  intros I Hs. pose proof (contents_length s I) as Hl.
  destruct o as [d|n| |]; simpl in Hs |- *.
  - injection Hs as <-. split; [apply push_refines|]; auto with minnow.
  - destruct (n <=? length (contents s)) eqn:E; [|discriminate]. bool_prop.
    injection Hs as <-. unfold bytes_buffered in *.
    split; [apply pop_refines|apply pop_inv]; auto; unfold bytes_buffered; lia.
  - injection Hs as <-. split; auto with minnow.
  - injection Hs as <-. split; auto with minnow.
Qed.

(** [peek] shows a prefix of the unread bytes, and a non-empty one
    whenever something is buffered. *)
Lemma peek_prefix s :
  inv s -> exists rest, contents s = peek s ++ rest.
Proof.
  intros [Hc Hf Hb Hcap Hp]. unfold contents, peek.
  destruct (stream_q s) as [|c q]; simpl in *.
  - rewrite Hf. exists []. reflexivity.
  - exists (concat q). apply skipn_app_lt. lia.
Qed.

Lemma peek_nonempty s : inv s -> 0 < bytes_buffered s -> peek s <> [].
Proof.
  intros [Hc Hf Hb Hcap Hp] Hpos. unfold peek, bytes_buffered in *.
  destruct (stream_q s) as [|c q]; simpl in *.
  - rewrite total_len_nil in Hb. lia.
  - intros Hnil. apply (f_equal (@length _)) in Hnil. rewrite length_skipn in Hnil.
    simpl in Hnil. lia.
Qed.

(** A sequence of calls that never pops more than is buffered (the
    precondition of [Reader::pop]). *)
Fixpoint legal (os : list StreamSpec.op) (s : t) : bool :=
  match os with
  | [] => true
  | StreamSpec.Pop n :: os' => (n <=? bytes_buffered s) && legal os' (pop n s)
  | o :: os' => legal os' (step o s)
  end.

Lemma capacity_step o s : capacity_ (step o s) = capacity_ s.
Proof.
  destruct o; simpl; unfold push, pop; try reflexivity.
  - destruct (_ || _ || _); reflexivity.
  - destruct (pop_loop _ _ _); reflexivity.
Qed.

Lemma capacity_run os s : capacity_ (run os s) = capacity_ s.
Proof. revert s; induction os; intros s; simpl; [|rewrite IHos, capacity_step]; reflexivity. Qed.

Lemma legal_inv os s : inv s -> legal os s = true -> inv (run os s).
Proof.
  revert s. induction os as [|o os IH]; intros s I Hl; simpl in *; auto.
  destruct o as [d|n| |]; simpl in *; bool_prop; apply IH; auto with minnow.
Qed.

End ByteStream.

(** ** Theorems of the byte stream *)

Module ByteStreamFacts.
Import ByteStream.

(** (C6) The chunked queue of byte_stream.cc implements the abstract
    stream: whenever a sequence of calls is defined on the abstract
    stream, the concrete stream run on the same calls stays well formed
    and reads back, through [absr], as the abstract result. *)
Theorem run_refines os s a :
  inv s -> StreamSpec.run os (absr s) = Some a -> absr (run os s) = a /\ inv (run os s).
Proof.
  revert s. induction os as [|o os IH]; intros s I H; simpl in *.
  - injection H as <-. auto.
  - destruct (StreamSpec.step o (absr s)) as [a'|] eqn:E; [|discriminate].
    destruct (step_refines o s a' I E) as [<- I']. now apply IH.
Qed.

(** After any legal sequence of calls on a fresh stream of capacity
    [c], [bytes_buffered = bytes_pushed - bytes_popped <= c]. *)
Theorem buffered_bounds c os :
  legal os (create c) = true ->
  bytes_buffered (run os (create c)) = bytes_pushed (run os (create c)) - bytes_popped (run os (create c))
  /\ bytes_buffered (run os (create c)) <= c.
Proof.
  intros Hl. pose proof (legal_inv os (create c) (inv_create c) Hl) as [_ _ _ Hcap Hp].
  rewrite capacity_run in Hcap. simpl in Hcap.
  unfold bytes_buffered, bytes_pushed, bytes_popped. lia.
Qed.

(** [bytes_pushed] and [bytes_popped] never decrease. *)
Theorem counters_monotone o s :
  bytes_pushed s <= bytes_pushed (step o s) /\ bytes_popped s <= bytes_popped (step o s).
Proof.
  unfold bytes_pushed, bytes_popped.
  destruct o as [d|n| |]; simpl; unfold push, pop; simpl;
    [destruct (_ || _ || _); simpl; lia | destruct (pop_loop _ _ _); simpl; lia | lia | lia].
Qed.

(** (C31) Error flag and the writer: the spec says that once the error flag
    is set, [push] becomes a no-op; [Writer::push] does not read the flag,
    so pushing into an errored stream stores exactly what it stores in
    the same stream without the error, and keeps the flag set. *)
Theorem push_ignores_error data s :
  push data (set_error s) = set_error (push data s).
Proof.
  unfold push, set_error, available_capacity, is_closed. cbn.
  destruct (_ || _ || _); reflexivity.
Qed.

(** Scenario 1 of the spec: a stream of capacity 2 keeps "ca" of "cat";
    after [pop 2], "dog" is cut to "do". *)
Example capacity_clip :
  let s1 := push (bstr "cat") (create 2) in
  contents s1 = bstr "ca" /\ bytes_pushed s1 = 2 /\
  contents (push (bstr "dog") (pop 2 s1)) = bstr "do".
Proof. vm_compute. auto. Qed.

(** Witness of [run_refines]: push "cat" into capacity 2, pop 2, push
    "dog". *)
Lemma run_refines_witness :
  let os := [StreamSpec.Push (bstr "cat"); StreamSpec.Pop 2; StreamSpec.Push (bstr "dog")] in
  inv (create 2) /\ StreamSpec.run os (absr (create 2)) = Some (absr (run os (create 2))) /\
  absr (run os (create 2)) = absr (run os (create 2)) /\ inv (run os (create 2)).
Proof.
  cbv zeta. split; [apply inv_create|]. split; [vm_compute; reflexivity|].
  apply run_refines; [apply inv_create|vm_compute; reflexivity].
Defined.

(** Witness of [buffered_bounds] on the same calls. *)
Lemma buffered_bounds_witness :
  let os := [StreamSpec.Push (bstr "cat"); StreamSpec.Pop 2; StreamSpec.Push (bstr "dog")] in
  legal os (create 2) = true /\
  bytes_buffered (run os (create 2)) = bytes_pushed (run os (create 2)) - bytes_popped (run os (create 2))
  /\ bytes_buffered (run os (create 2)) <= 2.
Proof. cbv zeta. split; [vm_compute; reflexivity|]. apply buffered_bounds. vm_compute. reflexivity. Defined.

End ByteStreamFacts.

(** ** The writer interface

    What the reassembler uses of its output stream ([output_.writer()] in
    reassembler.cc): the closed flag, the available capacity, the count of
    bytes pushed, [push] and [close], and, for the statements, the bytes
    pushed and not yet read.  [writer_ok] is the writer's well-formedness. *)
Class Writer (W : Type) := {
  writer_is_closed : W -> bool;
  writer_available_capacity : W -> nat;
  writer_bytes_pushed : W -> nat;
  writer_push : bytes -> W -> W;
  writer_close : W -> W;
  writer_buffer : W -> bytes;
  writer_ok : W -> Prop
}.

(** The part of [data] that a push accepts. *)
Definition accepted {W} `{Writer W} (data : bytes) (w : W) : bytes :=
  if writer_is_closed w then [] else firstn (writer_available_capacity w) data.

Lemma accepted_all {W} `{Writer W} (d : bytes) (w : W) :
  writer_is_closed w = false -> length d <= writer_available_capacity w -> accepted d w = d.
Proof. intros Hc Hl. unfold accepted. rewrite Hc. apply firstn_all2. exact Hl. Qed.

(** The laws of a writer: [push] appends what fits, [close] only sets
    the flag; both keep the writer well formed. *)
Class WriterLaws (W : Type) `{Writer W} := {
  push_ok : forall d w, writer_ok w -> writer_ok (writer_push d w);
  close_ok : forall w, writer_ok w -> writer_ok (writer_close w);
  push_bytes_pushed : forall d w, writer_ok w ->
    writer_bytes_pushed (writer_push d w) = writer_bytes_pushed w + length (accepted d w);
  push_available : forall d w, writer_ok w ->
    writer_available_capacity (writer_push d w) = writer_available_capacity w - length (accepted d w);
  push_is_closed : forall d w, writer_is_closed (writer_push d w) = writer_is_closed w;
  push_buffer : forall d w, writer_ok w ->
    writer_buffer (writer_push d w) = writer_buffer w ++ accepted d w;
  close_is_closed : forall w, writer_is_closed (writer_close w) = true;
  close_bytes_pushed : forall w, writer_bytes_pushed (writer_close w) = writer_bytes_pushed w;
  close_available : forall w,
    writer_available_capacity (writer_close w) = writer_available_capacity w;
  close_buffer : forall w, writer_buffer (writer_close w) = writer_buffer w
}.

#[export] Instance byte_stream_writer : Writer ByteStream.t := {
  writer_is_closed := ByteStream.is_closed;
  writer_available_capacity := ByteStream.available_capacity;
  writer_bytes_pushed := ByteStream.bytes_pushed;
  writer_push := ByteStream.push;
  writer_close := ByteStream.close;
  writer_buffer := ByteStream.contents;
  writer_ok := ByteStream.inv
}.

Section ByteStreamWriter.
Import ByteStream.

(** The abstract view of a push, field by field. *)
Lemma push_fields d s : inv s ->
  bytes_pushed (push d s) = bytes_pushed s + length (accepted d s) /\
  length (contents (push d s)) = length (contents s) + length (accepted d s) /\
  contents (push d s) = contents s ++ accepted d s.
Proof.
  intros I. pose proof (push_refines s d I) as H.
  pose proof (contents_length s I) as Hl.
  pose proof (f_equal StreamSpec.pushed H) as Hp. pose proof (f_equal StreamSpec.buf H) as Hb.
  unfold absr, StreamSpec.push in Hp, Hb. unfold accepted; simpl.
  unfold is_closed, available_capacity, bytes_pushed.
  destruct (closed_ s); simpl in Hp, Hb.
  - rewrite app_nil_r, Nat.add_0_r. rewrite Hp, Hb. auto.
  - rewrite Hl in Hb, Hp. rewrite Hp, Hb, length_app. auto.
Qed.

#[export] Instance byte_stream_writer_laws : WriterLaws ByteStream.t.
Proof.
  split; simpl.
  - intros d w. apply push_inv.
  - apply close_inv.
  - intros d w I. apply (push_fields d w I).
  - intros d w I. pose proof (push_fields d w I) as (_ & Hl & _).
    pose proof (push_inv w d I). pose proof (capacity_step (StreamSpec.Push d) w) as Hc.
    simpl in Hc. unfold available_capacity. rewrite Hc, <- !contents_length by auto. lia.
  - intros d w. unfold push, is_closed. destruct (_ || _ || _); reflexivity.
  - intros d w I. apply (push_fields d w I).
  - reflexivity.
  - reflexivity.
  - reflexivity.
  - reflexivity.
Qed.

End ByteStreamWriter.
