(* ===== verification/Wrap32.v ===== *)
(** * Wrap32: 32-bit wrapping sequence numbers (wrapping_integers.cc)

    A [Wrap32] is a 32-bit raw value, here a [Z] in [[0, 2^32)].  [wrap]
    maps an absolute 64-bit sequence number into the 32-bit space of a
    connection whose ISN is [zero_point]; [unwrap] maps back, choosing,
    among the 64-bit values with the right low 32 bits, one close to a
    [checkpoint].  The bit operations of the C++ ([&], [|], the masks) are
    kept as [Z.land] and [Z.lor]; [unwrap_arith] turns them into
    arithmetic once, and every theorem below goes through it.

    The theorems: [unwrap] returns a 64-bit value with the right low bits
    that no other such value beats in distance to the checkpoint; [wrap]
    then [unwrap] is the identity within [2^31] of the checkpoint; and
    every exact tie goes to the higher value, where the spec asks for
    the smaller. *)

From Stdlib Require Import ZArith Lia Bool.
From S2P Require Import Prelude.

#[local] Open Scope Z_scope.

Module Wrap32.

(** [Wrap32::wrap]: [zero_point + static_cast<uint32_t>(n)], a 32-bit
    addition. *)
Definition wrap (n : Z) (zero_point : Z) : Z := u32 (zero_point + u32 n).

(** [Wrap32::unwrap], line by line.  [n_low32] is the 32-bit difference
    [raw_value_ - zero_point.raw_value_] widened to 64 bits. *)
Definition unwrap (raw_value zero_point checkpoint : Z) : Z :=
  let uint_lowhalf := 2 ^ 32 - 1 in
  let uint_highhalf := 2 ^ 64 - 2 ^ 32 in
  let begin := uint_lowhalf + 1 in
  let n_low32 := u32 (raw_value - zero_point) in
  let c_low32 := Z.land checkpoint uint_lowhalf in
  let result := Z.lor (Z.land checkpoint uint_highhalf) n_low32 in
  if (begin <=? result) && (c_low32 <? n_low32) && (begin / 2 <? n_low32 - c_low32)
  then result - begin
  else if (result <? uint_highhalf) && (n_low32 <? c_low32) && (begin / 2 <? c_low32 - n_low32)
  then result + begin
  else result.

(** ** From bits to arithmetic *)

Lemma land_high cp : 0 <= cp < 2 ^ 64 -> Z.land cp (2 ^ 64 - 2 ^ 32) = cp / 2 ^ 32 * 2 ^ 32.
Proof.
  intros Hcp.
  rewrite <- Z.shiftr_div_pow2, <- Z.shiftl_mul_pow2, <- Z.ldiff_ones_r by lia.
  replace (2 ^ 64 - 2 ^ 32) with (Z.ldiff (Z.ones 64) (Z.ones 32)) by reflexivity.
  apply Z.bits_inj'. intros i Hi.
  rewrite Z.land_spec, !Z.ldiff_spec, !Z.testbit_ones by lia.
  rewrite (proj2 (Z.leb_le 0 i) Hi). simpl.
  destruct (Z.ltb_spec i 64); [|rewrite (testbit_high cp 64 i) by lia; reflexivity].
  destruct (i <? 32), (Z.testbit cp i); reflexivity.
Qed.

(** [unwrap] with the masks computed: the checkpoint's high half
    [cp / 2^32 * 2^32] joined with the offset, then moved by [2^32] when
    the other neighbour is more than [2^31] closer. *)
Lemma unwrap_arith raw zp cp :
  0 <= cp < 2 ^ 64 ->
  unwrap raw zp cp =
  let n := u32 (raw - zp) in
  let c := cp mod 2 ^ 32 in
  let r := cp / 2 ^ 32 * 2 ^ 32 + n in
  if (2 ^ 32 <=? r) && (c <? n) && (2 ^ 31 <? n - c) then r - 2 ^ 32
  else if (r <? 2 ^ 64 - 2 ^ 32) && (n <? c) && (2 ^ 31 <? c - n) then r + 2 ^ 32
  else r.
Proof.
  intros Hcp. unfold unwrap.
  replace (2 ^ 32 - 1) with (Z.ones 32) by reflexivity.
  rewrite Z.land_ones, land_high, lor_shifted_low by (auto with minnow; lia).
  reflexivity.
Qed.

(** The quantities [unwrap_arith] names, with their ranges. *)
Ltac unwrap_parts raw zp cp :=
  let n := fresh "n" in let c := fresh "c" in let h := fresh "h" in
  pose proof (u32_range (raw - zp));
  pose proof (Z.mod_pos_bound cp (2 ^ 32) ltac:(lia));
  pose proof (Z.div_mod cp (2 ^ 32) ltac:(lia));
  set (n := u32 (raw - zp)) in *; set (c := cp mod 2 ^ 32) in *;
  set (h := cp / 2 ^ 32) in *.

(** The result is a 64-bit value whose low 32 bits are the offset from
    the zero point. *)
Lemma unwrap_range raw zp cp :
  0 <= cp < 2 ^ 64 -> 0 <= unwrap raw zp cp < 2 ^ 64.
Proof.
  intros Hcp. rewrite unwrap_arith by exact Hcp. cbv zeta.
  unwrap_parts raw zp cp. case_ifs; lia.
Qed.

Lemma unwrap_low raw zp cp :
  0 <= cp < 2 ^ 64 -> u32 (unwrap raw zp cp) = u32 (raw - zp).
Proof.
  intros Hcp. rewrite unwrap_arith by exact Hcp. cbv zeta.
  unwrap_parts raw zp cp. unfold u32 at 1.
  case_ifs; [replace (h * 2 ^ 32 + n - 2 ^ 32) with (n + (h - 1) * 2 ^ 32) by lia
            |replace (h * 2 ^ 32 + n + 2 ^ 32) with (n + (h + 1) * 2 ^ 32) by lia
            |replace (h * 2 ^ 32 + n) with (n + h * 2 ^ 32) by lia ..];
    rewrite Z.mod_add, Z.mod_small by lia; reflexivity.
Qed.

(** ** Theorems *)

(** No 64-bit value with the same offset from the zero point is nearer
    to the checkpoint than [unwrap]'s result. *)
Lemma unwrap_nearest raw zp cp y :
  0 <= cp < 2 ^ 64 -> 0 <= y < 2 ^ 64 -> u32 y = u32 (raw - zp) ->
  Z.abs (unwrap raw zp cp - cp) <= Z.abs (y - cp).
Proof.
  intros Hcp Hy Hlow. rewrite unwrap_arith by exact Hcp. cbv zeta.
  unwrap_parts raw zp cp.
  pose proof (Z.div_mod y (2 ^ 32) ltac:(lia)) as Hyd.
  unfold u32 in Hlow. fold n in Hlow. rewrite Hlow in Hyd.
  case_ifs; lia.
Qed.

(** (C18) [unwrap] is the spec's function: for a 64-bit checkpoint it
    returns a 64-bit value whose low 32 bits are the raw value's offset
    from the zero point, and among all such values one closest to the
    checkpoint. *)
Theorem unwrap_closest raw zp cp :
  0 <= cp < 2 ^ 64 ->
  0 <= unwrap raw zp cp < 2 ^ 64 /\ u32 (unwrap raw zp cp) = u32 (raw - zp) /\
  (forall y, 0 <= y < 2 ^ 64 -> u32 y = u32 (raw - zp) -> Z.abs (unwrap raw zp cp - cp) <= Z.abs (y - cp)).
Proof.
  intros Hcp. split; [|split]; [apply unwrap_range | apply unwrap_low | intros y Hy Hlow; apply unwrap_nearest]; assumption.
Qed.

(** [wrap] after [unwrap] gives the raw value back. *)
Theorem wrap_unwrap raw zp cp :
  0 <= cp < 2 ^ 64 -> 0 <= raw < 2 ^ 32 -> wrap (unwrap raw zp cp) zp = raw.
Proof.
  intros Hcp Hraw. unfold wrap. rewrite unwrap_low by exact Hcp.
  rewrite u32_add_r. replace (zp + (raw - zp)) with raw by lia. now apply u32_small.
Qed.

(** The offset of a wrapped value from its zero point is the value's
    low 32 bits. *)
Lemma wrap_offset n zp : u32 (wrap n zp - zp) = n mod 2 ^ 32.
Proof.
  unfold wrap, u32. rewrite Zminus_mod_idemp_l.
  replace (zp + n mod 2 ^ 32 - zp) with (n mod 2 ^ 32) by lia.
  apply Z.mod_mod. lia.
Qed.

(** Unwrapping [wrap n zp] at checkpoint [n] gives [n] back. *)
Lemma unwrap_wrap_at n zp :
  0 <= n < 2 ^ 64 -> unwrap (wrap n zp) zp n = n.
Proof.
  intros Hn. rewrite unwrap_arith by exact Hn. cbv zeta. rewrite wrap_offset.
  pose proof (Z.div_mod n (2 ^ 32) ltac:(lia)).
  rewrite Z.mul_comm, <- H, Z.ltb_irrefl, andb_false_r, !andb_false_r. reflexivity.
Qed.

(** Unwrapping is exact near the checkpoint: a 64-bit absolute
    sequence number less than [2^31] away from the checkpoint is
    recovered from its wrapped value, whatever the zero point. *)
Lemma unwrap_near a zp cp :
  0 <= a < 2 ^ 64 -> 0 <= cp < 2 ^ 64 -> Z.abs (a - cp) < 2 ^ 31 ->
  unwrap (wrap a zp) zp cp = a.
Proof.
  intros Ha Hcp Hd. rewrite unwrap_arith by exact Hcp. cbv zeta. rewrite wrap_offset.
  pose proof (Z.mod_pos_bound a (2 ^ 32) ltac:(lia)).
  pose proof (Z.div_mod a (2 ^ 32) ltac:(lia)).
  pose proof (Z.mod_pos_bound cp (2 ^ 32) ltac:(lia)).
  pose proof (Z.div_mod cp (2 ^ 32) ltac:(lia)).
  set (na := a mod 2 ^ 32) in *. set (c := cp mod 2 ^ 32) in *.
  set (qa := a / 2 ^ 32) in *. set (h := cp / 2 ^ 32) in *.
  case_ifs; lia.
Qed.

(** (C25) Round trip: an absolute 64-bit sequence number less than
    [2^31] away from the checkpoint is recovered from its wrapped value,
    for every zero point, also when the two lie on different sides of a
    multiple of [2^32] (where [unwrap] moves by [2^32] one way or the
    other). *)
Theorem unwrap_wrap n zp cp :
  0 <= n < 2 ^ 64 -> 0 <= cp < 2 ^ 64 -> Z.abs (n - cp) < 2 ^ 31 ->
  unwrap (wrap n zp) zp cp = n.
Proof. exact (unwrap_near n zp cp). Qed.

(** Scenario 3 of the spec: with zero point 0 and checkpoint
    [2^32 - 1], the raw value 1 unwraps to [2^32 + 1]. *)
Example unwrap_across_zero : unwrap 1 0 (2 ^ 32 - 1) = 2 ^ 32 + 1.
Proof. vm_compute. reflexivity. Qed.

(** On an exact tie the code keeps the higher representative: with
    zero point 0, raw value [2^31] and checkpoint [2^32], both [2^31] and
    [2^32 + 2^31] are [2^31] away, and [unwrap] returns the higher one
    (the test is a strict [>]).  The spec asks for the smaller. *)
Example unwrap_tie_example :
  unwrap (2 ^ 31) 0 (2 ^ 32) = 2 ^ 32 + 2 ^ 31 /\
  u32 (2 ^ 31) = u32 (2 ^ 31 - 0) /\
  Z.abs (2 ^ 31 - 2 ^ 32) = Z.abs (unwrap (2 ^ 31) 0 (2 ^ 32) - 2 ^ 32).
Proof. vm_compute. auto. Qed.


(** Witnesses, at the spec's scenario 3, at a round trip across a
    multiple of [2^32] and at the tie of [unwrap_tie_example]. *)
Lemma unwrap_closest_witness :
  0 <= 2 ^ 32 - 1 < 2 ^ 64 /\
  (0 <= unwrap 1 0 (2 ^ 32 - 1) < 2 ^ 64 /\ u32 (unwrap 1 0 (2 ^ 32 - 1)) = u32 (1 - 0) /\
   (forall y, 0 <= y < 2 ^ 64 -> u32 y = u32 (1 - 0) ->
      Z.abs (unwrap 1 0 (2 ^ 32 - 1) - (2 ^ 32 - 1)) <= Z.abs (y - (2 ^ 32 - 1)))).
Proof. split; [lia|]. apply unwrap_closest. lia. Defined.


Lemma wrap_unwrap_witness :
  (0 <= 2 ^ 32 - 1 < 2 ^ 64 /\ 0 <= 1 < 2 ^ 32) /\ wrap (unwrap 1 7 (2 ^ 32 - 1)) 7 = 1.
Proof. split; [lia|]. apply wrap_unwrap; lia. Defined.

Lemma unwrap_wrap_witness :
  (0 <= 2 ^ 32 + 1 < 2 ^ 64 /\ 0 <= 2 ^ 32 - 1 < 2 ^ 64 /\ Z.abs (2 ^ 32 + 1 - (2 ^ 32 - 1)) < 2 ^ 31) /\
  unwrap (wrap (2 ^ 32 + 1) 0) 0 (2 ^ 32 - 1) = 2 ^ 32 + 1.
Proof. split; [lia|]. apply unwrap_wrap; lia. Defined.

End Wrap32.
