(* ===== verification/Reassembler.v ===== *)
(** * Reassembler: ordering substrings into the output stream (reassembler.cc)

    The C++ keeps [databuf], a [std::map<uint64_t, std::string>] from
    absolute index to a stored substring, the optional [end_pos] and the
    counter [pending_num].  Here the map is its list of entries in key
    order, an iterator into it is the key it points at ([None] for
    [end()]), and the output stream is any [Writer] of ByteStream.v: the
    section's [Context] is the interface, and the theorems below hold for
    every writer satisfying [WriterLaws].

    [split], [insert] and the flushing loop follow reassembler.cc line by
    line; [chain] is the invariant (entries ascending, non-overlapping,
    non-empty, at or after [bytes_pushed]) and [rinv] adds the capacity
    bound and the [pending_num] bookkeeping.  The theorems: [rinv] over
    every run, what one [insert] delivers ([insert_delivers]), that a
    duplicate [insert] changes nothing observable ([insert_duplicate]),
    and the end-position overrun; the lemmas on closed outputs, recorded
    ends and the window serve the receiver's composed theorems. *)

From Stdlib Require Import List Lia Bool Arith.
From S2P Require Import Prelude ByteStream.
Import ListNotations.

Section Reassembler.

Context {W : Type} `{WL : WriterLaws W}.

(** The buffered substrings, by absolute index, in key order. *)
Abbreviation databuf_t := (list (nat * bytes)).

Record Reassembler := mk {
  output_ : W;
  databuf : databuf_t;
  end_pos : option nat;
  pending_num : nat
}.

Definition create (output : W) : Reassembler := mk output [] None 0.

(** *** The ordered map *)

(** [lower_bound]: the entries with key below [pos], and the rest (the
    rest starts at the iterator [lower_bound] returns). *)
Fixpoint lb_split (pos : nat) (m : databuf_t) : databuf_t * databuf_t :=
  match m with
  | [] => ([], [])
  | (k, v) :: m' =>
      if k <? pos then let '(l, r) := lb_split pos m' in ((k, v) :: l, r)
      else ([], m)
  end.

(** The iterator at the head of a suffix of the map. *)
Definition iter_of (from : databuf_t) : option nat :=
  match from with
  | [] => None
  | (k, _) :: _ => Some k
  end.

(** [Reassembler::split]: make [position] a boundary of the stored
    substrings.  If an entry starts at [position], or no entry starts
    before it, nothing changes; if the entry just before [position]
    reaches past it, it is cut in two ([resize] and [substr]).  Returns
    the new map and the iterator at [position]'s lower bound. *)
Definition split (position : nat) (m : databuf_t) : databuf_t * option nat :=
  let '(before, from) := lb_split position m in
  if match from with (k, _) :: _ => k =? position | [] => false end
  then (m, iter_of from)
  else match rev before with
       | [] => (m, iter_of from)
       | (pk, ps) :: before_rev =>
           if position <? pk + length ps
           then (rev before_rev ++ (pk, firstn (position - pk) ps)
                   :: (position, skipn (position - pk) ps) :: from, Some position)
           else (m, iter_of from)
       end.

(** Whether a key lies in the iterator range [[lo, hi)]. *)
Definition in_range (lo hi : option nat) (k : nat) : bool :=
  match lo with
  | None => false
  | Some l => (l <=? k) && match hi with None => true | Some h => k <? h end
  end.

(** [std::map::emplace]: insert the entry unless the key is present. *)
Fixpoint emplace (k : nat) (v : bytes) (m : databuf_t) : databuf_t :=
  match m with
  | [] => [(k, v)]
  | (k', v') :: m' =>
      if k <? k' then (k, v) :: m
      else if k =? k' then m
      else (k', v') :: emplace k v m'
  end.

(** The [while (!databuf.empty())] loop of [insert]: push every entry
    that starts exactly at [bytes_pushed]. *)
Fixpoint flush (w : W) (m : databuf_t) (pending : nat) : W * databuf_t * nat :=
  match m with
  | [] => (w, m, pending)
  | (index, payload) :: m' =>
      if index =? writer_bytes_pushed w
      then flush (writer_push payload w) m' (pending - length payload)
      else (w, m, pending)
  end.

(** The final test of both branches of [insert]. *)
Definition close_if_done (e : option nat) (w : W) : W :=
  match e with
  | Some e => if e =? writer_bytes_pushed w then writer_close w else w
  | None => w
  end.

(** [Reassembler::insert], with its early returns. *)
Definition insert (first_index : nat) (data : bytes) (is_last_substring : bool)
    (r : Reassembler) : Reassembler :=
  if length data =? 0 then
    let e := match end_pos r with
             | None => if is_last_substring then Some first_index else None
             | Some e => Some e
             end in
    mk (close_if_done e (output_ r)) (databuf r) e (pending_num r)
  else if writer_is_closed (output_ r) || (writer_available_capacity (output_ r) =? 0) then r
  else
    let pushedBytes := writer_bytes_pushed (output_ r) in
    let capacityLimit := pushedBytes + writer_available_capacity (output_ r) in
    if (first_index + length data <=? pushedBytes) || (capacityLimit <=? first_index) then r
    else
      let '(data, is_last) :=
        if capacityLimit <? first_index + length data
        then (firstn (capacityLimit - first_index) data, false)
        else (data, is_last_substring) in
      let '(first_index, data) :=
        if first_index <? pushedBytes
        then (pushedBytes, skipn (pushedBytes - first_index) data)
        else (first_index, data) in
      let e := match end_pos r with
               | None => if is_last then Some (first_index + length data) else None
               | Some e => Some e
               end in
      let '(m1, upperBound) := split (first_index + length data) (databuf r) in
      let '(m2, lowerBound) := split first_index m1 in
      let erased := filter (fun kv => in_range lowerBound upperBound (fst kv)) m2 in
      let kept := filter (fun kv => negb (in_range lowerBound upperBound (fst kv))) m2 in
      let pending := pending_num r - total_len (map snd erased) + length data in
      let '(w, m3, pending) := flush (output_ r) (emplace first_index data kept) pending in
      mk (close_if_done e w) m3 e pending.

(** [Reassembler::bytes_pending]. *)
Definition bytes_pending (r : Reassembler) : nat := pending_num r.

(** ** The invariant of the stored substrings

    [chain lo m]: the entries are non-empty, in increasing key order,
    pairwise disjoint, and none starts before [lo]. *)
Fixpoint chain (lo : nat) (m : databuf_t) : Prop :=
  match m with
  | [] => True
  | (k, s) :: m' => lo <= k /\ s <> [] /\ chain (k + length s) m'
  end.

(** The end of the last entry ([lo] for the empty map). *)
Fixpoint chain_end (lo : nat) (m : databuf_t) : nat :=
  match m with
  | [] => lo
  | (k, s) :: m' => chain_end (k + length s) m'
  end.

(** Stored bytes, as [pending_num] counts them. *)
Definition stored (m : databuf_t) : nat := total_len (map snd m).

Definition keys (m : databuf_t) : list nat := map fst m.

(** Every entry that starts before [q] ends at or before [q]. *)
Definition no_straddle (q : nat) (m : databuf_t) : Prop :=
  Forall (fun e => fst e < q -> fst e + length (snd e) <= q) m.

(** Every entry ends at or before [hi]. *)
Definition below (hi : nat) (m : databuf_t) : Prop :=
  Forall (fun e => fst e + length (snd e) <= hi) m.

Lemma chain_mono lo lo' m : lo' <= lo -> chain lo m -> chain lo' m.
Proof. destruct m as [|[k s] m]; simpl; intuition lia. Qed.

Lemma chain_app lo l1 l2 :
  chain lo (l1 ++ l2) <-> chain lo l1 /\ chain (chain_end lo l1) l2.
Proof.
  revert lo. induction l1 as [|[k s] l1 IH]; intros lo; simpl; [tauto|].
  rewrite IH. tauto.
Qed.

Lemma chain_end_ge lo m : chain lo m -> lo <= chain_end lo m.
Proof.
  revert lo. induction m as [|[k s] m IH]; intros lo; simpl; [lia|].
  intros (? & ? & Hc). specialize (IH _ Hc). lia.
Qed.

(** Every key of a chain is at least [lo]; every entry ends by its end. *)
Lemma chain_bounds lo m :
  chain lo m -> Forall (fun e => lo <= fst e /\ fst e + length (snd e) <= chain_end lo m) m.
Proof.
  revert lo. induction m as [|[k s] m IH]; intros lo; simpl; [constructor|].
  intros (? & ? & Hc). pose proof (chain_end_ge _ _ Hc). constructor; [simpl; lia|].
  eapply Forall_impl; [|apply IH, Hc]. simpl. intros e He. lia.
Qed.

Lemma chain_filter lo m f : chain lo m -> chain lo (filter f m).
Proof.
  revert lo. induction m as [|[k s] m IH]; intros lo; simpl; [auto|].
  intros (? & ? & Hc). destruct (f (k, s)); simpl.
  - auto.
  - apply chain_mono with (k + length s); [lia|]. auto.
Qed.

Lemma stored_app l1 l2 : stored (l1 ++ l2) = stored l1 + stored l2.
Proof. unfold stored. rewrite map_app. apply total_len_app. Qed.

Lemma stored_filter m f :
  stored m = stored (filter f m) + stored (filter (fun e => negb (f e)) m).
Proof.
  induction m as [|[k s] m IH]; simpl; [reflexivity|].
  unfold stored in *. destruct (f (k, s)); simpl; rewrite !total_len_cons; lia.
Qed.

(** *** [lower_bound] *)

Lemma lb_split_app p m : fst (lb_split p m) ++ snd (lb_split p m) = m.
Proof.
  induction m as [|[k s] m IH]; simpl; [reflexivity|].
  destruct (k <? p); [|reflexivity]. destruct (lb_split p m). simpl in *. now rewrite IH.
Qed.

Lemma lb_split_before p m : Forall (fun e => fst e < p) (fst (lb_split p m)).
Proof.
  induction m as [|[k s] m IH]; simpl; [constructor|].
  destruct (k <? p) eqn:E; [|constructor]. bool_prop.
  destruct (lb_split p m). constructor; auto.
Qed.

Lemma lb_split_from p m :
  match snd (lb_split p m) with (k, _) :: _ => p <= k | [] => True end.
Proof.
  induction m as [|[k s] m IH]; simpl; [exact I|].
  destruct (k <? p) eqn:E; bool_prop; [destruct (lb_split p m); exact IH | simpl; lia].
Qed.

(** *** [split] *)

(** The two outcomes of [split p]: the map is unchanged and nothing
    straddles [p] already, or the entry before [p] is cut at [p]. *)
Lemma split_cases lo p m : chain lo m ->
  let '(before, from) := lb_split p m in
  (split p m = (m, iter_of from) /\ no_straddle p m) \/
  (exists init pk ps, before = init ++ [(pk, ps)] /\ pk < p < pk + length ps /\
     split p m = (init ++ (pk, firstn (p - pk) ps) :: (p, skipn (p - pk) ps) :: from, Some p)).
Proof.
  intros Hc. pose proof (lb_split_app p m) as Happ. pose proof (lb_split_before p m) as Hbef.
  pose proof (lb_split_from p m) as Hfrom. unfold split.
  destruct (lb_split p m) as [before from]. simpl in *. subst m.
  apply chain_app in Hc as [Hcb Hcf]. pose proof (chain_bounds _ _ Hcb) as Hb.
  assert (Hns : chain_end lo before <= p \/ before = [] -> no_straddle p (before ++ from)).
  { intros He. apply Forall_app. split.
    - destruct He as [He| ->]; [|constructor].
      eapply Forall_impl; [|exact Hb]. simpl. intros e ? ?. lia.
    - destruct from as [|[k s] from]; [constructor|]. simpl in Hcf.
      pose proof (chain_bounds _ _ (proj2 (proj2 Hcf))).
      constructor; [simpl; lia|]. eapply Forall_impl; [|eassumption]. simpl. intros e ? ?. lia. }
  destruct (match from with (k, _) :: _ => k =? p | [] => false end) eqn:Ehd.
  - left. split; [reflexivity|]. apply Hns.
    left. destruct from as [|[k s] from]; [discriminate|]. bool_prop. simpl in Hcf.
    destruct Hcf as [? _]. lia.
  - destruct (rev before) as [|[pk ps] before_rev] eqn:Er.
    + left. split; [reflexivity|]. apply Hns.
      right. destruct before; [reflexivity|]. simpl in Er. destruct (rev before); discriminate.
    + assert (Hbe : before = rev before_rev ++ [(pk, ps)]).
      { rewrite <- (rev_involutive before), Er. reflexivity. }
      assert (Hend : chain_end lo before = pk + length ps).
      { rewrite Hbe in Hcb |- *. clear -Hcb. revert lo Hcb.
        induction (rev before_rev) as [|[k s] l IH]; intros lo; simpl; [reflexivity|].
        intros (_ & _ & Hc). apply IH, Hc. }
      destruct (p <? pk + length ps) eqn:E; bool_prop.
      * right. exists (rev before_rev), pk, ps. split; [exact Hbe|]. split; [|reflexivity].
        rewrite Hbe in Hbef. apply Forall_app in Hbef as [_ Hl]. inversion Hl; simpl in *. lia.
      * left. split; [reflexivity|]. apply Hns. left. lia.
Qed.

(** The iterator [split] returns is [lower_bound p] of the new map. *)
Definition iter_le (it : option nat) (k : nat) : Prop :=
  match it with None => False | Some l => l <= k end.

Definition is_lower_bound (p : nat) (m : databuf_t) (it : option nat) : Prop :=
  (forall l, it = Some l -> p <= l) /\ forall k, In k (keys m) -> (p <= k <-> iter_le it k).

(** Destructure [split_cases] and substitute the map. *)
Ltac split_cases_tac lo p m Hc :=
  let Hs := fresh "Hs" in let Happ := fresh "Happ" in
  pose proof (split_cases lo p m Hc) as Hs; pose proof (lb_split_app p m) as Happ;
  pose proof (lb_split_before p m); pose proof (lb_split_from p m);
  destruct (lb_split p m) as [before from]; simpl in *;
  let Hsp := fresh "Hsp" in
  destruct Hs as [[Hsp ?] | (init & pk & ps & -> & ? & Hsp)]; rewrite Hsp in *; clear Hsp;
  simpl in *; subst m.

Lemma split_chain lo p m : chain lo m -> chain lo (fst (split p m)).
Proof.
  intros Hc. split_cases_tac lo p m Hc; [exact Hc|].
  rewrite <- app_assoc in Hc. apply chain_app in Hc as [Hi Hr]. apply chain_app.
  split; [exact Hi|]. simpl in *. destruct Hr as (? & Hne & Hc').
  apply neq_nil_length in Hne.
  refine (conj _ (conj _ (conj _ (conj _ _))));
    try (apply neq_nil_length; rewrite ?length_firstn, ?length_skipn; lia);
    try (rewrite length_firstn; lia); try lia.
  eapply chain_mono; [|exact Hc']. rewrite length_skipn. lia.
Qed.

Lemma split_stored lo p m : chain lo m -> stored (fst (split p m)) = stored m.
Proof.
  intros Hc. split_cases_tac lo p m Hc; [reflexivity|].
  rewrite <- app_assoc, !stored_app. unfold stored; simpl.
  rewrite !total_len_cons, total_len_nil, length_firstn, length_skipn. lia.
Qed.

Lemma split_cut lo p m : chain lo m -> no_straddle p (fst (split p m)).
Proof.
  intros Hc. split_cases_tac lo p m Hc; [assumption|].
  rewrite <- app_assoc in Hc. apply chain_app in Hc as [Hi Hr].
  pose proof (chain_bounds _ _ Hi) as Hbi. simpl in Hr. destruct Hr as (Hle & _ & Hc').
  pose proof (chain_bounds _ _ Hc') as Hbf.
  apply Forall_app. split.
  - eapply Forall_impl; [|exact Hbi]. simpl. intros e ? ?. lia.
  - constructor; [simpl; intros _; rewrite length_firstn; lia|]. constructor; [simpl; lia|].
    eapply Forall_impl; [|exact Hbf]. simpl. intros e ? ?. lia.
Qed.

(** Any property of entries that survives cutting an entry in two
    survives [split]. *)
Lemma split_forall (P : nat * bytes -> Prop) lo p m :
  chain lo m -> Forall P m ->
  (forall k s d, d < length s -> P (k, s) -> P (k, firstn d s) /\ P (k + d, skipn d s)) ->
  Forall P (fst (split p m)).
Proof.
  intros Hc HP Hcut. split_cases_tac lo p m Hc; [exact HP|].
  rewrite <- app_assoc in HP. apply Forall_app in HP as [Hi Hr]. inversion Hr as [|? ? Hps Hf]; subst.
  destruct (Hcut pk ps (p - pk) ltac:(lia) Hps) as [Hp1 Hp2].
  replace (pk + (p - pk)) with p in Hp2 by lia.
  apply Forall_app. split; [exact Hi|]. repeat constructor; auto.
Qed.

Lemma split_keys lo p m k :
  chain lo m -> In k (keys (fst (split p m))) -> In k (keys m) \/ k = p.
Proof.
  intros Hc Hk. split_cases_tac lo p m Hc; [auto|].
  unfold keys in *. rewrite !map_app in *. simpl in *.
  rewrite !in_app_iff in *. simpl in *. intuition.
Qed.

Lemma split_lower_bound lo p m :
  chain lo m -> is_lower_bound p (fst (split p m)) (snd (split p m)).
Proof.
  intros Hc. split_cases_tac lo p m Hc.
  - apply chain_app in Hc as [_ Hcf].
    destruct from as [|[k0 s0] from']; simpl in *.
    + split; [discriminate|]. intros k Hk. unfold keys in Hk. rewrite app_nil_r in Hk.
      apply in_map_iff in Hk as ([k' s'] & <- & Hin).
      rewrite Forall_forall in *. specialize (H0 _ Hin). simpl in *. lia.
    + split; [intros l [= <-]; lia|]. intros k Hk. unfold keys in Hk. rewrite map_app in Hk.
      destruct Hcf as (_ & _ & Hcf'). pose proof (chain_bounds _ _ Hcf') as Hbf.
      apply in_app_iff in Hk as [Hk|[<-|Hk]]; simpl.
      * apply in_map_iff in Hk as ([k' s'] & <- & Hin).
        rewrite Forall_forall in *. specialize (H0 _ Hin). simpl in *. lia.
      * lia.
      * apply in_map_iff in Hk as ([k' s'] & <- & Hin).
        rewrite Forall_forall in Hbf. specialize (Hbf _ Hin). simpl in *. lia.
  - split; [intros l [= <-]; lia|]. intros k _. simpl. lia.
Qed.

(** The erased range [[lowerBound, upperBound)] is the range of keys
    [[a, b)]. *)
Lemma in_range_iff a b m lo hi k :
  is_lower_bound a m lo -> is_lower_bound b m hi -> In k (keys m) ->
  in_range lo hi k = (a <=? k) && (k <? b).
Proof.
  intros [Hlo Hl] [Hhi Hh] Hk. specialize (Hl k Hk). specialize (Hh k Hk).
  unfold in_range, iter_le in *.
  destruct lo as [l|], hi as [h|]; destruct (Nat.leb_spec a k), (Nat.ltb_spec k b); simpl;
    try (destruct (Nat.leb_spec l k)); try (destruct (Nat.ltb_spec k h)); simpl;
    try reflexivity; try tauto; exfalso; intuition lia.
Qed.

Lemma lower_bound_split lo a b m hi :
  chain lo m -> a < b -> is_lower_bound b m hi -> is_lower_bound b (fst (split a m)) hi.
Proof.
  intros Hc Hab [Hhi Hh]. split; [exact Hhi|]. intros k Hk.
  destruct (split_keys lo a m k Hc Hk) as [Hin| ->]; [auto|].
  unfold iter_le. destruct hi as [h|]; [specialize (Hhi h eq_refl)|]; split; intros; lia.
Qed.

(** *** [emplace] *)

(** The new entry fits between its neighbours. *)
Definition fits (k : nat) (v : bytes) (m : databuf_t) : Prop :=
  Forall (fun e => (fst e < k -> fst e + length (snd e) <= k) /\
                   (k <= fst e -> k + length v <= fst e)) m.

Lemma emplace_forall (P : nat * bytes -> Prop) k v m :
  Forall P m -> P (k, v) -> Forall P (emplace k v m).
Proof.
  induction m as [|[k' v'] m IH]; simpl; intros Hm Hkv; [auto|].
  inversion Hm; subst. case_ifs; auto.
Qed.

Lemma emplace_chain lo k v m :
  chain lo m -> lo <= k -> v <> [] -> fits k v m -> chain lo (emplace k v m).
Proof.
  revert lo. induction m as [|[k' v'] m IH]; intros lo Hc Hlo Hv Hf; simpl; [auto|].
  inversion Hf as [|? ? [Hlt Hge] Hf']; subst. simpl in *.
  pose proof (proj1 (neq_nil_length v) Hv). destruct Hc as (? & ? & Hc).
  case_ifs; simpl.
  - specialize (Hge ltac:(lia)). repeat split; auto; lia.
  - specialize (Hge ltac:(lia)). lia.
  - specialize (Hlt ltac:(lia)). auto.
Qed.

Lemma emplace_stored k v m :
  0 < length v -> fits k v m -> stored (emplace k v m) = stored m + length v.
Proof.
  induction m as [|[k' v'] m IH]; intros Hv Hf; simpl;
    [unfold stored; simpl; rewrite total_len_cons, total_len_nil; lia|].
  inversion Hf as [|? ? [_ Hge] Hf']; subst. simpl in *.
  unfold stored in *. case_ifs; simpl; rewrite ?total_len_cons.
  - lia.
  - specialize (Hge ltac:(lia)). lia.
  - rewrite IH; auto. lia.
Qed.

(** *** The flushing loop *)

(** The stream position after the writer's pushes plus its room: the
    end of the window the reassembler may store in. *)
Definition window_end (w : W) : nat := writer_bytes_pushed w + writer_available_capacity w.

(** [flush] pushes a prefix [pre] of the map, whole, in order, and stops
    at the first entry that does not start at [bytes_pushed]. *)
Lemma flush_spec w m pending :
  writer_ok w -> writer_is_closed w = false ->
  chain (writer_bytes_pushed w) m -> below (window_end w) m ->
  let '(w', m', pending') := flush w m pending in
  exists pre, m = pre ++ m' /\
    writer_ok w' /\ writer_is_closed w' = false /\
    chain (writer_bytes_pushed w') m' /\ window_end w' = window_end w /\
    writer_bytes_pushed w' = writer_bytes_pushed w + stored pre /\
    writer_buffer w' = writer_buffer w ++ concat (map snd pre) /\
    pending' = pending - stored pre /\
    match m' with (k, _) :: _ => writer_bytes_pushed w' < k | [] => True end.
Proof.
  revert w pending. induction m as [|[k s] m IH]; intros w pending Hok Hcl Hc Hb; simpl.
  - exists []. unfold stored. simpl. rewrite total_len_nil.
    repeat split; auto; try (rewrite app_nil_r; reflexivity); lia.
  - destruct Hc as (Hk & Hs & Hc). inversion Hb as [|? ? Hks Hb']; subst. simpl in Hks.
    destruct (k =? writer_bytes_pushed w) eqn:E; bool_prop.
    + unfold window_end in *.
      assert (Hacc : accepted s w = s) by (apply accepted_all; auto; lia).
      pose proof (push_bytes_pushed s w Hok) as Hp. pose proof (push_available s w Hok) as Ha.
      pose proof (push_buffer s w Hok) as Hbuf. rewrite Hacc in Hp, Ha, Hbuf.
      specialize (IH (writer_push s w) (pending - length s) (push_ok s w Hok)
                    ltac:(rewrite push_is_closed; exact Hcl) ltac:(rewrite Hp; congruence)
                    ltac:(unfold window_end; rewrite Hp, Ha; replace (writer_bytes_pushed w + length s +
                           (writer_available_capacity w - length s)) with
                           (writer_bytes_pushed w + writer_available_capacity w) by lia; exact Hb')).
      destruct (flush _ m _) as [[w' m'] p'].
      destruct IH as (pre & -> & Hok' & Hcl' & Hc' & Hwe & Hp' & Hbuf' & Hpend & Hhd).
      exists ((k, s) :: pre). unfold window_end in *. unfold stored in *. simpl.
      rewrite total_len_cons. repeat split; auto.
      * rewrite Hwe, Hp, Ha. lia.
      * lia.
      * rewrite Hbuf', Hbuf, app_assoc. reflexivity.
      * rewrite Hpend. lia.
    + exists []. unfold stored; simpl. rewrite total_len_nil.
      repeat split; auto; try (rewrite app_nil_r; reflexivity); lia.
Qed.

Lemma close_if_done_fields e w :
  writer_ok w -> writer_ok (close_if_done e w) /\
  writer_bytes_pushed (close_if_done e w) = writer_bytes_pushed w /\
  writer_available_capacity (close_if_done e w) = writer_available_capacity w /\
  writer_buffer (close_if_done e w) = writer_buffer w.
Proof.
  intros Hok. unfold close_if_done. destruct e as [e|]; [|auto].
  destruct (e =? writer_bytes_pushed w); [|auto].
  rewrite close_bytes_pushed, close_available, close_buffer. auto using close_ok.
Qed.

(** ** What the stored substrings say about the stream *)

(** Whether an entry holds the byte at absolute index [k]. *)
Definition covers (e : nat * bytes) (k : nat) : bool :=
  (fst e <=? k) && (k <? fst e + length (snd e)).

(** The stored byte at absolute index [k], if any (the first entry that
    covers [k]; with [chain] there is at most one). *)
Fixpoint lookup (m : databuf_t) (k : nat) : option Byte.byte :=
  match m with
  | [] => None
  | (k', s) :: m' => if covers (k', s) k then nth_error s (k - k') else lookup m' k
  end.

Lemma lookup_app l1 l2 k :
  lookup (l1 ++ l2) k = match lookup l1 k with Some b => Some b | None => lookup l2 k end.
Proof.
  induction l1 as [|[k' s] l1 IH]; simpl; [reflexivity|].
  destruct (covers (k', s) k) eqn:E; [|exact IH].
  unfold covers in E. simpl in E. bool_prop.
  destruct (nth_error s (k - k')) eqn:En; [reflexivity|].
  apply nth_error_None in En. lia.
Qed.

Lemma lookup_none m k : Forall (fun e => covers e k = false) m -> lookup m k = None.
Proof.
  induction m as [|[k' s] m IH]; intros Hall; simpl; [reflexivity|].
  inversion Hall as [|? ? He Hm]; subst. rewrite He. auto.
Qed.

(** Dropping entries that do not hold [k] does not change [lookup k];
    dropping all that hold it leaves nothing. *)
Lemma lookup_filter_keep m f k :
  Forall (fun e => covers e k = true -> f e = true) m -> lookup (filter f m) k = lookup m k.
Proof.
  induction m as [|[k' s] m IH]; intros Hall; simpl; [reflexivity|].
  inversion Hall as [|? ? He Hm]; subst.
  destruct (covers (k', s) k) eqn:Ec.
  - rewrite (He eq_refl). simpl. rewrite Ec. reflexivity.
  - destruct (f (k', s)); simpl; [rewrite Ec|]; auto.
Qed.

Lemma lookup_filter_drop m f k :
  Forall (fun e => covers e k = true -> f e = false) m -> lookup (filter f m) k = None.
Proof.
  induction m as [|[k' s] m IH]; intros Hall; simpl; [reflexivity|].
  inversion Hall as [|? ? He Hm]; subst.
  destruct (covers (k', s) k) eqn:Ec.
  - rewrite (He eq_refl). auto.
  - destruct (f (k', s)); simpl; [rewrite Ec|]; auto.
Qed.

(** Cutting an entry in two keeps every stored byte. *)
Lemma lookup_cut pk ps p from k :
  pk < p < pk + length ps ->
  lookup ((pk, firstn (p - pk) ps) :: (p, skipn (p - pk) ps) :: from) k =
  lookup ((pk, ps) :: from) k.
Proof.
  intros Hp. simpl. unfold covers. simpl. rewrite length_firstn, length_skipn.
  destruct (Nat.leb_spec pk k), (Nat.ltb_spec k (pk + length ps)),
    (Nat.ltb_spec k (pk + min (p - pk) (length ps))), (Nat.leb_spec p k),
    (Nat.ltb_spec k (p + (length ps - (p - pk)))); simpl; try lia; try reflexivity.
  - rewrite nth_error_firstn. destruct (Nat.ltb_spec (k - pk) (p - pk)); [reflexivity|lia].
  - rewrite nth_error_skipn. f_equal. lia.
Qed.

Lemma split_lookup lo p m k : chain lo m -> lookup (fst (split p m)) k = lookup m k.
Proof.
  intros Hc. split_cases_tac lo p m Hc; [reflexivity|].
  rewrite <- app_assoc. change ([(pk, ps)] ++ from) with ((pk, ps) :: from).
  rewrite !lookup_app, lookup_cut by lia. reflexivity.
Qed.

(** Inserting an entry that fits: its bytes in its range, the old ones
    elsewhere. *)
Lemma emplace_lookup i d m k :
  0 < length d -> fits i d m ->
  lookup (emplace i d m) k =
  if (i <=? k) && (k <? i + length d) then nth_error d (k - i) else lookup m k.
Proof.
  intros Hd. induction m as [|[k' s] m IH]; intros Hf; simpl.
  - unfold covers. simpl. destruct (_ && _); reflexivity.
  - inversion Hf as [|? ? [Hlt Hge] Hf']; subst. simpl in *.
    destruct (Nat.ltb_spec i k').
    + specialize (Hge ltac:(lia)). simpl. unfold covers. simpl.
      destruct (Nat.leb_spec i k), (Nat.ltb_spec k (i + length d)); simpl; try reflexivity.
    + destruct (Nat.eqb_spec i k'); [specialize (Hge ltac:(lia)); lia|].
      specialize (Hlt ltac:(lia)). simpl. rewrite IH by exact Hf'. unfold covers. simpl.
      destruct (Nat.leb_spec k' k), (Nat.ltb_spec k (k' + length s)); simpl; try reflexivity;
      destruct (Nat.leb_spec i k); simpl; try lia; reflexivity.
Qed.

(** *** Storing one substring

    The middle of [insert]: cut the map at both ends of the new
    substring, erase what lies between, insert the substring. *)
Lemma store_spec lo hi i d m :
  chain lo m -> below hi m -> lo <= i -> 0 < length d -> i + length d <= hi ->
  let '(m1, upperBound) := split (i + length d) m in
  let '(m2, lowerBound) := split i m1 in
  let erased := filter (fun kv => in_range lowerBound upperBound (fst kv)) m2 in
  let kept := filter (fun kv => negb (in_range lowerBound upperBound (fst kv))) m2 in
  chain lo (emplace i d kept) /\ below hi (emplace i d kept) /\
  stored m = stored erased + stored kept /\ stored (emplace i d kept) = stored kept + length d /\
  (forall k, lookup (emplace i d kept) k =
             if (i <=? k) && (k <? i + length d) then nth_error d (k - i) else lookup m k).
Proof.
  intros Hc Hb Hlo Hd Hhi.
  pose proof (split_chain lo (i + length d) m Hc) as Hc1.
  pose proof (split_stored lo (i + length d) m Hc) as Hs1.
  pose proof (split_cut lo (i + length d) m Hc) as Hcut1.
  pose proof (split_lower_bound lo (i + length d) m Hc) as Hlb1.
  pose proof (split_forall _ lo (i + length d) m Hc Hb) as Hb1.
  destruct (split (i + length d) m) as [m1 hi'] eqn:E1. simpl in *.
  pose proof (split_chain lo i m1 Hc1) as Hc2.
  pose proof (split_stored lo i m1 Hc1) as Hs2.
  pose proof (split_cut lo i m1 Hc1) as Hcut2.
  pose proof (split_lower_bound lo i m1 Hc1) as Hlb2.
  pose proof (lower_bound_split lo i (i + length d) m1 hi' Hc1 ltac:(lia) Hlb1) as Hlb1'.
  pose proof (split_forall _ lo i m1 Hc1 Hcut1) as Hcut1'.
  assert (Hcl : forall q k (s : bytes) d', d' < length s -> (k < q -> k + length s <= q) ->
            (k < q -> k + length (firstn d' s) <= q) /\ (k + d' < q -> k + d' + length (skipn d' s) <= q)).
  { intros q k s d' Hd' Hq. rewrite length_firstn, length_skipn. split; intros; lia. }
  assert (Hbl : forall k (s : bytes) d', d' < length s -> k + length s <= hi ->
            k + length (firstn d' s) <= hi /\ k + d' + length (skipn d' s) <= hi).
  { intros k s d' Hd' Hq. rewrite length_firstn, length_skipn. split; lia. }
  specialize (Hb1 (fun k s d' Hd' => Hbl k s d' Hd')).
  specialize (Hcut1' (fun k s d' Hd' => Hcl (i + length d) k s d' Hd')).
  pose proof (split_forall _ lo i m1 Hc1 Hb1 (fun k s d' Hd' => Hbl k s d' Hd')) as Hb2.
  destruct (split i m1) as [m2 lo'] eqn:E2. simpl in *.
  assert (Hfits : fits i d (filter (fun kv => negb (in_range lo' hi' (fst kv))) m2)).
  { apply Forall_forall. intros [k s] Hin. apply filter_In in Hin as [Hin Hneg].
    assert (Hk : In k (keys m2)) by (apply in_map_iff; exists (k, s); auto).
    simpl in Hneg. rewrite (in_range_iff i (i + length d) m2 lo' hi' k Hlb2 Hlb1' Hk) in Hneg.
    unfold no_straddle in Hcut2. rewrite Forall_forall in Hcut2, Hcut1'. specialize (Hcut2 _ Hin). specialize (Hcut1' _ Hin).
    simpl in *. destruct (Nat.leb_spec i k), (Nat.ltb_spec k (i + length d)); simpl in Hneg;
      try discriminate; split; intros; lia. }
  assert (Hne : d <> []) by (apply neq_nil_length; exact Hd).
  split; [|split; [|split; [|split]]].
  - apply emplace_chain; auto. apply chain_filter. exact Hc2.
  - apply emplace_forall; [|simpl; lia]. unfold below in *. rewrite Forall_forall in *.
    intros e He. apply filter_In in He as [He _]. auto.
  - rewrite <- Hs1, <- Hs2. apply stored_filter.
  - apply emplace_stored; auto.
  - intros k. rewrite emplace_lookup by auto.
    destruct (Nat.leb_spec i k), (Nat.ltb_spec k (i + length d)); simpl; try reflexivity;
      rewrite <- (split_lookup lo (i + length d) m k Hc), E1; simpl;
      rewrite <- (split_lookup lo i m1 k Hc1), E2; simpl;
      apply lookup_filter_keep;
      unfold no_straddle in Hcut2; rewrite Forall_forall in *; intros [k' s] Hin Hcov;
      unfold covers in Hcov; simpl in Hcov; bool_prop;
      assert (Hk : In k' (keys m2)) by (apply in_map_iff; exists (k', s); auto);
      simpl; rewrite (in_range_iff i (i + length d) m2 lo' hi' k' Hlb2 Hlb1' Hk);
      specialize (Hcut2 _ Hin); specialize (Hcut1' _ Hin); simpl in *;
      destruct (Nat.leb_spec i k'), (Nat.ltb_spec k' (i + length d)); simpl; lia || reflexivity.
Qed.

(** ** The reassembler's invariant *)

Record rinv (r : Reassembler) : Prop := {
  rinv_ok : writer_ok (output_ r);
  rinv_chain : chain (writer_bytes_pushed (output_ r)) (databuf r);
  rinv_below : below (window_end (output_ r)) (databuf r);
  rinv_pending : pending_num r = stored (databuf r);
  rinv_gap : match databuf r with (k, _) :: _ => writer_bytes_pushed (output_ r) < k | [] => True end
}.

Lemma create_rinv w : writer_ok w -> rinv (create w).
Proof. intros Hok. split; simpl; auto. constructor. Qed.

(** The two clips of [insert] leave a non-empty substring inside the
    window [[pushedBytes, capacityLimit)]. *)
Lemma clip_spec (P L i : nat) (d : bytes) (last : bool) :
  0 < length d -> P < L -> P < i + length d -> i < L ->
  let '(d1, last1) := if L <? i + length d then (firstn (L - i) d, false) else (d, last) in
  let '(i2, d2) := if i <? P then (P, skipn (P - i) d1) else (i, d1) in
  P <= i2 /\ 0 < length d2 /\ i2 + length d2 <= L /\
  i2 + length d2 = min (i + length d) L.
Proof.
  intros Hd HPL Hi HL.
  destruct (Nat.ltb_spec L (i + length d)); destruct (Nat.ltb_spec i P); simpl;
    rewrite ?length_skipn, ?length_firstn; lia.
Qed.

(** The clipped substring holds exactly the bytes of [data] that fall in
    the window, at the same absolute indices. *)
Lemma clip_bytes (P L i : nat) (d : bytes) (last : bool) :
  0 < length d -> P < L -> P < i + length d -> i < L ->
  let '(d1, last1) := if L <? i + length d then (firstn (L - i) d, false) else (d, last) in
  let '(i2, d2) := if i <? P then (P, skipn (P - i) d1) else (i, d1) in
  forall k, P <= k ->
    ((i2 <=? k) && (k <? i2 + length d2)) = ((i <=? k) && (k <? i + length d) && (k <? L)) /\
    (i2 <= k < i2 + length d2 -> nth_error d2 (k - i2) = nth_error d (k - i)).
Proof.
  intros Hd HPL Hi HL.
  destruct (Nat.ltb_spec L (i + length d)); destruct (Nat.ltb_spec i P); simpl;
    intros k Hk; rewrite ?length_skipn, ?length_firstn;
    (split; [apply eq_iff_eq_true; rewrite !andb_true_iff, !Nat.leb_le, !Nat.ltb_lt; lia
            |intros Hk2; rewrite ?nth_error_skipn, ?nth_error_firstn]).
  - destruct (Nat.ltb_spec (P - i + (k - P)) (L - i)); [f_equal; lia | lia].
  - destruct (Nat.ltb_spec (k - i) (L - i)); [reflexivity | lia].
  - f_equal. lia.
  - reflexivity.
Qed.

Lemma lookup_below lo m k : chain lo m -> k < lo -> lookup m k = None.
Proof.
  revert lo. induction m as [|[k' s] m IH]; intros lo Hc Hk; simpl; [reflexivity|].
  destruct Hc as (? & _ & Hc). unfold covers. simpl.
  destruct (Nat.leb_spec k' k); simpl; [lia|]. apply (IH _ Hc). lia.
Qed.

(** [flush] delivers the bytes the map holds from [bytes_pushed] on, as
    far as they are contiguous, and keeps the others. *)
Lemma flush_lookup w m pending :
  writer_ok w -> writer_is_closed w = false ->
  chain (writer_bytes_pushed w) m -> below (window_end w) m ->
  let '(w', m', _) := flush w m pending in
  exists D, writer_buffer w' = writer_buffer w ++ D /\
    writer_bytes_pushed w' = writer_bytes_pushed w + length D /\
    (forall k, writer_bytes_pushed w <= k < writer_bytes_pushed w' ->
       nth_error D (k - writer_bytes_pushed w) = lookup m k) /\
    (forall k, writer_bytes_pushed w' <= k -> lookup m' k = lookup m k) /\
    lookup m' (writer_bytes_pushed w') = None.
Proof.
  revert w pending. induction m as [|[k s] m IH]; intros w pending Hok Hcl Hc Hb; simpl.
  - exists []. rewrite app_nil_r. repeat split; simpl; auto; intros; lia.
  - destruct Hc as (Hk & Hs & Hc). inversion Hb as [|? ? Hks Hb']; subst. simpl in Hks.
    destruct (Nat.eqb_spec k (writer_bytes_pushed w)) as [Ek|Ek].
    + unfold window_end in *.
      assert (Hacc : accepted s w = s) by (apply accepted_all; auto; lia).
      pose proof (push_bytes_pushed s w Hok) as Hp. pose proof (push_available s w Hok) as Ha.
      pose proof (push_buffer s w Hok) as Hbuf. rewrite Hacc in Hp, Ha, Hbuf.
      specialize (IH (writer_push s w) (pending - length s) (push_ok s w Hok)
                    ltac:(rewrite push_is_closed; exact Hcl) ltac:(rewrite Hp; congruence)
                    ltac:(unfold window_end; rewrite Hp, Ha; replace (writer_bytes_pushed w + length s +
                           (writer_available_capacity w - length s)) with
                           (writer_bytes_pushed w + writer_available_capacity w) by lia; exact Hb')).
      destruct (flush _ m _) as [[w' m'] p'].
      destruct IH as (D & HD & HpD & Hin & Hout & Hgap).
      exists (s ++ D). rewrite HD, Hbuf, app_assoc, length_app. rewrite Hp in HpD.
      repeat split; auto; [lia| |].
      * intros k' Hk'. unfold covers. simpl.
        destruct (Nat.ltb_spec (k' - writer_bytes_pushed w) (length s)).
        -- rewrite nth_error_app1 by lia. destruct (Nat.leb_spec k k'), (Nat.ltb_spec k' (k + length s));
             simpl; try lia. f_equal. lia.
        -- rewrite nth_error_app2 by lia. destruct (Nat.ltb_spec k' (k + length s)); [lia|].
           rewrite andb_false_r. rewrite <- Hin by (rewrite Hp; lia). rewrite Hp. f_equal. lia.
      * intros k' Hk'. rewrite Hout by exact Hk'. unfold covers. simpl.
        destruct (Nat.ltb_spec k' (k + length s)); [lia|]. rewrite andb_false_r. reflexivity.
    + exists []. rewrite app_nil_r. repeat split; simpl; auto; try (intros; lia).
      unfold covers. simpl. destruct (Nat.leb_spec k (writer_bytes_pushed w)); [lia|].
      apply lookup_below with (k + length s); [exact Hc | lia].
Qed.

(** The invariant survives a closing test and a flush. *)
Lemma flush_close_rinv w m pending e :
  writer_ok w -> writer_is_closed w = false ->
  chain (writer_bytes_pushed w) m -> below (window_end w) m -> pending = stored m ->
  let '(w', m', pending') := flush w m pending in
  rinv (mk (close_if_done e w') m' e pending').
Proof.
  intros Hok Hcl Hc Hb Hp. pose proof (flush_spec w m pending Hok Hcl Hc Hb) as Hf.
  destruct (flush w m pending) as [[w' m'] p'].
  destruct Hf as (pre & -> & Hok' & _ & Hc' & Hwe & _ & _ & Hpend & Hhd).
  destruct (close_if_done_fields e w' Hok') as (Hok'' & Hp'' & Ha'' & _).
  unfold below, window_end in *. rewrite Forall_app in Hb. rewrite stored_app in Hp.
  split; simpl; unfold window_end; rewrite ?Hp'', ?Ha''; auto.
  - rewrite Hwe. apply Hb.
  - lia.
Qed.

(** Unfold [insert] on a state satisfying [rinv]: three goals, for
    empty data, for the early returns, and for the stored substring,
    where [store_spec] and the clip facts are in the context. *)
Ltac insert_cases i d last r Hok Hc Hb Hp :=
  unfold insert;
  let E0 := fresh "E0" in let Eg := fresh "Eg" in let Ed := fresh "Ed" in
  destruct (length d =? 0) eqn:E0; bool_prop;
  [| destruct (writer_is_closed (output_ r) || _) eqn:Eg;
     [| apply orb_false_iff in Eg as [?Hcl ?Hav]; bool_prop;
        destruct (_ || _) eqn:Ed;
        [| bool_prop;
           let Hclip := fresh "Hclip" in
           pose proof (clip_spec (writer_bytes_pushed (output_ r))
                  (writer_bytes_pushed (output_ r) + writer_available_capacity (output_ r))
                  i d last ltac:(lia) ltac:(lia) ltac:(lia) ltac:(lia)) as Hclip;
           let Hbytes := fresh "Hbytes" in
           pose proof (clip_bytes (writer_bytes_pushed (output_ r))
                  (writer_bytes_pushed (output_ r) + writer_available_capacity (output_ r))
                  i d last ltac:(lia) ltac:(lia) ltac:(lia) ltac:(lia)) as Hbytes;
           destruct (if _ <? i + length d then _ else _) as [?d1 ?last1];
           destruct (if i <? _ then _ else _) as [?i2 ?d2];
           destruct Hclip as (?HP & ?Hd2 & ?HL & ?Hend);
           let Hst := fresh "Hst" in
           pose proof (store_spec _ _ i2 d2 (databuf r) Hc Hb HP Hd2 HL) as Hst;
           destruct (split (i2 + length d2) (databuf r)) as [?m1 ?hi];
           destruct (split i2 m1) as [?m2 ?lo];
           destruct Hst as (?Hc3 & ?Hb3 & ?Hs3 & ?Hs3' & ?Hlk)]]].

(** One call of [insert] keeps [rinv]. *)
Lemma insert_rinv i d last r : rinv r -> rinv (insert i d last r).
Proof.
  intros [Hok Hc Hb Hp Hg]. insert_cases i d last r Hok Hc Hb Hp.
  - destruct (close_if_done_fields
                (match end_pos r with None => if last then Some i else None | Some e => Some e end)
                (output_ r) Hok) as (Hok' & Hp' & Ha' & _).
    split; simpl; unfold window_end; rewrite ?Hp', ?Ha'; auto.
  - split; auto.
  - split; auto.
  - match goal with |- context [flush _ _ ?pend] =>
      pose proof (flush_close_rinv (output_ r) (emplace i2 d2
        (filter (fun kv => negb (in_range lo hi (fst kv))) m2)) pend
        (match end_pos r with None => if last1 then Some (i2 + length d2) else None
                         | Some e => Some e end) Hok Hcl Hc3 Hb3 ltac:(unfold stored in *; lia)) as Hfc end.
    destruct (flush _ _ _) as [[w' m'] p']. exact Hfc.
Qed.

(** A sequence of [insert] calls, first to last. *)
Fixpoint insert_all (segs : list (nat * bytes * bool)) (r : Reassembler) : Reassembler :=
  match segs with
  | [] => r
  | (i, d, last) :: segs' => insert_all segs' (insert i d last r)
  end.

(** (C1) From a fresh reassembler on a well-formed writer, every sequence
    of [insert] calls keeps the stored substrings ordered, disjoint,
    non-empty, at or after [bytes_pushed], inside the window
    [bytes_pushed + available_capacity], and [pending_num] equal to the
    number of stored bytes. *)
Theorem insert_all_rinv segs (w : W) : writer_ok w -> rinv (insert_all segs (create w)).
Proof.
  intros Hok. generalize (create_rinv w Hok). generalize (create w).
  induction segs as [|[[i d] last] segs IH]; intros r I; simpl; auto using insert_rinv.
Qed.

(** What [insert] does to the output and to [end_pos]: a recorded end
    is kept, and the output is either untouched or the result of some
    pushes (which keep it open and only move [bytes_pushed] forward)
    followed by the closing test. *)
Lemma insert_result i d last r : rinv r ->
  let r' := insert i d last r in
  (forall e, end_pos r = Some e -> end_pos r' = Some e) /\
  (output_ r' = output_ r \/
   exists w', writer_bytes_pushed (output_ r) <= writer_bytes_pushed w' /\
     writer_is_closed w' = writer_is_closed (output_ r) /\
     output_ r' = close_if_done (end_pos r') w').
Proof.
  intros [Hok Hc Hb Hp Hg]. insert_cases i d last r Hok Hc Hb Hp.
  - split; [intros e ->; reflexivity|]. right. exists (output_ r). auto.
  - split; auto.
  - split; auto.
  - pose proof (flush_spec (output_ r) (emplace i2 d2
        (filter (fun kv => negb (in_range lo hi (fst kv))) m2))
        (pending_num r - total_len (map snd (filter (fun kv => in_range lo hi (fst kv)) m2))
         + length d2) Hok Hcl Hc3 Hb3) as Hf.
    destruct (flush _ _ _) as [[w' m'] p'].
    destruct Hf as (pre & _ & _ & Hcl' & _ & _ & Hpush & _).
    split; [intros e ->; reflexivity|]. right. exists w'. simpl. split; [lia|]. split; congruence.
Qed.

(** (C26) Once [end_pos] lies behind [bytes_pushed] the output is never
    closed again: [close_if_done] only closes on equality, [end_pos] is
    never reset, and [bytes_pushed] only grows. *)
Theorem end_pos_overrun_never_closes i d last r e :
  rinv r -> end_pos r = Some e -> e < writer_bytes_pushed (output_ r) ->
  writer_is_closed (output_ r) = false ->
  let r' := insert i d last r in
  end_pos r' = Some e /\ e < writer_bytes_pushed (output_ r') /\
  writer_is_closed (output_ r') = false.
Proof.
  intros I He Hlt Hcl. destruct (insert_result i d last r I) as [Hend [Hout|(w' & Hp & Hc & Hout)]];
    simpl; rewrite (Hend e He) in *; [rewrite Hout; auto|].
  rewrite Hout. simpl. destruct (Nat.eqb_spec e (writer_bytes_pushed w')); [lia|].
  split; [reflexivity|]. split; congruence || lia.
Qed.


(** ** Functional correctness of [insert] *)

(** The stream after the call, as the spec describes it: the bytes of
    [data] that fall in the window [[bytes_pushed, bytes_pushed +
    available_capacity)] at their absolute indices, over the bytes
    already stored (new bytes override stored ones). *)
Definition merged (r : Reassembler) (i : nat) (d : bytes) (k : nat) : option Byte.byte :=
  if (i <=? k) && (k <? i + length d) && (k <? window_end (output_ r))
  then nth_error d (k - i) else lookup (databuf r) k.

Lemma rinv_gap_lookup r : rinv r -> lookup (databuf r) (writer_bytes_pushed (output_ r)) = None.
Proof.
  intros [_ Hc _ _ Hg]. destruct (databuf r) as [|[k s] m]; [reflexivity|].
  simpl in *. destruct Hc as (_ & _ & Hc). unfold covers. simpl.
  destruct (Nat.leb_spec k (writer_bytes_pushed (output_ r))); [lia|].
  apply lookup_below with (k + length s); [exact Hc|lia].
Qed.

(** A call that delivers nothing: when no byte of [d] falls in the
    window past [bytes_pushed], and the call leaves the output's buffer,
    its count and the stored substrings as they were, the merged stream
    past [bytes_pushed] is what is stored, and the gap at
    [bytes_pushed] stays. *)
Lemma delivers_nothing r w' m' i d :
  lookup (databuf r) (writer_bytes_pushed (output_ r)) = None ->
  (forall k, writer_bytes_pushed (output_ r) <= k ->
     (i <=? k) && (k <? i + length d) &&
     (k <? writer_bytes_pushed (output_ r) + writer_available_capacity (output_ r)) = false) ->
  writer_buffer w' = writer_buffer (output_ r) ->
  writer_bytes_pushed w' = writer_bytes_pushed (output_ r) -> m' = databuf r ->
  let P := writer_bytes_pushed (output_ r) in
  exists delivered,
    writer_buffer w' = writer_buffer (output_ r) ++ delivered /\
    writer_bytes_pushed w' = P + length delivered /\
    (forall k, P <= k < P + length delivered -> nth_error delivered (k - P) = merged r i d k) /\
    (forall k, P + length delivered <= k -> lookup m' k = merged r i d k) /\
    merged r i d (P + length delivered) = None.
Proof.
  intros Hgap Hout Hbuf Hpush ->. cbv zeta. unfold merged, window_end.
  exists []. rewrite Hbuf, Hpush, app_nil_r, Nat.add_0_r.
  repeat split; try (intros; lia).
  - intros k Hk. rewrite Hout by exact Hk. reflexivity.
  - rewrite Hout by lia. exact Hgap.
Qed.


(** The delivery of [insert], in the form the later lemmas use. *)
Lemma insert_spec i d last r :
  rinv r -> writer_is_closed (output_ r) = false ->
  let P := writer_bytes_pushed (output_ r) in
  let r' := insert i d last r in
  exists delivered,
    writer_buffer (output_ r') = writer_buffer (output_ r) ++ delivered /\
    writer_bytes_pushed (output_ r') = P + length delivered /\
    (forall k, P <= k < P + length delivered -> nth_error delivered (k - P) = merged r i d k) /\
    (forall k, P + length delivered <= k -> lookup (databuf r') k = merged r i d k) /\
    merged r i d (P + length delivered) = None.
Proof.
  intros I Hclosed. pose proof (rinv_gap_lookup r I) as Hgap.
  destruct I as [Hok Hc Hb Hp Hg]. cbv zeta. unfold merged, window_end.
  insert_cases i d last r Hok Hc Hb Hp.
  - destruct (close_if_done_fields
                (match end_pos r with None => if last then Some i else None | Some e => Some e end)
                (output_ r) Hok) as (_ & Hp' & _ & Hbuf').
    apply (delivers_nothing r _ _ i d Hgap); auto.
    intros k Hk. apply not_true_iff_false. rewrite !andb_true_iff, !Nat.leb_le, !Nat.ltb_lt. lia.
  - apply (delivers_nothing r _ _ i d Hgap); auto. bool_prop; [congruence|].
    intros k Hk. apply not_true_iff_false. rewrite !andb_true_iff, !Nat.leb_le, !Nat.ltb_lt. lia.
  - apply (delivers_nothing r _ _ i d Hgap); auto.
    intros k Hk. apply not_true_iff_false. rewrite !andb_true_iff, !Nat.leb_le, !Nat.ltb_lt.
    apply orb_true_iff in Ed as [Ed|Ed]; bool_prop; lia.
  - set (P := writer_bytes_pushed (output_ r)) in *.
    set (L := P + writer_available_capacity (output_ r)) in *.
    set (em := emplace i2 d2 (filter (fun kv => negb (in_range lo hi (fst kv))) m2)) in *.
    assert (Hmerge : forall k, P <= k -> lookup em k =
      if (i <=? k) && (k <? i + length d) && (k <? L) then nth_error d (k - i) else lookup (databuf r) k).
    { intros k Hk. rewrite Hlk. destruct (Hbytes k Hk) as [Heq Hnth]. rewrite Heq.
      destruct ((i <=? k) && (k <? i + length d) && (k <? L)) eqn:Ein; [|reflexivity].
      apply Hnth. rewrite <- Heq in Ein. bool_prop. lia. }
    set (pend := pending_num r - total_len (map snd (filter (fun kv => in_range lo hi (fst kv)) m2))
         + length d2) in *.
    pose proof (flush_lookup (output_ r) em pend Hok Hcl Hc3 Hb3) as Hf.
    pose proof (flush_spec (output_ r) em pend Hok Hcl Hc3 Hb3) as Hf'.
    destruct (flush _ _ _) as [[w' m'] p'].
    destruct Hf as (D & HD & HpD & Hin & Hrest & Hnone).
    destruct Hf' as (pre & _ & Hok' & _).
    destruct (close_if_done_fields
                (match end_pos r with None => if last1 then Some (i2 + length d2) else None
                                 | Some e => Some e end) w' Hok') as (_ & Hp' & _ & Hbuf').
    change (writer_bytes_pushed (output_ r)) with P in HpD, Hin.
    exists D. simpl. rewrite Hbuf', Hp', HD, <- HpD.
    repeat split; auto.
    + intros k Hk. rewrite Hin by exact Hk. apply Hmerge. lia.
    + intros k Hk. rewrite Hrest by exact Hk. apply Hmerge. lia.
    + rewrite <- Hmerge by lia. rewrite <- Hrest by lia. exact Hnone.
Qed.

(** (C2) [insert] delivers exactly the merged stream: the bytes it
    appends to the output are the merged bytes from [bytes_pushed] on,
    in order and each once; it stops at the first index the merged
    stream does not know; and the map keeps every merged byte past that
    point.  Nothing is lost, duplicated or reordered. *)
Theorem insert_delivers i d last r :
  rinv r -> writer_is_closed (output_ r) = false ->
  let P := writer_bytes_pushed (output_ r) in
  let r' := insert i d last r in
  exists delivered,
    writer_buffer (output_ r') = writer_buffer (output_ r) ++ delivered /\
    writer_bytes_pushed (output_ r') = P + length delivered /\
    (forall k, P <= k < P + length delivered -> nth_error delivered (k - P) = merged r i d k) /\
    (forall k, P + length delivered <= k -> lookup (databuf r') k = merged r i d k) /\
    merged r i d (P + length delivered) = None.
Proof. intros I Hcl. exact (insert_spec i d last r I Hcl). Qed.


Lemma merged_data r i d k :
  i <= k < i + length d -> k < window_end (output_ r) -> merged r i d k = nth_error d (k - i).
Proof.
  intros Hk Hw. unfold merged.
  destruct (Nat.leb_spec i k), (Nat.ltb_spec k (i + length d)), (Nat.ltb_spec k (window_end (output_ r)));
    simpl; reflexivity || lia.
Qed.

(** A substring that starts exactly at [bytes_pushed] and fits in the
    window is appended to the output whole, followed by whatever stored
    bytes it makes contiguous. *)
Lemma insert_at_pushed d last r :
  rinv r -> writer_is_closed (output_ r) = false ->
  length d <= writer_available_capacity (output_ r) ->
  exists extra,
    writer_buffer (output_ (insert (writer_bytes_pushed (output_ r)) d last r)) =
    writer_buffer (output_ r) ++ d ++ extra.
Proof.
  intros I Hcl Hav. set (P := writer_bytes_pushed (output_ r)).
  destruct (insert_spec P d last r I Hcl) as (D & Hbuf & _ & Hnth & _ & Hend).
  assert (Hdat : forall j, j < length d -> merged r P d (P + j) = nth_error d j).
  { intros j Hj. rewrite merged_data; unfold window_end; fold P; [f_equal; lia | lia | lia]. }
  assert (Hlen : length d <= length D).
  { destruct (Nat.le_gt_cases (length d) (length D)) as [|Hlt]; [assumption|].
    rewrite Hdat in Hend by exact Hlt. apply nth_error_None in Hend. lia. }
  exists (skipn (length d) D). rewrite Hbuf. f_equal. apply prefix_nth; [exact Hlen|].
  intros j Hj. rewrite <- Hdat by exact Hj. replace j with (P + j - P) at 1 by lia.
  apply Hnth. lia.
Qed.

(** In-order arrival: a substring at [bytes_pushed] that fits in the
    window, into a reassembler with nothing stored and no end recorded,
    is pushed whole; the output is closed when it is the last one, and
    nothing stays stored. *)
Lemma insert_in_order (d : bytes) (last : bool) r :
  databuf r = [] -> end_pos r = None -> writer_is_closed (output_ r) = false ->
  length d <= writer_available_capacity (output_ r) ->
  let P := writer_bytes_pushed (output_ r) in
  let e := if last then Some (P + length d) else None in
  insert P d last r =
  mk (close_if_done e (if length d =? 0 then output_ r else writer_push d (output_ r))) [] e
     (pending_num r).
Proof.
  intros Hdb He Hcl Hav. cbv zeta. unfold insert. rewrite He, Hdb.
  destruct (Nat.eqb_spec (length d) 0) as [H0|H0].
  - rewrite H0, Nat.add_0_r. reflexivity.
  - rewrite Hcl. cbn [orb].
    destruct (Nat.eqb_spec (writer_available_capacity (output_ r)) 0); [lia|].
    set (P := writer_bytes_pushed (output_ r)).
    destruct (Nat.leb_spec (P + length d) P); [lia|].
    destruct (Nat.leb_spec (P + writer_available_capacity (output_ r)) P); [lia|]. cbn [orb].
    destruct (Nat.ltb_spec (P + writer_available_capacity (output_ r)) (P + length d)); [lia|].
    rewrite Nat.ltb_irrefl. cbn. rewrite Nat.eqb_refl. cbn.
    f_equal. lia.
Qed.

(** ** What [insert] does to a closed output, to [end_pos], and to
    properties every push and close keeps *)

(** On a closed output whose recorded end is [bytes_pushed] (how a
    stream is closed by [insert]), [insert] changes nothing that matters:
    data is refused by the early return and an empty last substring only
    closes the output again. *)
Lemma insert_closed i d last r :
  writer_is_closed (output_ r) = true -> end_pos r = Some (writer_bytes_pushed (output_ r)) ->
  let r' := insert i d last r in
  writer_is_closed (output_ r') = true /\
  writer_bytes_pushed (output_ r') = writer_bytes_pushed (output_ r) /\
  writer_buffer (output_ r') = writer_buffer (output_ r) /\
  databuf r' = databuf r /\ end_pos r' = end_pos r.
Proof.
  intros Hc He. cbv zeta. unfold insert. destruct (length d =? 0).
  - rewrite He. cbn [close_if_done output_ databuf end_pos]. rewrite Nat.eqb_refl.
    rewrite close_is_closed, close_bytes_pushed, close_buffer. auto.
  - rewrite Hc. cbn [orb]. auto.
Qed.

(** [close_if_done] closes an open output only at the recorded end. *)
Lemma close_if_done_closes e w :
  writer_is_closed w = false -> writer_is_closed (close_if_done e w) = true ->
  e = Some (writer_bytes_pushed (close_if_done e w)).
Proof.
  unfold close_if_done. intros Hw. destruct e as [e|]; [|congruence].
  destruct (Nat.eqb_spec e (writer_bytes_pushed w)); [|congruence].
  rewrite close_bytes_pushed. congruence.
Qed.

(** An output that [insert] closes is closed at the recorded end. *)
Lemma insert_closes_at_end i d last r :
  rinv r -> writer_is_closed (output_ r) = false ->
  writer_is_closed (output_ (insert i d last r)) = true ->
  end_pos (insert i d last r) = Some (writer_bytes_pushed (output_ (insert i d last r))).
Proof.
  intros I Hc Hc'. destruct (insert_result i d last r I) as [_ [Hout|(w' & _ & Hw' & Hout)]];
    cbv zeta in *; rewrite Hout in *; [congruence|]. apply close_if_done_closes; congruence.
Qed.

(** The end [insert] records is the one it had, or the end of a last
    substring: the capacity clip drops the flag rather than move the
    end, and the clip on the left keeps it. *)
Lemma insert_end_pos i d last r e :
  end_pos (insert i d last r) = Some e -> end_pos r = Some e \/ (last = true /\ e = i + length d).
Proof.
  unfold insert. cbv zeta.
  destruct (Nat.eqb_spec (length d) 0) as [H0|H0].
  - cbn [end_pos]. destruct (end_pos r) as [e'|]; [auto|].
    destruct last; intros He; [right|discriminate]. injection He as <-. split; [reflexivity|lia].
  - destruct (_ || (_ =? 0)); [auto|].
    destruct ((i + length d <=? _) || _) eqn:Eg; [auto|].
    apply orb_false_iff in Eg as [E1 _]. apply Nat.leb_gt in E1.
    destruct (Nat.ltb_spec (writer_bytes_pushed (output_ r) + writer_available_capacity (output_ r))
                (i + length d));
      destruct (Nat.ltb_spec i (writer_bytes_pushed (output_ r)));
      destruct (split _ (databuf r)) as [m1 hi]; destruct (split _ m1) as [m2 lo];
      destruct (flush _ _ _) as [[w m3] p]; cbn [end_pos];
      destruct (end_pos r) as [e'|]; auto; try destruct last; intros He; try discriminate;
      injection He as <-; right; rewrite ?length_skipn; split; reflexivity || lia.
Qed.

Section Preserved.

(** A property of the output that every push and every close keeps. *)
Variable Pw : W -> Prop.
Hypothesis Pw_push : forall d w, Pw w -> Pw (writer_push d w).
Hypothesis Pw_close : forall w, Pw w -> Pw (writer_close w).

Lemma flush_preserved w m p : Pw w -> Pw (fst (fst (flush w m p))).
Proof.
  revert w p. induction m as [|[k v] m IH]; intros w p Hw; cbn [flush]; [exact Hw|].
  destruct (k =? writer_bytes_pushed w); [apply IH, Pw_push, Hw | exact Hw].
Qed.

Lemma close_if_done_preserved e w : Pw w -> Pw (close_if_done e w).
Proof. intros Hw. unfold close_if_done. destruct e as [e|]; [destruct (_ =? _)|]; auto. Qed.

(** [insert] only pushes to and closes its output. *)
Lemma insert_preserved i d last r : Pw (output_ r) -> Pw (output_ (insert i d last r)).
Proof.
  intros Hw. unfold insert. cbv zeta.
  destruct (length d =? 0); [apply close_if_done_preserved, Hw|].
  destruct (_ || (_ =? 0)); [exact Hw|]. destruct ((i + length d <=? _) || _); [exact Hw|].
  destruct (if _ <? i + length d then _ else _) as [d1 l1].
  destruct (if i <? _ then _ else _) as [i2 d2].
  destruct (split _ (databuf r)) as [m1 hi]. destruct (split _ m1) as [m2 lo].
  match goal with |- context [flush ?w ?m ?p] =>
    pose proof (flush_preserved w m p Hw) as Hf; destruct (flush w m p) as [[w' m'] p'] end.
  apply close_if_done_preserved, Hf.
Qed.

End Preserved.

(** [insert] only pushes and closes, so it keeps the end of the window
    [bytes_pushed + available_capacity]. *)
Lemma insert_window_end i d last r :
  writer_ok (output_ r) -> window_end (output_ (insert i d last r)) = window_end (output_ r).
Proof.
  intros Hok. refine (proj2 (insert_preserved (fun w => writer_ok w /\ window_end w = window_end (output_ r))
                        _ _ i d last r (conj Hok eq_refl))).
  - intros d' w [Hw Hwe]. split; [apply push_ok, Hw|]. rewrite <- Hwe. unfold window_end.
    rewrite push_bytes_pushed, push_available by exact Hw. unfold accepted.
    destruct (writer_is_closed w); cbn [length]; [lia|]. rewrite length_firstn. lia.
  - intros w [Hw Hwe]. split; [apply close_ok, Hw|]. rewrite <- Hwe. unfold window_end.
    now rewrite close_bytes_pushed, close_available.
Qed.

(** The closing test closes the output when the end is at
    [bytes_pushed]. *)
Lemma close_if_done_at e w :
  e = Some (writer_bytes_pushed (close_if_done e w)) -> writer_is_closed (close_if_done e w) = true.
Proof.
  unfold close_if_done. destruct e as [e|]; [|discriminate].
  destruct (Nat.eqb_spec e (writer_bytes_pushed w)) as [E|E]; [intros _; apply close_is_closed|].
  intros He. injection He as He. contradiction.
Qed.

(** A call either returns the reassembler as it was, or ends with the
    closing test, so that an end recorded at [bytes_pushed] has closed
    the output. *)
Lemma insert_fixed_or_closes i d last r :
  let r1 := insert i d last r in
  r1 = r \/ (end_pos r1 = Some (writer_bytes_pushed (output_ r1)) -> writer_is_closed (output_ r1) = true).
Proof.
  cbv zeta. unfold insert. cbv zeta.
  destruct (length d =? 0); [right; apply close_if_done_at|].
  destruct (_ || (_ =? 0)); [now left|]. destruct ((i + length d <=? _) || _); [now left|].
  right. destruct (if _ <? i + length d then _ else _) as [d1 l1].
  destruct (if i <? _ then _ else _) as [i2 d2].
  destruct (split _ (databuf r)) as [m1 hi]. destruct (split _ m1) as [m2 lo].
  destruct (flush _ _ _) as [[w m3] p]. apply close_if_done_at.
Qed.

(** An [insert] that records no end while none was recorded had no last
    substring to take, or one it dropped: empty data always records its
    end, and so does a non-empty last substring that reaches past
    [bytes_pushed] and fits in the window of an open output. *)
Lemma insert_sets_end i d r :
  end_pos r = None -> writer_is_closed (output_ r) = false ->
  (length d = 0 \/
   (writer_bytes_pushed (output_ r) < i + length d /\
    i + length d <= writer_bytes_pushed (output_ r) + writer_available_capacity (output_ r) /\
    0 < writer_available_capacity (output_ r))) ->
  end_pos (insert i d true r) <> None.
Proof.
  intros He Hc Hcase. unfold insert. cbv zeta. rewrite He.
  destruct (Nat.eqb_spec (length d) 0) as [H0|H0]; [discriminate|].
  destruct Hcase as [|(H1 & H2 & H3)]; [lia|]. rewrite Hc. cbn [orb].
  destruct (Nat.eqb_spec (writer_available_capacity (output_ r)) 0); [lia|].
  destruct (Nat.leb_spec (i + length d) (writer_bytes_pushed (output_ r))); [lia|].
  destruct (Nat.leb_spec (writer_bytes_pushed (output_ r) + writer_available_capacity (output_ r)) i); [lia|].
  cbn [orb]. destruct (Nat.ltb_spec (writer_bytes_pushed (output_ r) + writer_available_capacity (output_ r))
                        (i + length d)); [lia|].
  destruct (if i <? _ then _ else _) as [i2 d2].
  destruct (split _ (databuf r)) as [m1 hi]. destruct (split _ m1) as [m2 lo].
  destruct (flush _ _ _) as [[w m3] p]. discriminate.
Qed.

(** Conversely, an [insert] records an end where none was only with a
    last substring, empty or inside the window past [bytes_pushed]. *)
Lemma insert_end_cond i d last r e :
  end_pos r = None -> end_pos (insert i d last r) = Some e ->
  last = true /\
  (length d = 0 \/
   (writer_is_closed (output_ r) = false /\ writer_bytes_pushed (output_ r) < i + length d /\
    i + length d <= writer_bytes_pushed (output_ r) + writer_available_capacity (output_ r) /\
    0 < writer_available_capacity (output_ r))).
Proof.
  intros He. unfold insert. cbv zeta. rewrite He.
  destruct (Nat.eqb_spec (length d) 0) as [H0|H0].
  - cbn [end_pos]. destruct last; [auto|discriminate].
  - destruct (writer_is_closed (output_ r)) eqn:Hc; cbn [orb]; [congruence|].
    destruct (Nat.eqb_spec (writer_available_capacity (output_ r)) 0); cbn [orb]; [congruence|].
    destruct ((i + length d <=? _) || _) eqn:Eg; [congruence|].
    apply orb_false_iff in Eg as [E1 _]. apply Nat.leb_gt in E1.
    destruct (Nat.ltb_spec (writer_bytes_pushed (output_ r) + writer_available_capacity (output_ r))
                (i + length d));
      destruct (if i <? _ then _ else _) as [i2 d2];
      destruct (split _ (databuf r)) as [m1 hi]; destruct (split _ m1) as [m2 lo];
      destruct (flush _ _ _) as [[w m3] p]; cbn [end_pos];
      [discriminate|destruct last; [intros _; split; [reflexivity|right; split_conj; auto; lia]|discriminate]].
Qed.


(** ** A duplicate substring changes nothing *)

(** Past the new [bytes_pushed], the merged stream of the same substring
    is the same before and after its first [insert]. *)
Lemma merged_after i d last r :
  rinv r -> writer_is_closed (output_ r) = false ->
  let r1 := insert i d last r in
  forall k, writer_bytes_pushed (output_ r1) <= k -> merged r1 i d k = merged r i d k.
Proof.
  intros I Hcl r1 k Hk. destruct (insert_spec i d last r I Hcl) as (D & _ & Hp & _ & Hlk & _).
  unfold merged at 1. subst r1. rewrite (insert_window_end i d last r (rinv_ok _ I)).
  destruct (_ && _ && _) eqn:E; [unfold merged; now rewrite E|]. apply Hlk. lia.
Qed.

(** The second [insert] of a substring delivers nothing and stores
    nothing new. *)
Lemma insert_again i d last r :
  rinv r -> writer_is_closed (output_ r) = false ->
  let r1 := insert i d last r in let r2 := insert i d last r1 in
  writer_is_closed (output_ r1) = false ->
  writer_buffer (output_ r2) = writer_buffer (output_ r1) /\
  writer_bytes_pushed (output_ r2) = writer_bytes_pushed (output_ r1) /\
  (forall k, lookup (databuf r2) k = lookup (databuf r1) k).
Proof.
  intros I Hcl. cbv zeta. intros Hcl1. pose proof (insert_rinv i d last r I) as I1.
  pose proof (insert_rinv i d last _ I1) as I2.
  destruct (insert_spec i d last r I Hcl) as (D1 & _ & Hp1 & _ & Hlk1 & Hnone1).
  destruct (insert_spec i d last _ I1 Hcl1) as (D2 & Hb2 & Hp2 & Hnth2 & Hlk2 & _).
  pose proof (merged_after i d last r I Hcl) as Hm. cbv zeta in Hm.
  set (r1 := insert i d last r) in *. set (r2 := insert i d last r1) in *.
  assert (HD : D2 = []).
  { destruct D2 as [|x D2]; [reflexivity|]. exfalso.
    specialize (Hnth2 (writer_bytes_pushed (output_ r1)) ltac:(cbn [length]; lia)).
    rewrite Nat.sub_diag, Hm, Hp1, Hnone1 in Hnth2 by lia. discriminate. }
  subst D2. cbn [length] in Hlk2. rewrite Hb2, app_nil_r, Hp2, Nat.add_0_r.
  split_conj; [reflexivity|reflexivity|].
  intros k. destruct (Nat.le_gt_cases (writer_bytes_pushed (output_ r1)) k) as [Hk|Hk].
  - rewrite Hlk2, Hm, <- Hlk1 by lia. reflexivity.
  - rewrite (lookup_below _ _ k (rinv_chain _ I1)) by lia.
    rewrite (lookup_below _ _ k (rinv_chain _ I2)); [reflexivity|]. lia.
Qed.

(** (C5) A duplicate substring changes nothing: inserting the same
    substring a second time into an open reassembler leaves the output's
    buffer, its [bytes_pushed], its closedness, the recorded end and
    every stored byte as the first [insert] left them.  Retransmitted
    and duplicated segments are harmless. *)
Theorem insert_duplicate i d last r :
  rinv r -> writer_is_closed (output_ r) = false ->
  let r1 := insert i d last r in let r2 := insert i d last r1 in
  writer_buffer (output_ r2) = writer_buffer (output_ r1) /\
  writer_bytes_pushed (output_ r2) = writer_bytes_pushed (output_ r1) /\
  writer_is_closed (output_ r2) = writer_is_closed (output_ r1) /\
  end_pos r2 = end_pos r1 /\
  (forall k, lookup (databuf r2) k = lookup (databuf r1) k).
Proof.
  intros I Hcl. cbv zeta. pose proof (insert_rinv i d last r I) as I1.
  destruct (insert_fixed_or_closes i d last r) as [Hfix|Hend1]; cbv zeta in *.
  { rewrite !Hfix. auto. }
  destruct (writer_is_closed (output_ (insert i d last r))) eqn:Hcl1.
  { destruct (insert_closed i d last _ Hcl1 (insert_closes_at_end i d last r I Hcl Hcl1))
      as (Hc & Hp & Hb & Hdb & He). rewrite Hc, Hp, Hb, Hdb, He. auto. }
  pose proof (insert_again i d last r I Hcl Hcl1) as (Hb & Hp & Hlk). cbv zeta in Hb, Hp, Hlk.
  pose proof (insert_closes_at_end i d last _ I1 Hcl1) as Hc2.
  pose proof (insert_end_cond i d last (insert i d last r)) as Hcond.
  pose proof (proj1 (insert_result i d last _ I1)) as Hkeep.
  destruct (insert_spec i d last r I Hcl) as (D & _ & Hp1 & _).
  pose proof (insert_window_end i d last r (rinv_ok _ I)) as Hw. unfold window_end in Hw.
  set (r1 := insert i d last r) in *. set (r2 := insert i d last r1) in *.
  assert (He : end_pos r2 = end_pos r1).
  { destruct (end_pos r1) as [e|] eqn:E1; [exact (Hkeep e eq_refl)|].
    destruct (end_pos r2) as [e|] eqn:E2; [|reflexivity]. exfalso.
    destruct (Hcond e eq_refl eq_refl) as [-> Hc]. subst r1.
    assert (E0 : end_pos r = None) by (destruct (end_pos r) eqn:E; [|reflexivity];
      rewrite (proj1 (insert_result i d true r I) _ E) in E1; discriminate).
    apply (insert_sets_end i d r E0 Hcl); [|exact E1].
    destruct Hc as [H0|(_ & H1 & H2 & H3)]; [now left|right]. lia. }
  split_conj; auto.
  destruct (writer_is_closed (output_ r2)) eqn:Hcl2; [|reflexivity]. exfalso.
  specialize (Hc2 eq_refl). fold r2 in Hc2. rewrite He, Hp in Hc2. specialize (Hend1 Hc2). congruence.
Qed.

End Reassembler.

(** ** The reassembler on the byte stream of ByteStream.v *)

Module ReassemblerOnByteStream.

Abbreviation R := (@Reassembler ByteStream.t).

Definition on_stream (capacity : nat) : R := create (ByteStream.create capacity).

(** Scenario 2 of the spec, capacity 8: "cd" at 2 then "ab" at 0
    deliver "abcd" with nothing pending; "gh" at 6 (last) then "ef" at 4
    deliver "abcdefgh" and close the stream. *)
Example coalesce_scenario :
  let r2 := insert 0 (bstr "ab") false (insert 2 (bstr "cd") false (on_stream 8)) in
  let r4 := insert 4 (bstr "ef") false (insert 6 (bstr "gh") true r2) in
  ByteStream.contents (output_ r2) = bstr "abcd" /\ bytes_pending r2 = 0 /\
  ByteStream.contents (output_ r4) = bstr "abcdefgh" /\ bytes_pending r4 = 0 /\
  ByteStream.is_closed (output_ r4) = true.
Proof. vm_compute. repeat split. Qed.

(** A last substring "b" at 1 records [end_pos = 2]; "z" at 2 is stored
    anyway; "a" at 0 then flushes all three bytes. *)
Definition overrun : R :=
  insert 0 (bstr "a") false (insert 2 (bstr "z") false (insert 1 (bstr "b") true (on_stream 8))).

Lemma overrun_rinv : rinv overrun.
Proof.
  unfold overrun. repeat apply insert_rinv. apply create_rinv. apply ByteStream.inv_create.
Qed.

(** Witness of [end_pos_overrun_never_closes]: the stream holds "abz",
    one byte past its recorded end, and a later final segment still does
    not close it. *)
Lemma end_pos_overrun_witness :
  ByteStream.contents (output_ overrun) = bstr "abz" /\
  rinv overrun /\ end_pos overrun = Some 2 /\ 2 < writer_bytes_pushed (output_ overrun) /\
  writer_is_closed (output_ overrun) = false /\
  (let r' := insert 3 [] true overrun in
   end_pos r' = Some 2 /\ 2 < writer_bytes_pushed (output_ r') /\
   writer_is_closed (output_ r') = false).
Proof.
  split; [vm_compute; reflexivity|]. split; [exact overrun_rinv|].
  split; [vm_compute; reflexivity|]. split; [vm_compute; lia|]. split; [vm_compute; reflexivity|].
  apply end_pos_overrun_never_closes;
    [exact overrun_rinv | vm_compute; reflexivity | vm_compute; lia | vm_compute; reflexivity].
Defined.

End ReassemblerOnByteStream.

Module ReassemblerWitness.
Import ReassemblerOnByteStream.

(** Witness of [insert_all_rinv] on the segments of the spec's scenario 2. *)
Lemma insert_all_rinv_witness :
  ByteStream.inv (ByteStream.create 8) /\
  rinv (insert_all [(2, bstr "cd", false); (0, bstr "ab", false); (6, bstr "gh", true);
                    (4, bstr "ef", false)] (create (ByteStream.create 8))).
Proof. split; [apply ByteStream.inv_create|]. apply insert_all_rinv. apply ByteStream.inv_create. Defined.

(** Witness of [insert_delivers]: "ab" at 0 after "cd" at 2 delivers
    "abcd". *)
Lemma insert_delivers_witness :
  let r := insert 2 (bstr "cd") false (on_stream 8) in
  rinv r /\ writer_is_closed (output_ r) = false /\
  exists delivered,
    writer_buffer (output_ (insert 0 (bstr "ab") false r)) = writer_buffer (output_ r) ++ delivered /\
    writer_bytes_pushed (output_ (insert 0 (bstr "ab") false r)) =
      writer_bytes_pushed (output_ r) + length delivered /\
    (forall k, writer_bytes_pushed (output_ r) <= k < writer_bytes_pushed (output_ r) + length delivered ->
       nth_error delivered (k - writer_bytes_pushed (output_ r)) = merged r 0 (bstr "ab") k) /\
    (forall k, writer_bytes_pushed (output_ r) + length delivered <= k ->
       lookup (databuf (insert 0 (bstr "ab") false r)) k = merged r 0 (bstr "ab") k) /\
    merged r 0 (bstr "ab") (writer_bytes_pushed (output_ r) + length delivered) = None.
Proof.
  cbv zeta. assert (I : rinv (insert 2 (bstr "cd") false (on_stream 8))).
  { apply insert_rinv, create_rinv, ByteStream.inv_create. }
  split; [exact I|]. split; [vm_compute; reflexivity|].
  apply insert_delivers; [exact I | vm_compute; reflexivity].
Defined.

(** Witness of [insert_duplicate]: with "cd" stored at 2, "abcd" at 0
    delivered, a second "abcdef" at 0 (marked last) repeats the first. *)
Lemma insert_duplicate_witness :
  let r := insert 2 (bstr "cd") false (on_stream 8) in
  let r1 := insert 0 (bstr "abcdef") true r in let r2 := insert 0 (bstr "abcdef") true r1 in
  rinv r /\ writer_is_closed (output_ r) = false /\
  writer_buffer (output_ r2) = writer_buffer (output_ r1) /\
  writer_bytes_pushed (output_ r2) = writer_bytes_pushed (output_ r1) /\
  writer_is_closed (output_ r2) = writer_is_closed (output_ r1) /\
  end_pos r2 = end_pos r1 /\
  (forall k, lookup (databuf r2) k = lookup (databuf r1) k).
Proof.
  cbv zeta. assert (I : rinv (insert 2 (bstr "cd") false (on_stream 8))).
  { apply insert_rinv, create_rinv, ByteStream.inv_create. }
  split; [exact I|]. split; [vm_compute; reflexivity|].
  apply insert_duplicate; [exact I | vm_compute; reflexivity].
Defined.

End ReassemblerWitness.
