(* ===== verification/TCPReceiver.v ===== *)
(** * TCPReceiver: segments into the reassembler, acknowledgements out (tcp_receiver.cc)

    The receiver keeps the peer's ISN ([base_seqno_], set by the first
    SYN) and a reassembler writing into its output [ByteStream].
    [receive] unwraps the segment's 32-bit sequence number against the
    next expected absolute sequence number and inserts the payload at
    its stream index; [send] reports the acknowledgement number and the
    window.  The application reads the output through [read], the
    reader's [pop].  The stream index [absolute_seq + SYN - 1] is a
    64-bit subtraction and is kept modulo 2^64, as in the C++.  The
    theorems: the reassembler's invariant over every run, in-order
    delivery, the segment at the ISN without SYN, the error path of
    RST, the ranges of the acknowledgement's fields, and that the
    acknowledgement number and the right edge of the advertised window
    never move back ([acks_never_retreat]). *)

From Stdlib Require Import ZArith List Lia Bool Arith.
From S2P Require Import Prelude ByteStream Wrap32 Reassembler.
Import ListNotations.

Module TCPReceiver.

(** [TCPSenderMessage] (tcp_sender_message.hh): the segment as the
    receiver sees it; [seqno] is a raw 32-bit value. *)
Record TCPSenderMessage := mkSenderMessage {
  seqno : Z;
  SYN : bool;
  payload : bytes;
  FIN : bool;
  RST : bool
}.

(** [TCPReceiverMessage] (tcp_receiver_message.hh). *)
Record TCPReceiverMessage := mkReceiverMessage {
  ackno : option Z;
  window_size : Z;
  RST_flag : bool
}.

Abbreviation reassembler_t := (@Reassembler ByteStream.t).

Record t := mk {
  reassembler_ : reassembler_t;
  base_seqno_ : option Z
}.

Definition create (capacity : nat) : t :=
  mk (Reassembler.create (ByteStream.create capacity)) None.

Definition writer (rcv : t) : ByteStream.t := output_ (reassembler_ rcv).

(** The output stream with its error flag set ([reader().set_error()]). *)
Definition with_output (o : ByteStream.t) (r : reassembler_t) : reassembler_t :=
  Reassembler.mk o (databuf r) (end_pos r) (pending_num r).

(** [TCPReceiver::receive]. *)
Definition receive (message : TCPSenderMessage) (rcv : t) : t :=
  if ByteStream.has_error (writer rcv) then rcv
  else if RST message then
    mk (with_output (ByteStream.set_error (writer rcv)) (reassembler_ rcv)) (base_seqno_ rcv)
  else
    let base := match base_seqno_ rcv with
                | Some b => Some b
                | None => if SYN message then Some (seqno message) else None
                end in
    match base with
    | None => rcv
    | Some b =>
        let expected_seq := (Z.of_nat (ByteStream.bytes_pushed (writer rcv)) + 1)%Z in
        let absolute_seq := Wrap32.unwrap (seqno message) b expected_seq in
        let index_in_stream := u64 (absolute_seq + (if SYN message then 1 else 0) - 1)%Z in
        mk (insert (Z.to_nat index_in_stream) (payload message) (FIN message) (reassembler_ rcv))
           (Some b)
    end.

(** [TCPReceiver::send]. *)
Definition send (rcv : t) : TCPReceiverMessage :=
  let avail := Z.of_nat (ByteStream.available_capacity (writer rcv)) in
  let window := if (UINT16_MAX <? avail)%Z then UINT16_MAX else avail in
  match base_seqno_ rcv with
  | Some b =>
      let ack_seq := (Z.of_nat (ByteStream.bytes_pushed (writer rcv)) + 1 +
                     (if ByteStream.is_closed (writer rcv) then 1 else 0))%Z in
      mkReceiverMessage (Some (Wrap32.wrap ack_seq b)) window (ByteStream.has_error (writer rcv))
  | None => mkReceiverMessage None window (ByteStream.has_error (writer rcv))
  end.

(** The application reads [n] bytes of the output ([reader().pop(n)]). *)
Definition read (n : nat) (rcv : t) : t :=
  mk (with_output (ByteStream.pop n (writer rcv)) (reassembler_ rcv)) (base_seqno_ rcv).

(** ** The receiver's invariant: the reassembler's, on the stream *)

Definition rcv_inv (rcv : t) : Prop := rinv (reassembler_ rcv).

(** Replacing the output by one with the same [bytes_pushed] and at
    least the same window keeps [rinv]. *)
Lemma rinv_with_output r o :
  rinv r -> ByteStream.inv o ->
  ByteStream.bytes_pushed o = ByteStream.bytes_pushed (output_ r) ->
  window_end (output_ r) <= window_end o ->
  rinv (with_output o r).
Proof.
  intros [Hok Hc Hb Hp Hg] Ho Hpu Hw. unfold window_end in *. simpl in *.
  split; simpl; auto; rewrite ?Hpu; auto.
  eapply Forall_impl; [|exact Hb]. simpl. intros e He. unfold window_end. simpl. lia.
Qed.

Lemma receive_inv m rcv : rcv_inv rcv -> rcv_inv (receive m rcv).
Proof.
  unfold rcv_inv, receive. intros I.
  destruct (ByteStream.has_error (writer rcv)); [exact I|].
  destruct (RST m).
  - apply rinv_with_output; [exact I | apply ByteStream.set_error_inv, (rinv_ok _ I)
                             | reflexivity | apply Nat.le_refl].
  - destruct (match base_seqno_ rcv with Some b => Some b | None => _ end); [|exact I].
    apply insert_rinv. exact I.
Qed.

Lemma read_inv n rcv :
  rcv_inv rcv -> n <= ByteStream.bytes_buffered (writer rcv) -> rcv_inv (read n rcv).
Proof.
  unfold rcv_inv, read. intros I Hn. pose proof (rinv_ok _ I) as Ho.
  destruct (ByteStream.pop_fields _ n Ho Hn) as (Hp & Ha & _).
  apply rinv_with_output; [exact I | apply ByteStream.pop_inv; auto | exact Hp |].
  unfold window_end. simpl. unfold writer in *. lia.
Qed.

(** A sequence of calls on the receiver: segments from the network and
    reads by the application. *)
Inductive event :=
| Segment (m : TCPSenderMessage)
| Read (n : nat).

(** Whether every read asks for at most what is buffered (the
    precondition of [Reader::pop]). *)
Fixpoint run (es : list event) (rcv : t) : option t :=
  match es with
  | [] => Some rcv
  | Segment m :: es' => run es' (receive m rcv)
  | Read n :: es' =>
      if n <=? ByteStream.bytes_buffered (writer rcv) then run es' (read n rcv) else None
  end.

(** Every state the receiver reaches from a fresh one, through
    segments and legal reads, satisfies the reassembler invariant on its
    output stream. *)
Theorem run_inv capacity es rcv' :
  run es (create capacity) = Some rcv' -> rcv_inv rcv'.
Proof.
  assert (I0 : rcv_inv (create capacity)).
  { apply create_rinv, ByteStream.inv_create. }
  revert I0. generalize (create capacity). induction es as [|[m|n] es IH]; intros rcv I Hr; simpl in Hr.
  - injection Hr as <-. exact I.
  - apply (IH _ (receive_inv m rcv I) Hr).
  - destruct (Nat.leb_spec n (ByteStream.bytes_buffered (writer rcv))); [|discriminate].
    apply (IH _ (read_inv n rcv I ltac:(assumption)) Hr).
Qed.

(** ** What a segment does *)

(** Once the ISN is known and the stream is healthy, [receive] is one
    [insert] at the unwrapped index. *)
Lemma receive_inserts m rcv b :
  ByteStream.has_error (writer rcv) = false -> RST m = false -> base_seqno_ rcv = Some b ->
  receive m rcv =
  mk (insert (Z.to_nat (u64 (Wrap32.unwrap (seqno m) b
                (Z.of_nat (ByteStream.bytes_pushed (writer rcv)) + 1) +
                (if SYN m then 1 else 0) - 1)))
             (payload m) (FIN m) (reassembler_ rcv)) (Some b).
Proof. intros He Hr Hb. unfold receive. rewrite He, Hr, Hb. reflexivity. Qed.

(** The segment numbered with the acknowledgement number ([wrap
    (bytes_pushed + 1)]) lands at stream index [bytes_pushed]. *)
Lemma ackno_index P b :
  (Z.of_nat P + 1 < 2 ^ 64)%Z ->
  Z.to_nat (u64 (Wrap32.unwrap (Wrap32.wrap (Z.of_nat P + 1) b) b (Z.of_nat P + 1) + 0 - 1)) = P.
Proof.
  intros HP. rewrite Wrap32.unwrap_wrap_at by lia.
  rewrite u64_small by lia. lia.
Qed.

(** (C7) In-order delivery: a data segment whose sequence number is the
    receiver's acknowledgement number, and whose payload fits in the
    window, is appended to the output stream whole, followed by any bytes
    it makes contiguous; the stream index [bytes_pushed] is recovered
    from the 32-bit sequence number through [unwrap]. *)
Theorem receive_in_order m rcv b :
  rcv_inv rcv -> base_seqno_ rcv = Some b ->
  ByteStream.has_error (writer rcv) = false -> ByteStream.is_closed (writer rcv) = false ->
  RST m = false -> SYN m = false ->
  seqno m = Wrap32.wrap (Z.of_nat (ByteStream.bytes_pushed (writer rcv)) + 1) b ->
  length (payload m) <= ByteStream.available_capacity (writer rcv) ->
  (Z.of_nat (ByteStream.bytes_pushed (writer rcv)) + 1 < 2 ^ 64)%Z ->
  exists extra,
    ByteStream.contents (writer (receive m rcv)) =
    ByteStream.contents (writer rcv) ++ payload m ++ extra.
Proof.
  intros I Hb He Hcl Hr Hs Hseq Hav HP.
  rewrite (receive_inserts m rcv b He Hr Hb), Hs, Hseq, ackno_index by exact HP.
  exact (insert_at_pushed (payload m) (FIN m) (reassembler_ rcv) I Hcl Hav).
Qed.

(** The ISN itself unwraps to absolute sequence number 0 while fewer
    than [2^31] bytes have been pushed. *)
Lemma unwrap_isn b cp : (0 <= cp <= 2 ^ 31)%Z -> Wrap32.unwrap b b cp = 0%Z.
Proof.
  intros Hcp. rewrite Wrap32.unwrap_arith by lia. cbv zeta.
  replace (b - b)%Z with 0%Z by lia. change (u32 0) with 0%Z.
  rewrite Z.mod_small, Z.div_small by lia. case_ifs; lia.
Qed.

(** (C37) A data segment numbered with the ISN but without SYN names the
    byte before the stream: the 64-bit subtraction [absolute_seq + 0 - 1]
    wraps to [2^64 - 1], past the window, and [insert] drops the segment;
    the receiver is unchanged. *)
Theorem receive_isn_without_syn m rcv b :
  base_seqno_ rcv = Some b ->
  ByteStream.has_error (writer rcv) = false -> RST m = false -> SYN m = false ->
  seqno m = b -> payload m <> [] ->
  (Z.of_nat (ByteStream.bytes_pushed (writer rcv)) + 1 <= 2 ^ 31)%Z ->
  (Z.of_nat (ByteStream.bytes_pushed (writer rcv) +
             ByteStream.available_capacity (writer rcv)) < 2 ^ 64 - 1)%Z ->
  receive m rcv = rcv.
Proof.
  intros Hb He Hr Hs Hseq Hd HP Hw.
  rewrite (receive_inserts m rcv b He Hr Hb), Hs, Hseq, unwrap_isn by lia.
  change (u64 (0 + 0 - 1)) with (2 ^ 64 - 1)%Z.
  assert (HN : Z.of_nat (Z.to_nat (2 ^ 64 - 1)) = (2 ^ 64 - 1)%Z) by (rewrite Z2Nat.id; lia).
  generalize dependent (Z.to_nat (2 ^ 64 - 1)). intros N HN.
  destruct rcv as [r b']. cbn [base_seqno_] in Hb. subst b'. f_equal.
  unfold writer in *. cbn [reassembler_] in *. unfold insert.
  apply neq_nil_length in Hd. destruct (Nat.eqb_spec (length (payload m)) 0); [lia|].
  destruct (_ || _); [reflexivity|]. cbn [writer_bytes_pushed writer_available_capacity byte_stream_writer].
  destruct (Nat.leb_spec (N + length (payload m)) (ByteStream.bytes_pushed (output_ r))); [lia|].
  destruct (Nat.leb_spec (ByteStream.bytes_pushed (output_ r) + ByteStream.available_capacity (output_ r)) N);
    [reflexivity|lia].
Qed.

(** ** Error path and the types of the acknowledgement *)

(** A sequence of [receive] calls, in order. *)
Definition receive_all (ms : list TCPSenderMessage) (rcv : t) : t :=
  fold_left (fun r m => receive m r) ms rcv.

Lemma receive_errored m rcv : ByteStream.has_error (writer rcv) = true -> receive m rcv = rcv.
Proof. intros He. unfold receive. now rewrite He. Qed.

Lemma receive_all_errored ms rcv :
  ByteStream.has_error (writer rcv) = true -> receive_all ms rcv = rcv.
Proof.
  revert rcv. induction ms as [|m ms IH]; intros rcv He; [reflexivity|].
  cbn [receive_all fold_left]. rewrite (receive_errored m rcv He). exact (IH rcv He).
Qed.

Lemma send_RST rcv : RST_flag (send rcv) = ByteStream.has_error (writer rcv).
Proof. unfold send. now destruct (base_seqno_ rcv). Qed.

(** (C23) Error path: a segment with RST sets the error flag of the output
    stream; from then on every sequence of segments leaves the receiver
    unchanged, and every acknowledgement it sends carries RST. *)
Theorem rst_sticky m rcv :
  RST m = true ->
  ByteStream.has_error (writer (receive m rcv)) = true /\
  (forall ms, receive_all ms (receive m rcv) = receive m rcv) /\
  RST_flag (send (receive m rcv)) = true.
Proof.
  intros Hr.
  assert (He : ByteStream.has_error (writer (receive m rcv)) = true).
  { unfold receive. destruct (ByteStream.has_error (writer rcv)) eqn:E; [exact E|].
    now rewrite Hr. }
  split; [exact He|]. split.
  - intros ms. exact (receive_all_errored ms _ He).
  - now rewrite send_RST.
Qed.

(** The window [send] advertises: the available capacity, capped at
    [UINT16_MAX]. *)
Lemma send_window rcv :
  window_size (send rcv) = Z.min (Z.of_nat (ByteStream.available_capacity (writer rcv))) UINT16_MAX.
Proof.
  unfold send. destruct (base_seqno_ rcv); cbn [window_size];
    destruct (Z.ltb_spec UINT16_MAX (Z.of_nat (ByteStream.available_capacity (writer rcv)))); lia.
Qed.

(** The acknowledgement fits the wire types of
    tcp_receiver_message.hh: the window is the available capacity capped
    at [UINT16_MAX], so a [uint16_t]; the acknowledgement number is a
    32-bit value, present exactly once the ISN is known. *)
Theorem send_fits rcv :
  window_size (send rcv) = Z.min (Z.of_nat (ByteStream.available_capacity (writer rcv))) UINT16_MAX /\
  (0 <= window_size (send rcv) <= UINT16_MAX)%Z /\
  (forall a, ackno (send rcv) = Some a -> (0 <= a < 2 ^ 32)%Z) /\
  (ackno (send rcv) = None <-> base_seqno_ rcv = None).
Proof.
  pose proof (send_window rcv) as Hw.
  split; [exact Hw|]. split; [rewrite Hw; unfold UINT16_MAX; lia|].
  unfold send. destruct (base_seqno_ rcv); cbn [ackno]; split.
  - intros a [= <-]. apply u32_range.
  - split; discriminate.
  - discriminate.
  - tauto.
Qed.

(** ** The acknowledgement and the window never move back *)

(** The absolute sequence number just past the window [send]
    advertises: the acknowledgement number ([bytes_pushed + 1], plus one
    for FIN) plus the window. *)
Definition right_edge (rcv : t) : Z :=
  Z.of_nat (ByteStream.bytes_pushed (writer rcv)) + 1 +
  (if ByteStream.is_closed (writer rcv) then 1 else 0) + window_size (send rcv).

(** One receiver state is at or past another: no fewer bytes pushed, the
    stream no less closed, the window's end ([bytes_pushed +
    available_capacity]) no earlier, and the same ISN once known. *)
Definition advances (r r' : t) : Prop :=
  writer_bytes_pushed (writer r) <= writer_bytes_pushed (writer r') /\
  (writer_is_closed (writer r) = true -> writer_is_closed (writer r') = true) /\
  window_end (writer r) <= window_end (writer r') /\
  (forall b, base_seqno_ r = Some b -> base_seqno_ r' = Some b).

Lemma advances_refl r : advances r r.
Proof. unfold advances. auto. Qed.

Lemma advances_trans r1 r2 r3 : advances r1 r2 -> advances r2 r3 -> advances r1 r3.
Proof. unfold advances. intros (? & ? & ? & ?) (? & ? & ? & ?). split_conj; auto; lia. Qed.

(** The closing test keeps [bytes_pushed] and only closes. *)
Lemma close_if_done_advances e (w : ByteStream.t) :
  writer_bytes_pushed (close_if_done e w) = writer_bytes_pushed w /\
  (writer_is_closed w = true -> writer_is_closed (close_if_done e w) = true).
Proof.
  unfold close_if_done. destruct e as [e|]; [destruct (_ =? _)|]; rewrite ?close_bytes_pushed, ?close_is_closed; auto.
Qed.

(** [insert] moves [bytes_pushed] forward, only closes, and keeps the
    window's end. *)
Lemma insert_advances i d last (rr : reassembler_t) :
  rinv rr ->
  writer_bytes_pushed (output_ rr) <= writer_bytes_pushed (output_ (insert i d last rr)) /\
  (writer_is_closed (output_ rr) = true -> writer_is_closed (output_ (insert i d last rr)) = true) /\
  window_end (output_ rr) = window_end (output_ (insert i d last rr)).
Proof.
  intros I. pose proof (insert_window_end i d last rr (rinv_ok _ I)) as Hw.
  destruct (insert_result i d last rr I) as [_ [Hout|(w' & Hp & Hc & Hout)]]; rewrite Hout in *;
    [split_conj; auto|].
  destruct (close_if_done_advances (end_pos (insert i d last rr)) w') as [Hp' Hc'].
  split_conj; [lia | rewrite <- Hc in *; auto | auto].
Qed.

(** Every call moves the receiver forward. *)
Lemma receive_advances m rcv : rcv_inv rcv -> advances rcv (receive m rcv).
Proof.
  intros I. unfold receive. destruct (ByteStream.has_error (writer rcv)); [apply advances_refl|].
  destruct (RST m).
  - unfold advances. cbn. split_conj; auto.
  - destruct (match base_seqno_ rcv with Some b => Some b | None => _ end) as [b|] eqn:Hb;
      [|apply advances_refl].
    destruct (insert_advances (Z.to_nat (u64 (Wrap32.unwrap (seqno m) b
                (Z.of_nat (ByteStream.bytes_pushed (writer rcv)) + 1) +
                (if SYN m then 1 else 0) - 1))) (payload m) (FIN m) (reassembler_ rcv) I)
      as (H1 & H2 & H3).
    unfold advances, writer in *. cbn [reassembler_ base_seqno_]. split_conj; [exact H1 | exact H2 | lia |].
    intros b' Hb'. rewrite Hb' in Hb. now symmetry.
Qed.

Lemma read_advances n rcv :
  rcv_inv rcv -> n <= ByteStream.bytes_buffered (writer rcv) -> advances rcv (read n rcv).
Proof.
  intros I Hn. pose proof (ByteStream.pop_fields _ n (rinv_ok _ I) Hn) as (Hp & Ha & Hc & _).
  unfold advances, window_end, read, writer in *. cbn [reassembler_ base_seqno_ output_ with_output] in *.
  cbn [writer_bytes_pushed writer_is_closed writer_available_capacity byte_stream_writer].
  rewrite Hp, Ha, Hc. split_conj; auto; lia.
Qed.

Lemma run_advances es rcv rcv' : rcv_inv rcv -> run es rcv = Some rcv' -> advances rcv rcv'.
Proof.
  revert rcv. induction es as [|[m|n] es IH]; intros rcv I Hr; cbn [run] in Hr.
  - injection Hr as <-. apply advances_refl.
  - exact (advances_trans _ _ _ (receive_advances m rcv I) (IH _ (receive_inv m rcv I) Hr)).
  - destruct (Nat.leb_spec n (ByteStream.bytes_buffered (writer rcv))) as [Hn|]; [|discriminate].
    exact (advances_trans _ _ _ (read_advances n rcv I Hn) (IH _ (read_inv n rcv I Hn) Hr)).
Qed.

(** (C8) The receiver never takes back what it advertised: along any run
    of segments (in any order, with any content) and legal reads, the
    number of bytes pushed (hence the acknowledgement number, with the
    ISN, once known, kept) never decreases, a closed stream stays closed,
    and the right edge of the advertised window, acknowledgement number
    plus window, never moves left. *)
Theorem acks_never_retreat es rcv rcv' :
  rcv_inv rcv -> run es rcv = Some rcv' ->
  ByteStream.bytes_pushed (writer rcv) <= ByteStream.bytes_pushed (writer rcv') /\
  (ByteStream.is_closed (writer rcv) = true -> ByteStream.is_closed (writer rcv') = true) /\
  (forall b, base_seqno_ rcv = Some b -> base_seqno_ rcv' = Some b) /\
  (right_edge rcv <= right_edge rcv')%Z.
Proof.
  intros I Hr. destruct (run_advances es rcv rcv' I Hr) as (Hp & Hc & Hw & Hb).
  split_conj; auto. unfold right_edge. rewrite !send_window.
  unfold window_end in Hw. cbn [writer_bytes_pushed writer_is_closed writer_available_capacity
                              byte_stream_writer] in Hp, Hc, Hw.
  destruct (ByteStream.is_closed (writer rcv)); [rewrite (Hc eq_refl)|destruct (ByteStream.is_closed _)];
    unfold UINT16_MAX; lia.
Qed.

End TCPReceiver.

(** ** The spec's receiver scenario and the witnesses *)
Module TCPReceiverScenario.
Import TCPReceiver.

(** ISN 1000: a SYN carrying "hel", then "lo" with FIN at 1004. *)
Definition syn_hel : TCPSenderMessage := mkSenderMessage 1000 true (bstr "hel") false false.
Definition lo_fin : TCPSenderMessage := mkSenderMessage 1004 false (bstr "lo") true false.
Definition after_syn : t := receive syn_hel (create 8).

(** Scenario: the receiver assembles "hello", closes the stream on
    the FIN and acknowledges 1007 (ISN + SYN + five bytes + FIN) with a
    window of the three free bytes. *)
Example handshake_scenario :
  ByteStream.contents (writer (receive lo_fin after_syn)) = bstr "hello" /\
  ByteStream.is_closed (writer (receive lo_fin after_syn)) = true /\
  send after_syn = mkReceiverMessage (Some 1004%Z) 5%Z false /\
  send (receive lo_fin after_syn) = mkReceiverMessage (Some 1007%Z) 3%Z false.
Proof. vm_compute. repeat split. Qed.

Lemma after_syn_inv : rcv_inv after_syn.
Proof. apply receive_inv, create_rinv, ByteStream.inv_create. Qed.

Lemma run_inv_witness :
  rcv_inv (receive lo_fin (read 2 after_syn)).
Proof.
  apply (run_inv 8 [Segment syn_hel; Read 2; Segment lo_fin]). vm_compute. reflexivity.
Defined.

Lemma receive_in_order_witness :
  exists extra, ByteStream.contents (writer (receive lo_fin after_syn)) =
                ByteStream.contents (writer after_syn) ++ payload lo_fin ++ extra.
Proof.
  apply (receive_in_order lo_fin after_syn 1000%Z after_syn_inv);
    vm_compute; reflexivity || lia || idtac.
Defined.

Lemma receive_isn_without_syn_witness :
  receive (mkSenderMessage 1000 false (bstr "x") false false) after_syn = after_syn.
Proof.
  apply (receive_isn_without_syn _ after_syn 1000%Z); vm_compute; reflexivity || discriminate || idtac.
Defined.

Definition rst_seg : TCPSenderMessage := mkSenderMessage 1004 false [] false true.

Lemma rst_sticky_witness :
  ByteStream.has_error (writer (receive rst_seg after_syn)) = true /\
  (forall ms, receive_all ms (receive rst_seg after_syn) = receive rst_seg after_syn) /\
  RST_flag (send (receive rst_seg after_syn)) = true.
Proof. apply (rst_sticky rst_seg after_syn). reflexivity. Defined.

(** Witness of [acks_never_retreat]: "lo" with FIN, a read of three
    bytes, then the SYN segment again (a stale duplicate). *)
Definition replayed : t := receive syn_hel (read 3 (receive lo_fin after_syn)).

Lemma acks_never_retreat_witness :
  ByteStream.bytes_pushed (writer after_syn) <= ByteStream.bytes_pushed (writer replayed) /\
  (ByteStream.is_closed (writer after_syn) = true -> ByteStream.is_closed (writer replayed) = true) /\
  (forall b, base_seqno_ after_syn = Some b -> base_seqno_ replayed = Some b) /\
  (right_edge after_syn <= right_edge replayed)%Z.
Proof.
  apply (acks_never_retreat [Segment lo_fin; Read 3; Segment syn_hel] after_syn replayed after_syn_inv).
  vm_compute. reflexivity.
Defined.

End TCPReceiverScenario.
