(* ===== verification/TCPSender.v ===== *)
(** * TCPSender and RetryTimer: segments out, acknowledgements in (tcp_sender.cc, tcp_sender.hh)

    [Module RetryTimer] is the class of tcp_sender.hh: the active flag and
    two [uint64_t] fields, kept as [Z] with the 64-bit wrap of
    [RTO_duration_ms_ <<= 1] and [timer_elapsed_ms_ += elapsed_ms]
    written out.  [Module TCPSender] is the sender: its record has the
    fields of tcp_sender.hh, [push] is the outer [while] loop of
    [TCPSender::push] run on fuel with the inner peek/pop loop as [fill],
    [receive] and [tick] follow tcp_sender.cc; the [transmit] callback is
    the list of segments each call returns, in the order they are sent.

    The sequence counters of the sender ([next_seq_number_],
    [ack_sequence_number_], [total_outgoing_seq_]) are [nat], like the
    byte-stream counters they follow.

    The theorems: the invariant [sinv] of every reachable state, the
    64-bit range of the timer's fields ([timer_typed]), what [push]
    reads and sends and that it stops, [tick] on expiry, [receive] on
    any valid acknowledgement (it removes exactly the fully acknowledged
    prefix of the queue), on a full one and on its error paths, and the
    liveness of retransmission under ticks of any length.  Two theorems
    show where the code departs from the spec: a duplicate
    acknowledgement can leave more in flight than the window
    ([shrunk_window_exceeded]), and the unsaturated 64-bit backoff makes
    the RTO 0 after 64 doublings ([backoff_wraps]). *)

From Stdlib Require Import ZArith List Lia Bool Arith.
From S2P Require Import Prelude ByteStream Wrap32 TCPReceiver.
Import ListNotations.

Module RetryTimer.

Record t := mk {
  timer_active_ : bool;
  RTO_duration_ms_ : Z;
  timer_elapsed_ms_ : Z
}.

(** [RetryTimer(initial_RTO_ms)]. *)
Definition create (initial_RTO_ms : Z) : t := mk false initial_RTO_ms 0.

Definition is_timer_active (tm : t) : bool := timer_active_ tm.

Definition has_timer_expired (tm : t) : bool :=
  if negb (timer_active_ tm) then false
  else (RTO_duration_ms_ tm <=? timer_elapsed_ms_ tm)%Z.

Definition reset_timer (tm : t) : t := mk (timer_active_ tm) (RTO_duration_ms_ tm) 0.

(** [RTO_duration_ms_ <<= 1] on a [uint64_t]. *)
Definition apply_exponential_backoff (tm : t) : t :=
  mk (timer_active_ tm) (u64 (Z.shiftl (RTO_duration_ms_ tm) 1)) (timer_elapsed_ms_ tm).

Definition reload_timer (initial_RTO_ms : Z) (tm : t) : t :=
  reset_timer (mk (timer_active_ tm) initial_RTO_ms (timer_elapsed_ms_ tm)).

Definition activate_timer (tm : t) : t :=
  if negb (timer_active_ tm) then reset_timer (mk true (RTO_duration_ms_ tm) (timer_elapsed_ms_ tm))
  else tm.

Definition deactivate_timer (tm : t) : t :=
  if timer_active_ tm then reset_timer (mk false (RTO_duration_ms_ tm) (timer_elapsed_ms_ tm))
  else tm.

(** [timer_elapsed_ms_ += elapsed_ms] on a [uint64_t]. *)
Definition advance_timer (elapsed_ms : Z) (tm : t) : t :=
  if timer_active_ tm
  then mk true (RTO_duration_ms_ tm) (u64 (timer_elapsed_ms_ tm + elapsed_ms))
  else tm.

End RetryTimer.

Module TCPSender.

Abbreviation TCPSenderMessage := TCPReceiver.TCPSenderMessage.
Abbreviation TCPReceiverMessage := TCPReceiver.TCPReceiverMessage.

(** [TCPSenderMessage::sequence_length]: SYN, payload and FIN. *)
Definition sequence_length (m : TCPSenderMessage) : nat :=
  (if TCPReceiver.SYN m then 1 else 0) + length (TCPReceiver.payload m) +
  (if TCPReceiver.FIN m then 1 else 0).

(** [TCPConfig::MAX_PAYLOAD_SIZE] (tcp_config.hh). *)
Definition MAX_PAYLOAD_SIZE : nat := 1000.
Arguments MAX_PAYLOAD_SIZE : simpl never.

(** The fields of [TCPSender] (tcp_sender.hh). *)
Record t := mk {
  input_ : ByteStream.t;
  isn_ : Z;
  initial_RTO_ms_ : Z;
  next_seq_number_ : nat;
  ack_sequence_number_ : nat;
  window_capacity_ : nat;
  pending_messages_ : list TCPSenderMessage;
  total_outgoing_seq_ : nat;
  retrans_count_ : nat;
  SYN_sent_flag_ : bool;
  FIN_sent_flag_ : bool;
  retrans_timer_ : RetryTimer.t
}.

(** [TCPSender(input, isn, initial_RTO_ms)]: [window_capacity_ {1}]. *)
Definition create (input : ByteStream.t) (isn : Z) (initial_RTO_ms : Z) : t :=
  mk input isn initial_RTO_ms 0 0 1 [] 0 0 false false (RetryTimer.create initial_RTO_ms).

Definition sequence_numbers_in_flight (s : t) : nat := total_outgoing_seq_ s.

Definition consecutive_retransmissions (s : t) : nat := retrans_count_ s.

(** [make_empty_message]: the next sequence number, RST from the input's
    error flag. *)
Definition make_empty_message (s : t) : TCPSenderMessage :=
  TCPReceiver.mkSenderMessage (Wrap32.wrap (Z.of_nat (next_seq_number_ s)) (isn_ s))
    false [] false (ByteStream.has_error (input_ s)).

(** The window [push] fills: the advertised one, or 1 when it is 0. *)
Definition effective_window (s : t) : nat :=
  if window_capacity_ s =? 0 then 1 else window_capacity_ s.

(** The inner loop of [push]: while bytes are buffered and the payload
    is short, append the [peek]ed view cut to what is missing and [pop]
    it.  Each turn adds at least one byte, so [payload_len] turns are
    enough (see [fill_spec]). *)
Fixpoint fill (fuel payload_len : nat) (payload : bytes) (input : ByteStream.t)
  : bytes * ByteStream.t :=
  match fuel with
  | 0 => (payload, input)
  | S f =>
      if negb (ByteStream.bytes_buffered input =? 0) && (length payload <? payload_len) then
        let data_view := firstn (payload_len - length payload) (ByteStream.peek input) in
        fill f payload_len (payload ++ data_view) (ByteStream.pop (length data_view) input)
      else (payload, input)
  end.

Definition with_payload (m : TCPSenderMessage) (syn : bool) (p : bytes) (fin : bool)
  : TCPSenderMessage :=
  TCPReceiver.mkSenderMessage (TCPReceiver.seqno m) syn p fin (TCPReceiver.RST m).

(** One turn of the outer loop of [push], after its condition held:
    [None] is a [break] (the state may still have changed, as in the
    C++), [Some msg] a transmitted segment. *)
Definition push_body (s : t) : t * option TCPSenderMessage :=
  if FIN_sent_flag_ s then (s, None)
  else
    let msg := make_empty_message s in
    let '(syn, SYN_sent) := if negb (SYN_sent_flag_ s) then (true, true) else (false, SYN_sent_flag_ s) in
    let remaining_capacity := effective_window s - total_outgoing_seq_ s in
    let payload_len := min MAX_PAYLOAD_SIZE
                         (remaining_capacity - sequence_length (with_payload msg syn [] false)) in
    let '(payload_data, input) := fill payload_len payload_len [] (input_ s) in
    let '(fin, FIN_sent) :=
      if negb (FIN_sent_flag_ s) &&
         (sequence_length (with_payload msg syn payload_data false) <? remaining_capacity) &&
         ByteStream.is_finished input
      then (true, true) else (false, FIN_sent_flag_ s) in
    let msg := with_payload msg syn payload_data fin in
    if sequence_length msg =? 0 then
      (mk input (isn_ s) (initial_RTO_ms_ s) (next_seq_number_ s) (ack_sequence_number_ s)
          (window_capacity_ s) (pending_messages_ s) (total_outgoing_seq_ s)
          (retrans_count_ s) SYN_sent FIN_sent (retrans_timer_ s), None)
    else
      let timer := if negb (RetryTimer.is_timer_active (retrans_timer_ s))
                   then RetryTimer.activate_timer (retrans_timer_ s) else retrans_timer_ s in
      (mk input (isn_ s) (initial_RTO_ms_ s) (next_seq_number_ s + sequence_length msg)
          (ack_sequence_number_ s) (window_capacity_ s) (pending_messages_ s ++ [msg])
          (total_outgoing_seq_ s + sequence_length msg) (retrans_count_ s)
          SYN_sent FIN_sent timer, Some msg).

(** The outer [while] loop of [push] on fuel; the segments it transmits,
    in order. *)
Fixpoint push_loop (fuel : nat) (s : t) : t * list TCPSenderMessage :=
  match fuel with
  | 0 => (s, [])
  | S f =>
      if total_outgoing_seq_ s <? effective_window s then
        match push_body s with
        | (s1, None) => (s1, [])
        | (s1, Some msg) => let '(s2, out) := push_loop f s1 in (s2, msg :: out)
        end
      else (s, [])
  end.

(** [TCPSender::push].  Every turn that does not break adds at least one
    sequence number in flight and the loop needs [total_outgoing_seq_ <
    effective_window], so [effective_window + 1] turns are enough
    ([push_terminates]). *)
Definition push (s : t) : t * list TCPSenderMessage :=
  push_loop (S (effective_window s)) s.

(** The [while] loop of [receive]: drop the fully acknowledged segments
    from the front of the queue. *)
Fixpoint ack_loop (received : Z) (ack total : nat) (q : list TCPSenderMessage) (acked : bool)
  : nat * nat * list TCPSenderMessage * bool :=
  match q with
  | [] => (ack, total, q, acked)
  | front :: q' =>
      if (received <? Z.of_nat (ack + sequence_length front))%Z then (ack, total, q, acked)
      else ack_loop received (ack + sequence_length front) (total - sequence_length front) q' true
  end.

Definition set_input (i : ByteStream.t) (s : t) : t :=
  mk i (isn_ s) (initial_RTO_ms_ s) (next_seq_number_ s) (ack_sequence_number_ s)
     (window_capacity_ s) (pending_messages_ s) (total_outgoing_seq_ s) (retrans_count_ s)
     (SYN_sent_flag_ s) (FIN_sent_flag_ s) (retrans_timer_ s).

(** [window_capacity_ = msg.window_size]. *)
Definition set_window (w : nat) (s : t) : t :=
  mk (input_ s) (isn_ s) (initial_RTO_ms_ s) (next_seq_number_ s) (ack_sequence_number_ s) w
     (pending_messages_ s) (total_outgoing_seq_ s) (retrans_count_ s)
     (SYN_sent_flag_ s) (FIN_sent_flag_ s) (retrans_timer_ s).

(** [TCPSender::receive]. *)
Definition receive (msg : TCPReceiverMessage) (s : t) : t :=
  if ByteStream.has_error (input_ s) || TCPReceiver.RST_flag msg then
    if TCPReceiver.RST_flag msg then set_input (ByteStream.set_error (input_ s)) s else s
  else
    let s1 := set_window (Z.to_nat (u16 (TCPReceiver.window_size msg))) s in
    match TCPReceiver.ackno msg with
    | None => s1
    | Some a =>
        let received_ack_seq := Wrap32.unwrap a (isn_ s) (Z.of_nat (next_seq_number_ s)) in
        if (Z.of_nat (next_seq_number_ s) <? received_ack_seq)%Z then s1
        else
          let '(ack, total, q, acknowledged) :=
            ack_loop received_ack_seq (ack_sequence_number_ s) (total_outgoing_seq_ s)
                     (pending_messages_ s) false in
          let '(count, timer) :=
            if acknowledged then
              let tm := RetryTimer.reload_timer (initial_RTO_ms_ s) (retrans_timer_ s) in
              (0, match q with
                  | [] => RetryTimer.deactivate_timer tm
                  | _ => RetryTimer.activate_timer tm
                  end)
            else (retrans_count_ s, retrans_timer_ s) in
          mk (input_ s) (isn_ s) (initial_RTO_ms_ s) (next_seq_number_ s) ack
             (window_capacity_ s1) q total count (SYN_sent_flag_ s) (FIN_sent_flag_ s) timer
    end.

(** [TCPSender::tick]: the timer advances in every case; on expiry the
    head segment is retransmitted, with backoff only for a nonzero
    window. *)
Definition tick (ms_since_last_tick : Z) (s : t) : t * list TCPSenderMessage :=
  let tm := RetryTimer.advance_timer ms_since_last_tick (retrans_timer_ s) in
  let s1 := mk (input_ s) (isn_ s) (initial_RTO_ms_ s) (next_seq_number_ s)
               (ack_sequence_number_ s) (window_capacity_ s) (pending_messages_ s)
               (total_outgoing_seq_ s) (retrans_count_ s) (SYN_sent_flag_ s) (FIN_sent_flag_ s) tm in
  if RetryTimer.has_timer_expired tm then
    match pending_messages_ s with
    | [] => (s1, [])
    | front :: _ =>
        let '(count, tm) :=
          if negb (window_capacity_ s =? 0)
          then (retrans_count_ s + 1, RetryTimer.apply_exponential_backoff tm)
          else (retrans_count_ s, tm) in
        (mk (input_ s) (isn_ s) (initial_RTO_ms_ s) (next_seq_number_ s)
            (ack_sequence_number_ s) (window_capacity_ s) (pending_messages_ s)
            (total_outgoing_seq_ s) count (SYN_sent_flag_ s) (FIN_sent_flag_ s)
            (RetryTimer.reset_timer tm), [front])
    end
  else (s1, []).

(** ** The inner loop reads exactly what the reference says *)

(** The peek/pop loop as one read, in the form the later lemmas use. *)
Lemma fill_read fuel L p i :
  ByteStream.inv i -> L - length p <= fuel ->
  let k := min (L - length p) (ByteStream.bytes_buffered i) in
  fst (fill fuel L p i) = p ++ firstn k (ByteStream.contents i) /\
  ByteStream.absr (snd (fill fuel L p i)) = StreamSpec.pop k (ByteStream.absr i) /\
  ByteStream.inv (snd (fill fuel L p i)).
Proof.
  revert p i. induction fuel as [|f IH]; intros p i I Hf; cbv zeta; simpl fill.
  - replace (min _ _) with 0 by lia. rewrite app_nil_r, StreamSpec.pop_0. auto.
  - destruct (negb _ && _) eqn:E.
    + bool_prop. pose proof (ByteStream.contents_length i I) as Hcl.
      destruct (ByteStream.peek_prefix i I) as [rest Hc].
      pose proof (ByteStream.peek_nonempty i I ltac:(lia)) as Hne. apply neq_nil_length in Hne.
      set (v := firstn (L - length p) (ByteStream.peek i)).
      assert (Hvl : length v = min (L - length p) (length (ByteStream.peek i)))
        by apply length_firstn.
      assert (Hpk : length (ByteStream.peek i) <= ByteStream.bytes_buffered i).
      { unfold ByteStream.bytes_buffered. rewrite <- Hcl, Hc, length_app. lia. }
      assert (Hv : v = firstn (length v) (ByteStream.contents i)).
      { rewrite Hc, firstn_app_le by lia. rewrite Hvl. symmetry. apply firstn_min_length. }
      assert (Ii : ByteStream.inv (ByteStream.pop (length v) i)) by (apply ByteStream.pop_inv; [exact I | lia]).
      pose proof (ByteStream.pop_refines i (length v) I ltac:(lia)) as Hr.
      pose proof (ByteStream.contents_length _ Ii) as Hcl'.
      assert (Hc' : ByteStream.contents (ByteStream.pop (length v) i) = skipn (length v) (ByteStream.contents i))
        by (apply (f_equal StreamSpec.buf) in Hr; exact Hr).
      rewrite Hc', length_skipn in Hcl'.
      destruct (IH (p ++ v) _ Ii ltac:(rewrite length_app; lia)) as (H1 & H2 & H3). cbv zeta in *.
      unfold ByteStream.bytes_buffered in *. rewrite <- Hcl', length_app in *. rewrite Hc' in H1.
      set (k' := min (L - (length p + length v)) (length (ByteStream.contents i) - length v)) in *.
      replace (min (L - length p) (ByteStream.buffered_sum_ i)) with (length v + k') by lia.
      rewrite H1, H2, firstn_plus, <- Hv, app_assoc, <- StreamSpec.pop_pop, <- Hr. auto.
    + apply andb_false_iff in E as [E|E]; bool_prop;
        (replace (min _ _) with 0 by lia); rewrite app_nil_r, StreamSpec.pop_0; auto.
Qed.

(** (C32) The peek/pop loop of [push] is equivalent to one read of
    [k = min (payload_len - |payload|) bytes_buffered] bytes: the payload
    is extended with the first [k] bytes of the stream, and the stream
    is the abstract stream with those [k] bytes popped.  [payload_len -
    |payload|] turns of fuel are enough. *)
Theorem fill_spec fuel L p i :
  ByteStream.inv i -> L - length p <= fuel ->
  let k := min (L - length p) (ByteStream.bytes_buffered i) in
  fst (fill fuel L p i) = p ++ firstn k (ByteStream.contents i) /\
  ByteStream.absr (snd (fill fuel L p i)) = StreamSpec.pop k (ByteStream.absr i) /\
  ByteStream.inv (snd (fill fuel L p i)).
Proof. intros I Hf. exact (fill_read fuel L p i I Hf). Qed.

(** When the reference reads nothing, the loop does not touch the stream. *)
Lemma fill_nothing fuel L p i :
  min (L - length p) (ByteStream.bytes_buffered i) = 0 -> fill fuel L p i = (p, i).
Proof.
  intros H. destruct fuel; simpl; [reflexivity|].
  destruct (Nat.eqb_spec (ByteStream.bytes_buffered i) 0), (Nat.ltb_spec (length p) L);
    simpl; reflexivity || lia.
Qed.

(** ** One turn of [push] *)

(** Open one turn of [push] past its FIN test: case on the SYN flag,
    read the payload through [fill_spec], case on the FIN test and on the
    empty-segment test, and name what is known of the payload [pl] and
    the new stream [inp]. *)
Ltac push_body_cases s I H :=
  let Hcl := fresh "Hcl" in pose proof (ByteStream.contents_length _ I) as Hcl;
  destruct (SYN_sent_flag_ s) eqn:HS; cbn [negb] in *;
  match type of H with context [fill (min ?M ?x) _ [] _] =>
  let L0 := fresh "L0" in let pl := fresh "pl" in let inp := fresh "inp" in
    set (L0 := min M x) in H; assert (HL0 : L0 <= x) by apply Nat.le_min_r; clearbody L0;
  pose proof (fill_read L0 L0 [] (input_ s) I ltac:(simpl; lia)) as F; cbv zeta in F;
  destruct (fill L0 L0 [] (input_ s)) as [pl inp] eqn:Hfill; simpl in F; destruct F as (F1 & F2 & F3);
  rewrite Nat.sub_0_r in F1, F2;
  (assert (Hpl : length pl = min L0 (ByteStream.bytes_buffered (input_ s)))
    by (rewrite F1, length_firstn; unfold ByteStream.bytes_buffered; lia));
  (assert (Hc : ByteStream.contents (input_ s) = pl ++ ByteStream.contents inp)
    by (pose proof (f_equal StreamSpec.buf F2) as Hb; unfold ByteStream.absr, StreamSpec.pop in Hb;
        simpl in Hb; rewrite Hb, F1; symmetry; apply firstn_skipn));
    (match type of H with context [if ?c then (true, true) else _] => destruct c eqn:Hfin end);
    (match type of H with context [if (sequence_length ?x =? 0) then _ else _] =>
       destruct (sequence_length x =? 0) eqn:Hz end); try discriminate
  end.

(** A turn that transmits [m]: [m] carries the next sequence number, a
    SYN exactly when none was sent, a payload read from the front of the
    input, and fits in what is left of the window; the state records it
    at the back of the queue and in both counters, with the timer
    running. *)
Lemma push_body_some s s1 m :
  ByteStream.inv (input_ s) -> push_body s = (s1, Some m) ->
  FIN_sent_flag_ s = false /\
  TCPReceiver.seqno m = Wrap32.wrap (Z.of_nat (next_seq_number_ s)) (isn_ s) /\
  TCPReceiver.SYN m = negb (SYN_sent_flag_ s) /\
  ByteStream.inv (input_ s1) /\
  ByteStream.absr (input_ s1) = StreamSpec.pop (length (TCPReceiver.payload m)) (ByteStream.absr (input_ s)) /\
  ByteStream.contents (input_ s) = TCPReceiver.payload m ++ ByteStream.contents (input_ s1) /\
  0 < sequence_length m /\
  (total_outgoing_seq_ s < effective_window s ->
   sequence_length m <= effective_window s - total_outgoing_seq_ s) /\
  RetryTimer.timer_active_ (retrans_timer_ s1) = true /\
  s1 = mk (input_ s1) (isn_ s) (initial_RTO_ms_ s) (next_seq_number_ s + sequence_length m)
          (ack_sequence_number_ s) (window_capacity_ s) (pending_messages_ s ++ [m])
          (total_outgoing_seq_ s + sequence_length m) (retrans_count_ s)
          true (TCPReceiver.FIN m) (retrans_timer_ s1).
Proof.
  intros I H. unfold push_body in H. destruct (FIN_sent_flag_ s) eqn:HF; [discriminate|].
  push_body_cases s I H; injection H as <- <-;
    bool_prop; unfold sequence_length, with_payload, RetryTimer.is_timer_active,
      RetryTimer.activate_timer in *; cbn in *;
    split_conj;
    solve [ reflexivity | assumption | lia | rewrite F2, Hpl; reflexivity
          | destruct (RetryTimer.timer_active_ (retrans_timer_ s)) eqn:Ht; cbn; auto ].
Qed.


(** A turn that breaks changes nothing: either FIN was sent, or nothing
    is left to send and the stream was not read. *)
Lemma push_body_none s s1 :
  ByteStream.inv (input_ s) -> push_body s = (s1, None) -> s1 = s.
Proof.
  intros I H. unfold push_body in H. destruct (FIN_sent_flag_ s) eqn:HF; [now injection H|].
  push_body_cases s I H; injection H as <-; bool_prop;
    unfold sequence_length, with_payload in *; cbn in *; try lia.
  assert (pl = []) as -> by (destruct pl; [reflexivity|simpl in *; lia]).
  rewrite fill_nothing in Hfill by (simpl in *; lia). injection Hfill as <-.
  destruct s; cbn in *; subst; reflexivity.
Qed.


(** The counters a transmitting turn moves, as equations on the fields. *)
Lemma push_body_fields s s1 m :
  ByteStream.inv (input_ s) -> push_body s = (s1, Some m) ->
  effective_window s1 = effective_window s /\
  total_outgoing_seq_ s1 = total_outgoing_seq_ s + sequence_length m /\
  0 < sequence_length m /\ ByteStream.inv (input_ s1) /\
  (total_outgoing_seq_ s < effective_window s ->
   sequence_length m <= effective_window s - total_outgoing_seq_ s) /\
  ByteStream.contents (input_ s) = TCPReceiver.payload m ++ ByteStream.contents (input_ s1).
Proof.
  intros I H. destruct (push_body_some s s1 m I H) as (_ & _ & _ & I1 & _ & Hc & Hpos & Hw & _ & Heq).
  pose proof (f_equal window_capacity_ Heq) as Hwin. pose proof (f_equal total_outgoing_seq_ Heq) as Ht.
  cbn in Hwin, Ht. unfold effective_window in *. rewrite Hwin, Ht. split_conj; auto.
Qed.

(** The inner loop only pops: the error flag of the input is unchanged. *)
Lemma fill_error f L p i : ByteStream.has_error (snd (fill f L p i)) = ByteStream.has_error i.
Proof.
  revert p i. induction f as [|f IH]; intros p i; cbn [fill]; [reflexivity|].
  destruct (_ && _); [|reflexivity]. rewrite IH.
  unfold ByteStream.pop, ByteStream.has_error. destruct (ByteStream.pop_loop _ _ _). reflexivity.
Qed.

(** A transmitted segment carries RST exactly when the input has an
    error ([make_empty_message]), and [push] leaves the flag alone. *)
Lemma push_body_error s s1 m :
  push_body s = (s1, Some m) ->
  TCPReceiver.RST m = ByteStream.has_error (input_ s) /\
  ByteStream.has_error (input_ s1) = ByteStream.has_error (input_ s).
Proof.
  unfold push_body. destruct (FIN_sent_flag_ s); [discriminate|].
  destruct (negb (SYN_sent_flag_ s));
    match goal with |- context [fill ?a ?b ?c ?d] =>
      pose proof (fill_error a b c d) as He; destruct (fill a b c d) as [pl inp] end;
    cbn [snd] in He; destruct (_ && _ && _); destruct (_ =? 0); intros H; try discriminate;
    injection H as <- <-; cbn; auto.
Qed.

(** ** Termination and the window *)

(** Two runs of the loop with more fuel than the window leaves agree. *)
Lemma push_loop_fuel f g s :
  ByteStream.inv (input_ s) ->
  effective_window s - total_outgoing_seq_ s < f ->
  effective_window s - total_outgoing_seq_ s < g ->
  push_loop f s = push_loop g s.
Proof.
  revert g s. induction f as [|f IH]; intros [|g] s I Hf Hg; try lia. simpl.
  destruct (Nat.ltb_spec (total_outgoing_seq_ s) (effective_window s)); [|reflexivity].
  destruct (push_body s) as [s1 [m|]] eqn:Hb; [|reflexivity].
  destruct (push_body_fields s s1 m I Hb) as (Hw & Ht & Hpos & I1 & _).
  rewrite (IH g s1 I1); [reflexivity | lia | lia].
Qed.

(** (C33) The unbounded [while] loop of [push] is reached: every amount of
    fuel above what the window leaves gives the same result as [push],
    so [push] is the loop run to completion. *)
Theorem push_terminates s f :
  ByteStream.inv (input_ s) -> effective_window s - total_outgoing_seq_ s < f ->
  push_loop f s = push s.
Proof. intros I Hf. apply push_loop_fuel; auto. lia. Qed.

Lemma push_loop_window f s :
  ByteStream.inv (input_ s) -> total_outgoing_seq_ s <= effective_window s ->
  total_outgoing_seq_ (fst (push_loop f s)) <= effective_window s.
Proof.
  revert s. induction f as [|f IH]; intros s I Hle; simpl; [exact Hle|].
  destruct (Nat.ltb_spec (total_outgoing_seq_ s) (effective_window s)); [|exact Hle].
  destruct (push_body s) as [s1 [m|]] eqn:Hb.
  - destruct (push_body_fields s s1 m I Hb) as (Hw & Ht & Hpos & I1 & Hfit & _).
    specialize (IH s1 I1). destruct (push_loop f s1) as [s2 out]. simpl in *.
    rewrite <- Hw. apply IH. specialize (Hfit ltac:(lia)). lia.
  - rewrite (push_body_none s s1 I Hb). exact Hle.
Qed.

(** (C27) [push] never puts more sequence numbers in flight than the
    effective window [max(window, 1)] allows, when it starts inside it:
    each segment is cut to what the window leaves. *)
Theorem push_within_window s :
  ByteStream.inv (input_ s) -> total_outgoing_seq_ s <= effective_window s ->
  total_outgoing_seq_ (fst (push s)) <= effective_window s.
Proof. apply push_loop_window. Qed.

(** (C10) The payloads [push] transmits are exactly the bytes it reads
    from the input stream, in order: nothing is lost or duplicated
    between the stream and the wire. *)
Theorem push_reads_stream f s :
  ByteStream.inv (input_ s) ->
  ByteStream.contents (input_ s) =
  concat (map TCPReceiver.payload (snd (push_loop f s))) ++
  ByteStream.contents (input_ (fst (push_loop f s))).
Proof.
  revert s. induction f as [|f IH]; intros s I; simpl; [reflexivity|].
  destruct (_ <? _); [|reflexivity].
  destruct (push_body s) as [s1 [m|]] eqn:Hb.
  - destruct (push_body_fields s s1 m I Hb) as (_ & _ & _ & I1 & _ & Hc).
    specialize (IH s1 I1). destruct (push_loop f s1) as [s2 out]. simpl in *.
    rewrite Hc, IH, app_assoc. reflexivity.
  - rewrite (push_body_none s s1 I Hb). reflexivity.
Qed.


(** ** The sender's invariant *)

(** Sequence numbers in flight in a queue of segments. *)
Definition in_flight (q : list TCPSenderMessage) : nat := list_sum (map sequence_length q).

(** The outstanding segments are non-empty and back to back: the first
    starts at absolute sequence number [a], each next one where the
    previous ends, and each carries its start wrapped against the ISN. *)
Fixpoint contiguous (isn : Z) (a : nat) (q : list TCPSenderMessage) : Prop :=
  match q with
  | [] => True
  | m :: q' => TCPReceiver.seqno m = Wrap32.wrap (Z.of_nat a) isn /\ 0 < sequence_length m /\
               contiguous isn (a + sequence_length m) q'
  end.

(** Whether a queue holds a segment ([!pending_messages_.empty()]). *)
Definition nonempty {A} (q : list A) : bool := match q with [] => false | _ => true end.

Record sinv (s : t) : Prop := {
  sinv_input : ByteStream.inv (input_ s);
  sinv_total : total_outgoing_seq_ s = in_flight (pending_messages_ s);
  sinv_next : next_seq_number_ s = ack_sequence_number_ s + total_outgoing_seq_ s;
  sinv_read : next_seq_number_ s = ByteStream.bytes_popped (input_ s) +
                (if SYN_sent_flag_ s then 1 else 0) + (if FIN_sent_flag_ s then 1 else 0);
  sinv_timer : RetryTimer.timer_active_ (retrans_timer_ s) = nonempty (pending_messages_ s);
  sinv_contig : contiguous (isn_ s) (ack_sequence_number_ s) (pending_messages_ s)
}.

Lemma in_flight_app q1 q2 : in_flight (q1 ++ q2) = in_flight q1 + in_flight q2.
Proof. unfold in_flight. now rewrite map_app, list_sum_app. Qed.

Lemma contiguous_snoc isn a q m :
  contiguous isn a q -> TCPReceiver.seqno m = Wrap32.wrap (Z.of_nat (a + in_flight q)) isn ->
  0 < sequence_length m -> contiguous isn a (q ++ [m]).
Proof.
  revert a. induction q as [|m' q IH]; intros a Hc Hs Hp; simpl in *.
  - rewrite Nat.add_0_r in Hs. auto.
  - destruct Hc as (? & ? & Hc). split_conj; auto. apply IH; auto.
    unfold in_flight in *. simpl in Hs. now rewrite <- Nat.add_assoc.
Qed.

Lemma nonempty_snoc {A} (q : list A) x : nonempty (q ++ [x]) = true.
Proof. destruct q; reflexivity. Qed.

Lemma push_body_sinv s : sinv s -> sinv (fst (push_body s)).
Proof.
  intros I. destruct (push_body s) as [s1 [m|]] eqn:Hb; simpl.
  - destruct (push_body_some s s1 m (sinv_input _ I) Hb)
      as (HF & Hseq & Hsyn & I1 & Ha & _ & Hpos & _ & Ht & Heq).
    pose proof (f_equal StreamSpec.popped Ha) as Hpop. cbn in Hpop.
    destruct I as [Ii Htot Hn Hr Htm Hc]. rewrite Heq.
    split; cbn -[in_flight nonempty sequence_length]; auto.
    + rewrite in_flight_app, Htot. unfold in_flight. simpl. lia.
    + lia.
    + unfold ByteStream.bytes_popped, sequence_length in *. rewrite Hpop, HF, Hsyn in *.
      destruct (SYN_sent_flag_ s), (TCPReceiver.FIN m); simpl; lia.
    + now rewrite nonempty_snoc.
    + apply contiguous_snoc; auto. now rewrite <- Htot, <- Hn.
  - now rewrite (push_body_none s s1 (sinv_input _ I) Hb).
Qed.

Lemma push_loop_sinv f s : sinv s -> sinv (fst (push_loop f s)).
Proof.
  revert s. induction f as [|f IH]; intros s I; simpl; [exact I|].
  destruct (_ <? _); [|exact I].
  pose proof (push_body_sinv s I) as I1.
  destruct (push_body s) as [s1 [m|]]; simpl in *; [|exact I1].
  specialize (IH s1 I1). destruct (push_loop f s1). exact IH.
Qed.


(** The timer operations and the active flag. *)
Lemma timer_active_ops tm ms init :
  RetryTimer.timer_active_ (RetryTimer.activate_timer tm) = true /\
  RetryTimer.timer_active_ (RetryTimer.deactivate_timer tm) = false /\
  RetryTimer.timer_active_ (RetryTimer.reset_timer tm) = RetryTimer.timer_active_ tm /\
  RetryTimer.timer_active_ (RetryTimer.reload_timer init tm) = RetryTimer.timer_active_ tm /\
  RetryTimer.timer_active_ (RetryTimer.apply_exponential_backoff tm) = RetryTimer.timer_active_ tm /\
  RetryTimer.timer_active_ (RetryTimer.advance_timer ms tm) = RetryTimer.timer_active_ tm.
Proof.
  unfold RetryTimer.activate_timer, RetryTimer.deactivate_timer, RetryTimer.advance_timer.
  destruct (RetryTimer.timer_active_ tm) eqn:E; cbn; rewrite ?E; split_conj; auto.
Qed.

(** The acknowledgement loop removes a prefix of the queue, moving
    [ack_sequence_number_] forward by what it removes. *)
Lemma ack_loop_spec isn received a tot q acked :
  contiguous isn a q -> tot = in_flight q ->
  let '(a', tot', q', acked') := ack_loop received a tot q acked in
  a' + tot' = a + tot /\ tot' = in_flight q' /\ contiguous isn a' q' /\
  ((acked' = acked /\ q' = q /\ a' = a) \/ acked' = true).
Proof.
  revert a tot acked. induction q as [|m q IH]; intros a tot acked Hc Ht; simpl; [subst; split_conj; auto|].
  destruct (Z.ltb_spec received (Z.of_nat (a + sequence_length m))); [split; [reflexivity|]; split; [exact Ht|]; split; [exact Hc|]; left; auto|].
  destruct Hc as (_ & _ & Hc). unfold in_flight in Ht. simpl in Ht.
  specialize (IH (a + sequence_length m) (tot - sequence_length m) true Hc ltac:(unfold in_flight; lia)).
  destruct (ack_loop _ _ _ _ _) as [[[a' tot'] q'] acked']. destruct IH as (H1 & H2 & H3 & H4).
  split; [lia|]. split; [exact H2|]. split; [exact H3|]. right. destruct H4 as [(-> & _ & _)| ->]; auto.
Qed.

Lemma set_error_popped i : ByteStream.bytes_popped (ByteStream.set_error i) = ByteStream.bytes_popped i.
Proof. reflexivity. Qed.

Lemma receive_sinv msg s : sinv s -> sinv (receive msg s).
Proof.
  intros I. destruct (timer_active_ops (RetryTimer.reload_timer (initial_RTO_ms_ s) (retrans_timer_ s))
                        0%Z 0%Z) as (Ha & Hd & _).
  destruct I as [Ii Htot Hn Hr Htm Hc]. unfold receive.
  destruct (_ || _).
  - destruct (TCPReceiver.RST_flag msg); [|split; auto].
    split; cbn; auto. now apply ByteStream.set_error_inv.
  - destruct (TCPReceiver.ackno msg) as [a|]; [|split; auto].
    destruct (_ <? _)%Z; [split; auto|].
    pose proof (ack_loop_spec (isn_ s) (Wrap32.unwrap a (isn_ s) (Z.of_nat (next_seq_number_ s)))
                  _ _ _ false Hc Htot) as Hl.
    destruct (ack_loop _ _ _ _ _) as [[[a' tot'] q'] acked']. destruct Hl as (H1 & H2 & H3 & H4).
    destruct acked'.
    + split; cbn; auto; try lia. destruct q'; assumption.
    + destruct H4 as [(_ & -> & ->)|]; [|discriminate]. split; cbn; auto; lia.
Qed.

Lemma tick_sinv ms s : sinv s -> sinv (fst (tick ms s)).
Proof.
  intros [Ii Htot Hn Hr Htm Hc]. unfold tick.
  set (tm := RetryTimer.advance_timer ms (retrans_timer_ s)).
  destruct (timer_active_ops (retrans_timer_ s) ms 0%Z) as (_ & _ & _ & _ & _ & Hadv).
  destruct (timer_active_ops tm 0%Z 0%Z) as (_ & _ & Hrs & _ & Hbo & _).
  destruct (timer_active_ops (RetryTimer.apply_exponential_backoff tm) 0%Z 0%Z) as (_ & _ & Hrs' & _).
  fold tm in Hadv.
  destruct (RetryTimer.has_timer_expired tm); [destruct (pending_messages_ s) eqn:Hp|];
    [| destruct (negb _) | ]; split; cbn; auto; unfold nonempty in *; congruence.
Qed.


(** ** Runs of the sender *)

(** The calls a sender sees: [push] and [tick] from the TCP connection,
    [receive] from the peer, and the application writing to or closing
    the input stream through [writer()]. *)
Inductive event :=
| Push
| Receive (msg : TCPReceiverMessage)
| Tick (ms : Z)
| WriterPush (data : bytes)
| WriterClose.

Definition step (e : event) (s : t) : t * list TCPSenderMessage :=
  match e with
  | Push => push s
  | Receive msg => (receive msg s, [])
  | Tick ms => tick ms s
  | WriterPush data => (set_input (ByteStream.push data (input_ s)) s, [])
  | WriterClose => (set_input (ByteStream.close (input_ s)) s, [])
  end.

(** The final state and every segment transmitted, in order. *)
Fixpoint run (es : list event) (s : t) : t * list TCPSenderMessage :=
  match es with
  | [] => (s, [])
  | e :: es' =>
      let '(s1, out1) := step e s in
      let '(s2, out2) := run es' s1 in (s2, out1 ++ out2)
  end.

Lemma writer_sinv s i :
  sinv s -> ByteStream.inv i -> ByteStream.bytes_popped i = ByteStream.bytes_popped (input_ s) ->
  sinv (set_input i s).
Proof. intros [] Hi Hp. split; cbn; auto. congruence. Qed.

Lemma step_sinv e s : sinv s -> sinv (fst (step e s)).
Proof.
  intros I. pose proof (sinv_input _ I) as Ii. destruct e as [| msg | ms | data |]; simpl.
  - apply push_loop_sinv, I.
  - apply receive_sinv, I.
  - apply tick_sinv, I.
  - apply writer_sinv; auto using ByteStream.push_inv.
    unfold ByteStream.push. destruct (_ || _ || _); reflexivity.
  - apply writer_sinv; auto using ByteStream.close_inv.
Qed.

Lemma create_sinv cap isn rto : sinv (create (ByteStream.create cap) isn rto).
Proof. split; cbn; auto using ByteStream.inv_create. Qed.

Lemma run_preserves_sinv es s : sinv s -> sinv (fst (run es s)).
Proof.
  revert s. induction es as [|e es IH]; intros s I; simpl; [exact I|].
  pose proof (step_sinv e s I) as I1. destruct (step e s) as [s1 o1].
  specialize (IH s1 I1). destruct (run es s1). exact IH.
Qed.

(** (C9) Every state reached from a fresh sender, through any sequence of
    pushes, acknowledgements, ticks and writes, satisfies the sender
    invariant: [sequence_numbers_in_flight] is the sum of the sequence
    lengths of the outstanding segments, [next_seq_number_ =
    ack_sequence_number_ + in flight = bytes popped + SYN + FIN], the
    timer runs exactly when a segment is outstanding, and the
    outstanding segments are back to back from [ack_sequence_number_]. *)
Theorem run_sinv cap isn rto es : sinv (fst (run es (create (ByteStream.create cap) isn rto))).
Proof. apply run_preserves_sinv, create_sinv. Qed.



(** ** The timer's fields stay [uint64_t] values *)

Definition tm_ok (tm : RetryTimer.t) : Prop :=
  (0 <= RetryTimer.RTO_duration_ms_ tm < 2 ^ 64)%Z /\
  (0 <= RetryTimer.timer_elapsed_ms_ tm < 2 ^ 64)%Z.

(** The [uint64_t] fields of the sender's timer, and the initial RTO it
    reloads, are 64-bit values. *)
Definition timer_typed (s : t) : Prop :=
  (0 <= initial_RTO_ms_ s < 2 ^ 64)%Z /\ tm_ok (retrans_timer_ s).

Lemma tm_ok_ops tm ms init :
  tm_ok tm -> (0 <= init < 2 ^ 64)%Z ->
  tm_ok (RetryTimer.activate_timer tm) /\ tm_ok (RetryTimer.deactivate_timer tm) /\
  tm_ok (RetryTimer.reset_timer tm) /\ tm_ok (RetryTimer.reload_timer init tm) /\
  tm_ok (RetryTimer.apply_exponential_backoff tm) /\ tm_ok (RetryTimer.advance_timer ms tm).
Proof.
  unfold tm_ok, RetryTimer.activate_timer, RetryTimer.deactivate_timer, RetryTimer.reload_timer,
    RetryTimer.apply_exponential_backoff, RetryTimer.advance_timer, RetryTimer.reset_timer.
  intros Hok Hi.
  pose proof (u64_range (Z.shiftl (RetryTimer.RTO_duration_ms_ tm) 1)).
  pose proof (u64_range (RetryTimer.timer_elapsed_ms_ tm + ms)).
  destruct (RetryTimer.timer_active_ tm);
    cbn [negb RetryTimer.RTO_duration_ms_ RetryTimer.timer_elapsed_ms_ RetryTimer.timer_active_];
    split_conj; lia.
Qed.

(** A turn of [push] keeps the initial RTO and leaves the timer alone or
    starts it. *)
Lemma push_body_timer s :
  initial_RTO_ms_ (fst (push_body s)) = initial_RTO_ms_ s /\
  (retrans_timer_ (fst (push_body s)) = retrans_timer_ s \/
   retrans_timer_ (fst (push_body s)) = RetryTimer.activate_timer (retrans_timer_ s)).
Proof.
  unfold push_body, RetryTimer.is_timer_active. destruct (FIN_sent_flag_ s); [now split; [|left]|].
  destruct (negb (SYN_sent_flag_ s)); destruct (fill _ _ _ _); destruct (_ && _ && _);
    destruct (_ =? 0); cbn; (split; [reflexivity|]); try (now left);
    (destruct (RetryTimer.timer_active_ (retrans_timer_ s)); cbn; [left|right]; reflexivity).
Qed.

Lemma push_loop_typed f s : timer_typed s -> timer_typed (fst (push_loop f s)).
Proof.
  revert s. induction f as [|f IH]; intros s T; cbn [push_loop]; [exact T|].
  destruct (total_outgoing_seq_ s <? effective_window s); [|exact T].
  assert (I1 : timer_typed (fst (push_body s))).
  { destruct T as [Hi Hok]. unfold timer_typed.
    destruct (push_body_timer s) as [-> [-> | ->]]; split; auto. apply (tm_ok_ops _ 0%Z _ Hok Hi). }
  destruct (push_body s) as [s1 [m|]]; cbn [fst] in *; [|exact I1].
  specialize (IH s1 I1). destruct (push_loop f s1). exact IH.
Qed.

Lemma receive_typed msg s : timer_typed s -> timer_typed (receive msg s).
Proof.
  intros [Hi Hok]. set (tm := RetryTimer.reload_timer (initial_RTO_ms_ s) (retrans_timer_ s)).
  destruct (tm_ok_ops _ 0%Z _ Hok Hi) as (_ & _ & _ & Hrl & _).
  destruct (tm_ok_ops tm 0%Z _ Hrl Hi) as (Ha & Hd & _). fold tm in Hrl.
  unfold receive. destruct (_ || _); [destruct (TCPReceiver.RST_flag msg); split; assumption|].
  destruct (TCPReceiver.ackno msg); [|split; assumption]. destruct (_ <? _)%Z; [split; assumption|].
  destruct (ack_loop _ _ _ _ _) as [[[a tot] q] []]; cbn; (split; [exact Hi|]); [|exact Hok].
  fold tm. destruct q; assumption.
Qed.

Lemma tick_typed ms s : timer_typed s -> timer_typed (fst (tick ms s)).
Proof.
  intros [Hi Hok]. destruct (tm_ok_ops _ ms _ Hok Hi) as (_ & _ & _ & _ & _ & Hadv).
  set (tm := RetryTimer.advance_timer ms (retrans_timer_ s)) in Hadv.
  destruct (tm_ok_ops tm 0%Z _ Hadv Hi) as (_ & _ & Hrs & _ & Hbo & _).
  destruct (tm_ok_ops _ 0%Z _ Hbo Hi) as (_ & _ & Hrs' & _).
  unfold tick. fold tm. destruct (RetryTimer.has_timer_expired tm); [|split; assumption].
  destruct (pending_messages_ s); [split; assumption|].
  destruct (negb _); split; assumption.
Qed.

Lemma run_preserves_typed es s : timer_typed s -> timer_typed (fst (run es s)).
Proof.
  revert s. induction es as [|e es IH]; intros s T; cbn; [exact T|].
  assert (T1 : timer_typed (fst (step e s))).
  { destruct e; cbn [step fst];
      [apply push_loop_typed | apply receive_typed | apply tick_typed | exact T | exact T]; exact T. }
  destruct (step e s) as [s1 o1]. specialize (IH s1 T1). destruct (run es s1). exact IH.
Qed.

(** The [uint64_t] fields of the retransmission timer
    ([RTO_duration_ms_], [timer_elapsed_ms_]) and the initial RTO hold
    64-bit values in every state a sender created with a 64-bit initial
    RTO reaches: the doubling and the [+=] wrap, they never leave the
    type. *)
Theorem run_timer_typed cap isn rto es :
  (0 <= rto < 2 ^ 64)%Z -> timer_typed (fst (run es (create (ByteStream.create cap) isn rto))).
Proof.
  intros Hr. apply run_preserves_typed. unfold timer_typed, tm_ok. cbn. lia.
Qed.

(** ** Retransmission and acknowledgement *)

(** On expiry with a segment outstanding, [tick] retransmits the
    oldest outstanding segment, which carries [ack_sequence_number_]
    wrapped against the ISN, restarts the timer, and backs off (one more
    consecutive retransmission, RTO doubled in 64 bits) exactly when the
    last advertised window was nonzero. *)
Theorem tick_expired ms s front rest :
  sinv s -> pending_messages_ s = front :: rest ->
  RetryTimer.has_timer_expired (RetryTimer.advance_timer ms (retrans_timer_ s)) = true ->
  let s' := fst (tick ms s) in
  snd (tick ms s) = [front] /\
  TCPReceiver.seqno front = Wrap32.wrap (Z.of_nat (ack_sequence_number_ s)) (isn_ s) /\
  RetryTimer.timer_elapsed_ms_ (retrans_timer_ s') = 0%Z /\
  (if window_capacity_ s =? 0
   then retrans_count_ s' = retrans_count_ s /\
        RetryTimer.RTO_duration_ms_ (retrans_timer_ s') = RetryTimer.RTO_duration_ms_ (retrans_timer_ s)
   else retrans_count_ s' = retrans_count_ s + 1 /\
        RetryTimer.RTO_duration_ms_ (retrans_timer_ s') =
        u64 (2 * RetryTimer.RTO_duration_ms_ (retrans_timer_ s))).
Proof.
  intros I Hp He. pose proof (sinv_contig _ I) as Hc. rewrite Hp in Hc. destruct Hc as (Hs & _).
  unfold tick. rewrite He, Hp. cbv zeta.
  assert (Hrto : RetryTimer.RTO_duration_ms_ (RetryTimer.advance_timer ms (retrans_timer_ s)) =
                 RetryTimer.RTO_duration_ms_ (retrans_timer_ s))
    by (unfold RetryTimer.advance_timer; destruct (RetryTimer.timer_active_ _); reflexivity).
  destruct (Nat.eqb_spec (window_capacity_ s) 0); cbn; split_conj; auto.
  rewrite Hrto. reflexivity.
Qed.

(** The acknowledgement of everything outstanding empties the queue. *)
Lemma ack_loop_all isn a tot q acked :
  contiguous isn a q ->
  ack_loop (Z.of_nat (a + in_flight q)) a tot q acked =
  (a + in_flight q, tot - in_flight q, [], acked || nonempty q).
Proof.
  revert a tot acked. induction q as [|m q IH]; intros a tot acked Hc; simpl.
  - unfold in_flight. simpl. rewrite Nat.add_0_r, Nat.sub_0_r, orb_false_r. reflexivity.
  - destruct Hc as (_ & _ & Hc). unfold in_flight in *. simpl.
    destruct (Z.ltb_spec (Z.of_nat (a + (sequence_length m + list_sum (map sequence_length q))))
                         (Z.of_nat (a + sequence_length m))); [lia|].
    rewrite Nat.add_assoc, IH by exact Hc. rewrite orb_true_r.
    match goal with |- (?x1, ?y1, _, _) = (?x2, ?y2, _, _) =>
      replace x1 with x2 by lia; replace y1 with y2 by lia; reflexivity end.
Qed.

(** An acknowledgement of everything sent ([ackno = wrap
    (next_seq_number_)]) with segments outstanding clears the queue,
    brings [ack_sequence_number_] to [next_seq_number_], resets the
    retransmission count, restores the initial RTO and stops the timer;
    the window is the advertised one. *)
Theorem receive_full_ack msg s :
  sinv s -> ByteStream.has_error (input_ s) = false -> TCPReceiver.RST_flag msg = false ->
  TCPReceiver.ackno msg = Some (Wrap32.wrap (Z.of_nat (next_seq_number_ s)) (isn_ s)) ->
  (Z.of_nat (next_seq_number_ s) < 2 ^ 64)%Z -> pending_messages_ s <> [] ->
  let s' := receive msg s in
  pending_messages_ s' = [] /\ total_outgoing_seq_ s' = 0 /\
  ack_sequence_number_ s' = next_seq_number_ s /\ retrans_count_ s' = 0 /\
  RetryTimer.timer_active_ (retrans_timer_ s') = false /\
  RetryTimer.RTO_duration_ms_ (retrans_timer_ s') = initial_RTO_ms_ s /\
  window_capacity_ s' = Z.to_nat (u16 (TCPReceiver.window_size msg)).
Proof.
  intros [Ii Htot Hn Hr Htm Hc] He Hrst Ha Hlt Hne. unfold receive.
  rewrite He, Hrst, Ha. simpl. rewrite Wrap32.unwrap_wrap_at by lia. rewrite Z.ltb_irrefl.
  rewrite Hn, Htot, (ack_loop_all (isn_ s)) by exact Hc.
  destruct (pending_messages_ s) as [|m q]; [congruence|]. cbn. split_conj; auto; try lia;
    unfold RetryTimer.deactivate_timer, RetryTimer.reload_timer, RetryTimer.reset_timer; cbn;
    destruct (RetryTimer.timer_active_ (retrans_timer_ s)); reflexivity.
Qed.

(** The acknowledgement loop removes the longest prefix of the queue
    whose segments are all acknowledged: each removed segment ends at or
    before [received], and the first one kept ends after it. *)
Lemma ack_loop_prefix isn received a tot q acked :
  contiguous isn a q ->
  let '(a', tot', q', acked') := ack_loop received a tot q acked in
  exists pre, q = pre ++ q' /\ a' = a + in_flight pre /\ tot' = tot - in_flight pre /\
    (pre = [] \/ (Z.of_nat a' <= received)%Z) /\
    (forall m q'', q' = m :: q'' -> (received < Z.of_nat (a' + sequence_length m))%Z) /\
    acked' = acked || nonempty pre.
Proof.
  revert a tot acked. induction q as [|m q IH]; intros a tot acked Hc; cbn [ack_loop].
  - exists []. cbn. rewrite Nat.add_0_r, Nat.sub_0_r, orb_false_r. split_conj; auto. discriminate.
  - destruct (Z.ltb_spec received (Z.of_nat (a + sequence_length m))) as [Hlt|Hge].
    + exists []. cbn. rewrite Nat.add_0_r, Nat.sub_0_r, orb_false_r. split_conj; auto.
      intros m' q'' [= <- <-]. exact Hlt.
    + destruct Hc as (_ & _ & Hc). specialize (IH (a + sequence_length m) (tot - sequence_length m) true Hc).
      destruct (ack_loop _ _ _ _ _) as [[[a' tot'] q'] acked'].
      destruct IH as (pre & -> & -> & -> & Hle & Hnext & ->).
      exists (m :: pre). unfold in_flight in *. simpl map. simpl list_sum. cbn [app nonempty].
      rewrite orb_true_r. split_conj; auto; try lia.
      right. destruct Hle as [->|Hle]; [cbn; lia | exact Hle].
Qed.

(** (C28) [receive] of a valid acknowledgement ([ackno] at most
    [next_seq_number_]) on every path of its loop: the queue loses
    exactly its longest fully acknowledged prefix, and no more (a
    segment is removed only once [ackno] reaches its end, never on a
    partial acknowledgement); [ack_sequence_number_] moves by the
    sequence numbers removed; if something was removed the count is
    reset, the RTO restored and the timer runs exactly while segments
    remain, else neither is touched; the window is recorded. *)
Theorem receive_partial_ack msg s raw :
  sinv s -> ByteStream.has_error (input_ s) = false -> TCPReceiver.RST_flag msg = false ->
  TCPReceiver.ackno msg = Some raw ->
  let received := Wrap32.unwrap raw (isn_ s) (Z.of_nat (next_seq_number_ s)) in
  (received <= Z.of_nat (next_seq_number_ s))%Z ->
  let s' := receive msg s in
  exists pre, pending_messages_ s = pre ++ pending_messages_ s' /\
    ack_sequence_number_ s' = ack_sequence_number_ s + in_flight pre /\
    (pre = [] \/ (Z.of_nat (ack_sequence_number_ s') <= received)%Z) /\
    (forall m q, pending_messages_ s' = m :: q ->
       (received < Z.of_nat (ack_sequence_number_ s' + sequence_length m))%Z) /\
    (pre <> [] -> retrans_count_ s' = 0 /\
                 RetryTimer.RTO_duration_ms_ (retrans_timer_ s') = initial_RTO_ms_ s /\
                 RetryTimer.timer_active_ (retrans_timer_ s') = nonempty (pending_messages_ s')) /\
    (pre = [] -> retrans_count_ s' = retrans_count_ s /\ retrans_timer_ s' = retrans_timer_ s) /\
    window_capacity_ s' = Z.to_nat (u16 (TCPReceiver.window_size msg)).
Proof.
  intros I He Hrst Ha received Hle. cbv zeta. unfold receive.
  rewrite He, Hrst, Ha. cbn [orb]. fold received.
  destruct (Z.ltb_spec (Z.of_nat (next_seq_number_ s)) received); [lia|].
  pose proof (ack_loop_prefix (isn_ s) received (ack_sequence_number_ s) (total_outgoing_seq_ s)
                (pending_messages_ s) false (sinv_contig _ I)) as Hl.
  destruct (ack_loop _ _ _ _ _) as [[[a' tot'] q'] acked'].
  destruct Hl as (pre & Hq & Ha' & _ & Hpre & Hnext & Hack). cbn [orb] in Hack. subst acked'.
  exists pre. destruct pre as [|m0 pre]; cbn [nonempty] in *.
  - cbn. split_conj; auto. intros []; reflexivity.
  - cbn. split_conj; auto; [|discriminate].
    intros _. unfold RetryTimer.deactivate_timer, RetryTimer.activate_timer, RetryTimer.reload_timer,
      RetryTimer.reset_timer.
    destruct q'; cbn; destruct (RetryTimer.timer_active_ (retrans_timer_ s)); split_conj; reflexivity.
Qed.

(** ** Error paths of [receive] *)

Lemma set_input_errored s :
  ByteStream.has_error (input_ s) = true -> set_input (ByteStream.set_error (input_ s)) s = s.
Proof. destruct s as [[] ? ? ? ? ? ? ? ? ? ? ?]. cbn. intros ->. reflexivity. Qed.

(** (C24) Error paths of [receive]: a message with RST sets the input
    stream's error flag and changes nothing else; a sender whose input
    has an error ignores every message; an acknowledgement beyond
    [next_seq_number_] (of a segment never sent) only records the
    window. *)
Theorem receive_error_paths msg s :
  (TCPReceiver.RST_flag msg = true -> receive msg s = set_input (ByteStream.set_error (input_ s)) s) /\
  (ByteStream.has_error (input_ s) = true -> receive msg s = s) /\
  (forall a, ByteStream.has_error (input_ s) = false -> TCPReceiver.RST_flag msg = false ->
   TCPReceiver.ackno msg = Some a ->
   (Z.of_nat (next_seq_number_ s) < Wrap32.unwrap a (isn_ s) (Z.of_nat (next_seq_number_ s)))%Z ->
   receive msg s = set_window (Z.to_nat (u16 (TCPReceiver.window_size msg))) s).
Proof.
  unfold receive. split_conj.
  - intros ->. now rewrite orb_true_r.
  - intros He. rewrite He. cbn [orb].
    destruct (TCPReceiver.RST_flag msg); [apply set_input_errored, He | reflexivity].
  - intros a He Hr Ha Hlt. rewrite He, Hr, Ha. cbn [orb]. apply Z.ltb_lt in Hlt. now rewrite Hlt.
Qed.

(** A duplicate acknowledgement (one at or below [ack_sequence_number_])
    removes nothing: every outstanding segment has a positive length. *)
Lemma ack_loop_stale isn received a tot q acked :
  contiguous isn a q -> (received <= Z.of_nat a)%Z ->
  ack_loop received a tot q acked = (a, tot, q, acked).
Proof.
  intros Hc Hr. destruct q as [|m q]; [reflexivity|]. destruct Hc as (_ & Hpos & _).
  cbn [ack_loop]. rewrite (proj2 (Z.ltb_lt _ _)) by lia. reflexivity.
Qed.

(** (C38) The peer may shrink the window below what is in flight, and the
    code lets it: a duplicate acknowledgement with window [w] only sets
    [window_capacity_] to [w], keeping every outstanding segment, so
    when [max(w, 1)] is below the sequence numbers in flight the sender
    is left with more in flight than its window, and [push] sends
    nothing and changes nothing.  The spec's "max(window, 1) >= in
    flight after any push" does not hold of such states. *)
Theorem shrunk_window_exceeded msg s raw :
  sinv s -> ByteStream.has_error (input_ s) = false -> TCPReceiver.RST_flag msg = false ->
  TCPReceiver.ackno msg = Some raw ->
  (Wrap32.unwrap raw (isn_ s) (Z.of_nat (next_seq_number_ s)) <= Z.of_nat (ack_sequence_number_ s))%Z ->
  receive msg s = set_window (Z.to_nat (u16 (TCPReceiver.window_size msg))) s /\
  (Nat.max (Z.to_nat (u16 (TCPReceiver.window_size msg))) 1 < sequence_numbers_in_flight s ->
   effective_window (receive msg s) < sequence_numbers_in_flight (receive msg s) /\
   push (receive msg s) = (receive msg s, [])).
Proof.
  intros I He Hr Ha Hle.
  assert (Hrecv : receive msg s = set_window (Z.to_nat (u16 (TCPReceiver.window_size msg))) s).
  { unfold receive. rewrite He, Hr, Ha. cbn [orb].
    pose proof (sinv_next _ I) as Hn.
    rewrite (proj2 (Z.ltb_ge _ _)) by lia.
    rewrite (ack_loop_stale _ _ _ _ _ false (sinv_contig _ I) Hle). reflexivity. }
  split; [exact Hrecv|]. intros Hw. rewrite Hrecv.
  unfold effective_window, sequence_numbers_in_flight, push in *. cbn [window_capacity_ total_outgoing_seq_ set_window].
  assert (Heff : (if Z.to_nat (u16 (TCPReceiver.window_size msg)) =? 0 then 1
                  else Z.to_nat (u16 (TCPReceiver.window_size msg))) < total_outgoing_seq_ s)
    by (destruct (Nat.eqb_spec (Z.to_nat (u16 (TCPReceiver.window_size msg))) 0); lia).
  split; [exact Heff|]. cbn [push_loop window_capacity_ total_outgoing_seq_ set_window].
  unfold effective_window. cbn [window_capacity_ set_window].
  rewrite (proj2 (Nat.ltb_ge _ _)) by lia. reflexivity.
Qed.

(** (C39) [RTO_duration_ms_ <<= 1] is a 64-bit shift: after [k] backoffs
    the RTO is [RTO * 2^k mod 2^64], so after 64 backoffs (sooner when
    the RTO has factors of 2) it is 0 whatever it was, and from then on
    a running timer counts as expired on every tick, even one of 0 ms,
    right after it is reset. *)
Theorem backoff_wraps k tm :
  (0 <= RetryTimer.RTO_duration_ms_ tm < 2 ^ 64)%Z ->
  let tm' := Nat.iter k RetryTimer.apply_exponential_backoff tm in
  RetryTimer.RTO_duration_ms_ tm' = (RetryTimer.RTO_duration_ms_ tm * 2 ^ Z.of_nat k mod 2 ^ 64)%Z /\
  (64 <= k -> RetryTimer.RTO_duration_ms_ tm' = 0%Z /\
   RetryTimer.has_timer_expired (RetryTimer.advance_timer 0 (RetryTimer.reset_timer tm')) =
     RetryTimer.timer_active_ tm).
Proof.
  intros Hr. cbv zeta.
  assert (Hf : forall j, RetryTimer.RTO_duration_ms_ (Nat.iter j RetryTimer.apply_exponential_backoff tm) =
                         (RetryTimer.RTO_duration_ms_ tm * 2 ^ Z.of_nat j mod 2 ^ 64)%Z /\
                         RetryTimer.timer_active_ (Nat.iter j RetryTimer.apply_exponential_backoff tm) =
                         RetryTimer.timer_active_ tm).
  { induction j as [|j [IH Ha]].
    - cbn [Nat.iter]. rewrite Z.mul_1_r, Z.mod_small by lia. auto.
    - rewrite Nat.iter_succ.
      cbn [RetryTimer.RTO_duration_ms_ RetryTimer.timer_active_ RetryTimer.apply_exponential_backoff].
      rewrite IH, Ha. split; [|reflexivity]. unfold u64. rewrite Z.shiftl_mul_pow2 by lia.
      rewrite Z.mul_mod_idemp_l by lia. f_equal. rewrite Nat2Z.inj_succ, Z.pow_succ_r by lia. ring. }
  destruct (Hf k) as [Hk Ha]. split; [exact Hk|]. intros H64.
  assert (H0 : RetryTimer.RTO_duration_ms_ (Nat.iter k RetryTimer.apply_exponential_backoff tm) = 0%Z).
  { rewrite Hk. replace (Z.of_nat k) with (Z.of_nat k - 64 + 64)%Z by lia.
    rewrite Z.pow_add_r by lia. rewrite Z.mul_assoc. apply Z.mod_mul. lia. }
  split; [exact H0|]. unfold RetryTimer.has_timer_expired, RetryTimer.advance_timer, RetryTimer.reset_timer.
  cbn [RetryTimer.timer_active_ RetryTimer.RTO_duration_ms_ RetryTimer.timer_elapsed_ms_]. rewrite Ha, H0.
  destruct (RetryTimer.timer_active_ tm); reflexivity.
Qed.

(** ** Liveness of retransmission *)

(** The longest tick considered, [2^32] ms (about 49 days): with an RTO
    below [2^64 - 2^32] the 64-bit elapsed time cannot wrap past it. *)
Definition MAX_TICK_MS : Z := 2 ^ 32.

(** Only time passes: any [tick] of 1 to [MAX_TICK_MS] ms may come next;
    the state carries the segments transmitted so far. *)
Definition tick_step (x : t * list TCPSenderMessage) (next : t * list TCPSenderMessage -> Prop)
  : Prop :=
  forall ms, (1 <= ms <= MAX_TICK_MS)%Z -> next (fst (tick ms (fst x)), snd x ++ snd (tick ms (fst x))).

(** One tick of a running timer with a segment outstanding: either it
    expires and the oldest segment goes out, or nothing is sent and the
    elapsed time grows by the tick. *)
Lemma tick_running ms s front rest :
  pending_messages_ s = front :: rest -> RetryTimer.timer_active_ (retrans_timer_ s) = true ->
  (0 <= RetryTimer.timer_elapsed_ms_ (retrans_timer_ s))%Z -> (0 <= ms)%Z ->
  (RetryTimer.timer_elapsed_ms_ (retrans_timer_ s) + ms < 2 ^ 64)%Z ->
  let e' := (RetryTimer.timer_elapsed_ms_ (retrans_timer_ s) + ms)%Z in
  (RetryTimer.RTO_duration_ms_ (retrans_timer_ s) <= e' /\ snd (tick ms s) = [front])%Z \/
  (e' < RetryTimer.RTO_duration_ms_ (retrans_timer_ s) /\ snd (tick ms s) = [] /\
   pending_messages_ (fst (tick ms s)) = pending_messages_ s /\
   retrans_timer_ (fst (tick ms s)) =
     RetryTimer.mk true (RetryTimer.RTO_duration_ms_ (retrans_timer_ s)) e')%Z.
Proof.
  intros Hp Ha He Hms Hw. cbv zeta. unfold tick, RetryTimer.advance_timer, RetryTimer.has_timer_expired.
  rewrite Ha. cbn [negb RetryTimer.timer_active_ RetryTimer.RTO_duration_ms_ RetryTimer.timer_elapsed_ms_].
  rewrite u64_small by lia.
  destruct (Z.leb_spec (RetryTimer.RTO_duration_ms_ (retrans_timer_ s))
                       (RetryTimer.timer_elapsed_ms_ (retrans_timer_ s) + ms)).
  - left. rewrite Hp. destruct (negb _); split; auto.
  - right. split_conj; auto.
Qed.

(** (C21) Liveness of retransmission: in a reachable state with a segment
    outstanding, if nothing but time passes, the oldest outstanding
    segment is retransmitted after finitely many ticks, whatever their
    lengths (1 to [MAX_TICK_MS] ms each), provided the RTO and the
    elapsed time are far enough from [2^64] that the 64-bit sum does not
    wrap. *)
Theorem retransmission_eventually s front rest :
  sinv s -> timer_typed s -> pending_messages_ s = front :: rest ->
  (RetryTimer.RTO_duration_ms_ (retrans_timer_ s) + MAX_TICK_MS < 2 ^ 64)%Z ->
  (RetryTimer.timer_elapsed_ms_ (retrans_timer_ s) + MAX_TICK_MS < 2 ^ 64)%Z ->
  eventually tick_step (fun x => snd x = [front]) (s, []).
Proof.
  intros I [_ [_ He0]] Hp HR He.
  pose proof (sinv_timer _ I) as Ha. rewrite Hp in Ha. cbn in Ha.
  set (R := RetryTimer.RTO_duration_ms_ (retrans_timer_ s)) in *.
  set (J := fun x : t * list TCPSenderMessage =>
         snd x = [front] \/
         (snd x = [] /\ pending_messages_ (fst x) = front :: rest /\
          RetryTimer.timer_active_ (retrans_timer_ (fst x)) = true /\
          RetryTimer.RTO_duration_ms_ (retrans_timer_ (fst x)) = R /\
          (0 <= RetryTimer.timer_elapsed_ms_ (retrans_timer_ (fst x)))%Z /\
          (RetryTimer.timer_elapsed_ms_ (retrans_timer_ (fst x)) + MAX_TICK_MS < 2 ^ 64)%Z)).
  apply (eventually_by_measure tick_step _ J
           (fun x => match snd x with
                     | [] => S (Z.to_nat (R - RetryTimer.timer_elapsed_ms_ (retrans_timer_ (fst x))))
                     | _ => 0 end)); [|right; cbn; split_conj; auto; lia].
  intros [s' out] [Hdone | (Hout & Hp' & Ha' & HR' & He1 & He2)]; [left; exact Hdone|].
  right. cbn [fst snd] in *. subst out. intros ms Hms. cbn [fst snd app].
  unfold MAX_TICK_MS in *.
  destruct (tick_running ms s' front rest Hp' Ha' He1 ltac:(lia) ltac:(lia))
    as [[Hle ->] | (Hlt & -> & Hp2 & Htm)]; cbn [snd].
  - split; [left; reflexivity | apply Nat.lt_0_succ].
  - unfold J. cbn [fst snd]. rewrite Hp2, Htm. cbn [RetryTimer.timer_active_ RetryTimer.RTO_duration_ms_
      RetryTimer.timer_elapsed_ms_]. split; [right; split_conj; auto; lia | lia].
Qed.

End TCPSender.

(** ** The spec's sender scenarios and the witnesses *)
Module TCPSenderScenario.
Import TCPSender.

Definition fresh : t := create (ByteStream.create 10) 0 1000.

Definition ack (n window : Z) : TCPReceiverMessage :=
  TCPReceiver.mkReceiverMessage (Some n) window false.

(** Scenario 4: the input holds "x"; the SYN goes out, the peer
    acknowledges it with window 0. *)
Definition probe_state : t :=
  fst (run [WriterPush (bstr "x"); Push; Receive (ack 1 0); Push] fresh).

(** Scenario 4 of the spec: with a zero window the sender sends
    exactly one 1-byte segment; when the RTO expires it retransmits it
    without counting a retransmission or doubling the RTO. *)
Example zero_window_probe :
  snd (run [WriterPush (bstr "x"); Push; Receive (ack 1 0); Push] fresh) =
    [TCPReceiver.mkSenderMessage 0 true [] false false;
     TCPReceiver.mkSenderMessage 1 false (bstr "x") false false] /\
  snd (tick 1000 probe_state) = [TCPReceiver.mkSenderMessage 1 false (bstr "x") false false] /\
  retrans_count_ (fst (tick 1000 probe_state)) = 0 /\
  RetryTimer.RTO_duration_ms_ (retrans_timer_ (fst (tick 1000 probe_state))) = 1000%Z.
Proof. vm_compute. split_conj; reflexivity. Qed.

(** Scenario 5: window 1000, one segment "abc" outstanding. *)
Definition backoff_state : t :=
  fst (run [Push; Receive (ack 1 1000); WriterPush (bstr "abc"); Push] fresh).

(** Scenario 5 of the spec: two expiries give two consecutive
    retransmissions with the RTO doubled then quadrupled; the fresh
    acknowledgement resets the count and restores the initial RTO. *)
Example exponential_backoff :
  let s1 := fst (tick 1000 backoff_state) in
  let s2 := fst (tick 2000 s1) in
  let s3 := receive (ack 4 1000) s2 in
  retrans_count_ s1 = 1 /\ RetryTimer.RTO_duration_ms_ (retrans_timer_ s1) = 2000%Z /\
  retrans_count_ s2 = 2 /\ RetryTimer.RTO_duration_ms_ (retrans_timer_ s2) = 4000%Z /\
  retrans_count_ s3 = 0 /\ RetryTimer.RTO_duration_ms_ (retrans_timer_ s3) = 1000%Z /\
  pending_messages_ s3 = [].
Proof. vm_compute. split_conj; reflexivity. Qed.

(** The spec's property "max(window, 1) >= sequence numbers in
    flight after any push" does not hold of the code: five bytes are in
    flight under a window of 10, the peer shrinks the window to 2
    without acknowledging them, and after [push] six sequence numbers
    remain in flight under an effective window of 2.  [push] only
    refrains from adding more. *)
Example window_shrink_in_flight :
  let s := fst (run [WriterPush (bstr "hello"); Push; Receive (ack 0 10); Push;
                     Receive (ack 0 2); Push] fresh) in
  sequence_numbers_in_flight s = 6 /\ effective_window s = 2.
Proof. vm_compute. split; reflexivity. Qed.

(** The 64-bit [RTO_duration_ms_ <<= 1] wraps: from the usual 1000
    ms, 61 consecutive backoffs make the RTO 0, after which the timer
    counts as expired on every tick, even one of 0 ms. *)
Example rto_wraps_to_zero :
  let tm := Nat.iter 61 RetryTimer.apply_exponential_backoff (RetryTimer.mk true 1000 0) in
  RetryTimer.RTO_duration_ms_ tm = 0%Z /\
  RetryTimer.has_timer_expired (RetryTimer.advance_timer 0 (RetryTimer.reset_timer tm)) = true.
Proof. vm_compute. split; reflexivity. Qed.

Lemma backoff_state_sinv : sinv backoff_state.
Proof. apply run_preserves_sinv, create_sinv. Qed.

Definition hello_input : ByteStream.t := ByteStream.push (bstr "hello") (ByteStream.create 10).

Lemma hello_input_inv : ByteStream.inv hello_input.
Proof. apply ByteStream.push_inv, ByteStream.inv_create. Qed.

Definition hello_sender : t := mk hello_input 0 1000 1 1 3 [] 0 0 true false (RetryTimer.create 1000).

Lemma fill_spec_witness :
  fst (fill 3 3 [] hello_input) =
  [] ++ firstn (min (3 - 0) (ByteStream.bytes_buffered hello_input)) (ByteStream.contents hello_input).
Proof. apply (fill_spec 3 3 [] hello_input hello_input_inv). simpl. lia. Defined.

Lemma push_terminates_witness : push_loop 10 hello_sender = push hello_sender.
Proof. apply (push_terminates hello_sender 10 hello_input_inv). vm_compute. lia. Defined.

Lemma push_within_window_witness :
  total_outgoing_seq_ (fst (push hello_sender)) <= effective_window hello_sender.
Proof. apply (push_within_window hello_sender hello_input_inv). vm_compute. lia. Defined.

Lemma push_reads_stream_witness :
  ByteStream.contents (input_ hello_sender) =
  concat (map TCPReceiver.payload (snd (push_loop 4 hello_sender))) ++
  ByteStream.contents (input_ (fst (push_loop 4 hello_sender))).
Proof. apply (push_reads_stream 4 hello_sender hello_input_inv). Defined.

Lemma tick_expired_witness :
  snd (tick 1000 backoff_state) = [TCPReceiver.mkSenderMessage 1 false (bstr "abc") false false].
Proof.
  refine (proj1 (tick_expired 1000 backoff_state
            (TCPReceiver.mkSenderMessage 1 false (bstr "abc") false false) [] backoff_state_sinv _ _));
    vm_compute; reflexivity.
Defined.

Lemma receive_full_ack_witness :
  pending_messages_ (receive (ack 4 1000) backoff_state) = [].
Proof.
  refine (proj1 (receive_full_ack (ack 4 1000) backoff_state backoff_state_sinv _ _ _ _ _));
    vm_compute; reflexivity || lia || discriminate.
Defined.

Lemma run_timer_typed_witness :
  timer_typed (fst (run [Push; Receive (ack 1 1000); WriterPush (bstr "abc"); Push; Tick 1000]
                        (create (ByteStream.create 10) 0 1000))).
Proof. apply (run_timer_typed 10 0 1000). lia. Defined.

(** An acknowledgement of 100 when only 4 sequence numbers were sent. *)
Lemma receive_error_paths_witness :
  receive (ack 100 7) backoff_state = set_window 7 backoff_state.
Proof.
  refine (proj2 (proj2 (receive_error_paths (ack 100 7) backoff_state)) 100%Z _ _ _ _);
    vm_compute; reflexivity.
Defined.

Lemma backoff_state_typed : timer_typed backoff_state.
Proof. apply run_preserves_typed. unfold timer_typed, tm_ok. cbn. lia. Qed.

Lemma retransmission_eventually_witness :
  eventually tick_step
    (fun x => snd x = [TCPReceiver.mkSenderMessage 1 false (bstr "abc") false false])
    (backoff_state, []).
Proof.
  apply (retransmission_eventually backoff_state _ [] backoff_state_sinv backoff_state_typed);
    vm_compute; reflexivity.
Defined.

(** The acknowledgement the spec's wording gets wrong: "abc" occupies
    sequence numbers 1 to 3; an acknowledgement of 3, the segment's last
    sequence number ("remove any segment whose last sequence number is
    <= received_ack"), removes nothing: the code removes a segment only
    once the acknowledgement number is past it. *)
Example partial_ack_keeps_segment :
  pending_messages_ backoff_state = [TCPReceiver.mkSenderMessage 1 false (bstr "abc") false false] /\
  pending_messages_ (receive (ack 3 1000) backoff_state) = pending_messages_ backoff_state /\
  pending_messages_ (receive (ack 4 1000) backoff_state) = [].
Proof. vm_compute. split_conj; reflexivity. Qed.

Lemma receive_partial_ack_witness :
  let s := backoff_state in
  let received := Wrap32.unwrap 4 (isn_ s) (Z.of_nat (next_seq_number_ s)) in
  (received <= Z.of_nat (next_seq_number_ s))%Z /\
  let s' := receive (ack 4 1000) s in
  exists pre, pending_messages_ s = pre ++ pending_messages_ s' /\
    ack_sequence_number_ s' = ack_sequence_number_ s + in_flight pre /\
    (pre = [] \/ (Z.of_nat (ack_sequence_number_ s') <= received)%Z) /\
    (forall m q, pending_messages_ s' = m :: q ->
       (received < Z.of_nat (ack_sequence_number_ s' + sequence_length m))%Z) /\
    (pre <> [] -> retrans_count_ s' = 0 /\
                 RetryTimer.RTO_duration_ms_ (retrans_timer_ s') = initial_RTO_ms_ s /\
                 RetryTimer.timer_active_ (retrans_timer_ s') = nonempty (pending_messages_ s')) /\
    (pre = [] -> retrans_count_ s' = retrans_count_ s /\ retrans_timer_ s' = retrans_timer_ s) /\
    window_capacity_ s' = Z.to_nat (u16 (TCPReceiver.window_size (ack 4 1000))).
Proof.
  cbv zeta. split; [vm_compute; discriminate|].
  exact (receive_partial_ack (ack 4 1000) backoff_state 4 backoff_state_sinv eq_refl eq_refl eq_refl
           ltac:(vm_compute; discriminate)).
Defined.

(** Five bytes and the SYN in flight under a window of 10. *)
Definition shrink_state : t :=
  fst (run [WriterPush (bstr "hello"); Push; Receive (ack 0 10); Push] fresh).

Lemma shrunk_window_exceeded_witness :
  (sinv shrink_state /\ ByteStream.has_error (input_ shrink_state) = false /\
   TCPReceiver.RST_flag (ack 0 2) = false /\ TCPReceiver.ackno (ack 0 2) = Some 0%Z /\
   (Wrap32.unwrap 0 (isn_ shrink_state) (Z.of_nat (next_seq_number_ shrink_state))
      <= Z.of_nat (ack_sequence_number_ shrink_state))%Z /\
   Nat.max (Z.to_nat (u16 (TCPReceiver.window_size (ack 0 2)))) 1
     < sequence_numbers_in_flight shrink_state) /\
  effective_window (receive (ack 0 2) shrink_state)
    < sequence_numbers_in_flight (receive (ack 0 2) shrink_state) /\
  push (receive (ack 0 2) shrink_state) = (receive (ack 0 2) shrink_state, []).
Proof.
  assert (I : sinv shrink_state) by (apply run_preserves_sinv, create_sinv).
  assert (Hle : (Wrap32.unwrap 0 (isn_ shrink_state) (Z.of_nat (next_seq_number_ shrink_state))
                   <= Z.of_nat (ack_sequence_number_ shrink_state))%Z) by (vm_compute; discriminate).
  assert (Hw : Nat.max (Z.to_nat (u16 (TCPReceiver.window_size (ack 0 2)))) 1
                 < sequence_numbers_in_flight shrink_state) by (vm_compute; lia).
  split; [split_conj; first [exact I | exact Hle | exact Hw | reflexivity]|].
  exact (proj2 (shrunk_window_exceeded (ack 0 2) shrink_state 0 I eq_refl eq_refl eq_refl Hle) Hw).
Defined.

Lemma backoff_wraps_witness :
  (0 <= RetryTimer.RTO_duration_ms_ (RetryTimer.mk true 1000 0) < 2 ^ 64)%Z /\
  RetryTimer.RTO_duration_ms_ (Nat.iter 64 RetryTimer.apply_exponential_backoff (RetryTimer.mk true 1000 0)) = 0%Z /\
  RetryTimer.has_timer_expired (RetryTimer.advance_timer 0 (RetryTimer.reset_timer
    (Nat.iter 64 RetryTimer.apply_exponential_backoff (RetryTimer.mk true 1000 0)))) = true.
Proof.
  assert (H : (0 <= RetryTimer.RTO_duration_ms_ (RetryTimer.mk true 1000 0) < 2 ^ 64)%Z) by (cbn; lia).
  split; [exact H|].
  exact (proj2 (backoff_wraps 64 (RetryTimer.mk true 1000 0) H) ltac:(lia)).
Defined.

End TCPSenderScenario.
