(* ===== verification/NetworkInterface.v ===== *)
(** * NetworkInterface: IPv4 over Ethernet with ARP (network_interface.cc, .hh)

    The interface keeps three [std::unordered_map]s keyed by the numeric
    IPv4 address, modelled as stdpp [gmap]s: [pending_datagrams_] (the
    datagrams waiting for an ARP reply, in order), [pending_timers_] (the
    age of the outstanding ARP request) and [arp_table_] (the learned
    Ethernet address with its age).  A [TimeoutTracker] is its [size_t]
    age in milliseconds, kept as a 64-bit [Z] with the wrap of [_ms +=].
    [send_datagram], [recv_frame] and [tick] return the frames they hand
    to [transmit], in order.

    The wire codecs (parse/serialize of IPv4 datagrams and ARP messages)
    live outside src/; a frame's payload is the value the codec would
    carry ([PDatagram], [PARP]) or bytes no codec accepts ([PBytes]).

    The theorems: the table invariant [ni_inv] and the ages' ranges
    [ages_ok] in every reachable state, ARP requests for one address at
    least 5000 ms apart, no datagram lost, the datagrams waiting for an
    address leaving in the order they were sent once its ARP message
    arrives, and the liveness of a retry after an unanswered request. *)

From Stdlib Require Import ZArith Lia.
From stdpp Require Import gmap list.
From S2P Require Import Prelude.

Module NetworkInterface.

(** Addresses: an [EthernetAddress] (six bytes) and an IPv4 address as
    numbers. *)
Abbreviation EthernetAddress := Z.
Abbreviation IPv4NumericAddress := Z.

Definition ETHERNET_BROADCAST : EthernetAddress := (2 ^ 48 - 1)%Z.
Definition TYPE_IPv4 : Z := 2048.
Definition TYPE_ARP : Z := 2054.
Definition OPCODE_REQUEST : Z := 1.
Definition OPCODE_REPLY : Z := 2.

(** The IPv4 header fields the stack reads or writes (ipv4_header.hh). *)
Record IPv4Header := mkIPv4Header {
  ttl : Z;
  src : IPv4NumericAddress;
  dst : IPv4NumericAddress;
  cksum : Z
}.

Record InternetDatagram := mkDatagram {
  header : IPv4Header;
  dgram_payload : bytes
}.

(** [ARPMessage] (arp_message.hh). *)
Record ARPMessage := mkARP {
  opcode : Z;
  sender_ethernet_address : EthernetAddress;
  sender_ip_address : IPv4NumericAddress;
  target_ethernet_address : EthernetAddress;
  target_ip_address : IPv4NumericAddress
}.

(** What an Ethernet payload decodes to. *)
Inductive FramePayload :=
| PDatagram (d : InternetDatagram)
| PARP (a : ARPMessage)
| PBytes (b : bytes).

Record EthernetHeader := mkEthernetHeader {
  eth_dst : EthernetAddress;
  eth_src : EthernetAddress;
  eth_type : Z
}.

Record EthernetFrame := mkFrame {
  frame_header : EthernetHeader;
  frame_payload : FramePayload
}.

(** [parse] of the codecs: success exactly on the matching payload. *)
Definition parse_datagram (p : FramePayload) : option InternetDatagram :=
  match p with PDatagram d => Some d | _ => None end.

Definition parse_arp (p : FramePayload) : option ARPMessage :=
  match p with PARP a => Some a | _ => None end.

Definition ARP_CACHE_ENTRY_LIFETIME : Z := 30000.
Definition ARP_RESPONSE_TTL : Z := 5000.

(** [TimeoutTracker::tick] and [expired]: a [size_t] age. *)
Definition tracker_tick (ms_since_last_tick age : Z) : Z := u64 (age + ms_since_last_tick).
Definition expired (TTL_ms age : Z) : bool := (TTL_ms <=? age)%Z.

Record t := mk {
  ethernet_address_ : EthernetAddress;
  ip_address_ : IPv4NumericAddress;
  datagrams_received_ : list InternetDatagram;
  pending_datagrams_ : gmap IPv4NumericAddress (list InternetDatagram);
  pending_timers_ : gmap IPv4NumericAddress Z;
  arp_table_ : gmap IPv4NumericAddress (EthernetAddress * Z)
}.

(** The constructor's fields.  Its [notnull] check of the
    [OutputPort], which throws on a null port, is not modelled: the
    port is not part of this state (see EthernetLink.v). *)
Definition create (ethernet_address : EthernetAddress) (ip_address : IPv4NumericAddress) : t :=
  mk ethernet_address ip_address [] ∅ ∅ ∅.

(** [create_arp_message] (network_interface.hh): a message from this
    interface.  The .cc builds its request and reply field by field to
    the same effect (see [arp_messages_create]). *)
Definition create_arp_message (ni : t) (op_code : Z) (target_mac_address : EthernetAddress)
  (target_ipv4_address : IPv4NumericAddress) : ARPMessage :=
  mkARP op_code (ethernet_address_ ni) (ip_address_ ni) target_mac_address target_ipv4_address.

(** An IPv4 frame from this interface to [dst]. *)
Definition ipv4_frame (ni : t) (dst : EthernetAddress) (dgram : InternetDatagram) : EthernetFrame :=
  mkFrame (mkEthernetHeader dst (ethernet_address_ ni) TYPE_IPv4) (PDatagram dgram).

(** [NetworkInterface::send_datagram]. *)
Definition send_datagram (dgram : InternetDatagram) (next_hop_num : IPv4NumericAddress) (ni : t)
  : t * list EthernetFrame :=
  match arp_table_ ni !! next_hop_num with
  | Some (dst, _) => (ni, [ipv4_frame ni dst dgram])
  | None =>
      let pending := <[next_hop_num := default [] (pending_datagrams_ ni !! next_hop_num) ++ [dgram]]>
                       (pending_datagrams_ ni) in
      match pending_timers_ ni !! next_hop_num with
      | Some _ =>
          (mk (ethernet_address_ ni) (ip_address_ ni) (datagrams_received_ ni) pending
              (pending_timers_ ni) (arp_table_ ni), [])
      | None =>
          let arp_request := mkARP OPCODE_REQUEST (ethernet_address_ ni) (ip_address_ ni) 0 next_hop_num in
          (mk (ethernet_address_ ni) (ip_address_ ni) (datagrams_received_ ni) pending
              (<[next_hop_num := 0%Z]> (pending_timers_ ni)) (arp_table_ ni),
           [mkFrame (mkEthernetHeader ETHERNET_BROADCAST (ethernet_address_ ni) TYPE_ARP)
                    (PARP arp_request)])
      end
  end.

(** [NetworkInterface::recv_frame]. *)
Definition recv_frame (frame : EthernetFrame) (ni : t) : t * list EthernetFrame :=
  let h := frame_header frame in
  if negb (eth_dst h =? ethernet_address_ ni)%Z && negb (eth_dst h =? ETHERNET_BROADCAST)%Z
  then (ni, [])
  else if (eth_type h =? TYPE_IPv4)%Z then
    match parse_datagram (frame_payload frame) with
    | Some d =>
        (mk (ethernet_address_ ni) (ip_address_ ni) (datagrams_received_ ni ++ [d])
            (pending_datagrams_ ni) (pending_timers_ ni) (arp_table_ ni), [])
    | None => (ni, [])
    end
  else if (eth_type h =? TYPE_ARP)%Z then
    match parse_arp (frame_payload frame) with
    | None => (ni, [])
    | Some message =>
        let arp := <[sender_ip_address message := (sender_ethernet_address message, 0%Z)]>
                     (arp_table_ ni) in
        let reply :=
          if (opcode message =? OPCODE_REQUEST)%Z && (target_ip_address message =? ip_address_ ni)%Z
          then [mkFrame (mkEthernetHeader (sender_ethernet_address message) (ethernet_address_ ni) TYPE_ARP)
                        (PARP (mkARP OPCODE_REPLY (ethernet_address_ ni) (ip_address_ ni)
                                     (sender_ethernet_address message) (sender_ip_address message)))]
          else [] in
        match pending_datagrams_ ni !! sender_ip_address message with
        | Some ds =>
            (mk (ethernet_address_ ni) (ip_address_ ni) (datagrams_received_ ni)
                (delete (sender_ip_address message) (pending_datagrams_ ni))
                (delete (sender_ip_address message) (pending_timers_ ni)) arp,
             reply ++ map (ipv4_frame ni (sender_ethernet_address message)) ds)
        | None =>
            (mk (ethernet_address_ ni) (ip_address_ ni) (datagrams_received_ ni)
                (pending_datagrams_ ni) (pending_timers_ ni) arp, reply)
        end
    end
  else (ni, []).

(** [NetworkInterface::tick]: age every entry, then erase the expired
    ones (the C++ collects their keys first; the result does not depend
    on the iteration order). *)
Definition tick (ms_since_last_tick : Z) (ni : t) : t :=
  let arp := (λ e : EthernetAddress * Z, (e.1, tracker_tick ms_since_last_tick e.2)) <$> arp_table_ ni in
  let timers := tracker_tick ms_since_last_tick <$> pending_timers_ ni in
  mk (ethernet_address_ ni) (ip_address_ ni) (datagrams_received_ ni) (pending_datagrams_ ni)
     (filter (λ kv : IPv4NumericAddress * Z, expired ARP_RESPONSE_TTL kv.2 = false) timers)
     (filter (λ kv : IPv4NumericAddress * (EthernetAddress * Z),
                expired ARP_CACHE_ENTRY_LIFETIME kv.2.2 = false) arp).


(** ** The tables' invariant *)

(** Every outstanding ARP request has datagrams waiting for it; no
    datagram waits for an address the ARP table knows; every waiting
    queue is non-empty. *)
Record ni_inv (ni : t) : Prop := {
  ni_timers : dom (pending_timers_ ni) ⊆ dom (pending_datagrams_ ni);
  ni_resolved : dom (pending_datagrams_ ni) ## dom (arp_table_ ni);
  ni_nonempty : map_Forall (λ _ ds, ds ≠ []) (pending_datagrams_ ni)
}.

Lemma create_inv e ip : ni_inv (create e ip).
Proof. split; cbn; rewrite ?dom_empty_L; [set_solver | set_solver | apply map_Forall_empty]. Qed.

Lemma send_datagram_inv d nh ni : ni_inv ni -> ni_inv (send_datagram d nh ni).1.
Proof.
  intros [Ht Hr Hn]. unfold send_datagram.
  destruct (arp_table_ ni !! nh) as [[dst a]|] eqn:Ha; [split; auto|].
  apply not_elem_of_dom in Ha.
  assert (Hn' : map_Forall (λ _ ds, ds ≠ [])
                  (<[nh := default [] (pending_datagrams_ ni !! nh) ++ [d]]> (pending_datagrams_ ni))).
  { apply map_Forall_insert_2; [|exact Hn]. intros Hnil. apply app_nil in Hnil as [_ ?]. discriminate. }
  destruct (pending_timers_ ni !! nh); split; cbn; rewrite ?dom_insert_L; auto; set_solver.
Qed.

Lemma recv_frame_inv f ni : ni_inv ni -> ni_inv (recv_frame f ni).1.
Proof.
  intros [Ht Hr Hn]. unfold recv_frame.
  destruct (_ && _); [split; auto|].
  destruct (_ =? TYPE_IPv4)%Z; [destruct (parse_datagram _); split; auto|].
  destruct (_ =? TYPE_ARP)%Z; [|split; auto].
  destruct (parse_arp _) as [msg|]; [|split; auto].
  destruct (pending_datagrams_ ni !! sender_ip_address msg) eqn:Hp.
  - split; cbn; rewrite ?dom_insert_L, ?dom_delete_L; [set_solver|set_solver|apply map_Forall_delete, Hn].
  - apply not_elem_of_dom in Hp. split; cbn; rewrite ?dom_insert_L; [exact Ht|set_solver|exact Hn].
Qed.

Lemma tick_inv ms ni : ni_inv ni -> ni_inv (tick ms ni).
Proof.
  intros [Ht Hr Hn]. split; cbn; [| |exact Hn].
  - etransitivity; [apply dom_filter_subseteq|]. rewrite dom_fmap_L. exact Ht.
  - pose proof (dom_filter_subseteq (λ kv : IPv4NumericAddress * (EthernetAddress * Z),
        expired ARP_CACHE_ENTRY_LIFETIME kv.2.2 = false)
        ((λ e : EthernetAddress * Z, (e.1, tracker_tick ms e.2)) <$> arp_table_ ni)).
    rewrite dom_fmap_L in H. set_solver.
Qed.


(** ** Runs in time *)

(** The calls an interface sees; [Tick] advances the clock. *)
Inductive event :=
| Send (dgram : InternetDatagram) (next_hop : IPv4NumericAddress)
| Recv (frame : EthernetFrame)
| Tick (ms : Z).

Definition step (e : event) (ni : t) : t * list EthernetFrame :=
  match e with
  | Send d nh => send_datagram d nh ni
  | Recv f => recv_frame f ni
  | Tick ms => (tick ms ni, [])
  end.

Definition elapsed (e : event) : Z := match e with Tick ms => ms | _ => 0%Z end.

(** A [size_t] tick. *)
Definition valid_event (e : event) : bool :=
  match e with Tick ms => (0 <=? ms)%Z && (ms <? 2 ^ 64)%Z | _ => true end.

(** Run from a clock value, recording each transmitted frame with the
    time it left. *)
Fixpoint run_from (es : list event) (ni : t) (now : Z) (out : list (Z * EthernetFrame))
  : t * Z * list (Z * EthernetFrame) :=
  match es with
  | [] => (ni, now, out)
  | e :: es' =>
      let '(ni1, o) := step e ni in
      run_from es' ni1 (now + elapsed e)%Z (out ++ map (pair now) o)
  end.

(** Whether a frame is an ARP request for [ip]. *)
Definition is_request (ip : IPv4NumericAddress) (f : EthernetFrame) : bool :=
  match frame_payload f with
  | PARP a => (opcode a =? OPCODE_REQUEST)%Z && (target_ip_address a =? ip)%Z
  | _ => false
  end.

(** The times at which ARP requests for [ip] left. *)
Fixpoint request_times (ip : IPv4NumericAddress) (out : list (Z * EthernetFrame)) : list Z :=
  match out with
  | [] => []
  | (tm, f) :: out' => if is_request ip f then tm :: request_times ip out' else request_times ip out'
  end.

(** Consecutive times at least [ARP_RESPONSE_TTL] apart. *)
Fixpoint spaced (l : list Z) : Prop :=
  match l with
  | [] => True
  | x :: l' => match l' with y :: _ => (x + ARP_RESPONSE_TTL <= y)%Z | [] => True end /\ spaced l'
  end.

(** An ARP request for [ip] sent at [t0] is still answered for: its
    timer, or an ARP entry learned since, is no older than [now - t0]. *)
Definition covered (ni : t) (now : Z) (ip : IPv4NumericAddress) (t0 : Z) : Prop :=
  (exists a, pending_timers_ ni !! ip = Some a /\ (0 <= a <= now - t0)%Z) \/
  (exists mac a, arp_table_ ni !! ip = Some (mac, a) /\ (0 <= a <= now - t0)%Z).

Definition dedup_inv (ni : t) (now : Z) (out : list (Z * EthernetFrame)) : Prop :=
  forall ip, spaced (request_times ip out) /\
    forall t0, last (request_times ip out) = Some t0 ->
      (t0 <= now)%Z /\ ((now - t0 < ARP_RESPONSE_TTL)%Z -> covered ni now ip t0).

Lemma request_times_app ip o1 o2 :
  request_times ip (o1 ++ o2) = request_times ip o1 ++ request_times ip o2.
Proof. induction o1 as [|[tm f] o1 IH]; simpl; [reflexivity|]. destruct (is_request ip f); simpl; congruence. Qed.

Lemma spaced_snoc l x :
  spaced l -> (forall t0, last l = Some t0 -> (t0 + ARP_RESPONSE_TTL <= x)%Z) -> spaced (l ++ [x]).
Proof.
  induction l as [|y l IH]; intros Hs Hl; simpl; [auto|].
  destruct Hs as [Hy Hs]. split.
  - destruct l as [|z l]; simpl; [apply Hl; reflexivity|exact Hy].
  - apply IH; [exact Hs|]. intros t0 Ht. apply Hl. destruct l; [discriminate|exact Ht].
Qed.


(** A step that sends no request and keeps every request answered for
    keeps the invariant. *)
Lemma dedup_quiet ni ni' now out o :
  Forall (fun f => forall ip, is_request ip f = false) o ->
  (forall ip t0, (t0 <= now)%Z -> covered ni now ip t0 -> covered ni' now ip t0) ->
  dedup_inv ni now out -> dedup_inv ni' now (out ++ map (pair now) o).
Proof.
  intros Ho Hc I ip. rewrite request_times_app.
  assert (request_times ip (map (pair now) o) = []) as ->.
  { induction Ho as [|f o Hf _ IH]; simpl; [reflexivity|]. now rewrite Hf. }
  rewrite app_nil_r. destruct (I ip) as [Hs Hl]. split; [exact Hs|].
  intros t0 Ht. destruct (Hl t0 Ht) as [Hle Hcov]. split; [exact Hle|]. auto.
Qed.

Lemma ipv4_frames_quiet ni mac ds :
  Forall (fun f => forall ip, is_request ip f = false) (map (ipv4_frame ni mac) ds).
Proof. induction ds as [|d ds IH]; simpl; constructor; [intros; reflexivity | exact IH]. Qed.

(** Learning [sip]'s address (and dropping its timer) keeps every
    request answered for. *)
Lemma covered_learn ni ni' now ip t0 sip mac :
  (t0 <= now)%Z -> arp_table_ ni' = <[sip := (mac, 0%Z)]> (arp_table_ ni) ->
  (pending_timers_ ni' = pending_timers_ ni \/ pending_timers_ ni' = delete sip (pending_timers_ ni)) ->
  covered ni now ip t0 -> covered ni' now ip t0.
Proof.
  intros Hle Ha Ht Hc. unfold covered. rewrite Ha.
  destruct (decide (ip = sip)) as [->|Hne].
  - right. exists mac, 0%Z. rewrite lookup_insert_eq. split; [reflexivity|lia].
  - rewrite lookup_insert_ne by congruence.
    destruct Ht as [-> | ->]; [exact Hc|]. rewrite lookup_delete_ne by congruence. exact Hc.
Qed.

Lemma recv_frame_dedup f ni now out :
  dedup_inv ni now out -> dedup_inv (recv_frame f ni).1 now (out ++ map (pair now) (recv_frame f ni).2).
Proof.
  unfold recv_frame.
  destruct (_ && _); [apply dedup_quiet; auto|].
  destruct (_ =? TYPE_IPv4)%Z; [destruct (parse_datagram _); apply dedup_quiet; auto|].
  destruct (_ =? TYPE_ARP)%Z; [|apply dedup_quiet; auto].
  destruct (parse_arp _) as [msg|]; [|apply dedup_quiet; auto].
  match goal with |- context [if ?c then ?a else []] => set (reply := if c then a else []) end.
  assert (Hr : Forall (fun f => forall ip, is_request ip f = false) reply).
  { unfold reply. destruct (_ && _); repeat constructor. }
  destruct (pending_datagrams_ ni !! sender_ip_address msg); apply dedup_quiet;
    try (apply Forall_app; split; [exact Hr | apply ipv4_frames_quiet]); try exact Hr;
    intros ip t0 Hle; eapply covered_learn; eauto.
Qed.

Lemma tick_covered ms ni now ip t0 :
  (0 <= ms)%Z -> (now + ms - t0 < ARP_RESPONSE_TTL)%Z ->
  covered ni now ip t0 -> covered (tick ms ni) (now + ms) ip t0.
Proof.
  intros Hms Hlt [(a & Ha & Hb)|(mac & a & Ha & Hb)]; unfold covered; cbn.
  - left. exists (tracker_tick ms a). pose proof (u64_range (a + ms)). pose proof (u64_le (a + ms) ltac:(lia)).
    unfold tracker_tick. split; [|lia].
    apply map_lookup_filter_Some. rewrite lookup_fmap, Ha. split; [reflexivity|].
    unfold expired, ARP_RESPONSE_TTL in *. cbn. apply Z.leb_gt. lia.
  - right. exists mac, (tracker_tick ms a). pose proof (u64_range (a + ms)). pose proof (u64_le (a + ms) ltac:(lia)).
    unfold tracker_tick. split; [|lia].
    apply map_lookup_filter_Some. rewrite lookup_fmap, Ha. split; [reflexivity|].
    unfold expired, ARP_CACHE_ENTRY_LIFETIME, ARP_RESPONSE_TTL in *. cbn. apply Z.leb_gt. lia.
Qed.

Lemma tick_dedup ms ni now out :
  (0 <= ms)%Z -> dedup_inv ni now out -> dedup_inv (tick ms ni) (now + ms) (out ++ map (pair now) []).
Proof.
  intros Hms I ip. rewrite app_nil_r. destruct (I ip) as [Hs Hl]. split; [exact Hs|].
  intros t0 Ht. destruct (Hl t0 Ht) as [Hle Hc]. split; [lia|].
  intros Hlt. apply tick_covered; [exact Hms|exact Hlt|]. apply Hc. lia.
Qed.

Lemma send_datagram_dedup d nh ni now out :
  dedup_inv ni now out ->
  dedup_inv (send_datagram d nh ni).1 now (out ++ map (pair now) (send_datagram d nh ni).2).
Proof.
  intros I. unfold send_datagram.
  destruct (arp_table_ ni !! nh) as [[dst a]|] eqn:Ha.
  { apply (dedup_quiet ni); [constructor; [intros; reflexivity | constructor] | auto | exact I]. }
  destruct (pending_timers_ ni !! nh) as [a|] eqn:Ht; [apply (dedup_quiet ni); [constructor | auto | exact I]|].
  intros ip. rewrite request_times_app. destruct (I ip) as [Hs Hl]. cbn.
  unfold is_request. cbn. destruct (Z.eqb_spec nh ip) as [<-|Hne]; cbn.
  - split.
    + apply spaced_snoc; [exact Hs|]. intros t0 Hlast. destruct (Hl t0 Hlast) as [Hle Hc].
      destruct (Z.lt_ge_cases (now - t0) ARP_RESPONSE_TTL) as [Hlt|]; [|lia].
      destruct (Hc Hlt) as [(? & ? & _)|(? & ? & ? & _)]; congruence.
    + intros t0 Hlast. rewrite last_snoc in Hlast. injection Hlast as <-. split; [lia|].
      intros _. left. exists 0%Z. cbn. rewrite lookup_insert_eq. split; [reflexivity|lia].
  - rewrite app_nil_r. split; [exact Hs|]. intros t0 Hlast. destruct (Hl t0 Hlast) as [Hle Hc].
    split; [exact Hle|]. intros Hlt. unfold covered. cbn. rewrite lookup_insert_ne by congruence.
    exact (Hc Hlt).
Qed.


Lemma step_dedup e ni now out :
  valid_event e = true -> dedup_inv ni now out ->
  dedup_inv (step e ni).1 (now + elapsed e) (out ++ map (pair now) (step e ni).2).
Proof.
  intros Hv I. destruct e as [d nh|f|ms]; simpl; rewrite ?Z.add_0_r.
  - now apply send_datagram_dedup.
  - now apply recv_frame_dedup.
  - apply andb_prop in Hv as [Hv _]. apply Z.leb_le in Hv. now apply tick_dedup.
Qed.

Lemma run_from_dedup es ni now out :
  forallb valid_event es = true -> dedup_inv ni now out ->
  dedup_inv (run_from es ni now out).1.1 (run_from es ni now out).1.2 (run_from es ni now out).2.
Proof.
  revert ni now out. induction es as [|e es IH]; intros ni now out Hv I; simpl; [exact I|].
  apply andb_prop in Hv as [He Hv].
  pose proof (step_dedup e ni now out He I) as I1.
  destruct (step e ni) as [ni1 o]. apply IH; assumption.
Qed.

(** (C13) ARP deduplication: over any run of a fresh interface (ticks of
    [size_t] milliseconds), two ARP requests for the same address leave
    at least [ARP_RESPONSE_TTL] = 5000 ms apart.  A request starts a
    timer that only [tick] removes once it reaches 5000 ms, or that a
    learned ARP entry replaces; while either is present [send_datagram]
    only queues. *)
Theorem arp_dedup es eth ip target :
  forallb valid_event es = true ->
  spaced (request_times target (run_from es (create eth ip) 0 []).2).
Proof.
  intros Hv. apply (run_from_dedup es (create eth ip) 0 [] Hv).
  intros ip'. simpl. split; [exact I|]. discriminate.
Qed.


(** ** No datagram is lost or duplicated *)

(** Every datagram waiting for ARP, all queues together. *)
Definition pending_all (m : gmap IPv4NumericAddress (list InternetDatagram)) : list InternetDatagram :=
  concat (map snd (map_to_list m)).

(** The datagrams the caller handed to [send_datagram]. *)
Definition offered (es : list event) : list InternetDatagram :=
  concat (map (fun e => match e with Send d _ => [d] | _ => [] end) es).

Definition frame_datagrams (f : EthernetFrame) : list InternetDatagram :=
  match frame_payload f with PDatagram d => [d] | _ => [] end.

(** The datagrams that left in frames. *)
Definition delivered (out : list (Z * EthernetFrame)) : list InternetDatagram :=
  concat (map (fun p => frame_datagrams p.2) out).

Lemma concat_perm {A} (l1 l2 : list (list A)) : l1 ≡ₚ l2 -> concat l1 ≡ₚ concat l2.
Proof.
  induction 1 as [|x l1 l2 _ IH|x y l|l1 l2 l3 _ IH1 _ IH2]; simpl.
  - reflexivity.
  - now rewrite IH.
  - rewrite !app_assoc. apply Permutation_app_tail, Permutation_app_comm.
  - etransitivity; eauto.
Qed.

Lemma pending_all_delete m i ds :
  m !! i = Some ds -> pending_all m ≡ₚ ds ++ pending_all (delete i m).
Proof.
  intros H. unfold pending_all. rewrite <- (map_to_list_delete m i ds H) at 1. reflexivity.
Qed.

Lemma pending_all_insert_new m i ds :
  m !! i = None -> pending_all (<[i := ds]> m) ≡ₚ ds ++ pending_all m.
Proof.
  intros H. unfold pending_all. apply (concat_perm (map snd (map_to_list (<[i:=ds]> m))) (ds :: map snd (map_to_list m))).
  change (ds :: map snd (map_to_list m)) with (map snd ((i, ds) :: map_to_list m)).
  apply Permutation_map, map_to_list_insert, H.
Qed.

(** [pending_datagrams_[ip].push_back(d)] adds [d] to the waiting set. *)
Lemma pending_all_push m i d :
  pending_all (<[i := default [] (m !! i) ++ [d]]> m) ≡ₚ d :: pending_all m.
Proof.
  destruct (m !! i) as [ds|] eqn:H; simpl.
  - rewrite <- insert_delete_eq, pending_all_insert_new by apply lookup_delete_eq.
    rewrite (pending_all_delete m i ds H). solve_Permutation.
  - rewrite pending_all_insert_new by exact H. reflexivity.
Qed.

Lemma delivered_app out o now :
  delivered (out ++ map (pair now) o) = delivered out ++ concat (map frame_datagrams o).
Proof. unfold delivered. rewrite map_app, concat_app, map_map. reflexivity. Qed.

Lemma ipv4_frames_datagrams ni mac ds :
  concat (map frame_datagrams (map (ipv4_frame ni mac) ds)) = ds.
Proof. induction ds as [|d ds IH]; simpl; [reflexivity|]. now rewrite IH. Qed.

Lemma step_conserves e ni now out off :
  off ≡ₚ delivered out ++ pending_all (pending_datagrams_ ni) ->
  off ++ offered [e] ≡ₚ
  delivered (out ++ map (pair now) (step e ni).2) ++ pending_all (pending_datagrams_ (step e ni).1).
Proof.
  intros H. rewrite delivered_app. destruct e as [d nh|f|ms]; simpl.
  - unfold send_datagram. destruct (arp_table_ ni !! nh) as [[dst a]|]; simpl.
    + rewrite H. solve_Permutation.
    + destruct (pending_timers_ ni !! nh); simpl; rewrite pending_all_push, H; solve_Permutation.
  - unfold recv_frame. destruct (_ && _); simpl; [rewrite H; solve_Permutation|].
    destruct (_ =? TYPE_IPv4)%Z; [destruct (parse_datagram _); simpl; rewrite H; solve_Permutation|].
    destruct (_ =? TYPE_ARP)%Z; [|simpl; rewrite H; solve_Permutation].
    destruct (parse_arp _) as [msg|]; [|simpl; rewrite H; solve_Permutation].
    assert (Hr : forall c : bool, concat (map frame_datagrams (if c then
              [mkFrame (mkEthernetHeader (sender_ethernet_address msg) (ethernet_address_ ni) TYPE_ARP)
                 (PARP (mkARP OPCODE_REPLY (ethernet_address_ ni) (ip_address_ ni)
                    (sender_ethernet_address msg) (sender_ip_address msg)))] else [])) = [])
      by (intros []; reflexivity).
    destruct (pending_datagrams_ ni !! sender_ip_address msg) as [ds|] eqn:Hp; simpl;
      rewrite ?map_app, ?concat_app, Hr; simpl.
    + rewrite ipv4_frames_datagrams, H, (pending_all_delete _ _ _ Hp). solve_Permutation.
    + rewrite H. solve_Permutation.
  - rewrite H. solve_Permutation.
Qed.

(** (C14) The interface neither loses nor duplicates a datagram: at every
    point of any run, the datagrams handed to [send_datagram] are, up to
    order, those that left in IPv4 frames plus those still waiting for
    an ARP reply.  In particular [tick] expiring a request never drops
    the datagrams queued behind it. *)
Theorem datagrams_conserved es eth ip :
  let '(ni, _, out) := run_from es (create eth ip) 0 [] in
  offered es ≡ₚ delivered out ++ pending_all (pending_datagrams_ ni).
Proof.
  assert (Hgen : forall es0 ni now out off,
            off ≡ₚ delivered out ++ pending_all (pending_datagrams_ ni) ->
            let '(ni', _, out') := run_from es0 ni now out in
            off ++ offered es0 ≡ₚ delivered out' ++ pending_all (pending_datagrams_ ni')).
  { induction es0 as [|e es0 IH]; intros ni now out off H; simpl.
    - now rewrite app_nil_r.
    - pose proof (step_conserves e ni now out off H) as H1.
      destruct (step e ni) as [ni1 o] eqn:Hs. simpl in H1.
      specialize (IH ni1 (now + elapsed e)%Z (out ++ map (pair now) o) _ H1).
      destruct (run_from es0 _ _ _) as [[ni' now'] out']. simpl in IH.
      rewrite <- IH. unfold offered. simpl. rewrite app_assoc, app_nil_r. reflexivity. }
  specialize (Hgen es (create eth ip) 0%Z [] [] ltac:(reflexivity)).
  destruct (run_from es _ _ _) as [[ni now] out]. exact Hgen.
Qed.


(** A property of states that every call keeps holds all along a run. *)
Lemma run_from_preserves (P : t -> Prop) :
  (forall e ni, P ni -> P (step e ni).1) ->
  forall es ni now out, P ni -> P (run_from es ni now out).1.1.
Proof.
  intros Hstep es. induction es as [|e es IH]; intros ni now out I; simpl; [exact I|].
  pose proof (Hstep e ni I) as I1. destruct (step e ni) as [ni1 o]. apply IH, I1.
Qed.

Lemma step_inv e ni : ni_inv ni -> ni_inv (step e ni).1.
Proof.
  destruct e; simpl; [apply send_datagram_inv | apply recv_frame_inv | apply tick_inv].
Qed.

(** (C29) In every state a fresh interface reaches, each outstanding ARP
    request has datagrams queued behind it, no datagram waits for an
    address the ARP table already holds, and no queue is empty. *)
Theorem run_ni_inv es eth ip : ni_inv (run_from es (create eth ip) 0 []).1.1.
Proof. apply run_from_preserves; [exact step_inv | apply create_inv]. Qed.

(** The ARP request [send_datagram] broadcasts is the header's
    [create_arp_message(OPCODE_REQUEST, {}, next_hop)]. *)
Lemma arp_messages_create d nh ni :
  arp_table_ ni !! nh = None -> pending_timers_ ni !! nh = None ->
  (send_datagram d nh ni).2 =
  [mkFrame (mkEthernetHeader ETHERNET_BROADCAST (ethernet_address_ ni) TYPE_ARP)
           (PARP (create_arp_message ni OPCODE_REQUEST 0 nh))].
Proof. intros Ha Ht. unfold send_datagram. now rewrite Ha, Ht. Qed.

(** ** The ages of the TimeoutTrackers *)

(** Every [TimeoutTracker] of the tables holds a [size_t] age below its
    lifetime: an outstanding request is younger than [ARP_RESPONSE_TTL],
    a learned mapping younger than [ARP_CACHE_ENTRY_LIFETIME]. *)
Definition ages_ok (ni : t) : Prop :=
  map_Forall (λ _ a, 0 <= a < ARP_RESPONSE_TTL)%Z (pending_timers_ ni) /\
  map_Forall (λ _ e, 0 <= e.2 < ARP_CACHE_ENTRY_LIFETIME)%Z (arp_table_ ni).

(** The request timer of [ip] after a tick. *)
Lemma tick_timer ms ni ip :
  pending_timers_ (tick ms ni) !! ip =
  match pending_timers_ ni !! ip with
  | Some a => if expired ARP_RESPONSE_TTL (tracker_tick ms a) then None else Some (tracker_tick ms a)
  | None => None
  end.
Proof.
  cbn [pending_timers_ tick]. rewrite map_lookup_filter, lookup_fmap.
  destruct (pending_timers_ ni !! ip); cbn; [|reflexivity].
  destruct (expired _ _) eqn:E; case_guard as Hg; cbn in Hg;
    first [reflexivity | discriminate | now exfalso; apply Hg].
Qed.

(** An address the ARP table does not hold stays out of it on a tick. *)
Lemma tick_arp_none ms ni ip : arp_table_ ni !! ip = None -> arp_table_ (tick ms ni) !! ip = None.
Proof. intros H. cbn [arp_table_ tick]. rewrite map_lookup_filter, lookup_fmap, H. reflexivity. Qed.

Lemma tick_ages ms ni : ages_ok (tick ms ni).
Proof.
  unfold ages_ok, tick, expired, tracker_tick. cbn [pending_timers_ arp_table_].
  split; apply map_Forall_lookup; intros k v Hk; apply map_lookup_filter_Some in Hk as [Hk He];
    rewrite lookup_fmap in Hk; apply fmap_Some in Hk as [v0 [_ ->]]; cbn in *;
    apply Z.leb_gt in He; split; [apply u64_range | exact He | apply u64_range | exact He].
Qed.

Lemma step_ages e ni : ages_ok ni -> ages_ok (step e ni).1.
Proof.
  intros [Ht Ha]. destruct e as [d nh | f | ms]; cbn [step fst]; [| |apply tick_ages].
  - unfold send_datagram. destruct (arp_table_ ni !! nh) as [[]|]; [split; assumption|].
    destruct (pending_timers_ ni !! nh); split; cbn; try assumption.
    apply map_Forall_insert_2; [unfold ARP_RESPONSE_TTL; lia | exact Ht].
  - unfold recv_frame. destruct (_ && _); [split; assumption|].
    destruct (_ =? TYPE_IPv4)%Z; [destruct (parse_datagram _); split; assumption|].
    destruct (_ =? TYPE_ARP)%Z; [|split; assumption].
    destruct (parse_arp _) as [msg|]; [|split; assumption].
    assert (Ha' : map_Forall (λ _ e, 0 <= e.2 < ARP_CACHE_ENTRY_LIFETIME)%Z
                    (<[sender_ip_address msg := (sender_ethernet_address msg, 0%Z)]> (arp_table_ ni)))
      by (apply map_Forall_insert_2; [cbn; unfold ARP_CACHE_ENTRY_LIFETIME; lia | exact Ha]).
    destruct (pending_datagrams_ ni !! sender_ip_address msg); split; cbn; try assumption.
    apply map_Forall_delete, Ht.
Qed.

(** (C30) The [size_t] ages of the interface stay in range: in every state
    a fresh interface reaches, whatever it is sent, receives and however
    long its ticks, each request timer is in [[0, 5000)] ms and each ARP
    entry's age in [[0, 30000)] ms; the 64-bit [_ms +=] never leaves an
    expired or wrapped tracker behind. *)
Theorem run_ages_ok es eth ip : ages_ok (run_from es (create eth ip) 0 []).1.1.
Proof.
  apply run_from_preserves; [exact step_ages|].
  split; apply map_Forall_empty.
Qed.

(** ** Liveness: a lost ARP request is retried *)

(** Only time passes: any [tick] of 1 ms up to [2^64 - 30000] ms (no
    tracker of [ages_ok] can wrap) may come next. *)
Definition tick_step (ni : t) (next : t -> Prop) : Prop :=
  forall ms, (1 <= ms < 2 ^ 64 - ARP_CACHE_ENTRY_LIFETIME)%Z -> next (tick ms ni).

(** A datagram for [ip] sent now broadcasts an ARP request for [ip]. *)
Definition requests_on_send (d : InternetDatagram) (ip : IPv4NumericAddress) (ni : t) : Prop :=
  exists f, (send_datagram d ip ni).2 = [f] /\ is_request ip f = true.

Lemma send_requests d ip ni :
  arp_table_ ni !! ip = None -> pending_timers_ ni !! ip = None -> requests_on_send d ip ni.
Proof.
  intros Ha Ht. unfold requests_on_send. rewrite (arp_messages_create d ip ni Ha Ht).
  eexists. split; [reflexivity|]. cbn. now rewrite !Z.eqb_refl.
Qed.

(** (C22) Liveness of ARP resolution: for an address the ARP table does not
    hold, whatever the request outstanding for it, if only time passes
    then after finitely many ticks (of any length from 1 ms) the request
    timer is gone and the next datagram for that address broadcasts a new
    ARP request; an unanswered request never blocks its next hop for
    good. *)
Theorem arp_retry_eventually d ip ni :
  ages_ok ni -> arp_table_ ni !! ip = None -> eventually tick_step (requests_on_send d ip) ni.
Proof.
  intros Hok Ha.
  apply (eventually_weaken tick_step (λ ni', ages_ok ni' /\ arp_table_ ni' !! ip = None /\
                                           pending_timers_ ni' !! ip = None));
    [|intros ni' (_ & H1 & H2); now apply send_requests].
  apply (eventually_by_measure tick_step _ (λ ni', ages_ok ni' /\ arp_table_ ni' !! ip = None)
           (λ ni', match pending_timers_ ni' !! ip with
                   | Some a => S (Z.to_nat (ARP_RESPONSE_TTL - a)) | None => 0 end)); [|auto].
  intros ni' [Hok' Ha']. destruct (pending_timers_ ni' !! ip) as [a|] eqn:Ht; [|left; auto].
  right. intros ms Hms. split; [split; [apply tick_ages | now apply tick_arp_none]|].
  pose proof (proj1 Hok' ip a Ht) as Hrange. cbn in Hrange.
  rewrite tick_timer, Ht. unfold expired, tracker_tick. rewrite u64_small
    by (unfold ARP_RESPONSE_TTL, ARP_CACHE_ENTRY_LIFETIME in *; lia).
  destruct (Z.leb_spec ARP_RESPONSE_TTL (a + ms)); lia.
Qed.

(** ** Datagrams waiting for ARP leave in the order they were sent *)

(** Several calls of [send_datagram] for one next hop, in order. *)
Fixpoint send_to (ds : list InternetDatagram) (ip : IPv4NumericAddress) (ni : t) : t * list EthernetFrame :=
  match ds with
  | [] => (ni, [])
  | d :: ds' =>
      let '(ni1, f1) := send_datagram d ip ni in
      let '(ni2, f2) := send_to ds' ip ni1 in (ni2, f1 ++ f2)
  end.

Definition is_arp_frame (f : EthernetFrame) : Prop := eth_type (frame_header f) = TYPE_ARP.

(** For an unresolved next hop, [send_datagram] appends the datagram to
    its queue and sends at most an ARP request; the addresses and the
    ARP table stay. *)
Lemma send_unresolved d ip ni :
  arp_table_ ni !! ip = None ->
  let '(ni', out) := send_datagram d ip ni in
  ethernet_address_ ni' = ethernet_address_ ni /\ ip_address_ ni' = ip_address_ ni /\
  arp_table_ ni' = arp_table_ ni /\
  pending_datagrams_ ni' !! ip = Some (default [] (pending_datagrams_ ni !! ip) ++ [d]) /\
  Forall is_arp_frame out.
Proof.
  intros Ha. unfold send_datagram. rewrite Ha.
  destruct (pending_timers_ ni !! ip); cbn; rewrite lookup_insert_eq;
    split_conj; repeat constructor.
Qed.

Lemma send_to_unresolved ds ip ni :
  arp_table_ ni !! ip = None ->
  let '(ni', out) := send_to ds ip ni in
  ethernet_address_ ni' = ethernet_address_ ni /\ ip_address_ ni' = ip_address_ ni /\
  arp_table_ ni' = arp_table_ ni /\
  default [] (pending_datagrams_ ni' !! ip) = default [] (pending_datagrams_ ni !! ip) ++ ds /\
  Forall is_arp_frame out.
Proof.
  revert ni. induction ds as [|d ds IH]; intros ni Ha; cbn [send_to].
  - rewrite app_nil_r. split_conj; auto.
  - pose proof (send_unresolved d ip ni Ha) as H1. destruct (send_datagram d ip ni) as [ni1 f1].
    destruct H1 as (He1 & Hi1 & Ha1 & Hp1 & Hf1). rewrite <- Ha1 in Ha.
    specialize (IH ni1 Ha). destruct (send_to ds ip ni1) as [ni2 f2].
    destruct IH as (He2 & Hi2 & Ha2 & Hp2 & Hf2).
    split_conj; try congruence.
    + rewrite Hp2, Hp1. cbn. now rewrite <- app_assoc.
    + apply Forall_app. auto.
Qed.

Lemma send_to_inv ds ip ni : ni_inv ni -> ni_inv (send_to ds ip ni).1.
Proof.
  revert ni. induction ds as [|d ds IH]; intros ni I; [exact I|]. cbn [send_to].
  pose proof (send_datagram_inv d ip ni I) as I1. destruct (send_datagram d ip ni) as [ni1 f1].
  specialize (IH ni1 I1). destruct (send_to ds ip ni1). exact IH.
Qed.

(** (C15) ARP resolution flushes the queue in order: after any number of
    datagrams are sent to a next hop the interface has no Ethernet
    address for, an ARP message from that next hop (addressed to the
    interface or broadcast) makes the interface send, after at most its
    own ARP reply, exactly the IPv4 frames of the waiting datagrams,
    those queued before and then the new ones, in the order they were
    sent, to the learned address; the queue and the request timer are
    gone and the address is in the ARP table. *)
Theorem arp_reply_flushes_in_order ds ip ni frame msg :
  ni_inv ni -> arp_table_ ni !! ip = None ->
  eth_type (frame_header frame) = TYPE_ARP ->
  (eth_dst (frame_header frame) = ethernet_address_ ni \/ eth_dst (frame_header frame) = ETHERNET_BROADCAST) ->
  frame_payload frame = PARP msg -> sender_ip_address msg = ip ->
  let '(ni1, out1) := send_to ds ip ni in
  let '(ni2, out2) := recv_frame frame ni1 in
  Forall is_arp_frame out1 /\
  (exists reply, Forall is_arp_frame reply /\
     out2 = reply ++ map (ipv4_frame ni (sender_ethernet_address msg))
                         (default [] (pending_datagrams_ ni !! ip) ++ ds)) /\
  pending_datagrams_ ni2 !! ip = None /\ pending_timers_ ni2 !! ip = None /\
  arp_table_ ni2 !! ip = Some (sender_ethernet_address msg, 0%Z).
Proof.
  intros I Ha Ht Hd Hp Hs. pose proof (send_to_unresolved ds ip ni Ha) as H1.
  pose proof (send_to_inv ds ip ni I) as I1.
  destruct (send_to ds ip ni) as [ni1 out1]. destruct H1 as (He & Hi & Ha1 & Hq & Hf).
  cbn [fst] in I1.
  unfold recv_frame. rewrite Ht, Hp. cbn [parse_arp].
  replace (negb (eth_dst (frame_header frame) =? ethernet_address_ ni1)%Z &&
           negb (eth_dst (frame_header frame) =? ETHERNET_BROADCAST)%Z) with false
    by (rewrite He; destruct Hd as [-> | ->]; rewrite Z.eqb_refl; [reflexivity | now rewrite andb_false_r]).
  change (TYPE_ARP =? TYPE_IPv4)%Z with false. rewrite Z.eqb_refl. rewrite Hs.
  cbv zeta. match goal with |- context [if (opcode msg =? OPCODE_REQUEST)%Z && ?c then ?a else ?b] =>
    set (reply := if (opcode msg =? OPCODE_REQUEST)%Z && c then a else b) end.
  assert (Hr : Forall is_arp_frame reply)
    by (unfold reply; destruct (_ && _); repeat constructor).
  unfold ipv4_frame in *. rewrite <- He.
  destruct (pending_datagrams_ ni1 !! ip) as [q|] eqn:Eq; cbn in Hq |- *;
    rewrite ?lookup_delete_eq, ?lookup_insert_eq; split_conj; auto.
  - exists reply. split; [exact Hr|]. now rewrite <- Hq.
  - exists reply. split; [exact Hr|]. now rewrite <- Hq, app_nil_r.
  - apply not_elem_of_dom. intros Hin. apply (ni_timers _ I1) in Hin.
    apply elem_of_dom in Hin as [q Hq']. congruence.
Qed.

End NetworkInterface.

(** ** The spec's ARP scenario and the witnesses *)
Module NetworkInterfaceScenario.
Import NetworkInterface.

(** 10.0.0.1 with Ethernet address 17 sends two datagrams to 10.0.0.2;
    the reply comes from Ethernet address 99. *)
Definition here : IPv4NumericAddress := 167772161.
Definition there : IPv4NumericAddress := 167772162.
Definition d1 : InternetDatagram := mkDatagram (mkIPv4Header 64 here there 0) (bstr "one").
Definition d2 : InternetDatagram := mkDatagram (mkIPv4Header 64 here there 0) (bstr "two").
Definition reply : EthernetFrame :=
  mkFrame (mkEthernetHeader 17 99 TYPE_ARP) (PARP (mkARP OPCODE_REPLY 99 there 17 here)).
Definition scenario : list event := [Send d1 there; Tick 1000; Send d2 there; Recv reply].

(** Scenario 6 of the spec: two datagrams for the same unresolved
    next hop within 5000 ms cause exactly one broadcast ARP request; the
    reply makes both leave, in order, to the learned address, and the
    pending entry and its timer are gone. *)
Example arp_scenario :
  let '(ni, _, out) := run_from scenario (create 17 here) 0 [] in
  map snd out =
    [mkFrame (mkEthernetHeader ETHERNET_BROADCAST 17 TYPE_ARP) (PARP (mkARP OPCODE_REQUEST 17 here 0 there));
     mkFrame (mkEthernetHeader 99 17 TYPE_IPv4) (PDatagram d1);
     mkFrame (mkEthernetHeader 99 17 TYPE_IPv4) (PDatagram d2)] /\
  pending_datagrams_ ni !! there = None /\ pending_timers_ ni !! there = None /\
  arp_table_ ni !! there = Some (99%Z, 0%Z).
Proof. vm_compute. split_conj; reflexivity. Qed.

Lemma arp_dedup_witness :
  spaced (request_times there (run_from (scenario ++ [Tick 30000; Send d1 there]) (create 17 here) 0 []).2).
Proof. apply arp_dedup. vm_compute. reflexivity. Defined.

Definition waiting : t := (send_datagram d1 there (create 17 here)).1.

Lemma waiting_ages : ages_ok waiting.
Proof. apply (step_ages (Send d1 there)). split; apply map_Forall_empty. Qed.

Lemma arp_retry_eventually_witness : eventually tick_step (requests_on_send d2 there) waiting.
Proof. apply (arp_retry_eventually d2 there waiting waiting_ages). vm_compute. reflexivity. Defined.

(** Witness of [arp_reply_flushes_in_order]: "one" and "two" wait for
    10.0.0.2 and leave in that order when its reply arrives. *)
Lemma arp_reply_flushes_in_order_witness :
  (ni_inv (create 17 here) /\ arp_table_ (create 17 here) !! there = None) /\
  let '(ni1, out1) := send_to [d1; d2] there (create 17 here) in
  let '(ni2, out2) := recv_frame reply ni1 in
  Forall is_arp_frame out1 /\
  (exists rep, Forall is_arp_frame rep /\
     out2 = rep ++ map (ipv4_frame (create 17 here) 99) (default [] (pending_datagrams_ (create 17 here) !! there) ++ [d1; d2])) /\
  pending_datagrams_ ni2 !! there = None /\ pending_timers_ ni2 !! there = None /\
  arp_table_ ni2 !! there = Some (99%Z, 0%Z).
Proof.
  split; [split; [apply create_inv | reflexivity]|].
  apply (arp_reply_flushes_in_order [d1; d2] there (create 17 here) reply (mkARP OPCODE_REPLY 99 there 17 here));
    [apply create_inv | reflexivity | reflexivity | left; reflexivity | reflexivity | reflexivity].
Defined.

End NetworkInterfaceScenario.
