(* ===== verification/Router.v ===== *)
(** * Router: longest-prefix-match forwarding (router.cc)

    router.hh is not in the repository; router.cc fixes what the router
    holds: [_interfaces], a vector of network interfaces, and [routable],
    a sequence of hash maps indexed by prefix length, from a rotated
    prefix to [meg] = (interface number, optional next hop).  Here
    [routable] is a list of stdpp [gmap]s whose length [N] is left open:
    the theorems say for which [N] the lookup of [route] is the
    longest-prefix match.  The IPv4 header checksum is computed by the
    external header codec; the section takes it as [compute_checksum].

    [rotr] is C++20 [std::rotr] on [uint32_t]; [scan] is the filter
    over [routable | views::reverse] whose predicate shifts [addr] right
    by one before each probe.

    The theorems: the scan equals the spec's per-length probe with 32
    tables and is then the longest-prefix match; with 33 tables a /32
    host route is matched one bit off; prefixes with host bits are
    ignored; forwarded datagrams have TTL at least 1; [route] drains
    every received queue and, when every route names an existing
    interface, never reaches the undefined indexing of [_interfaces];
    and [route] refines [route_spec], the spec's router, which takes
    every received queue and carries out the per-datagram decision
    [forward] (drop, or interface, decremented datagram and next hop) in
    order through [send_datagram]. *)

From Stdlib Require Import ZArith Lia.
From stdpp Require Import gmap list.
From S2P Require Import Prelude NetworkInterface.
Import NetworkInterface.

(** [meg]: the interface number and the next hop of a route. *)
Abbreviation meg := (nat * option IPv4NumericAddress)%type.

Section Router.

Context (compute_checksum : IPv4Header -> Z).

Record Router := mkRouter {
  _interfaces : list NetworkInterface.t;
  routable : list (gmap Z meg)
}.

(** [std::rotr(x, s)] on a [uint32_t]: the count is taken modulo 32
    (a negative count rotates left, which is the same rotation). *)
Definition rotr (x s : Z) : Z :=
  let r := (s mod 32)%Z in
  if (r =? 0)%Z then x else u32 (Z.lor (Z.shiftr x r) (Z.shiftl x (32 - r))).

(** [Router::add_route]: [routable[prefix_length][rotr(prefix, 32 -
    prefix_length)] = {interface_num, next_hop}].  Indexing past the end
    of [routable] is undefined in the C++ and gives [None] here. *)
Definition add_route (route_prefix : Z) (prefix_length : nat) (next_hop : option IPv4NumericAddress)
    (interface_num : nat) (r : Router) : option Router :=
  match routable r !! prefix_length with
  | None => None
  | Some mp =>
      Some (mkRouter (_interfaces r)
              (<[prefix_length := <[rotr route_prefix (32 - Z.of_nat prefix_length) :=
                                      (interface_num, next_hop)]> mp]> (routable r)))
  end.

(** The lookup of [route]: the tables from the last one down, [addr]
    shifted right by one before each probe; the first hit. *)
Fixpoint scan (tables_rev : list (gmap Z meg)) (addr : Z) : option meg :=
  match tables_rev with
  | [] => None
  | mp :: rest =>
      let addr := Z.shiftr addr 1 in
      match mp !! addr with
      | Some m => Some m
      | None => scan rest addr
      end
  end.

Definition lookup_route (tables : list (gmap Z meg)) (dst : Z) : option meg :=
  scan (reverse tables) dst.

(** One datagram of [route]: drop at TTL <= 1; decrement the TTL and
    recompute the checksum; drop without a route; otherwise hand it to
    the chosen interface for the next hop, or for the destination itself
    on a direct route.  An interface number past the end of
    [_interfaces] is undefined in the C++ and gives [None]. *)
Definition route_datagram (ifs : list NetworkInterface.t) (tables : list (gmap Z meg))
    (d : InternetDatagram) : option (list NetworkInterface.t * list (nat * EthernetFrame)) :=
  if (ttl (header d) <=? 1)%Z then Some (ifs, [])
  else
    let h := header d in
    let h1 := mkIPv4Header (ttl h - 1) (src h) (dst h) (cksum h) in
    let h2 := mkIPv4Header (ttl h1) (src h1) (dst h1) (compute_checksum h1) in
    let d' := mkDatagram h2 (dgram_payload d) in
    match lookup_route tables (dst h2) with
    | None => Some (ifs, [])
    | Some (num, next_hop) =>
        match ifs !! num with
        | None => None
        | Some ni =>
            let '(ni', frames) := send_datagram d' (default (dst h2) next_hop) ni in
            Some (<[num := ni']> ifs, map (pair num) frames)
        end
    end.

(** The [while] loop over one interface's received queue. *)
Fixpoint route_queue (tables : list (gmap Z meg)) (ds : list InternetDatagram)
    (ifs : list NetworkInterface.t) : option (list NetworkInterface.t * list (nat * EthernetFrame)) :=
  match ds with
  | [] => Some (ifs, [])
  | d :: ds' =>
      match route_datagram ifs tables d with
      | None => None
      | Some (ifs1, out1) =>
          match route_queue tables ds' ifs1 with
          | None => None
          | Some (ifs2, out2) => Some (ifs2, out1 ++ out2)
          end
      end
  end.

Definition clear_received (ni : NetworkInterface.t) : NetworkInterface.t :=
  NetworkInterface.mk (ethernet_address_ ni) (ip_address_ ni) [] (pending_datagrams_ ni)
    (pending_timers_ ni) (arp_table_ ni).

(** The [for] loop of [route] over the interfaces [k], [k+1], ...: each
    queue is emptied and its datagrams routed in order ([send_datagram]
    never touches a received queue, so taking the queue first is the
    C++'s pop-then-route). *)
Fixpoint route_from (ks : list nat) (tables : list (gmap Z meg)) (ifs : list NetworkInterface.t)
  : option (list NetworkInterface.t * list (nat * EthernetFrame)) :=
  match ks with
  | [] => Some (ifs, [])
  | k :: ks' =>
      match ifs !! k with
      | None => route_from ks' tables ifs
      | Some ni =>
          match route_queue tables (datagrams_received_ ni) (<[k := clear_received ni]> ifs) with
          | None => None
          | Some (ifs1, out1) =>
              match route_from ks' tables ifs1 with
              | None => None
              | Some (ifs2, out2) => Some (ifs2, out1 ++ out2)
              end
          end
      end
  end.

(** [Router::route]. *)
Definition route (r : Router) : option (Router * list (nat * EthernetFrame)) :=
  match route_from (seq 0 (length (_interfaces r))) (routable r) (_interfaces r) with
  | None => None
  | Some (ifs, out) => Some (mkRouter ifs (routable r), out)
  end.


(** ** The lookup as a scan over prefix lengths *)

(** The spec's lookup: prefix lengths from [n - 1] down to 0, probing
    table [len] with [dst >> (c - len)]; the first hit wins.  With [c =
    32] this is "the first table containing [dst >> (32 - length)]". *)
Fixpoint probe_len (n : nat) (tables : list (gmap Z meg)) (c : Z) (dst : Z) : option meg :=
  match n with
  | O => None
  | S j =>
      match tables !! j ≫= (λ mp, mp !! Z.shiftr dst (c - Z.of_nat j)) with
      | Some m => Some m
      | None => probe_len j tables c dst
      end
  end.

Lemma probe_len_app n l t c dst :
  n <= length l -> probe_len n (l ++ [t]) c dst = probe_len n l c dst.
Proof.
  induction n as [|j IH]; intros Hn; simpl; [reflexivity|].
  rewrite lookup_app_l by lia. rewrite IH by lia. reflexivity.
Qed.

(** The shifting scan over [N] tables probes table [j] with
    [dst >> (s + N - j)]. *)
Lemma scan_probe l dst s :
  (0 <= s)%Z ->
  scan (reverse l) (Z.shiftr dst s) = probe_len (length l) l (s + Z.of_nat (length l)) dst.
Proof.
  revert s. induction l as [|t l IH] using rev_ind; intros s Hs; [reflexivity|].
  rewrite reverse_snoc, length_app. simpl. rewrite Nat.add_1_r. simpl.
  rewrite lookup_app_r, Nat.sub_diag by lia. simpl.
  rewrite probe_len_app by lia. rewrite Z.shiftr_shiftr by lia.
  replace (s + Z.of_nat (S (length l)) - Z.of_nat (length l))%Z with (s + 1)%Z by lia.
  destruct (t !! Z.shiftr dst (s + 1)); [reflexivity|].
  rewrite IH by lia. f_equal. lia.
Qed.


(** The lookup over [N] tables is the spec's scan with shifts [N - len]. *)
Lemma lookup_route_probe tables dst :
  lookup_route tables dst = probe_len (length tables) tables (Z.of_nat (length tables)) dst.
Proof.
  unfold lookup_route. rewrite <- (Z.shiftr_0_r dst) at 1. rewrite scan_probe by lia. reflexivity.
Qed.

(** With 32 tables the code's lookup, whose filter predicate shifts
    the destination right once per table visited, is exactly the spec's
    scan: prefix lengths from 31 down to 0, table [len] probed with [dst
    >> (32 - len)], first hit wins. *)
Theorem lookup_route_spec tables dst :
  length tables = 32%nat -> lookup_route tables dst = probe_len 32 tables 32 dst.
Proof. intros H. rewrite lookup_route_probe, H. reflexivity. Qed.

(** The probe of table [j] in the scan over [c]. *)
Definition hit (tables : list (gmap Z meg)) (c dst : Z) (j : nat) : option meg :=
  tables !! j ≫= (λ mp, mp !! Z.shiftr dst (c - Z.of_nat j)).

Lemma probe_len_some n tables c dst m :
  probe_len n tables c dst = Some m ->
  exists j, (j < n)%nat /\ hit tables c dst j = Some m /\
    forall j', (j < j' < n)%nat -> hit tables c dst j' = None.
Proof.
  induction n as [|n IH]; simpl; [discriminate|]. fold (hit tables c dst n).
  destruct (hit tables c dst n) as [m'|] eqn:Hh.
  - intros [= <-]. exists n. split; [lia|]. split; [exact Hh|]. intros; lia.
  - intros Hp. destruct (IH Hp) as (j & Hj & Hhj & Hnone). exists j. split; [lia|]. split; [exact Hhj|].
    intros j' Hj'. destruct (decide (j' = n)) as [->|]; [exact Hh|]. apply Hnone. lia.
Qed.

Lemma probe_len_none n tables c dst :
  probe_len n tables c dst = None -> forall j, (j < n)%nat -> hit tables c dst j = None.
Proof.
  induction n as [|n IH]; simpl; [intros; lia|]. fold (hit tables c dst n).
  destruct (hit tables c dst n) eqn:Hh; [discriminate|].
  intros Hp j Hj. destruct (decide (j = n)) as [->|]; [exact Hh|]. apply IH; [exact Hp|lia].
Qed.

(** ** [rotr] and the stored keys *)

Lemma rotr_arith x s :
  (0 <= x < 2 ^ 32)%Z -> (1 <= s <= 31)%Z ->
  rotr x s = (x / 2 ^ s + (x mod 2 ^ s) * 2 ^ (32 - s))%Z.
Proof.
  intros Hx Hs. unfold rotr. rewrite Z.mod_small by lia.
  destruct (Z.eqb_spec s 0); [lia|].
  rewrite Z.shiftr_div_pow2, Z.shiftl_mul_pow2 by lia.
  assert (HPQ : (2 ^ s * 2 ^ (32 - s) = 2 ^ 32)%Z) by (rewrite <- Z.pow_add_r by lia; f_equal; lia).
  pose proof (Z.pow_pos_nonneg 2 s ltac:(lia) ltac:(lia)) as HP.
  pose proof (Z.pow_pos_nonneg 2 (32 - s) ltac:(lia) ltac:(lia)) as HQ.
  assert (Hq : (0 <= x / 2 ^ s < 2 ^ (32 - s))%Z).
  { split; [apply Z.div_pos; lia|]. apply Z.div_lt_upper_bound; lia. }
  rewrite Z.lor_comm, lor_shifted_low by lia. unfold u32. rewrite <- HPQ.
  set (P := (2 ^ s)%Z) in *. set (Q := (2 ^ (32 - s))%Z) in *.
  pose proof (Z.mod_pos_bound x P HP) as Hr. pose proof (Z.div_mod x P ltac:(lia)) as Hdm.
  symmetry. apply Z.mod_unique with (x / P)%Z; nia.
Qed.

(** A normalized prefix (no bit set past its length) is stored under
    [prefix >> (32 - len)], the key its matching destinations probe. *)
Lemma rotr_normalized x len :
  (0 <= x < 2 ^ 32)%Z -> (len <= 31)%nat -> (x mod 2 ^ (32 - Z.of_nat len) = 0)%Z ->
  rotr x (32 - Z.of_nat len) = Z.shiftr x (32 - Z.of_nat len).
Proof.
  intros Hx Hl Hm. rewrite Z.shiftr_div_pow2 by lia. destruct (decide (len = 0%nat)) as [->|].
  - simpl in *. rewrite Z.mod_small in Hm by lia. subst. reflexivity.
  - rewrite rotr_arith, Hm by lia. lia.
Qed.

(** A prefix with a bit set past its length is stored under a key no
    destination probes. *)
Lemma rotr_unnormalized x len dst :
  (0 <= x < 2 ^ 32)%Z -> (len <= 31)%nat -> (x mod 2 ^ (32 - Z.of_nat len) <> 0)%Z ->
  (0 <= dst < 2 ^ 32)%Z -> Z.shiftr dst (32 - Z.of_nat len) <> rotr x (32 - Z.of_nat len).
Proof.
  intros Hx Hl Hm Hd. rewrite Z.shiftr_div_pow2 by lia. destruct (decide (len = 0%nat)) as [->|].
  - simpl in *. rewrite Z.mod_small in Hm by lia. unfold rotr. simpl.
    rewrite Z.div_small by lia. lia.
  - rewrite rotr_arith by lia.
    assert (HPQ : (2 ^ (32 - Z.of_nat len) * 2 ^ (32 - (32 - Z.of_nat len)) = 2 ^ 32)%Z)
      by (rewrite <- Z.pow_add_r by lia; f_equal; lia).
    pose proof (Z.pow_pos_nonneg 2 (32 - Z.of_nat len) ltac:(lia) ltac:(lia)) as HP.
    pose proof (Z.pow_pos_nonneg 2 (32 - (32 - Z.of_nat len)) ltac:(lia) ltac:(lia)) as HQ.
    set (P := (2 ^ (32 - Z.of_nat len))%Z) in *. set (Q := (2 ^ (32 - (32 - Z.of_nat len)))%Z) in *.
    pose proof (Z.mod_pos_bound x P HP). pose proof (Z.div_pos x P ltac:(lia) ltac:(lia)).
    assert (dst / P < Q)%Z by (apply Z.div_lt_upper_bound; lia). nia.
Qed.


(** ** Longest-prefix match over the routes added *)

(** A call [add_route(prefix, len, next_hop, num)]. *)
Record route_entry := mkRoute {
  re_prefix : Z;
  re_len : nat;
  re_next_hop : option IPv4NumericAddress;
  re_num : nat
}.

Definition re_meg (e : route_entry) : meg := (re_num e, re_next_hop e).

Definition normalized (e : route_entry) : Prop :=
  (0 <= re_prefix e < 2 ^ 32)%Z /\ (re_len e <= 31)%nat /\
  (re_prefix e mod 2 ^ (32 - Z.of_nat (re_len e)) = 0)%Z.

(** The destination agrees with the route on the route's first
    [re_len] bits. *)
Definition matches (e : route_entry) (dst : Z) : Prop :=
  Z.shiftr dst (32 - Z.of_nat (re_len e)) = Z.shiftr (re_prefix e) (32 - Z.of_nat (re_len e)).

Fixpoint add_routes (rs : list route_entry) (r : Router) : option Router :=
  match rs with
  | [] => Some r
  | e :: rs' =>
      match add_route (re_prefix e) (re_len e) (re_next_hop e) (re_num e) r with
      | None => None
      | Some r1 => add_routes rs' r1
      end
  end.

(** What the tables hold after the routes [rs]: every entry comes from
    a route of [rs] at its length and key, and every route of [rs] has an
    entry there. *)
Record tables_inv (tables : list (gmap Z meg)) (rs : list route_entry) : Prop := {
  ti_length : length tables = 32%nat;
  ti_sound : forall j key m, tables !! j ≫= (λ mp, mp !! key) = Some m ->
    exists e, e ∈ rs /\ re_len e = j /\ Z.shiftr (re_prefix e) (32 - Z.of_nat j) = key /\ re_meg e = m;
  ti_complete : forall e, e ∈ rs ->
    is_Some (tables !! re_len e ≫= (λ mp, mp !! Z.shiftr (re_prefix e) (32 - Z.of_nat (re_len e))))
}.

Lemma add_route_tables_inv e r r' rs :
  normalized e -> tables_inv (routable r) rs ->
  add_route (re_prefix e) (re_len e) (re_next_hop e) (re_num e) r = Some r' ->
  tables_inv (routable r') (rs ++ [e]).
Proof.
  intros (Hx & Hl & Hm) [Hlen Hs Hc] Ha. unfold add_route in Ha.
  destruct (routable r !! re_len e) as [mp|] eqn:Hmp; [|discriminate]. injection Ha as <-. cbn.
  rewrite rotr_normalized by assumption.
  set (k := Z.shiftr (re_prefix e) (32 - Z.of_nat (re_len e))).
  split.
  - rewrite length_insert. exact Hlen.
  - intros j key m. destruct (decide (j = re_len e)) as [->|Hj].
    + rewrite list_lookup_insert_eq by (apply lookup_lt_is_Some; eauto). simpl.
      destruct (decide (key = k)) as [->|Hk].
      * rewrite lookup_insert_eq. intros [= <-]. exists e. split; [set_solver|]. auto.
      * rewrite lookup_insert_ne by congruence. intros H.
        destruct (Hs (re_len e) key m ltac:(rewrite Hmp; exact H)) as (e' & ? & ?). exists e'. set_solver.
    + rewrite list_lookup_insert_ne by congruence. intros H.
      destruct (Hs j key m H) as (e' & ? & ?). exists e'. set_solver.
  - intros e' He'. apply elem_of_app in He' as [He'|He'%list_elem_of_singleton].
    + destruct (decide (re_len e' = re_len e)) as [Heq|Hj].
      * rewrite Heq, list_lookup_insert_eq by (apply lookup_lt_is_Some; eauto). simpl.
        pose proof (Hc e' He') as Hs'. rewrite Heq, Hmp in Hs'. simpl in Hs'. rewrite <- Heq.
        destruct (decide (Z.shiftr (re_prefix e') (32 - Z.of_nat (re_len e')) = k)) as [->|Hk].
        -- rewrite lookup_insert_eq. eauto.
        -- rewrite lookup_insert_ne by congruence. rewrite Heq. exact Hs'.
      * rewrite list_lookup_insert_ne by congruence. apply Hc, He'.
    + subst e'. rewrite list_lookup_insert_eq by (apply lookup_lt_is_Some; eauto). simpl.
      fold k. rewrite lookup_insert_eq. eauto.
Qed.


Lemma add_routes_tables_inv rs done r r' :
  Forall normalized rs -> tables_inv (routable r) done -> add_routes rs r = Some r' ->
  tables_inv (routable r') (done ++ rs).
Proof.
  revert done r. induction rs as [|e rs IH]; intros done r Hn I Ha; simpl in Ha.
  - injection Ha as <-. now rewrite app_nil_r.
  - inversion Hn as [|? ? He Hrs]; subst.
    destruct (add_route _ _ _ _ r) as [r1|] eqn:Ha1; [|discriminate].
    rewrite cons_middle, app_assoc. apply (IH _ r1 Hrs); [|exact Ha].
    eapply add_route_tables_inv; eauto.
Qed.

(** (C11) Longest-prefix match: from 32 empty tables, after adding routes
    with normalized prefixes of length at most 31, [route]'s lookup for
    a destination returns the interface and next hop of a route that
    matches it with no longer matching route, and returns nothing
    exactly when no route matches. *)
Theorem lookup_route_lpm rs r r' dst :
  Forall normalized rs -> length (routable r) = 32%nat -> Forall (λ mp, mp = ∅) (routable r) ->
  add_routes rs r = Some r' ->
  match lookup_route (routable r') dst with
  | Some m => exists e, e ∈ rs /\ matches e dst /\ re_meg e = m /\
                forall e', e' ∈ rs -> matches e' dst -> (re_len e' <= re_len e)%nat
  | None => forall e, e ∈ rs -> ~ matches e dst
  end.
Proof.
  intros Hn Hlen Hemp Ha.
  assert (I0 : tables_inv (routable r) []).
  { split; [exact Hlen| |intros e He; set_solver].
    intros j key m H. destruct (routable r !! j) as [mp|] eqn:Hj; [|discriminate].
    rewrite Forall_lookup in Hemp. rewrite (Hemp j mp Hj) in H. simpl in H. rewrite lookup_empty in H. discriminate. }
  destruct (add_routes_tables_inv rs [] r r' Hn I0 Ha) as [Hl' Hs Hc]. simpl in Hs, Hc.
  assert (Hlen_e : forall e, e ∈ rs -> (re_len e < 32)%nat).
  { intros e He. rewrite Forall_forall in Hn. destruct (Hn e He) as (_ & ? & _). lia. }
  assert (Hmatch : forall e, e ∈ rs -> matches e dst -> is_Some (hit (routable r') 32 dst (re_len e))).
  { intros e He Hm. unfold hit, matches in *. rewrite Hm. apply Hc, He. }
  rewrite lookup_route_probe, Hl'.
  destruct (probe_len _ _ _ _) as [m|] eqn:Hp; change (Z.of_nat 32) with 32%Z in Hp.
  - destruct (probe_len_some _ _ _ _ _ Hp) as (j & Hj & Hhit & Hnone).
    destruct (Hs j _ m Hhit) as (e & He & Hje & Hkey & Hmeg). subst j.
    exists e. split; [exact He|]. split; [unfold matches; congruence|]. split; [exact Hmeg|].
    intros e' He' Hm'. destruct (Nat.le_gt_cases (re_len e') (re_len e)) as [|Hgt]; [assumption|].
    destruct (Hmatch e' He' Hm') as [x Hx]. rewrite Hnone in Hx; [discriminate|].
    split; [exact Hgt|apply Hlen_e, He'].
  - intros e He Hm. destruct (Hmatch e He Hm) as [x Hx].
    rewrite (probe_len_none _ _ _ _ Hp) in Hx; [discriminate|apply Hlen_e, He].
Qed.


Lemma probe_len_ext n t1 t2 c dst :
  (forall j, (j < n)%nat -> hit t1 c dst j = hit t2 c dst j) -> probe_len n t1 c dst = probe_len n t2 c dst.
Proof.
  induction n as [|n IH]; intros H; simpl; [reflexivity|]. fold (hit t1 c dst n) (hit t2 c dst n).
  rewrite (H n) by lia. destruct (hit t2 c dst n); [reflexivity|]. apply IH. intros; apply H; lia.
Qed.

(** (C35) [add_route] with a prefix that has a bit set past its length
    (say 10.1.0.0/8) stores the route under a rotated key that no
    destination probes: with 32 tables, every lookup is the same as
    before the call, so the route is silently ignored. *)
Theorem unnormalized_route_ignored prefix len nh num r r' dst :
  length (routable r) = 32%nat -> (0 <= prefix < 2 ^ 32)%Z -> (len <= 31)%nat ->
  (prefix mod 2 ^ (32 - Z.of_nat len) <> 0)%Z -> (0 <= dst < 2 ^ 32)%Z ->
  add_route prefix len nh num r = Some r' ->
  lookup_route (routable r') dst = lookup_route (routable r) dst.
Proof.
  intros Hl Hx Hlen Hm Hd Ha. unfold add_route in Ha.
  destruct (routable r !! len) as [mp|] eqn:Hmp; [|discriminate]. injection Ha as <-. cbn [routable].
  rewrite !lookup_route_probe, length_insert. apply probe_len_ext. intros j Hj. unfold hit.
  destruct (decide (j = len)) as [->|Hne].
  - rewrite list_lookup_insert_eq, Hmp by (apply lookup_lt_is_Some; eauto). simpl.
    rewrite Hl. change (Z.of_nat 32) with 32%Z.
    rewrite lookup_insert_ne; [reflexivity|]. intros Heq. symmetry in Heq.
    exact (rotr_unnormalized prefix len dst Hx Hlen Hm Hd Heq).
  - rewrite list_lookup_insert_ne by congruence. reflexivity.
Qed.

Lemma probe_len_S j tables c dst :
  probe_len (S j) tables c dst = match hit tables c dst j with Some m => Some m | None => probe_len j tables c dst end.
Proof. reflexivity. Qed.

Lemma probe_len_empty n tables c dst :
  (forall j, (j < n)%nat -> tables !! j = Some ∅) -> probe_len n tables c dst = None.
Proof.
  induction n as [|n IH]; intros H; [reflexivity|]. rewrite probe_len_S. unfold hit.
  rewrite (H n) by lia. simpl. rewrite lookup_empty. apply IH. intros; apply H; lia.
Qed.

(** (C36) The shift-per-table scan is right for 32 tables only, which
    leaves no table for /32 routes.  With 33 tables (lengths 0 to 32, as
    the spec's scan from 32 down to 0 needs) and a single /32 host route
    to [p], the code's lookup matches the destinations [dst] with [dst
    >> 1 = p] (table 32 is probed one bit off) while the spec's scan
    matches [dst = p]: the host itself is never routed. *)
Theorem host_routes_missed_with_33_tables ifs p nh k dst :
  (0 < p < 2 ^ 32)%Z ->
  exists r', add_route p 32 nh k (mkRouter ifs (replicate 33 ∅)) = Some r' /\
    lookup_route (routable r') dst = (if Z.shiftr dst 1 =? p then Some (k, nh) else None)%Z /\
    probe_len 33 (routable r') 32 dst = (if dst =? p then Some (k, nh) else None)%Z /\
    lookup_route (routable r') p = None.
Proof.
  intros Hp. unfold add_route. cbn [routable _interfaces]. rewrite lookup_replicate_2 by lia.
  eexists; split; [reflexivity|]. cbn [routable].
  replace (rotr p (32 - Z.of_nat 32)) with p by reflexivity.
  set (T := <[32%nat := <[p := (k, nh)]> ∅]> (replicate 33 (∅ : gmap Z meg))).
  assert (Hlow : forall j, (j < 32)%nat -> T !! j = Some ∅).
  { intros j Hj. unfold T. rewrite list_lookup_insert_ne, lookup_replicate_2 by lia. reflexivity. }
  assert (Hprobe : forall c d, probe_len 33 T c d = (if Z.shiftr d (c - 32) =? p then Some (k, nh) else None)%Z).
  { intros c d. rewrite probe_len_S. unfold hit at 1. unfold T at 1.
    rewrite list_lookup_insert_eq by (rewrite length_replicate; lia). simpl.
    change (Z.of_nat 32) with 32%Z.
    destruct (Z.eqb_spec (Z.shiftr d (c - 32)) p) as [->|Hne].
    - rewrite lookup_insert_eq. reflexivity.
    - rewrite lookup_insert_ne by congruence. rewrite lookup_empty. exact (probe_len_empty 32 T c d Hlow). }
  assert (HL : length T = 33%nat) by (unfold T; rewrite length_insert, length_replicate; reflexivity).
  rewrite !lookup_route_probe, HL, !Hprobe. change (Z.of_nat 33 - 32)%Z with 1%Z. change (32 - 32)%Z with 0%Z.
  rewrite Z.shiftr_0_r. split; [reflexivity|]. split; [reflexivity|].
  rewrite Z.shiftr_div_pow2 by lia. destruct (Z.eqb_spec (p / 2 ^ 1) p) as [He|]; [|reflexivity].
  pose proof (Z.div_lt p (2 ^ 1) ltac:(lia) ltac:(lia)). lia.
Qed.

(** ** Forwarded datagrams *)

Lemma send_datagram_payloads d nh ni f :
  f ∈ (send_datagram d nh ni).2 -> frame_payload f = PDatagram d \/ exists a, frame_payload f = PARP a.
Proof.
  unfold send_datagram. destruct (arp_table_ ni !! nh) as [[dst a]|].
  - simpl. intros ->%list_elem_of_singleton. left. reflexivity.
  - destruct (pending_timers_ ni !! nh); simpl; [set_solver|].
    intros ->%list_elem_of_singleton. right. eexists. reflexivity.
Qed.

(** Every datagram frame [route] hands to an interface has a TTL of at
    least 1. *)
Definition ttl_ok (out : list (nat * EthernetFrame)) : Prop :=
  forall k f d, (k, f) ∈ out -> frame_payload f = PDatagram d -> (1 <= ttl (header d))%Z.

Lemma ttl_ok_app o1 o2 : ttl_ok o1 -> ttl_ok o2 -> ttl_ok (o1 ++ o2).
Proof. intros H1 H2 k f d Hin. apply elem_of_app in Hin as [Hin|Hin]; eauto. Qed.

Lemma route_datagram_ttl ifs tables d ifs' out :
  route_datagram ifs tables d = Some (ifs', out) -> ttl_ok out.
Proof.
  unfold route_datagram. destruct (Z.leb_spec (ttl (header d)) 1).
  { intros [= _ <-] k f d' Hin. set_solver. }
  destruct (lookup_route _ _) as [[num nh]|]; [|intros [= _ <-] k f d' Hin; set_solver].
  destruct (ifs !! num) as [ni|]; [|discriminate].
  match goal with |- context [send_datagram ?dg ?nh' ni] =>
    pose proof (fun f => send_datagram_payloads dg nh' ni f) as Hf;
    destruct (send_datagram dg nh' ni) as [ni' frames] end.
  simpl in Hf. intros [= _ <-] k f d' Hin Hp.
  apply list_elem_of_In, in_map_iff in Hin as (f' & [= <- <-] & Hin). apply list_elem_of_In in Hin.
  destruct (Hf f' Hin) as [Hd|[a Ha]]; rewrite Hp in *; [injection Hd as Hd; subst d'; simpl; lia|discriminate].
Qed.

Lemma route_queue_ttl tables ds ifs ifs' out :
  route_queue tables ds ifs = Some (ifs', out) -> ttl_ok out.
Proof.
  revert ifs ifs' out. induction ds as [|d ds IH]; intros ifs ifs' out; simpl.
  - intros [= _ <-] k f d' Hin. set_solver.
  - destruct (route_datagram ifs tables d) as [[ifs1 o1]|] eqn:H1; [|discriminate].
    destruct (route_queue tables ds ifs1) as [[ifs2 o2]|] eqn:H2; [|discriminate].
    intros [= _ <-]. apply ttl_ok_app; [eapply route_datagram_ttl; eauto | eapply IH; eauto].
Qed.

Lemma route_from_ttl ks tables ifs ifs' o :
  route_from ks tables ifs = Some (ifs', o) -> ttl_ok o.
Proof.
  revert ifs ifs' o. induction ks as [|k ks IH]; intros ifs ifs' o; simpl.
  - intros [= _ <-] k f d Hin. set_solver.
  - destruct (ifs !! k) as [ni|]; [|apply IH].
    destruct (route_queue _ _ _) as [[ifs1 o1]|] eqn:H1; [|discriminate].
    destruct (route_from ks _ ifs1) as [[ifs2 o2]|] eqn:H2; [|discriminate].
    intros [= _ <-]. apply ttl_ok_app; [eapply route_queue_ttl; eauto | eapply IH; eauto].
Qed.

(** [route] never forwards a datagram whose TTL would reach 0: the
    datagram of every IPv4 frame it hands to an interface has TTL at
    least 1 (those arriving with TTL <= 1 are dropped, the others leave
    with TTL - 1). *)
Theorem route_ttl_positive r r' out :
  route r = Some (r', out) -> ttl_ok out.
Proof.
  unfold route. destruct (route_from _ _ _) as [[ifs o]|] eqn:Hr; [|discriminate].
  intros H. injection H as _ <-. eapply route_from_ttl; eauto.
Qed.

(** ** The received queues are drained *)

(** The received queue of interface [k], if there is one. *)
Definition received_of (ifs : list NetworkInterface.t) (k : nat) : option (list InternetDatagram) :=
  datagrams_received_ <$> ifs !! k.

Lemma send_datagram_received d nh ni :
  datagrams_received_ (send_datagram d nh ni).1 = datagrams_received_ ni.
Proof.
  unfold send_datagram. destruct (arp_table_ ni !! nh) as [[]|]; [reflexivity|].
  destruct (pending_timers_ ni !! nh); reflexivity.
Qed.

(** Replacing interface [k] by one with the same received queue keeps
    every received queue. *)
Lemma received_of_insert ifs k ni ni' :
  ifs !! k = Some ni -> datagrams_received_ ni' = datagrams_received_ ni ->
  forall j, received_of (<[k := ni']> ifs) j = received_of ifs j.
Proof.
  intros Hk He j. unfold received_of. destruct (decide (j = k)) as [->|Hne].
  - rewrite list_lookup_insert_eq by (eapply lookup_lt_Some; eauto). rewrite Hk. cbn. now rewrite He.
  - now rewrite list_lookup_insert_ne by congruence.
Qed.

Lemma route_datagram_received ifs tables d ifs' o :
  route_datagram ifs tables d = Some (ifs', o) -> forall k, received_of ifs' k = received_of ifs k.
Proof.
  unfold route_datagram. destruct (Z.leb_spec (ttl (header d)) 1); [intros [= <- _]; reflexivity|].
  destruct (lookup_route _ _) as [[num nh]|]; [|intros [= <- _]; reflexivity].
  destruct (ifs !! num) as [ni|] eqn:Hn; [|discriminate].
  match goal with |- context [send_datagram ?dg ?nh' ni] =>
    pose proof (send_datagram_received dg nh' ni) as Hr; destruct (send_datagram dg nh' ni) as [ni' fr] end.
  intros [= <- _]. exact (received_of_insert ifs num ni ni' Hn Hr).
Qed.

Lemma route_queue_received tables ds ifs ifs' o :
  route_queue tables ds ifs = Some (ifs', o) -> forall k, received_of ifs' k = received_of ifs k.
Proof.
  revert ifs ifs' o. induction ds as [|d ds IH]; intros ifs ifs' o; cbn [route_queue].
  - intros [= <- _]. reflexivity.
  - destruct (route_datagram ifs tables d) as [[ifs1 o1]|] eqn:H1; [|discriminate].
    destruct (route_queue tables ds ifs1) as [[ifs2 o2]|] eqn:H2; [|discriminate].
    intros [= <- _] k. rewrite (IH _ _ _ H2 k). exact (route_datagram_received _ _ _ _ _ H1 k).
Qed.

(** The [for] loop empties the received queue of every interface it
    visits and leaves the others alone. *)
Lemma route_from_received ks tables ifs ifs' o :
  NoDup ks -> route_from ks tables ifs = Some (ifs', o) ->
  (forall k, k ∈ ks -> received_of ifs' k = None \/ received_of ifs' k = Some []) /\
  (forall k, k ∉ ks -> received_of ifs' k = received_of ifs k).
Proof.
  revert ifs ifs' o. induction ks as [|k ks IH]; intros ifs ifs' o Hnd; cbn [route_from].
  - intros [= <- _]. split; [intros k Hk; set_solver | reflexivity].
  - apply NoDup_cons in Hnd as [Hk Hnd].
    destruct (ifs !! k) as [ni|] eqn:Hi.
    + destruct (route_queue _ _ _) as [[ifs1 o1]|] eqn:H1; [|discriminate].
      destruct (route_from ks _ ifs1) as [[ifs2 o2]|] eqn:H2; [|discriminate].
      intros [= <- _]. destruct (IH _ _ _ Hnd H2) as [Hin Hout].
      pose proof (route_queue_received _ _ _ _ _ H1) as Hq.
      assert (Hk1 : received_of ifs1 k = Some []).
      { rewrite Hq. unfold received_of. rewrite list_lookup_insert_eq by (eapply lookup_lt_Some; eauto).
        reflexivity. }
      split.
      * intros j [->|Hj]%elem_of_cons; [rewrite Hout by set_solver; right; exact Hk1 | exact (Hin j Hj)].
      * intros j Hj. rewrite Hout, Hq by set_solver. unfold received_of.
        rewrite list_lookup_insert_ne by set_solver. reflexivity.
    + intros H. destruct (IH _ _ _ Hnd H) as [Hin Hout]. split.
      * intros j [->|Hj]%elem_of_cons; [left; rewrite Hout by exact Hk; unfold received_of; now rewrite Hi
                                             | exact (Hin j Hj)].
      * intros j Hj. apply Hout. set_solver.
Qed.

(** The loop over all the interfaces leaves no received datagram. *)
Lemma route_from_drains tables ifs ifs' o :
  route_from (seq 0 (length ifs)) tables ifs = Some (ifs', o) ->
  forall k ni, ifs' !! k = Some ni -> datagrams_received_ ni = [].
Proof.
  intros Hr k ni Hk.
  destruct (route_from_received _ _ _ _ _ (NoDup_seq 0 _) Hr) as [Hin Hout].
  destruct (decide (k ∈ seq 0 (length ifs))) as [Hks|Hks].
  - destruct (Hin k Hks) as [Hn|Hn]; unfold received_of in Hn; rewrite Hk in Hn; cbn in Hn; congruence.
  - specialize (Hout k Hks). unfold received_of in Hout. rewrite Hk in Hout.
    rewrite lookup_ge_None_2 in Hout; [discriminate|].
    destruct (Nat.lt_ge_cases k (length ifs)) as [Hl|Hl]; [|exact Hl].
    exfalso. apply Hks, list_elem_of_In, in_seq. lia.
Qed.

(** [Router::route] drains every interface: when it returns, no
    interface of the router has a received datagram left; each one was
    dropped or forwarded. *)
Theorem route_drains r r' out :
  route r = Some (r', out) ->
  forall k ni, _interfaces r' !! k = Some ni -> datagrams_received_ ni = [].
Proof.
  unfold route. destruct (route_from _ _ _) as [[ifs o]|] eqn:Hr; [|discriminate].
  intros [= <- _]. exact (route_from_drains _ _ _ _ Hr).
Qed.

(** ** [route] as one pass over the spec's forwarding decisions *)

(** The spec's decision for one datagram: drop it (TTL at most 1, or no
    matching route), or send it through interface [num] with its TTL
    decremented and its checksum recomputed, to the route's next hop or,
    for a direct route, to its destination. *)
Definition forward (tables : list (gmap Z meg)) (d : InternetDatagram)
  : option (nat * InternetDatagram * IPv4NumericAddress) :=
  let h := header d in
  if (ttl h <=? 1)%Z then None
  else
    let h' := mkIPv4Header (ttl h - 1) (src h) (dst h)
                (compute_checksum (mkIPv4Header (ttl h - 1) (src h) (dst h) (cksum h))) in
    match lookup_route tables (dst h) with
    | None => None
    | Some (num, next_hop) => Some (num, mkDatagram h' (dgram_payload d), default (dst h) next_hop)
    end.

(** The decisions for every received datagram, interface by interface,
    each queue in order. *)
Definition decisions (tables : list (gmap Z meg)) (ifs : list NetworkInterface.t)
  : list (nat * InternetDatagram * IPv4NumericAddress) :=
  omap (forward tables) (concat (map datagrams_received_ ifs)).

(** Carry out decisions in order through the interfaces' [send_datagram];
    [None] for an interface that does not exist. *)
Fixpoint send_all (ds : list (nat * InternetDatagram * IPv4NumericAddress)) (ifs : list NetworkInterface.t)
  : option (list NetworkInterface.t * list (nat * EthernetFrame)) :=
  match ds with
  | [] => Some (ifs, [])
  | (num, d, hop) :: ds' =>
      match ifs !! num with
      | None => None
      | Some ni =>
          let '(ni', frames) := send_datagram d hop ni in
          match send_all ds' (<[num := ni']> ifs) with
          | None => None
          | Some (ifs2, out2) => Some (ifs2, map (pair num) frames ++ out2)
          end
      end
  end.

(** The router the spec describes: every interface's received queue is
    taken, and the decisions are carried out in order. *)
Definition route_spec (r : Router) : option (Router * list (nat * EthernetFrame)) :=
  match send_all (decisions (routable r) (_interfaces r)) (clear_received <$> _interfaces r) with
  | None => None
  | Some (ifs, out) => Some (mkRouter ifs (routable r), out)
  end.

Lemma send_all_app ds1 ds2 ifs :
  send_all (ds1 ++ ds2) ifs =
  match send_all ds1 ifs with
  | None => None
  | Some (ifs1, o1) =>
      match send_all ds2 ifs1 with None => None | Some (ifs2, o2) => Some (ifs2, o1 ++ o2) end
  end.
Proof.
  revert ifs. induction ds1 as [|[[num d] hop] ds1 IH]; intros ifs; cbn [send_all app].
  - destruct (send_all ds2 ifs) as [[]|]; reflexivity.
  - destruct (ifs !! num); [|reflexivity]. destruct (send_datagram d hop _) as [ni' fr].
    rewrite IH. destruct (send_all ds1 _) as [[ifs1 o1]|]; [|reflexivity].
    destruct (send_all ds2 ifs1) as [[]|]; [|reflexivity]. now rewrite app_assoc.
Qed.

(** [send_datagram] never looks at the received queue. *)
Lemma send_datagram_clear d hop ni :
  send_datagram d hop (clear_received ni) =
  (clear_received (send_datagram d hop ni).1, (send_datagram d hop ni).2).
Proof.
  unfold send_datagram, clear_received. cbn [arp_table_ pending_timers_ pending_datagrams_].
  destruct (arp_table_ ni !! hop) as [[]|]; [reflexivity|].
  destruct (pending_timers_ ni !! hop); reflexivity.
Qed.

(** The interfaces up to their received queues. *)
Definition clr (ifs : list NetworkInterface.t) : list NetworkInterface.t := clear_received <$> ifs.

Definition clr_result (x : option (list NetworkInterface.t * list (nat * EthernetFrame)))
  : option (list NetworkInterface.t * list (nat * EthernetFrame)) :=
  (fun '(ifs, o) => (clr ifs, o)) <$> x.

Lemma route_datagram_spec ifs tables d :
  clr_result (route_datagram ifs tables d) = send_all (option_list (forward tables d)) (clr ifs).
Proof.
  unfold route_datagram, forward. cbv zeta.
  destruct (Z.leb_spec (ttl (header d)) 1); [reflexivity|]. cbn [dst ttl src cksum].
  destruct (lookup_route tables (dst (header d))) as [[num nh]|]; [|reflexivity].
  unfold option_list. cbn [option_rect send_all]. unfold clr. rewrite list_lookup_fmap.
  destruct (ifs !! num) as [ni|]; [|reflexivity]. cbn [fmap option_fmap option_map].
  rewrite send_datagram_clear. destruct (send_datagram _ _ ni) as [ni' fr]. cbn.
  unfold clr. now rewrite list_fmap_insert, app_nil_r.
Qed.

Lemma route_queue_spec tables ds ifs :
  clr_result (route_queue tables ds ifs) = send_all (omap (forward tables) ds) (clr ifs).
Proof.
  revert ifs. induction ds as [|d ds IH]; intros ifs; [reflexivity|].
  cbn [route_queue]. replace (omap (forward tables) (d :: ds))
    with (option_list (forward tables d) ++ omap (forward tables) ds)
    by (cbn; destruct (forward tables d); reflexivity).
  rewrite send_all_app, <- route_datagram_spec.
  destruct (route_datagram ifs tables d) as [[ifs1 o1]|]; [|reflexivity]. cbn [clr_result fmap option_fmap option_map].
  rewrite <- IH. destruct (route_queue tables ds ifs1) as [[]|]; reflexivity.
Qed.

Lemma clr_clear_insert ifs k ni :
  ifs !! k = Some ni -> clr (<[k := clear_received ni]> ifs) = clr ifs.
Proof.
  intros Hk. unfold clr. rewrite list_fmap_insert.
  replace (clear_received (clear_received ni)) with (clear_received ni) by (destruct ni; reflexivity).
  apply list_insert_id. rewrite list_lookup_fmap, Hk. reflexivity.
Qed.

(** The received queue of [k], or nothing. *)
Definition queue_of (ifs : list NetworkInterface.t) (k : nat) : list InternetDatagram :=
  default [] (received_of ifs k).

Lemma route_from_spec ks tables ifs :
  NoDup ks ->
  clr_result (route_from ks tables ifs) =
  send_all (omap (forward tables) (concat (map (queue_of ifs) ks))) (clr ifs).
Proof.
  revert ifs. induction ks as [|k ks IH]; intros ifs Hnd; [reflexivity|].
  apply NoDup_cons in Hnd as [Hk Hnd]. cbn [route_from map concat].
  rewrite omap_app, send_all_app. unfold queue_of at 1, received_of at 1.
  destruct (ifs !! k) as [ni|] eqn:Hi; cbn [fmap option_fmap option_map default].
  - rewrite <- (clr_clear_insert ifs k ni Hi), <- route_queue_spec.
    destruct (route_queue tables _ _) as [[ifs1 o1]|] eqn:H1; [|reflexivity].
    pose proof (route_queue_received _ _ _ _ _ H1) as Hq.
    cbn [clr_result fmap option_fmap option_map].
    replace (map (queue_of ifs) ks) with (map (queue_of ifs1) ks).
    + rewrite <- IH by exact Hnd. destruct (route_from ks tables ifs1) as [[]|]; reflexivity.
    + apply map_ext_in. intros j Hj. unfold queue_of. rewrite Hq. unfold received_of.
      rewrite list_lookup_insert_ne; [reflexivity|]. intros ->. apply Hk, list_elem_of_In, Hj.
  - cbn [omap list_omap send_all]. rewrite IH by exact Hnd. destruct (send_all _ _) as [[]|]; reflexivity.
Qed.

Lemma queue_of_seq pre ifs :
  map (queue_of (pre ++ ifs)) (seq (length pre) (length ifs)) = map datagrams_received_ ifs.
Proof.
  revert pre. induction ifs as [|ni ifs IH]; intros pre; [reflexivity|].
  cbn [length seq map]. f_equal.
  - unfold queue_of, received_of. rewrite lookup_app_r, Nat.sub_diag by lia. reflexivity.
  - rewrite <- (IH (pre ++ [ni])), <- app_assoc, length_app. cbn. now rewrite Nat.add_1_r.
Qed.

(** The interfaces after [route]: their received queues are empty, so
    clearing them again changes nothing. *)
Lemma clr_drained ifs :
  (forall k ni, ifs !! k = Some ni -> datagrams_received_ ni = []) -> clr ifs = ifs.
Proof.
  intros H. apply list_eq. intros k. unfold clr. rewrite list_lookup_fmap.
  destruct (ifs !! k) as [ni|] eqn:Hk; [|reflexivity]. cbn. f_equal.
  specialize (H k ni Hk). destruct ni; cbn in *. now subst.
Qed.

(** (C12) [Router::route] implements the spec's router: its nested loops
    (over the interfaces, over each received queue, one datagram at a
    time) give the same interfaces and the same frames as taking every
    received queue and carrying out, in order, the spec's forwarding
    decision for each datagram through [send_datagram]; in particular
    both fail on the same route to a missing interface. *)
Theorem route_refines r : route r = route_spec r.
Proof.
  unfold route, route_spec, decisions.
  pose proof (route_from_spec (seq 0 (length (_interfaces r))) (routable r) (_interfaces r)
                (NoDup_seq 0 _)) as H.
  pose proof (queue_of_seq [] (_interfaces r)) as Hs. cbn [app length] in Hs. rewrite Hs in H.
  fold (clr (_interfaces r)). rewrite <- H.
  destruct (route_from _ _ _) as [[ifs o]|] eqn:Hr; [|reflexivity].
  cbn. rewrite (clr_drained ifs (route_from_drains _ _ _ _ Hr)). reflexivity.
Qed.

(** ** The undefined indexing of [_interfaces] is never reached *)

(** Every route of the tables names one of the [n] interfaces. *)
Definition routes_to (tables : list (gmap Z meg)) (n : nat) : Prop :=
  forall m k v, m ∈ tables -> m !! k = Some v -> v.1 < n.

Lemma scan_some tables addr v :
  scan tables addr = Some v -> exists m k, m ∈ tables /\ m !! k = Some v.
Proof.
  revert addr. induction tables as [|m ms IH]; intros addr; cbn [scan]; [discriminate|].
  destruct (m !! Z.shiftr addr 1) eqn:E.
  - intros [= <-]. exists m, (Z.shiftr addr 1). split; [set_solver|exact E].
  - intros H. destruct (IH _ H) as (m' & k & Hin & Hk). exists m', k. split; [set_solver|exact Hk].
Qed.

Lemma elem_of_list_insert_inv {A} (l : list A) i x y : y ∈ <[i := x]> l -> y = x \/ y ∈ l.
Proof.
  intros (j & Hj)%list_elem_of_lookup. destruct (decide (i = j)) as [->|Hne].
  - destruct (decide (j < length l)).
    + rewrite list_lookup_insert_eq in Hj by lia. left. congruence.
    + rewrite list_insert_ge in Hj by lia. right. eapply list_elem_of_lookup_2, Hj.
  - rewrite list_lookup_insert_ne in Hj by exact Hne. right. eapply list_elem_of_lookup_2, Hj.
Qed.

(** [add_route] with one of [n] interfaces keeps every route pointing
    at one of them. *)
Lemma add_route_routes_to p len nh num r r' n :
  routes_to (routable r) n -> num < n -> add_route p len nh num r = Some r' -> routes_to (routable r') n.
Proof.
  intros Hr Hnum. unfold add_route. destruct (routable r !! len) as [mp|] eqn:Hl; [|discriminate].
  intros [= <-]. cbn [routable]. intros m k v [->|Hm]%elem_of_list_insert_inv Hk;
    [|exact (Hr m k v Hm Hk)].
  destruct (decide (k = rotr p (32 - Z.of_nat len))) as [->|Hne].
  - rewrite lookup_insert_eq in Hk. injection Hk as <-. exact Hnum.
  - rewrite lookup_insert_ne in Hk by congruence.
    exact (Hr mp k v (list_elem_of_lookup_2 _ _ _ Hl) Hk).
Qed.

Lemma add_routes_routes_to rs r r' n :
  Forall (fun e => re_num e < n) rs -> routes_to (routable r) n ->
  add_routes rs r = Some r' -> routes_to (routable r') n.
Proof.
  revert r. induction rs as [|e rs IH]; intros r Hf Hr; cbn [add_routes]; [intros [= <-]; exact Hr|].
  inversion Hf as [|? ? He Hf']; subst.
  destruct (add_route _ _ _ _ r) as [r1|] eqn:Ha; [|discriminate].
  apply IH; [exact Hf'|]. exact (add_route_routes_to _ _ _ _ _ _ n Hr He Ha).
Qed.

Lemma route_datagram_total ifs tables d :
  routes_to tables (length ifs) ->
  exists ifs' o, route_datagram ifs tables d = Some (ifs', o) /\ length ifs' = length ifs.
Proof.
  intros Hr. unfold route_datagram. destruct (Z.leb_spec (ttl (header d)) 1); [eauto|].
  destruct (lookup_route _ _) as [[num nh]|] eqn:Hl; [|eauto].
  apply scan_some in Hl as (m & k & Hm & Hk). rewrite elem_of_reverse in Hm.
  specialize (Hr m k _ Hm Hk). cbn in Hr.
  destruct (lookup_lt_is_Some_2 ifs num Hr) as [ni Hni]. rewrite Hni.
  destruct (send_datagram _ _ ni) as [ni' fr]. do 2 eexists. split; [reflexivity|apply length_insert].
Qed.

Lemma route_queue_total tables ds ifs :
  routes_to tables (length ifs) ->
  exists ifs' o, route_queue tables ds ifs = Some (ifs', o) /\ length ifs' = length ifs.
Proof.
  revert ifs. induction ds as [|d ds IH]; intros ifs Hr; cbn [route_queue]; [eauto|].
  destruct (route_datagram_total ifs tables d Hr) as (ifs1 & o1 & -> & Hl1).
  rewrite <- Hl1 in Hr. destruct (IH ifs1 Hr) as (ifs2 & o2 & -> & Hl2).
  do 2 eexists. split; [reflexivity|congruence].
Qed.

Lemma route_from_total ks tables ifs :
  routes_to tables (length ifs) -> exists ifs' o, route_from ks tables ifs = Some (ifs', o).
Proof.
  revert ifs. induction ks as [|k ks IH]; intros ifs Hr; cbn [route_from]; [eauto|].
  destruct (ifs !! k) as [ni|]; [|exact (IH ifs Hr)].
  rewrite <- (length_insert ifs k (clear_received ni)) in Hr.
  destruct (route_queue_total tables (datagrams_received_ ni) _ Hr) as (ifs1 & o1 & -> & Hl1).
  rewrite <- Hl1 in Hr. destruct (IH ifs1 Hr) as (ifs2 & o2 & ->). eauto.
Qed.

(** Error path of [route]: indexing [_interfaces] with the interface
    number of a route is undefined in the C++ when the number is out of
    range ([None] in the model).  When every route of the tables names
    one of the router's interfaces, [route] never gets there: it always
    returns. *)
Theorem route_total r :
  routes_to (routable r) (length (_interfaces r)) -> exists r' out, route r = Some (r', out).
Proof.
  intros Hr. unfold route. destruct (route_from_total (seq 0 (length (_interfaces r))) _ _ Hr)
    as (ifs & o & ->). eauto.
Qed.

End Router.

(** ** The spec's routing scenario, the 33-table counterexample and the
    witnesses *)
Module RouterScenario.

Definition ip (a b c d : Z) : Z := (a * 2 ^ 24 + b * 2 ^ 16 + c * 2 ^ 8 + d)%Z.

Definition routes7 : list route_entry :=
  [mkRoute 0 0 None 0; mkRoute (ip 10 0 0 0) 8 None 1; mkRoute (ip 10 1 0 0) 16 None 2].

Definition empty32 : Router := mkRouter [] (replicate 32 ∅).

Definition table7 : list (gmap Z meg) :=
  default [] (routable <$> add_routes routes7 empty32).

(** Scenario 7 of the spec: with 0.0.0.0/0 via interface 0,
    10.0.0.0/8 via 1 and 10.1.0.0/16 via 2, 10.1.2.3 goes to 2, 10.2.2.2
    to 1 and 8.8.8.8 to 0. *)
Example router_lpm_scenario :
  lookup_route table7 (ip 10 1 2 3) = Some (2%nat, None) /\
  lookup_route table7 (ip 10 2 2 2) = Some (1%nat, None) /\
  lookup_route table7 (ip 8 8 8 8) = Some (0%nat, None).
Proof. vm_compute. auto. Qed.

(** The shift-per-table scan is right for 32 tables only, which
    leaves no table for /32 routes; with 33 tables (lengths 0 to 32, as
    the spec's scan from 32 down to 0 needs) every table is probed one
    bit off: a /32 host route for 10.1.2.3 does not match 10.1.2.3,
    although the spec's scan over lengths 32..0 finds it. *)
Example host_route_missed_with_33_tables :
  let tables := default [] (routable <$> add_route (ip 10 1 2 3) 32 None 5 (mkRouter [] (replicate 33 ∅))) in
  lookup_route tables (ip 10 1 2 3) = None /\ probe_len 33 tables 32 (ip 10 1 2 3) = Some (5%nat, None).
Proof. vm_compute. auto. Qed.

Lemma host_routes_missed_with_33_tables_witness :
  (0 < ip 10 1 2 3 < 2 ^ 32)%Z /\
  exists r', add_route (ip 10 1 2 3) 32 None 5 (mkRouter [] (replicate 33 ∅)) = Some r' /\
    lookup_route (routable r') (ip 10 1 2 3) = None /\
    probe_len 33 (routable r') 32 (ip 10 1 2 3) = Some (5%nat, None).
Proof.
  assert (Hp : (0 < ip 10 1 2 3 < 2 ^ 32)%Z) by (unfold ip; lia). split; [exact Hp|].
  destruct (host_routes_missed_with_33_tables [] (ip 10 1 2 3) None 5 (ip 10 1 2 3) Hp)
    as (r' & Ha & _ & Hs & Hl).
  exists r'. split; [exact Ha|]. split; [exact Hl|]. rewrite Hs, Z.eqb_refl. reflexivity.
Defined.

Lemma lookup_route_spec_witness :
  lookup_route table7 (ip 10 1 2 3) = probe_len 32 table7 32 (ip 10 1 2 3).
Proof. apply lookup_route_spec. vm_compute. reflexivity. Defined.

Lemma lookup_route_lpm_witness :
  match lookup_route table7 (ip 10 2 2 2) with
  | Some m => exists e, e ∈ routes7 /\ matches e (ip 10 2 2 2) /\ re_meg e = m /\
                forall e', e' ∈ routes7 -> matches e' (ip 10 2 2 2) -> (re_len e' <= re_len e)%nat
  | None => forall e, e ∈ routes7 -> ~ matches e (ip 10 2 2 2)
  end.
Proof.
  apply (lookup_route_lpm routes7 empty32).
  - repeat constructor; vm_compute; congruence.
  - vm_compute. reflexivity.
  - repeat constructor.
  - vm_compute. reflexivity.
Defined.

Definition added_unnormalized : Router := default empty32 (add_route (ip 10 1 0 0) 8 None 5 empty32).

Lemma unnormalized_route_ignored_witness :
  lookup_route (routable added_unnormalized) (ip 10 1 2 3) = lookup_route (routable empty32) (ip 10 1 2 3).
Proof.
  apply (unnormalized_route_ignored (ip 10 1 0 0) 8 None 5 empty32);
    [reflexivity | unfold ip; lia | lia | vm_compute; congruence | unfold ip; lia | vm_compute; reflexivity].
Defined.

(** Interface 0 has received a datagram for 10.1.2.3 with TTL 64;
    interface 2 knows the Ethernet address of 10.1.2.3. *)
Definition d64 : InternetDatagram := mkDatagram (mkIPv4Header 64 (ip 10 9 9 9) (ip 10 1 2 3) 0) [].
Definition if0 : NetworkInterface.t := NetworkInterface.mk 1 (ip 10 9 0 1) [d64] ∅ ∅ ∅.
Definition if1 : NetworkInterface.t := NetworkInterface.create 2 (ip 10 0 0 1).
Definition if2 : NetworkInterface.t := NetworkInterface.mk 3 (ip 10 1 0 1) [] ∅ ∅ {[ip 10 1 2 3 := (77%Z, 0%Z)]}.
Definition router7 : Router := mkRouter [if0; if1; if2] table7.
Definition no_checksum (h : IPv4Header) : Z := 0.
Definition routed7 : Router * list (nat * EthernetFrame) :=
  default (router7, []) (route no_checksum router7).

Lemma route_ttl_positive_witness : ttl_ok routed7.2.
Proof. apply (route_ttl_positive no_checksum router7 routed7.1). vm_compute. reflexivity. Defined.

Lemma route_drains_witness : datagrams_received_ (nth 0 (_interfaces routed7.1) if1) = [].
Proof.
  refine (route_drains no_checksum router7 routed7.1 routed7.2 _ 0 (nth 0 (_interfaces routed7.1) if1) _);
    vm_compute; reflexivity.
Defined.

Lemma table7_routes_to : routes_to table7 3.
Proof.
  apply (add_routes_routes_to routes7 empty32); [repeat constructor; cbn; lia | |reflexivity].
  intros m k v Hm Hk. apply elem_of_replicate in Hm as [-> _]. rewrite lookup_empty in Hk. discriminate.
Qed.

Lemma route_total_witness : exists r' out, route no_checksum router7 = Some (r', out).
Proof. apply (route_total no_checksum router7). exact table7_routes_to. Defined.

(** The error branch itself: a route to interface 5 of a router with
    three interfaces makes [route] reach the undefined indexing. *)
Example route_missing_interface :
  route no_checksum (mkRouter [if0; if1; if2]
                      (default [] (routable <$> add_routes [mkRoute 0 0 None 5] empty32))) = None.
Proof. vm_compute. reflexivity. Qed.

(** The spec's decisions for the router of the example: the one received
    datagram leaves through interface 2 with TTL 63, to its destination
    (the route to 10.1.0.0/16 is direct). *)
Example decisions7 :
  decisions no_checksum table7 (_interfaces router7) =
  [(2, mkDatagram (mkIPv4Header 63 (ip 10 9 9 9) (ip 10 1 2 3) 0) [], ip 10 1 2 3)].
Proof. vm_compute. reflexivity. Qed.

End RouterScenario.
