(* ===== verification/Connection.v ===== *)
(** * Connection: a TCP sender and a TCP receiver joined by a lossless link

    The sender of tcp_sender.cc and the receiver of tcp_receiver.cc meet
    only through their messages: the segments [TCPSender::push] hands to
    [transmit] are what [TCPReceiver::receive] takes in, and the
    [TCPReceiverMessage] of [TCPReceiver::send] is what
    [TCPSender::receive] takes back.  This file composes the two models
    over a link that loses, duplicates and reorders nothing.  [sync]
    says that the receiver has taken in exactly what the sender has sent;
    [push] followed by the delivery of its segments keeps [sync], moves
    the bytes the sender read from its input onto the receiver's stream,
    and leaves the receiver acknowledging every sequence number sent.
    [conn], [step] and [run] then put the two applications around the
    connection (writes and close at the sender, reads at the receiver)
    and show that the whole behaves as one byte stream. *)

From Stdlib Require Import ZArith List Lia Bool Arith.
From S2P Require Import Prelude ByteStream Wrap32 Reassembler TCPReceiver TCPSender.
Import ListNotations.

Module Connection.
Import TCPSender.

(** The receiver has taken in every segment the sender sent, in order,
    and nothing else: it knows the ISN once SYN is out, its stream holds
    every payload byte sent and is closed once FIN is out, nothing waits
    in its reassembler, and neither side has seen an error. *)
Record sync (s : TCPSender.t) (r : TCPReceiver.t) : Prop := {
  sync_isn : (0 <= TCPSender.isn_ s < 2 ^ 32)%Z;
  sync_base : TCPReceiver.base_seqno_ r =
                if TCPSender.SYN_sent_flag_ s then Some (TCPSender.isn_ s) else None;
  sync_next : TCPSender.next_seq_number_ s =
                (if TCPSender.SYN_sent_flag_ s then 1 else 0) +
                ByteStream.bytes_pushed (TCPReceiver.writer r) +
                (if TCPSender.FIN_sent_flag_ s then 1 else 0);
  sync_fresh : TCPSender.SYN_sent_flag_ s = false ->
               TCPSender.FIN_sent_flag_ s = false /\ ByteStream.bytes_pushed (TCPReceiver.writer r) = 0;
  sync_closed : ByteStream.is_closed (TCPReceiver.writer r) = TCPSender.FIN_sent_flag_ s;
  sync_databuf : databuf (TCPReceiver.reassembler_ r) = [];
  sync_end : end_pos (TCPReceiver.reassembler_ r) =
               if TCPSender.FIN_sent_flag_ s
               then Some (ByteStream.bytes_pushed (TCPReceiver.writer r)) else None;
  sync_rerr : ByteStream.has_error (TCPReceiver.writer r) = false;
  sync_serr : ByteStream.has_error (TCPSender.input_ s) = false;
  sync_ok : ByteStream.inv (TCPReceiver.writer r)
}.

(** The segment the sender sends next lands at the end of the receiver's
    stream: the sequence number unwraps to the stream index
    [bytes_pushed], through the ISN the SYN brings or the one already
    recorded. *)
Lemma receive_next s r m :
  sync s r -> TCPSender.FIN_sent_flag_ s = false ->
  TCPReceiver.RST m = false ->
  TCPReceiver.SYN m = negb (TCPSender.SYN_sent_flag_ s) ->
  TCPReceiver.seqno m = Wrap32.wrap (Z.of_nat (TCPSender.next_seq_number_ s)) (TCPSender.isn_ s) ->
  (Z.of_nat (TCPSender.next_seq_number_ s) + 1 < 2 ^ 64)%Z ->
  TCPReceiver.receive m r =
  TCPReceiver.mk (insert (ByteStream.bytes_pushed (TCPReceiver.writer r)) (TCPReceiver.payload m)
                         (TCPReceiver.FIN m) (TCPReceiver.reassembler_ r))
                 (Some (TCPSender.isn_ s)).
Proof.
  intros S HF Hr Hs Hseq Hb. pose proof (sync_next _ _ S) as Hn. rewrite HF in Hn.
  unfold TCPReceiver.receive. rewrite (sync_rerr _ _ S), Hr, (sync_base _ _ S), Hs, Hseq.
  destruct (TCPSender.SYN_sent_flag_ s) eqn:HS; cbn [negb].
  - rewrite Hn in *. replace (Z.of_nat (1 + ByteStream.bytes_pushed (TCPReceiver.writer r) + 0))
      with (Z.of_nat (ByteStream.bytes_pushed (TCPReceiver.writer r)) + 1)%Z in * by lia.
    rewrite TCPReceiver.ackno_index by lia. reflexivity.
  - destruct (sync_fresh _ _ S HS) as [_ HP]. rewrite HP in Hn |- *. rewrite Hn.
    assert (Hw : Wrap32.wrap (Z.of_nat (0 + 0 + 0)) (TCPSender.isn_ s) = TCPSender.isn_ s).
    { unfold Wrap32.wrap. cbn. rewrite Z.add_0_r. apply u32_small, (sync_isn _ _ S). }
    rewrite Hw, TCPReceiver.unwrap_isn by lia. reflexivity.
Qed.

(** What the in-order [insert] does to the receiver's stream: the
    payload is appended, and the stream is closed exactly when the
    segment carries FIN. *)
Lemma deliver_fields (w : ByteStream.t) (pl : bytes) (fin : bool) :
  ByteStream.inv w -> ByteStream.is_closed w = false -> length pl <= ByteStream.available_capacity w ->
  let P := ByteStream.bytes_pushed w in
  let w' := close_if_done (if fin then Some (P + length pl) else None)
              (if length pl =? 0 then w else ByteStream.push pl w) in
  ByteStream.inv w' /\ ByteStream.bytes_pushed w' = P + length pl /\
  ByteStream.contents w' = ByteStream.contents w ++ pl /\
  ByteStream.available_capacity w' = ByteStream.available_capacity w - length pl /\
  ByteStream.is_closed w' = fin /\ ByteStream.has_error w' = ByteStream.has_error w.
Proof.
  intros I Hcl Hav. cbv zeta.
  set (W := if length pl =? 0 then w else ByteStream.push pl w).
  assert (HW : ByteStream.inv W /\ ByteStream.bytes_pushed W = ByteStream.bytes_pushed w + length pl /\
               ByteStream.contents W = ByteStream.contents w ++ pl /\
               ByteStream.available_capacity W = ByteStream.available_capacity w - length pl /\
               ByteStream.is_closed W = false /\ ByteStream.has_error W = ByteStream.has_error w).
  { unfold W. destruct (Nat.eqb_spec (length pl) 0) as [H0|H0].
    - apply length_zero_iff_nil in H0. subst pl. rewrite app_nil_r. cbn. split_conj; auto; lia.
    - destruct (push_fields pl w I) as (Hp & _ & Hc). rewrite accepted_all in Hp, Hc by auto.
      split_conj; auto using ByteStream.push_inv.
      + unfold ByteStream.push. rewrite (proj2 (Nat.eqb_neq _ _) H0), Hcl.
        rewrite (proj2 (Nat.eqb_neq (ByteStream.available_capacity w) 0)) by lia.
        rewrite (proj2 (Nat.ltb_ge (ByteStream.available_capacity w) (length pl))) by lia.
        unfold ByteStream.available_capacity in *. cbn [orb ByteStream.capacity_ ByteStream.buffered_sum_].
        lia.
      + unfold ByteStream.push. destruct (_ || _ || _); [exact Hcl|exact Hcl].
      + unfold ByteStream.push. destruct (_ || _ || _); reflexivity. }
  destruct HW as (IW & Hp & Hc & Ha & Hcl' & He).
  unfold close_if_done. destruct fin; cbn [writer_bytes_pushed writer_close byte_stream_writer].
  - rewrite Hp, Nat.eqb_refl. split_conj; auto using ByteStream.close_inv.
  - split_conj; auto.
Qed.

(** One transmitted segment, delivered: the receiver stays in [sync]
    with the sender's new state, its stream grows by the payload, and
    its room shrinks by as much. *)
Lemma deliver_segment s s1 m r :
  sinv s -> sync s r -> push_body s = (s1, Some m) ->
  total_outgoing_seq_ s < effective_window s ->
  effective_window s - total_outgoing_seq_ s <= ByteStream.available_capacity (TCPReceiver.writer r) ->
  (Z.of_nat (next_seq_number_ s) + 1 < 2 ^ 64)%Z ->
  let r1 := TCPReceiver.receive m r in
  sync s1 r1 /\
  ByteStream.contents (TCPReceiver.writer r1) =
    ByteStream.contents (TCPReceiver.writer r) ++ TCPReceiver.payload m /\
  ByteStream.available_capacity (TCPReceiver.writer r1) =
    ByteStream.available_capacity (TCPReceiver.writer r) - length (TCPReceiver.payload m).
Proof.
  intros I S Hb Hlt Hwin Hbound.
  destruct (push_body_some s s1 m (sinv_input _ I) Hb)
    as (HF & Hseq & Hsyn & _ & _ & _ & _ & Hfit & _ & Heq).
  destruct (push_body_error s s1 m Hb) as [Hrst Herr]. rewrite (sync_serr _ _ S) in Hrst, Herr.
  specialize (Hfit Hlt).
  assert (Hpl : length (TCPReceiver.payload m) <= ByteStream.available_capacity (TCPReceiver.writer r))
    by (unfold sequence_length in Hfit; lia).
  pose proof (sync_closed _ _ S) as Hcl. rewrite HF in Hcl.
  pose proof (sync_end _ _ S) as Hend. rewrite HF in Hend.
  cbv zeta. rewrite (receive_next s r m S HF Hrst Hsyn Hseq Hbound).
  change (ByteStream.bytes_pushed (TCPReceiver.writer r))
    with (writer_bytes_pushed (output_ (TCPReceiver.reassembler_ r))).
  pose proof (insert_in_order (W := ByteStream.t) (TCPReceiver.payload m) (TCPReceiver.FIN m)
                (TCPReceiver.reassembler_ r)) as Hin.
  rewrite (Hin (sync_databuf _ _ S) Hend Hcl Hpl).
  change (output_ (TCPReceiver.reassembler_ r)) with (TCPReceiver.writer r).
  cbn [writer_bytes_pushed writer_push byte_stream_writer].
  destruct (deliver_fields (TCPReceiver.writer r) (TCPReceiver.payload m) (TCPReceiver.FIN m)
              (sync_ok _ _ S) Hcl Hpl) as (Iw & Hp & Hc & Ha & Hcl' & He).
  cbv zeta in *. set (w' := close_if_done _ _) in *.
  match goal with |- sync s1 ?r1 /\ _ =>
    assert (Hw1 : TCPReceiver.writer r1 = w') by reflexivity; set (R1 := r1) in * end.
  rewrite Hw1. split_conj; [|exact Hc|exact Ha].
  rewrite Heq. pose proof (sync_next _ _ S) as Hn. rewrite HF in Hn.
  pose proof (sync_isn _ _ S) as Hisn.
  split; cbn [isn_ SYN_sent_flag_ FIN_sent_flag_ next_seq_number_ input_]; rewrite ?Hw1; auto.
  - unfold sequence_length. rewrite Hsyn, Hn.
    destruct (SYN_sent_flag_ s), (TCPReceiver.FIN m); cbn in *; lia.
  - discriminate.
  - unfold R1. cbn [TCPReceiver.reassembler_ end_pos]. rewrite Hp. reflexivity.
  - rewrite He. exact (sync_rerr _ _ S).
Qed.

(** The receiver in [sync] acknowledges every sequence number sent. *)
Lemma sync_ackno s r :
  sync s r ->
  TCPReceiver.ackno (TCPReceiver.send r) =
  if SYN_sent_flag_ s then Some (Wrap32.wrap (Z.of_nat (next_seq_number_ s)) (isn_ s)) else None.
Proof.
  intros S. unfold TCPReceiver.send. rewrite (sync_base _ _ S).
  destruct (SYN_sent_flag_ s) eqn:HS; [|reflexivity]. cbn [TCPReceiver.ackno].
  rewrite (sync_closed _ _ S), (sync_next _ _ S), HS. do 2 f_equal.
  destruct (FIN_sent_flag_ s); lia.
Qed.

(** A fresh sender and a fresh receiver are in [sync]. *)
Lemma sync_create cap cap' isn rto :
  (0 <= isn < 2 ^ 32)%Z ->
  sync (create (ByteStream.create cap) isn rto) (TCPReceiver.create cap').
Proof. intros H. split; cbn; auto using ByteStream.inv_create. Qed.

(** [sync] looks at the sender's ISN, flags, next sequence number and
    input error only. *)
Lemma sync_sender_ext s s' r :
  sync s r -> isn_ s' = isn_ s -> SYN_sent_flag_ s' = SYN_sent_flag_ s ->
  FIN_sent_flag_ s' = FIN_sent_flag_ s -> next_seq_number_ s' = next_seq_number_ s ->
  ByteStream.has_error (input_ s') = ByteStream.has_error (input_ s) -> sync s' r.
Proof.
  intros [] Hi Hs Hf Hn He. split; rewrite ?Hi, ?Hs, ?Hf, ?Hn, ?He; auto.
Qed.

Lemma receive_all_cons m ms r :
  TCPReceiver.receive_all (m :: ms) r = TCPReceiver.receive_all ms (TCPReceiver.receive m r).
Proof. reflexivity. Qed.

(** The loop of [push], segment by segment: each transmitted segment is
    delivered before the next is built. *)
Lemma push_loop_deliver f s r :
  sinv s -> sync s r ->
  effective_window s - total_outgoing_seq_ s <= ByteStream.available_capacity (TCPReceiver.writer r) ->
  (Z.of_nat (next_seq_number_ s + (effective_window s - total_outgoing_seq_ s)) + 1 < 2 ^ 64)%Z ->
  sync (fst (push_loop f s)) (TCPReceiver.receive_all (snd (push_loop f s)) r) /\
  ByteStream.contents (TCPReceiver.writer r) ++ ByteStream.contents (input_ s) =
  ByteStream.contents (TCPReceiver.writer (TCPReceiver.receive_all (snd (push_loop f s)) r)) ++
  ByteStream.contents (input_ (fst (push_loop f s))) /\
  next_seq_number_ (fst (push_loop f s)) <= next_seq_number_ s + (effective_window s - total_outgoing_seq_ s).
Proof.
  revert s r. induction f as [|f IH]; intros s r I S Hwin Hbound; cbn [push_loop]; [cbn; auto with arith|].
  destruct (Nat.ltb_spec (total_outgoing_seq_ s) (effective_window s)) as [Hlt|]; [|cbn; auto with arith].
  destruct (push_body s) as [s1 [m|]] eqn:Hb;
    [|rewrite (push_body_none s s1 (sinv_input _ I) Hb); cbn; auto with arith].
  destruct (deliver_segment s s1 m r I S Hb Hlt Hwin ltac:(lia)) as (S1 & Hc & Ha).
  destruct (push_body_fields s s1 m (sinv_input _ I) Hb) as (Hew & Ht & _ & _ & Hfit & Hcin).
  destruct (push_body_some s s1 m (sinv_input _ I) Hb) as (_ & _ & _ & _ & _ & _ & _ & _ & _ & Heq).
  pose proof (f_equal next_seq_number_ Heq) as Hn. cbn in Hn.
  pose proof (push_body_sinv s I) as I1. rewrite Hb in I1. cbn [fst] in I1.
  specialize (Hfit Hlt).
  assert (Hpl : length (TCPReceiver.payload m) <= sequence_length m) by (unfold sequence_length; lia).
  specialize (IH s1 (TCPReceiver.receive m r) I1 S1 ltac:(rewrite Ha, Hew, Ht; lia)
                 ltac:(rewrite Hn, Hew, Ht; replace (next_seq_number_ s + sequence_length m +
                          (effective_window s - (total_outgoing_seq_ s + sequence_length m)))
                          with (next_seq_number_ s + (effective_window s - total_outgoing_seq_ s)) by lia;
                       exact Hbound)).
  destruct (push_loop f s1) as [s2 out]. cbn [fst snd] in *. rewrite receive_all_cons.
  destruct IH as (S2 & IHc & IHn). split; [exact S2|]. split; [rewrite <- IHc, Hc, Hcin, app_assoc; reflexivity|].
  rewrite Hn, Hew, Ht in IHn. lia.
Qed.

(** (C19) A sender and a receiver joined by a link that loses and reorders
    nothing: if the receiver has taken in everything sent so far
    ([sync]) and has room for the window the sender fills, then after
    [TCPSender::push] and the delivery of its segments to
    [TCPReceiver::receive], the receiver's stream followed by the
    sender's unread input is the same byte sequence as before (every
    byte read from the input is on the receiver's stream, once and in
    order), the two are in [sync] again, and the receiver's
    acknowledgement names the sender's next sequence number. *)
Theorem push_deliver s r :
  sinv s -> sync s r ->
  effective_window s - total_outgoing_seq_ s <= ByteStream.available_capacity (TCPReceiver.writer r) ->
  (Z.of_nat (next_seq_number_ s + effective_window s) + 1 < 2 ^ 64)%Z ->
  let s' := fst (push s) in
  let r' := TCPReceiver.receive_all (snd (push s)) r in
  ByteStream.contents (TCPReceiver.writer r) ++ ByteStream.contents (input_ s) =
  ByteStream.contents (TCPReceiver.writer r') ++ ByteStream.contents (input_ s') /\
  sync s' r' /\
  TCPReceiver.ackno (TCPReceiver.send r') =
    if SYN_sent_flag_ s' then Some (Wrap32.wrap (Z.of_nat (next_seq_number_ s')) (isn_ s')) else None.
Proof.
  intros I Sy Hwin Hbound. unfold push.
  destruct (push_loop_deliver (S (effective_window s)) s r I Sy Hwin ltac:(lia)) as (S' & Hc & _).
  cbv zeta. split; [exact Hc|]. split; [exact S'|]. apply sync_ackno, S'.
Qed.

(** Nothing in flight means no segment outstanding: each one holds at
    least one sequence number. *)
Lemma contiguous_empty isn a q : contiguous isn a q -> in_flight q = 0 -> q = [].
Proof.
  destruct q as [|m q]; [reflexivity|]. cbn. intros (_ & Hpos & _). unfold in_flight. cbn. lia.
Qed.

(** The sender takes in the acknowledgement of a receiver in [sync]: the
    outstanding queue is emptied and [ack_sequence_number_] reaches
    [next_seq_number_]; the fields [sync] looks at are unchanged. *)
Lemma receive_sync_ack s r :
  sinv s -> sync s r -> (Z.of_nat (next_seq_number_ s) < 2 ^ 64)%Z ->
  let s'' := TCPSender.receive (TCPReceiver.send r) s in
  pending_messages_ s'' = [] /\ total_outgoing_seq_ s'' = 0 /\
  ack_sequence_number_ s'' = next_seq_number_ s'' /\ sync s'' r.
Proof.
  intros I Sy Hlt. cbv zeta. pose proof (sync_ackno s r Sy) as Ha.
  assert (Hrst : TCPReceiver.RST_flag (TCPReceiver.send r) = false)
    by (rewrite TCPReceiver.send_RST; exact (sync_rerr _ _ Sy)).
  destruct I as [Ii Htot Hn Hr Htm Hc].
  unfold TCPSender.receive. rewrite (sync_serr _ _ Sy), Hrst, Ha. cbn [orb].
  destruct (SYN_sent_flag_ s) eqn:HS.
  - rewrite Wrap32.unwrap_wrap_at by lia. rewrite Z.ltb_irrefl, Hn, Htot, (ack_loop_all (isn_ s)) by exact Hc.
    destruct (_ || _); cbn; (split; [reflexivity|]); (split; [lia|]); (split; [lia|]);
      (eapply sync_sender_ext; [exact Sy| cbn; congruence ..]).
  - destruct (sync_fresh _ _ Sy HS) as [HF HP]. pose proof (sync_next _ _ Sy) as Hn'.
    rewrite HS, HF, HP in Hn'.
    assert (Hq : pending_messages_ s = []) by (apply (contiguous_empty _ _ _ Hc); lia).
    cbn. rewrite Hq. split_conj; [reflexivity | lia | lia |].
    eapply sync_sender_ext; [exact Sy| cbn; congruence ..].
Qed.

(** Without RST, [TCPSender::receive] never touches the input stream. *)
Lemma receive_input msg s :
  TCPReceiver.RST_flag msg = false -> input_ (TCPSender.receive msg s) = input_ s.
Proof.
  intros Hr. unfold TCPSender.receive. rewrite Hr, orb_false_r.
  destruct (ByteStream.has_error (input_ s)); [reflexivity|].
  destruct (TCPReceiver.ackno msg); [|reflexivity]. destruct (_ <? _)%Z; [reflexivity|].
  destruct (ack_loop _ _ _ _ _) as [[[? ?] ?] []]; reflexivity.
Qed.

(** The round trip over a lossless link: after [push], the delivery of
    its segments to the receiver, and the receiver's acknowledgement
    ([TCPReceiver::send]) taken in by [TCPSender::receive], nothing is
    outstanding any more, every sequence number sent is acknowledged, the
    receiver's stream followed by the sender's unread input is the byte
    sequence it was before, and sender and receiver are in [sync] for
    the next round. *)
Theorem round_trip s r :
  sinv s -> sync s r ->
  effective_window s - total_outgoing_seq_ s <= ByteStream.available_capacity (TCPReceiver.writer r) ->
  (Z.of_nat (next_seq_number_ s + effective_window s) + 1 < 2 ^ 64)%Z ->
  let r' := TCPReceiver.receive_all (snd (push s)) r in
  let s'' := TCPSender.receive (TCPReceiver.send r') (fst (push s)) in
  pending_messages_ s'' = [] /\ sequence_numbers_in_flight s'' = 0 /\
  ack_sequence_number_ s'' = next_seq_number_ s'' /\
  ByteStream.contents (TCPReceiver.writer r) ++ ByteStream.contents (input_ s) =
  ByteStream.contents (TCPReceiver.writer r') ++ ByteStream.contents (input_ s'') /\
  sync s'' r'.
Proof.
  intros I Sy Hwin Hbound. unfold push.
  destruct (push_loop_deliver (S (effective_window s)) s r I Sy Hwin ltac:(lia)) as (S' & Hc & Hn).
  pose proof (push_loop_sinv (S (effective_window s)) s I) as I'.
  destruct (receive_sync_ack _ _ I' S' ltac:(lia)) as (Hq & Ht & Hack & S'').
  cbv zeta. split_conj; auto.
  rewrite Hc, receive_input; [reflexivity|]. rewrite TCPReceiver.send_RST. exact (sync_rerr _ _ S').
Qed.

(** ** A whole connection

    The two applications and the connection, as a sequence of calls: the
    sending application writes to or closes the sender's input
    ([writer().push], [writer().close()]), the connection runs a round
    ([push], the delivery of its segments, the acknowledgement taken
    back), the receiving application reads ([reader().pop]).  The state
    carries two logs that are not program state: the bytes the
    receiving application has read, and the bytes of the writes that
    the sender's input accepted. *)
Inductive event :=
| Write (data : bytes)
| Close
| Round
| Read (n : nat).

Record conn := mkConn {
  sender : TCPSender.t;
  receiver : TCPReceiver.t;
  read_log : bytes;
  written : bytes
}.

Definition init (cap cap' : nat) (isn rto : Z) : conn :=
  mkConn (create (ByteStream.create cap) isn rto) (TCPReceiver.create cap') [] [].

(** One round over the lossless link. *)
Definition round (s : TCPSender.t) (r : TCPReceiver.t) : TCPSender.t * TCPReceiver.t :=
  let r1 := TCPReceiver.receive_all (snd (push s)) r in
  (TCPSender.receive (TCPReceiver.send r1) (fst (push s)), r1).

(** A call, or [None] when the schedule leaves what the theorems cover:
    a read of more than is buffered (undefined in the C++), or a round
    when the receiver has no room for the sender's window or the
    sequence numbers would reach [2^64]. *)
Definition step (e : event) (c : conn) : option conn :=
  let s := sender c in let r := receiver c in
  match e with
  | Write data =>
      Some (mkConn (fst (TCPSender.step (WriterPush data) s)) r (read_log c)
                   (written c ++ accepted data (input_ s)))
  | Close => Some (mkConn (fst (TCPSender.step WriterClose s)) r (read_log c) (written c))
  | Round =>
      if (effective_window s - total_outgoing_seq_ s <=? ByteStream.available_capacity (TCPReceiver.writer r))
         && (Z.of_nat (next_seq_number_ s + effective_window s) + 1 <? 2 ^ 64)%Z
      then let '(s', r') := round s r in Some (mkConn s' r' (read_log c) (written c))
      else None
  | Read n =>
      if n <=? ByteStream.bytes_buffered (TCPReceiver.writer r)
      then Some (mkConn s (TCPReceiver.read n r)
                        (read_log c ++ firstn n (ByteStream.contents (TCPReceiver.writer r))) (written c))
      else None
  end.

Fixpoint run (es : list event) (c : conn) : option conn :=
  match es with
  | [] => Some c
  | e :: es' => match step e c with Some c' => run es' c' | None => None end
  end.

(** What every reachable connection satisfies: the sender's invariant,
    [sync], nothing outstanding between rounds, and the bytes read,
    buffered at the receiver and unread at the sender are, in order, the
    bytes written. *)
Record conn_inv (c : conn) : Prop := {
  ci_sinv : sinv (sender c);
  ci_sync : sync (sender c) (receiver c);
  ci_idle : pending_messages_ (sender c) = [];
  ci_stream : read_log c ++ ByteStream.contents (TCPReceiver.writer (receiver c)) ++
              ByteStream.contents (input_ (sender c)) = written c
}.

Lemma push_has_error d i : ByteStream.has_error (ByteStream.push d i) = ByteStream.has_error i.
Proof. unfold ByteStream.push. destruct (_ || _ || _); reflexivity. Qed.

(** The application reading from the receiver's stream keeps [sync] and
    drops the bytes it reads from the front of the stream. *)
Lemma read_sync s r n :
  sync s r -> n <= ByteStream.bytes_buffered (TCPReceiver.writer r) ->
  sync s (TCPReceiver.read n r) /\
  ByteStream.contents (TCPReceiver.writer (TCPReceiver.read n r)) =
    skipn n (ByteStream.contents (TCPReceiver.writer r)).
Proof.
  intros [] Hn. pose proof (ByteStream.pop_fields _ n sync_ok0 Hn) as (Hp & _ & Hcl & He).
  pose proof (f_equal StreamSpec.buf (ByteStream.pop_refines _ n sync_ok0 Hn)) as Hc.
  split; [|exact Hc].
  split; cbn -[ByteStream.pop]; unfold TCPReceiver.writer in *; cbn -[ByteStream.pop];
    rewrite ?Hp, ?Hcl, ?He; auto using ByteStream.pop_inv.
Qed.

Lemma step_conn_inv e c c' : conn_inv c -> step e c = Some c' -> conn_inv c'.
Proof.
  intros [I Sy Hq Hst] H. destruct c as [s r lg wr]. cbn [sender receiver read_log written] in *.
  destruct e as [data| | |n]; cbn [step sender receiver read_log written] in H.
  - injection H as <-. pose proof (push_fields data (input_ s) (sinv_input _ I)) as (_ & _ & Hc).
    split; cbn.
    + exact (step_sinv (WriterPush data) s I).
    + apply (sync_sender_ext s); cbn; auto using push_has_error.
    + exact Hq.
    + rewrite Hc, <- Hst, !app_assoc. reflexivity.
  - injection H as <-. split; cbn; [exact (step_sinv WriterClose s I)| |exact Hq|exact Hst].
    apply (sync_sender_ext s); cbn; auto.
  - destruct (_ && _) eqn:Hg; [|discriminate]. apply andb_true_iff in Hg as [Hw Hb].
    apply Nat.leb_le in Hw. apply Z.ltb_lt in Hb.
    destruct (round_trip s r I Sy Hw Hb) as (Hq' & _ & _ & Hc & Sy').
    unfold round in H. injection H as <-. split; cbn [sender receiver read_log written].
    + apply receive_sinv. unfold push. apply push_loop_sinv, I.
    + exact Sy'.
    + exact Hq'.
    + rewrite <- Hst, Hc. reflexivity.
  - destruct (Nat.leb_spec n (ByteStream.bytes_buffered (TCPReceiver.writer r))) as [Hn|]; [|discriminate].
    injection H as <-. destruct (read_sync s r n Sy Hn) as [Sy' Hc].
    split; cbn [sender receiver read_log written]; [exact I|exact Sy'|exact Hq|].
    rewrite Hc, <- Hst, <- app_assoc, (app_assoc (firstn n _)), firstn_skipn. reflexivity.
Qed.

Lemma run_conn_inv es c c' : conn_inv c -> run es c = Some c' -> conn_inv c'.
Proof.
  revert c. induction es as [|e es IH]; intros c I H; cbn in H; [now injection H as <-|].
  destruct (step e c) as [c1|] eqn:Hs; [|discriminate]. exact (IH c1 (step_conn_inv e c c1 I Hs) H).
Qed.

(** (C20) The connection is one byte stream: in every state reached from a
    fresh sender and a fresh receiver through any schedule of writes,
    closes, rounds and reads the theorems cover, the bytes the receiving
    application has read, followed by those waiting in the receiver's
    stream and those still unread in the sender's input, are exactly the
    bytes the sender's input accepted, in order; nothing is outstanding
    between rounds; and the receiver's stream is closed exactly when the
    sender has sent FIN. *)
Theorem connection_is_stream es cap cap' isn rto c :
  (0 <= isn < 2 ^ 32)%Z -> run es (init cap cap' isn rto) = Some c ->
  read_log c ++ ByteStream.contents (TCPReceiver.writer (receiver c)) ++
    ByteStream.contents (input_ (sender c)) = written c /\
  pending_messages_ (sender c) = [] /\
  ByteStream.is_closed (TCPReceiver.writer (receiver c)) = FIN_sent_flag_ (sender c).
Proof.
  intros Hisn Hrun.
  assert (I0 : conn_inv (init cap cap' isn rto))
    by (split; cbn; [apply create_sinv | apply sync_create, Hisn | reflexivity | reflexivity]).
  destruct (run_conn_inv es _ c I0 Hrun) as [_ Sy Hq Hst].
  split_conj; [exact Hst | exact Hq | exact (sync_closed _ _ Sy)].
Qed.

End Connection.

(** ** A connection carrying "hello" *)
Module ConnectionScenario.
Import TCPSender Connection.

(** The sender holds "hello" and has learned a window of 10 before its
    SYN; the receiver has room for 20 bytes. *)
Definition sender0 : t :=
  fst (TCPSender.run [WriterPush (bstr "hello"); Receive (TCPReceiver.mkReceiverMessage None 10 false)]
           (create (ByteStream.create 10) 0 1000)).
Definition receiver0 : TCPReceiver.t := TCPReceiver.create 20.

Lemma sender0_sinv : sinv sender0.
Proof. apply run_preserves_sinv, create_sinv. Qed.

Lemma sync0 : sync sender0 receiver0.
Proof.
  apply (sync_sender_ext (create (ByteStream.create 10) 0 1000)); try reflexivity.
  apply sync_create. lia.
Qed.

(** The whole of "hello" crosses in one round: SYN and the five bytes in
    one segment, acknowledged with 6. *)
Example hello_crosses :
  let r' := TCPReceiver.receive_all (snd (push sender0)) receiver0 in
  ByteStream.contents (TCPReceiver.writer r') = bstr "hello" /\
  TCPReceiver.ackno (TCPReceiver.send r') = Some 6%Z /\
  pending_messages_ (TCPSender.receive (TCPReceiver.send r') (fst (push sender0))) = [].
Proof. vm_compute. split_conj; reflexivity. Qed.

Lemma push_deliver_witness :
  let s' := fst (push sender0) in
  let r' := TCPReceiver.receive_all (snd (push sender0)) receiver0 in
  ByteStream.contents (TCPReceiver.writer receiver0) ++ ByteStream.contents (input_ sender0) =
  ByteStream.contents (TCPReceiver.writer r') ++ ByteStream.contents (input_ s') /\
  sync s' r' /\
  TCPReceiver.ackno (TCPReceiver.send r') =
    if SYN_sent_flag_ s' then Some (Wrap32.wrap (Z.of_nat (next_seq_number_ s')) (isn_ s')) else None.
Proof.
  apply (push_deliver sender0 receiver0 sender0_sinv sync0); vm_compute; [lia | reflexivity].
Defined.

Lemma round_trip_witness :
  let r' := TCPReceiver.receive_all (snd (push sender0)) receiver0 in
  let s'' := TCPSender.receive (TCPReceiver.send r') (fst (push sender0)) in
  pending_messages_ s'' = [] /\ sequence_numbers_in_flight s'' = 0 /\
  ack_sequence_number_ s'' = next_seq_number_ s'' /\
  ByteStream.contents (TCPReceiver.writer receiver0) ++ ByteStream.contents (input_ sender0) =
  ByteStream.contents (TCPReceiver.writer r') ++ ByteStream.contents (input_ s'') /\
  sync s'' r'.
Proof.
  apply (round_trip sender0 receiver0 sender0_sinv sync0); vm_compute; [lia | reflexivity].
Defined.

(** A whole connection: "hello", two rounds (the SYN alone under the
    initial window of 1, then the data), a read of 2 bytes, " world",
    the close, two rounds (data, then FIN), a read of 5 bytes. *)
Definition schedule : list Connection.event :=
  [Write (bstr "hello"); Round; Round; Read 2; Write (bstr " world"); Close; Round; Round; Read 5].

Example schedule_delivers :
  option_map (fun c => (read_log c, ByteStream.contents (TCPReceiver.writer (receiver c)),
                        ByteStream.is_closed (TCPReceiver.writer (receiver c))))
             (Connection.run schedule (init 16 32 7 1000)) =
  Some (bstr "hello w", bstr "orld", true).
Proof. vm_compute. reflexivity. Qed.

Definition final : conn :=
  match Connection.run schedule (init 16 32 7 1000) with Some c => c | None => init 16 32 7 1000 end.

Lemma connection_is_stream_witness :
  let c := final in
  read_log c ++ ByteStream.contents (TCPReceiver.writer (receiver c)) ++
    ByteStream.contents (input_ (sender c)) = written c /\
  pending_messages_ (sender c) = [] /\
  ByteStream.is_closed (TCPReceiver.writer (receiver c)) = FIN_sent_flag_ (sender c).
Proof. apply (connection_is_stream schedule 16 32 7 1000); [lia | vm_compute; reflexivity]. Defined.

End ConnectionScenario.
