(* ===== verification/EthernetLink.v ===== *)
(** * EthernetLink: two network interfaces on one Ethernet segment

    [NetworkInterface] (network_interface.hh) hands every frame it sends
    to its [OutputPort] through the private helper [transmit], which
    calls [port_->transmit( *this, frame )].  Here [OutputPort] is a
    [Class] of ports and [transmit_all] is that helper called once per
    frame, in the order [send_datagram] and [recv_frame] produce them.

    The instance [wire_port] is a port onto a shared medium: the frames
    of both interfaces, in the order they were transmitted, each tagged
    with the side that sent it, and delivered one at a time (FIFO) to
    the interface on the other side, whose own frames join the back of
    the medium.  [wire_settle] delivers until the medium is empty.  The
    medium is reliable: loss is the subject of LossyLink.v at the TCP
    level; here the question is ARP.

    The theorem [link_delivers]: whatever both hosts send to each other
    and however much time passes between sends (ARP entries expiring on
    the way), every datagram one interface sends to the other's IP
    address arrives in its [datagrams_received_] queue, in order, exactly
    once, and nothing else does: the two interfaces with ARP in between
    are two FIFO datagram channels.  The invariant [wire_ok] says what
    makes that hold between two settled interfaces: the table invariant
    [ni_inv] on both, nothing waiting for the peer, and an ARP entry for
    the peer, if any, naming the peer's Ethernet address. *)

From Stdlib Require Import ZArith Lia.
From stdpp Require Import gmap list.
From S2P Require Import Prelude NetworkInterface.

Module EthernetLink.
Import NetworkInterface.

(** [NetworkInterface::OutputPort]: [transmit( sender, frame )] on a
    port whose state is [P]. *)
Class OutputPort (P : Type) := port_transmit : P -> NetworkInterface.t -> EthernetFrame -> P.

(** [NetworkInterface::transmit], once per frame, in order.  The
    interface passed is the one the method was called on: the port sees
    only its addresses, which no method changes. *)
Definition transmit_all {P} `{OutputPort P} (port : P) (ni : NetworkInterface.t)
  (frames : list EthernetFrame) : P :=
  fold_left (λ p f, port_transmit p ni f) frames port.

(** [send_datagram] and [recv_frame] with their frames handed to a port. *)
Definition send_datagram_port {P} `{OutputPort P} (dgram : InternetDatagram)
  (next_hop : IPv4NumericAddress) (ni : NetworkInterface.t) (port : P) : NetworkInterface.t * P :=
  let '(ni', frames) := send_datagram dgram next_hop ni in (ni', transmit_all port ni frames).

Definition recv_frame_port {P} `{OutputPort P} (frame : EthernetFrame)
  (ni : NetworkInterface.t) (port : P) : NetworkInterface.t * P :=
  let '(ni', frames) := recv_frame frame ni in (ni', transmit_all port ni frames).

(** ** The segment *)

Inductive side := SideA | SideB.

#[export] Instance side_eq_dec : EqDecision side.
Proof. solve_decision. Defined.

Definition other (s : side) : side := match s with SideA => SideB | SideB => SideA end.

Record wire := mkWire {
  host_a : NetworkInterface.t;
  host_b : NetworkInterface.t;
  medium : list (side * EthernetFrame)
}.

(** The port of one side: the medium, onto which its frames go tagged
    with the side. *)
Record port := mkPort { port_side : side; port_frames : list (side * EthernetFrame) }.

#[export] Instance wire_port : OutputPort port :=
  λ p _ f, mkPort (port_side p) (port_frames p ++ [(port_side p, f)]).

Definition host (s : side) (w : wire) : NetworkInterface.t :=
  match s with SideA => host_a w | SideB => host_b w end.

Definition set_host (s : side) (ni : NetworkInterface.t) (w : wire)
  (m : list (side * EthernetFrame)) : wire :=
  match s with SideA => mkWire ni (host_b w) m | SideB => mkWire (host_a w) ni m end.

(** Side [s] sends a datagram to the other side's IP address. *)
Definition wire_send (s : side) (d : InternetDatagram) (w : wire) : wire :=
  let '(ni', p) := send_datagram_port d (ip_address_ (host (other s) w)) (host s w)
                     (mkPort s (medium w)) in
  set_host s ni' w (port_frames p).

(** The oldest frame on the medium reaches the other side. *)
Definition wire_deliver (w : wire) : option wire :=
  match medium w with
  | [] => None
  | (s, f) :: rest =>
      let '(ni', p) := recv_frame_port f (host (other s) w) (mkPort (other s) rest) in
      Some (set_host (other s) ni' w (port_frames p))
  end.

Fixpoint wire_settle (fuel : nat) (w : wire) : wire :=
  match fuel with
  | 0 => w
  | S n => match wire_deliver w with None => w | Some w' => wire_settle n w' end
  end.

(** Time passes on both hosts. *)
Definition wire_tick (ms : Z) (w : wire) : wire :=
  mkWire (NetworkInterface.tick ms (host_a w)) (NetworkInterface.tick ms (host_b w)) (medium w).

(** What the hosts do: a send, after which the segment settles (an ARP
    request, its reply and the datagram: three deliveries), or time
    passing. *)
Inductive link_event := LSend (s : side) (d : InternetDatagram) | LTick (ms : Z).

Definition SETTLE_FUEL : nat := 3.

Definition link_step (e : link_event) (w : wire) : wire :=
  match e with
  | LSend s d => wire_settle SETTLE_FUEL (wire_send s d w)
  | LTick ms => wire_tick ms w
  end.

Definition link_run (es : list link_event) (w : wire) : wire := fold_left (λ w e, link_step e w) es w.

(** The datagrams side [s] sends in a run, in order. *)
Fixpoint sent_by (s : side) (es : list link_event) : list InternetDatagram :=
  match es with
  | [] => []
  | LSend s' d :: es' => if decide (s = s') then d :: sent_by s es' else sent_by s es'
  | LTick _ :: es' => sent_by s es'
  end.

(** ** The frames of one ARP exchange *)

(** The broadcast request [send_datagram] makes for an unknown hop. *)
Definition request_frame (x : NetworkInterface.t) (nh : IPv4NumericAddress) : EthernetFrame :=
  mkFrame (mkEthernetHeader ETHERNET_BROADCAST (ethernet_address_ x) TYPE_ARP)
          (PARP (mkARP OPCODE_REQUEST (ethernet_address_ x) (ip_address_ x) 0 nh)).

(** The reply [recv_frame] of [y] makes to a request of [x]. *)
Definition reply_frame (y x : NetworkInterface.t) : EthernetFrame :=
  mkFrame (mkEthernetHeader (ethernet_address_ x) (ethernet_address_ y) TYPE_ARP)
          (PARP (mkARP OPCODE_REPLY (ethernet_address_ y) (ip_address_ y)
                       (ethernet_address_ x) (ip_address_ x))).

Lemma send_known x nh d mac a :
  arp_table_ x !! nh = Some (mac, a) -> send_datagram d nh x = (x, [ipv4_frame x mac d]).
Proof. intros Ha. unfold send_datagram. now rewrite Ha. Qed.

Lemma send_unknown x nh d :
  ni_inv x -> pending_datagrams_ x !! nh = None -> arp_table_ x !! nh = None ->
  send_datagram d nh x =
    (mk (ethernet_address_ x) (ip_address_ x) (datagrams_received_ x)
        (<[nh := [d]]> (pending_datagrams_ x)) (<[nh := 0%Z]> (pending_timers_ x)) (arp_table_ x),
     [request_frame x nh]).
Proof.
  intros [Ht _ _] Hp Ha. unfold send_datagram. rewrite Ha, Hp.
  assert (Hti : pending_timers_ x !! nh = None).
  { apply not_elem_of_dom. apply not_elem_of_dom in Hp. set_solver. }
  now rewrite Hti.
Qed.

(** [recv_frame] of an IPv4 frame addressed to [y]: the datagram joins
    [datagrams_received_]. *)
Lemma recv_ipv4 y f d :
  eth_dst (frame_header f) = ethernet_address_ y -> eth_type (frame_header f) = TYPE_IPv4 ->
  frame_payload f = PDatagram d ->
  recv_frame f y =
    (mk (ethernet_address_ y) (ip_address_ y) (datagrams_received_ y ++ [d])
        (pending_datagrams_ y) (pending_timers_ y) (arp_table_ y), []).
Proof. intros Hd Ht Hp. unfold recv_frame. rewrite Hd, Ht, Hp, Z.eqb_refl. reflexivity. Qed.

(** [recv_frame] of a broadcast ARP request for [y]'s address, from a
    sender nothing waits for: [y] learns the sender and replies. *)
Lemma recv_request y f m :
  eth_dst (frame_header f) = ETHERNET_BROADCAST -> eth_type (frame_header f) = TYPE_ARP ->
  frame_payload f = PARP m -> opcode m = OPCODE_REQUEST -> target_ip_address m = ip_address_ y ->
  pending_datagrams_ y !! sender_ip_address m = None ->
  recv_frame f y =
    (mk (ethernet_address_ y) (ip_address_ y) (datagrams_received_ y) (pending_datagrams_ y)
        (pending_timers_ y) (<[sender_ip_address m := (sender_ethernet_address m, 0%Z)]> (arp_table_ y)),
     [mkFrame (mkEthernetHeader (sender_ethernet_address m) (ethernet_address_ y) TYPE_ARP)
              (PARP (mkARP OPCODE_REPLY (ethernet_address_ y) (ip_address_ y)
                           (sender_ethernet_address m) (sender_ip_address m)))]).
Proof.
  intros Hd Ht Hpl Ho Htg Hp. unfold recv_frame. rewrite Hd, Ht, Hpl. cbn.
  rewrite Ho, Htg, Hp, andb_false_r, !Z.eqb_refl. reflexivity.
Qed.

(** [recv_frame] of an ARP reply addressed to [x] from an address
    [ds] wait for: [x] learns it and the datagrams leave to it. *)
Lemma recv_reply x f m ds :
  eth_dst (frame_header f) = ethernet_address_ x -> eth_type (frame_header f) = TYPE_ARP ->
  frame_payload f = PARP m -> opcode m = OPCODE_REPLY ->
  pending_datagrams_ x !! sender_ip_address m = Some ds ->
  recv_frame f x =
    (mk (ethernet_address_ x) (ip_address_ x) (datagrams_received_ x)
        (delete (sender_ip_address m) (pending_datagrams_ x))
        (delete (sender_ip_address m) (pending_timers_ x))
        (<[sender_ip_address m := (sender_ethernet_address m, 0%Z)]> (arp_table_ x)),
     map (ipv4_frame x (sender_ethernet_address m)) ds).
Proof.
  intros Hd Ht Hpl Ho Hp. unfold recv_frame. rewrite Hd, Ht, Hpl. cbn.
  rewrite Ho, Hp, Z.eqb_refl. reflexivity.
Qed.

(** ** The invariant *)

(** What [x] holds about its peer [y]: nothing waits for [y], and an
    ARP entry for [y], if any, names [y]'s Ethernet address. *)
Definition knows (x y : NetworkInterface.t) : Prop :=
  pending_datagrams_ x !! ip_address_ y = None /\
  forall e, arp_table_ x !! ip_address_ y = Some e -> e.1 = ethernet_address_ y.

Definition link_ok (x y : NetworkInterface.t) : Prop :=
  ni_inv x /\ ni_inv y /\ knows x y /\ knows y x.

(** A settled segment. *)
Definition wire_ok (w : wire) : Prop := link_ok (host_a w) (host_b w) /\ medium w = [].

Lemma link_ok_sym x y : link_ok x y -> link_ok y x.
Proof. unfold link_ok. tauto. Qed.

Lemma other_other s : other (other s) = s.
Proof. now destruct s. Qed.

Lemma host_set_same s ni w m : host s (set_host s ni w m) = ni.
Proof. now destruct s. Qed.

Lemma host_set_other s ni w m : host (other s) (set_host s ni w m) = host (other s) w.
Proof. now destruct s. Qed.

Lemma host_set_back s ni w m : host s (set_host (other s) ni w m) = host s w.
Proof. now destruct s. Qed.

Lemma medium_set_host s ni w m : medium (set_host s ni w m) = m.
Proof. now destruct s. Qed.

Create Rewrite HintDb link_rw.
#[export] Hint Rewrite other_other host_set_same host_set_other host_set_back medium_set_host : link_rw.

Lemma wire_ok_side s w : wire_ok w <-> link_ok (host s w) (host (other s) w) /\ medium w = [].
Proof. destruct s; cbn; unfold wire_ok; intuition auto using link_ok_sym. Qed.

Lemma settle_quiet f w : medium w = [] -> wire_settle f w = w.
Proof. intros Hm. destruct f; cbn; unfold wire_deliver; now rewrite ?Hm. Qed.

(** Handing frames to a side's port appends them, tagged. *)
Lemma transmit_all_frames s m ni fs :
  transmit_all (mkPort s m) ni fs = mkPort s (m ++ map (λ f, (s, f)) fs).
Proof.
  unfold transmit_all. revert m. induction fs as [|f fs IH]; intros m; cbn [fold_left map].
  - now rewrite app_nil_r.
  - change (port_transmit (mkPort s m) ni f) with (mkPort s (m ++ [(s, f)])).
    rewrite IH. now rewrite <- app_assoc.
Qed.

Lemma deliver_one w s f rest :
  medium w = [(s, f)] ++ rest ->
  wire_deliver w =
    Some (set_host (other s) (recv_frame f (host (other s) w)).1 w
                   (rest ++ map (λ g, (other s, g)) (recv_frame f (host (other s) w)).2)).
Proof.
  intros Hm. unfold wire_deliver, recv_frame_port. rewrite Hm. cbn.
  destruct (recv_frame f _) as [ni' fs]. now rewrite transmit_all_frames.
Qed.

Lemma settle_step f w s fr rest :
  medium w = [(s, fr)] ++ rest ->
  wire_settle (S f) w =
    wire_settle f (set_host (other s) (recv_frame fr (host (other s) w)).1 w
                            (rest ++ map (λ g, (other s, g)) (recv_frame fr (host (other s) w)).2)).
Proof. intros Hm. cbn [wire_settle]. now rewrite (deliver_one w s fr rest Hm). Qed.

(** The table invariant does not look at the addresses or the received
    queue, and learning an address nothing waits for keeps it. *)
Lemma ni_inv_learn ni e i r ip v :
  ni_inv ni -> pending_datagrams_ ni !! ip = None ->
  ni_inv (mk e i r (pending_datagrams_ ni) (pending_timers_ ni) (<[ip := v]> (arp_table_ ni))).
Proof.
  intros [Ht Hr Hn] Hp. apply not_elem_of_dom in Hp.
  split; cbn; rewrite ?dom_insert_L; [exact Ht | set_solver | exact Hn].
Qed.

Lemma ni_inv_fields ni e i r :
  ni_inv ni -> ni_inv (mk e i r (pending_datagrams_ ni) (pending_timers_ ni) (arp_table_ ni)).
Proof. intros [Ht Hr Hn]. now split. Qed.

(** One send on a settled segment, when the sender has an ARP entry for
    its peer: the IPv4 frame crosses and the segment is settled again. *)
Lemma send_settle_known s d w :
  wire_ok w -> (exists a, arp_table_ (host s w) !! ip_address_ (host (other s) w) =
                          Some (ethernet_address_ (host (other s) w), a)) ->
  let w' := wire_settle SETTLE_FUEL (wire_send s d w) in
  wire_ok w' /\ datagrams_received_ (host (other s) w') = datagrams_received_ (host (other s) w) ++ [d] /\
  datagrams_received_ (host s w') = datagrams_received_ (host s w).
Proof.
  intros Hw [a Ha]. apply (wire_ok_side s) in Hw as [(Ix & Iy & Kx & Ky) Hm].
  unfold wire_send, send_datagram_port. rewrite (send_known _ _ _ _ _ Ha). cbn zeta.
  rewrite transmit_all_frames, Hm. unfold SETTLE_FUEL.
  rewrite (settle_step _ _ s (ipv4_frame (host s w) (ethernet_address_ (host (other s) w)) d) [])
    by (autorewrite with link_rw; reflexivity).
  autorewrite with link_rw. rewrite (recv_ipv4 _ _ d) by reflexivity. cbn [fst snd map app].
  rewrite settle_quiet by (autorewrite with link_rw; reflexivity).
  autorewrite with link_rw. split_conj; [|reflexivity..].
  apply (wire_ok_side s). autorewrite with link_rw. split; [|reflexivity].
  unfold link_ok, knows in *; cbn. intuition auto using ni_inv_fields.
Qed.

(** One send on a settled segment, when the sender has no ARP entry
    for its peer: the broadcast request, the peer's reply and then the
    IPv4 frame cross, and the segment is settled again. *)
Lemma send_settle_unknown s d w :
  wire_ok w -> arp_table_ (host s w) !! ip_address_ (host (other s) w) = None ->
  let w' := wire_settle SETTLE_FUEL (wire_send s d w) in
  wire_ok w' /\ datagrams_received_ (host (other s) w') = datagrams_received_ (host (other s) w) ++ [d] /\
  datagrams_received_ (host s w') = datagrams_received_ (host s w).
Proof.
  intros Hw Ha. apply (wire_ok_side s) in Hw as [(Ix & Iy & [Hpx Hax] & [Hpy Hay]) Hm].
  unfold wire_send, send_datagram_port. rewrite (send_unknown _ _ d Ix Hpx Ha). cbn zeta.
  rewrite transmit_all_frames, Hm. unfold SETTLE_FUEL.
  rewrite (settle_step _ _ s (request_frame (host s w) (ip_address_ (host (other s) w))) [])
    by (autorewrite with link_rw; reflexivity).
  autorewrite with link_rw.
  rewrite (recv_request _ _ (mkARP OPCODE_REQUEST (ethernet_address_ (host s w)) (ip_address_ (host s w)) 0
                                  (ip_address_ (host (other s) w)))) by (cbn; auto).
  cbn [fst snd map app].
  rewrite (settle_step _ _ (other s) _ []) by (autorewrite with link_rw; reflexivity).
  autorewrite with link_rw.
  rewrite (recv_reply _ _ (mkARP OPCODE_REPLY (ethernet_address_ (host (other s) w))
                               (ip_address_ (host (other s) w)) (ethernet_address_ (host s w))
                               (ip_address_ (host s w))) [d])
    by (cbn; rewrite ?lookup_insert_eq; reflexivity).
  cbn [fst snd map app sender_ip_address sender_ethernet_address].
  rewrite (settle_step _ _ s _ []) by (autorewrite with link_rw; reflexivity).
  autorewrite with link_rw. rewrite (recv_ipv4 _ _ d) by reflexivity.
  cbn [fst snd map app wire_settle]. autorewrite with link_rw. split_conj; [|reflexivity..].
  apply (wire_ok_side s). autorewrite with link_rw. split; [|reflexivity].
  cbn. rewrite !delete_insert_id by (auto; apply not_elem_of_dom; apply not_elem_of_dom in Hpx;
                                      destruct Ix as [Ht _ _]; set_solver).
  unfold link_ok, knows; cbn. rewrite !lookup_insert_eq.
  split_conj; auto using ni_inv_learn; intros e [= <-]; reflexivity.
Qed.

Lemma send_settle s d w :
  wire_ok w ->
  let w' := link_step (LSend s d) w in
  wire_ok w' /\ datagrams_received_ (host (other s) w') = datagrams_received_ (host (other s) w) ++ [d] /\
  datagrams_received_ (host s w') = datagrams_received_ (host s w).
Proof.
  intros Hw. cbn [link_step].
  destruct (arp_table_ (host s w) !! ip_address_ (host (other s) w)) as [[mac a]|] eqn:Ha.
  - apply send_settle_known; [exact Hw|]. exists a.
    pose proof Hw as Hw'. apply (wire_ok_side s) in Hw' as [(_ & _ & [_ Hax] & _) _].
    rewrite Ha. pose proof (Hax _ Ha) as E. cbn in E. now subst mac.
  - exact (send_settle_unknown s d w Hw Ha).
Qed.

(** Ageing an ARP table keeps the addresses of the entries it keeps. *)
Lemma tick_arp_lookup ms ni ip e :
  arp_table_ (NetworkInterface.tick ms ni) !! ip = Some e -> exists a, arp_table_ ni !! ip = Some (e.1, a).
Proof.
  cbn. intros H. apply map_lookup_filter_Some in H as [H _].
  apply lookup_fmap_Some in H as [[mac a] [<- H]]. now exists a.
Qed.

Lemma tick_knows ms ms' x y :
  knows x y -> knows (NetworkInterface.tick ms x) (NetworkInterface.tick ms' y).
Proof.
  intros [Hp Ha]. split; [exact Hp|]. intros e He.
  destruct (tick_arp_lookup ms x _ e He) as [a Ha']. exact (Ha _ Ha').
Qed.

Lemma tick_settled ms w :
  wire_ok w ->
  wire_ok (link_step (LTick ms) w) /\
  datagrams_received_ (host_a (link_step (LTick ms) w)) = datagrams_received_ (host_a w) /\
  datagrams_received_ (host_b (link_step (LTick ms) w)) = datagrams_received_ (host_b w).
Proof.
  intros [(Ia & Ib & Kab & Kba) Hm]. split_conj; [split; [|exact Hm] | reflexivity | reflexivity].
  cbn [link_step wire_tick host_a host_b]. unfold link_ok. split_conj; auto using tick_inv, tick_knows.
Qed.

(** ** The interfaces' addresses never change *)

Definition addrs (ni : NetworkInterface.t) : EthernetAddress * IPv4NumericAddress :=
  (ethernet_address_ ni, ip_address_ ni).

Lemma send_datagram_addrs d nh ni : addrs (send_datagram d nh ni).1 = addrs ni.
Proof.
  unfold send_datagram. destruct (arp_table_ ni !! nh) as [[]|]; [reflexivity|].
  destruct (pending_timers_ ni !! nh); reflexivity.
Qed.

Lemma recv_frame_addrs f ni : addrs (recv_frame f ni).1 = addrs ni.
Proof.
  unfold recv_frame. destruct (_ && _); [reflexivity|].
  destruct (_ =? TYPE_IPv4)%Z; [destruct (parse_datagram _); reflexivity|].
  destruct (_ =? TYPE_ARP)%Z; [|reflexivity]. destruct (parse_arp _) as [m|]; [|reflexivity].
  destruct (pending_datagrams_ ni !! _); reflexivity.
Qed.

Lemma wire_send_addrs s d w s' : addrs (host s' (wire_send s d w)) = addrs (host s' w).
Proof.
  unfold wire_send, send_datagram_port. pose proof (send_datagram_addrs d (ip_address_ (host (other s) w)) (host s w)) as H.
  destruct (send_datagram _ _ _) as [ni fs]. cbn [fst] in H.
  destruct s, s'; cbn; auto.
Qed.

Lemma wire_settle_addrs f w s : addrs (host s (wire_settle f w)) = addrs (host s w).
Proof.
  revert w. induction f as [|f IH]; intros w; cbn [wire_settle]; [reflexivity|].
  unfold wire_deliver. destruct (medium w) as [|[s0 fr] rest]; [reflexivity|].
  unfold recv_frame_port. pose proof (recv_frame_addrs fr (host (other s0) w)) as H.
  destruct (recv_frame _ _) as [ni fs]. cbn [fst] in H. rewrite IH.
  destruct s0, s; cbn; auto.
Qed.

Lemma link_step_addrs e w s : addrs (host s (link_step e w)) = addrs (host s w).
Proof.
  destruct e as [s0 d|ms]; cbn [link_step].
  - now rewrite wire_settle_addrs, wire_send_addrs.
  - destruct s; reflexivity.
Qed.

(** Two fresh interfaces on an idle segment. *)
Lemma create_wire_ok e1 i1 e2 i2 : wire_ok (mkWire (create e1 i1) (create e2 i2) []).
Proof.
  split; [|reflexivity]. unfold link_ok, knows.
  split_conj; try apply create_inv; try reflexivity; intros e He; discriminate He.
Qed.

Lemma link_run_cons e es w : link_run (e :: es) w = link_run es (link_step e w).
Proof. reflexivity. Qed.

(** (C16) Two interfaces on one Ethernet segment are two FIFO datagram
    channels: from a settled segment, over any sequence of sends in
    either direction (each followed by the segment settling: ARP request,
    reply and datagram) and of time passing on both hosts (ARP entries
    expiring), the segment is settled again and each host's
    [datagrams_received_] queue has grown by exactly the datagrams the
    other host sent to it, in the order they were sent. *)
Theorem link_delivers es w :
  wire_ok w ->
  let w' := link_run es w in
  wire_ok w' /\
  datagrams_received_ (host_b w') = datagrams_received_ (host_b w) ++ sent_by SideA es /\
  datagrams_received_ (host_a w') = datagrams_received_ (host_a w) ++ sent_by SideB es.
Proof.
  cbv zeta. revert w. induction es as [|e es IH]; intros w Hw.
  - cbn. now rewrite !app_nil_r.
  - rewrite link_run_cons.
    destruct e as [[|] d|ms].
    + destruct (send_settle SideA d w Hw) as (Hw1 & Hb & Ha).
      destruct (IH _ Hw1) as (Hw2 & Hb2 & Ha2). cbn [host other] in Hb, Ha.
      cbn [sent_by]. repeat first [rewrite decide_True by congruence | rewrite decide_False by congruence].
      split_conj; [exact Hw2 | rewrite Hb2, Hb, <- app_assoc | rewrite Ha2, Ha]; reflexivity.
    + destruct (send_settle SideB d w Hw) as (Hw1 & Ha & Hb).
      destruct (IH _ Hw1) as (Hw2 & Hb2 & Ha2). cbn [host other] in Hb, Ha.
      cbn [sent_by]. repeat first [rewrite decide_True by congruence | rewrite decide_False by congruence].
      split_conj; [exact Hw2 | rewrite Hb2, Hb | rewrite Ha2, Ha, <- app_assoc]; reflexivity.
    + destruct (tick_settled ms w Hw) as (Hw1 & Ha & Hb).
      destruct (IH _ Hw1) as (Hw2 & Hb2 & Ha2).
      split_conj; [exact Hw2 | rewrite Hb2, Hb | rewrite Ha2, Ha]; reflexivity.
Qed.

End EthernetLink.

(** ** A two-host segment *)
Module EthernetLinkScenario.
Import NetworkInterface NetworkInterfaceScenario EthernetLink.

(** 10.0.0.1 (Ethernet address 17) and 10.0.0.2 (Ethernet address 99),
    fresh, on one segment. *)
Definition wire0 : wire := mkWire (create 17 here) (create 99 there) [].

(** A sends "one", B answers "two", A sends "two"; 40 s pass, so both
    ARP entries expire, and A sends "one" again. *)
Definition link_schedule : list link_event :=
  [LSend SideA d1; LSend SideB d2; LSend SideA d2; LTick 40000; LSend SideA d1].

(** The first send puts one broadcast ARP request on the medium and
    nothing else. *)
Example first_send_requests :
  medium (wire_send SideA d1 wire0) =
    [(SideA, mkFrame (mkEthernetHeader ETHERNET_BROADCAST 17 TYPE_ARP)
                     (PARP (mkARP OPCODE_REQUEST 17 here 0 there)))].
Proof. vm_compute. reflexivity. Qed.

(** After the run B has received "one", "two", "one", A has received
    "two", and after the last exchange each host has re-learned the
    other's address. *)
Example link_schedule_delivers :
  let w := link_run link_schedule wire0 in
  datagrams_received_ (host_b w) = [d1; d2; d1] /\ datagrams_received_ (host_a w) = [d2] /\
  arp_table_ (host_a w) !! there = Some (99%Z, 0%Z) /\ arp_table_ (host_b w) !! here = Some (17%Z, 0%Z) /\
  medium w = [].
Proof. vm_compute. split_conj; reflexivity. Qed.

Lemma wire0_ok : wire_ok wire0.
Proof. apply create_wire_ok. Qed.

Lemma link_delivers_witness :
  wire_ok wire0 /\
  (let w' := link_run link_schedule wire0 in
   wire_ok w' /\
   datagrams_received_ (host_b w') = datagrams_received_ (host_b wire0) ++ sent_by SideA link_schedule /\
   datagrams_received_ (host_a w') = datagrams_received_ (host_a wire0) ++ sent_by SideB link_schedule).
Proof. split; [exact wire0_ok | exact (link_delivers link_schedule wire0 wire0_ok)]. Defined.

End EthernetLinkScenario.
