(* ===== verification/Internet.v ===== *)
(** * Internet: two hosts, two Ethernet segments and a router between them

    The router of router.cc with two interfaces: interface 0 on the
    segment of host A, interface 1 on the segment of host B (each
    segment a [wire] of EthernetLink.v, the router's interface on the
    side facing the host).  A host sends a datagram to its gateway, the
    router's interface on its segment; the segment settles (ARP and the
    datagram), [route] moves what the router's interfaces received, the
    frames it hands to each interface's port go onto that interface's
    segment, and the segments settle again.

    The theorem [internet_delivers]: with a routing table whose lookup
    sends each host's address out of the interface on its segment as a
    direct route, whatever the hosts send to each other (and however
    much time passes in between, ARP entries expiring on all four
    interfaces), each host receives exactly the datagrams the other sent
    it with a TTL above 1, in order, each with its TTL decremented and
    its checksum recomputed ([fwd]), and the router drops the others. *)

From Stdlib Require Import ZArith Lia.
From stdpp Require Import gmap list.
From S2P Require Import Prelude NetworkInterface Router EthernetLink.

Module Internet.
Import NetworkInterface EthernetLink.

Section Internet.

Context (compute_checksum : IPv4Header -> Z).

(** The datagram [route] hands on: TTL decremented, checksum
    recomputed over the new header. *)
Definition fwd (d : InternetDatagram) : InternetDatagram :=
  let h := header d in
  let h1 := mkIPv4Header (ttl h - 1) (src h) (dst h) (cksum h) in
  mkDatagram (mkIPv4Header (ttl h1) (src h1) (dst h1) (compute_checksum h1)) (dgram_payload d).

Record inet := mkInet {
  host_A : NetworkInterface.t;
  host_B : NetworkInterface.t;
  gw_A : NetworkInterface.t;   (* the router's interface 0 *)
  gw_B : NetworkInterface.t;   (* the router's interface 1 *)
  tables : list (gmap Z meg);
  medium_A : list (side * EthernetFrame);
  medium_B : list (side * EthernetFrame)
}.

(** Segment A: host A on side A, the router on side B; segment B: the
    router on side A, host B on side B. *)
Definition seg_A (n : inet) : wire := mkWire (host_A n) (gw_A n) (medium_A n).
Definition seg_B (n : inet) : wire := mkWire (gw_B n) (host_B n) (medium_B n).

Definition with_seg_A (w : wire) (n : inet) : inet :=
  mkInet (host_a w) (host_B n) (host_b w) (gw_B n) (tables n) (medium w) (medium_B n).
Definition with_seg_B (w : wire) (n : inet) : inet :=
  mkInet (host_A n) (host_b w) (gw_A n) (host_a w) (tables n) (medium_A n) (medium w).

(** The frames [route] hands to interface [k]'s port, in order. *)
Definition frames_of (k : nat) (s : side) (out : list (nat * EthernetFrame)) : list (side * EthernetFrame) :=
  omap (λ o : nat * EthernetFrame, if decide (o.1 = k) then Some (s, o.2) else None) out.

(** [Router::route] on the two interfaces; its frames join the media. *)
Definition route_inet (n : inet) : option inet :=
  match route compute_checksum (mkRouter [gw_A n; gw_B n] (tables n)) with
  | Some (mkRouter [g0; g1] tbl, out) =>
      Some (mkInet (host_A n) (host_B n) g0 g1 tbl
                   (medium_A n ++ frames_of 0 SideB out) (medium_B n ++ frames_of 1 SideA out))
  | _ => None
  end.

Definition settle_both (n : inet) : inet :=
  with_seg_B (wire_settle SETTLE_FUEL (seg_B n)) (with_seg_A (wire_settle SETTLE_FUEL (seg_A n)) n).

(** After a send: the segments settle, the router routes, the segments
    settle again. *)
Definition propagate (n : inet) : option inet :=
  match route_inet (settle_both n) with
  | Some n' => Some (settle_both n')
  | None => None
  end.

Inductive inet_event := ISend (s : side) (d : InternetDatagram) | ITick (ms : Z).

Definition inet_step (e : inet_event) (n : inet) : option inet :=
  match e with
  | ISend SideA d => propagate (with_seg_A (wire_send SideA d (seg_A n)) n)
  | ISend SideB d => propagate (with_seg_B (wire_send SideB d (seg_B n)) n)
  | ITick ms =>
      Some (mkInet (NetworkInterface.tick ms (host_A n)) (NetworkInterface.tick ms (host_B n))
                   (NetworkInterface.tick ms (gw_A n)) (NetworkInterface.tick ms (gw_B n))
                   (tables n) (medium_A n) (medium_B n))
  end.

Fixpoint inet_run (es : list inet_event) (n : inet) : option inet :=
  match es with
  | [] => Some n
  | e :: es' => match inet_step e n with Some n' => inet_run es' n' | None => None end
  end.

(** The datagrams host [s] sends in a run, in order. *)
Fixpoint isent_by (s : side) (es : list inet_event) : list InternetDatagram :=
  match es with
  | [] => []
  | ISend s' d :: es' => if decide (s = s') then d :: isent_by s es' else isent_by s es'
  | ITick _ :: es' => isent_by s es'
  end.

(** What reaches the other host: the datagrams with a TTL above 1, as
    [route] hands them on. *)
Definition forwarded (ds : list InternetDatagram) : list InternetDatagram :=
  map fwd (filter (λ d, (1 < ttl (header d))%Z) ds).

(** ** [route] on two interfaces *)

Lemma clear_received_id ni : datagrams_received_ ni = [] -> clear_received ni = ni.
Proof. destruct ni; cbn. now intros ->. Qed.

(** One datagram of [route] on a direct route. *)
Lemma route_datagram_direct ifs tbl d num ni :
  lookup_route tbl (dst (header d)) = Some (num, None) -> ifs !! num = Some ni ->
  route_datagram compute_checksum ifs tbl d =
    if (ttl (header d) <=? 1)%Z then Some (ifs, [])
    else Some (<[num := (send_datagram (fwd d) (dst (header d)) ni).1]> ifs,
               map (pair num) (send_datagram (fwd d) (dst (header d)) ni).2).
Proof.
  intros Hl Hi. unfold route_datagram. destruct (_ <=? 1)%Z; [reflexivity|].
  cbn [dst header]. rewrite Hl, Hi. unfold fwd. cbn. now destruct (send_datagram _ _ ni).
Qed.

(** A datagram received on interface 0 for a host behind interface 1. *)
Lemma route_0_to_1 tbl i0 i1 d :
  datagrams_received_ i0 = [d] -> datagrams_received_ i1 = [] ->
  lookup_route tbl (dst (header d)) = Some (1%nat, None) ->
  route compute_checksum (mkRouter [i0; i1] tbl) =
    if (ttl (header d) <=? 1)%Z then Some (mkRouter [clear_received i0; i1] tbl, [])
    else Some (mkRouter [clear_received i0; (send_datagram (fwd d) (dst (header d)) i1).1] tbl,
               map (pair 1%nat) (send_datagram (fwd d) (dst (header d)) i1).2).
Proof.
  intros H0 H1 Hl. unfold route. cbn [length seq route_from _interfaces routable].
  cbn [lookup list_lookup insert list_insert]. rewrite H0. cbn [route_queue].
  rewrite (route_datagram_direct [clear_received i0; i1] _ d 1 i1 Hl eq_refl).
  destruct (_ <=? 1)%Z.
  - cbn [lookup list_lookup insert list_insert route_from route_queue]. rewrite H1.
    cbn [route_queue app]. now rewrite (clear_received_id i1 H1).
  - cbn [lookup list_lookup insert list_insert route_from route_queue].
    rewrite send_datagram_received, H1. cbn [route_queue app]. rewrite !app_nil_r.
    rewrite (clear_received_id _ (eq_trans (send_datagram_received _ _ _) H1)). reflexivity.
Qed.

(** A datagram received on interface 1 for a host behind interface 0. *)
Lemma route_1_to_0 tbl i0 i1 d :
  datagrams_received_ i0 = [] -> datagrams_received_ i1 = [d] ->
  lookup_route tbl (dst (header d)) = Some (0%nat, None) ->
  route compute_checksum (mkRouter [i0; i1] tbl) =
    if (ttl (header d) <=? 1)%Z then Some (mkRouter [i0; clear_received i1] tbl, [])
    else Some (mkRouter [(send_datagram (fwd d) (dst (header d)) i0).1; clear_received i1] tbl,
               map (pair 0%nat) (send_datagram (fwd d) (dst (header d)) i0).2).
Proof.
  intros H0 H1 Hl. unfold route. cbn [length seq route_from _interfaces routable].
  cbn [lookup list_lookup insert list_insert]. rewrite H0. cbn [route_queue].
  rewrite (clear_received_id i0 H0).
  cbn [lookup list_lookup insert list_insert route_from route_queue]. rewrite H1. cbn [route_queue].
  rewrite (route_datagram_direct [i0; clear_received i1] _ d 0 i0 Hl eq_refl).
  destruct (_ <=? 1)%Z; cbn [route_queue app]; rewrite ?app_nil_r; reflexivity.
Qed.

(** ** Plumbing of the two segments *)

Lemma seg_A_with_A w n : seg_A (with_seg_A w n) = w.
Proof. now destruct w. Qed.

Lemma seg_B_with_B w n : seg_B (with_seg_B w n) = w.
Proof. now destruct w. Qed.

(** With segment B quiet, [settle_both] settles segment A only, and
    conversely. *)
Lemma settle_both_A n :
  medium_B n = [] -> settle_both n = with_seg_A (wire_settle SETTLE_FUEL (seg_A n)) n.
Proof. intros Hm. unfold settle_both. rewrite settle_quiet by exact Hm. reflexivity. Qed.

Lemma settle_both_B n :
  medium_A n = [] -> settle_both n = with_seg_B (wire_settle SETTLE_FUEL (seg_B n)) n.
Proof. intros Hm. unfold settle_both. rewrite (settle_quiet _ (seg_A n)) by exact Hm. now destruct n. Qed.

(** [wire_send] from side A of a wire, spelled out. *)
Lemma wire_send_A d w :
  wire_send SideA d w =
    mkWire (send_datagram d (ip_address_ (host_b w)) (host_a w)).1 (host_b w)
           (medium w ++ map (λ f, (SideA, f)) (send_datagram d (ip_address_ (host_b w)) (host_a w)).2).
Proof.
  unfold wire_send, send_datagram_port. cbn [host other].
  destruct (send_datagram _ _ _) as [ni' fs]. now rewrite transmit_all_frames.
Qed.

Lemma wire_send_B d w :
  wire_send SideB d w =
    mkWire (host_a w) (send_datagram d (ip_address_ (host_a w)) (host_b w)).1
           (medium w ++ map (λ f, (SideB, f)) (send_datagram d (ip_address_ (host_a w)) (host_b w)).2).
Proof.
  unfold wire_send, send_datagram_port. cbn [host other].
  destruct (send_datagram _ _ _) as [ni' fs]. now rewrite transmit_all_frames.
Qed.

Lemma frames_of_same k s fs : frames_of k s (map (pair k) fs) = map (λ f, (s, f)) fs.
Proof.
  unfold frames_of. induction fs as [|f fs IH]; [reflexivity|].
  cbn [map omap list_omap]. rewrite decide_True by reflexivity. cbn. now f_equal.
Qed.

Lemma frames_of_other k j s fs : j <> k -> frames_of k s (map (pair j) fs) = [].
Proof.
  intros Hjk. unfold frames_of. induction fs as [|f fs IH]; [reflexivity|].
  cbn [map omap list_omap]. rewrite decide_False by exact Hjk. exact IH.
Qed.

(** A settled segment stays settled when a host's received queue is
    emptied: [wire_ok] does not look at it. *)
Lemma ni_inv_clear ni : ni_inv ni -> ni_inv (clear_received ni).
Proof. intros [Ht Hr Hn]. now split. Qed.

Lemma wire_ok_clear_b w : wire_ok w -> wire_ok (mkWire (host_a w) (clear_received (host_b w)) (medium w)).
Proof.
  intros [(Ia & Ib & Kab & Kba) Hm]. split; [|exact Hm]. unfold link_ok.
  split_conj; [exact Ia | exact (ni_inv_clear _ Ib) | exact Kab | exact Kba].
Qed.

Lemma wire_ok_clear_a w : wire_ok w -> wire_ok (mkWire (clear_received (host_a w)) (host_b w) (medium w)).
Proof.
  intros [(Ia & Ib & Kab & Kba) Hm]. split; [|exact Hm]. unfold link_ok.
  split_conj; [exact (ni_inv_clear _ Ia) | exact Ib | exact Kab | exact Kba].
Qed.

(** ** The invariant *)

(** Both segments settled, the router's received queues empty (it has
    routed everything), and each host's address routed directly out of
    the interface on its segment. *)
Definition inet_ok (n : inet) : Prop :=
  wire_ok (seg_A n) /\ wire_ok (seg_B n) /\
  datagrams_received_ (gw_A n) = [] /\ datagrams_received_ (gw_B n) = [] /\
  lookup_route (tables n) (ip_address_ (host_B n)) = Some (1%nat, None) /\
  lookup_route (tables n) (ip_address_ (host_A n)) = Some (0%nat, None).

Lemma settle_both_quiet n : medium_A n = [] -> medium_B n = [] -> settle_both n = n.
Proof.
  intros HA HB. rewrite (settle_both_A n HB), (settle_quiet _ (seg_A n) HA). now destruct n.
Qed.

Lemma forwarded_one d : forwarded [d] = if (ttl (header d) <=? 1)%Z then [] else [fwd d].
Proof.
  unfold forwarded. rewrite filter_cons, filter_nil.
  destruct (Z.leb_spec (ttl (header d)) 1); [rewrite decide_False by lia | rewrite decide_True by lia]; reflexivity.
Qed.

Lemma inet_ok_mk hA hB gA gB tbl mA mB :
  wire_ok (mkWire hA gA mA) -> wire_ok (mkWire gB hB mB) ->
  datagrams_received_ gA = [] -> datagrams_received_ gB = [] ->
  lookup_route tbl (ip_address_ hB) = Some (1%nat, None) -> lookup_route tbl (ip_address_ hA) = Some (0%nat, None) ->
  inet_ok (mkInet hA hB gA gB tbl mA mB).
Proof. intros. unfold inet_ok. cbn [seg_A seg_B gw_A gw_B host_A host_B tables medium_A medium_B]. split_conj; assumption. Qed.

Lemma addrs_ip x y : addrs x = addrs y -> ip_address_ x = ip_address_ y.
Proof. unfold addrs. now intros [= _ ->]. Qed.

Lemma wire_eta w : mkWire (host_a w) (host_b w) (medium w) = w.
Proof. now destruct w. Qed.

(** Host A sends to host B: after the step, B has received the
    forwarded datagram if its TTL was above 1, A nothing, and the
    internetwork is settled again. *)
Lemma step_A_to_B n d :
  inet_ok n -> dst (header d) = ip_address_ (host_B n) ->
  exists n', inet_step (ISend SideA d) n = Some n' /\ inet_ok n' /\
    datagrams_received_ (host_B n') = datagrams_received_ (host_B n) ++ forwarded [d] /\
    datagrams_received_ (host_A n') = datagrams_received_ (host_A n) /\
    addrs (host_A n') = addrs (host_A n) /\ addrs (host_B n') = addrs (host_B n).
Proof.
  intros (HwA & HwB & HgA & HgB & HlB & HlA) Hd.
  cbn [inet_step]. unfold propagate.
  rewrite settle_both_A by exact (proj2 HwB). rewrite seg_A_with_A.
  change (wire_settle SETTLE_FUEL (wire_send SideA d (seg_A n))) with (link_step (LSend SideA d) (seg_A n)).
  destruct (send_settle SideA d (seg_A n) HwA) as (Hw1 & Hr1 & Hr0).
  pose proof (link_step_addrs (LSend SideA d) (seg_A n) SideA) as Ha1.
  set (W1 := link_step (LSend SideA d) (seg_A n)) in *. clearbody W1. cbn [host other seg_A host_a host_b] in Hr1, Hr0, Ha1.
  rewrite HgA in Hr1. cbn [app] in Hr1.
  unfold route_inet. cbn [gw_A gw_B tables with_seg_A host_A host_B medium_A medium_B].
  rewrite (route_0_to_1 (tables n) (host_b W1) (gw_B n) d Hr1 HgB) by (rewrite Hd; exact HlB).
  rewrite forwarded_one. destruct (ttl (header d) <=? 1)%Z eqn:Ht.
  - cbn [frames_of omap list_omap].
    rewrite settle_both_quiet by (cbn; rewrite ?app_nil_r; first [exact (proj2 Hw1) | exact (proj2 HwB)]).
    eexists; split; [reflexivity|]. cbn [host_A host_B]. rewrite !app_nil_r.
    split_conj; [apply inet_ok_mk | reflexivity | exact Hr0 | exact Ha1 | reflexivity].
    + exact (wire_ok_clear_b W1 Hw1).
    + exact HwB.
    + reflexivity.
    + exact HgB.
    + exact HlB.
    + rewrite (addrs_ip _ _ Ha1). exact HlA.
  - rewrite frames_of_other, frames_of_same by lia. rewrite (proj2 Hw1), Hd.
    assert (HsB : forall R, host_B R = host_B n ->
              gw_B R = (send_datagram (fwd d) (ip_address_ (host_B n)) (gw_B n)).1 ->
              medium_B R = medium_B n ++ map (λ f, (SideA, f))
                                        (send_datagram (fwd d) (ip_address_ (host_B n)) (gw_B n)).2 ->
              seg_B R = wire_send SideA (fwd d) (seg_B n)).
    { intros R H1 H2 H3. unfold seg_B. rewrite H1, H2, H3, wire_send_A. reflexivity. }
    rewrite settle_both_B, HsB by reflexivity.
    change (wire_settle SETTLE_FUEL (wire_send SideA (fwd d) (seg_B n)))
      with (link_step (LSend SideA (fwd d)) (seg_B n)).
    destruct (send_settle SideA (fwd d) (seg_B n) HwB) as (Hw2 & Hr2 & Hr2').
    pose proof (link_step_addrs (LSend SideA (fwd d)) (seg_B n) SideB) as Ha2.
    set (W2 := link_step (LSend SideA (fwd d)) (seg_B n)) in *. clearbody W2.
    cbn [host other seg_B host_a host_b] in Hr2, Hr2', Ha2. rewrite HgB in Hr2'.
    eexists; split; [reflexivity|]. cbn [with_seg_B host_A host_B].
    split_conj; [apply inet_ok_mk | exact Hr2 | exact Hr0 | exact Ha1 | exact Ha2].
    + pose proof (wire_ok_clear_b W1 Hw1) as H. rewrite (proj2 Hw1) in H. exact H.
    + rewrite wire_eta. exact Hw2.
    + reflexivity.
    + exact Hr2'.
    + rewrite (addrs_ip _ _ Ha2). exact HlB.
    + cbn [host_A]. rewrite (addrs_ip _ _ Ha1). exact HlA.
Qed.

(** Host B sends to host A, the mirror image. *)
Lemma step_B_to_A n d :
  inet_ok n -> dst (header d) = ip_address_ (host_A n) ->
  exists n', inet_step (ISend SideB d) n = Some n' /\ inet_ok n' /\
    datagrams_received_ (host_A n') = datagrams_received_ (host_A n) ++ forwarded [d] /\
    datagrams_received_ (host_B n') = datagrams_received_ (host_B n) /\
    addrs (host_A n') = addrs (host_A n) /\ addrs (host_B n') = addrs (host_B n).
Proof.
  intros (HwA & HwB & HgA & HgB & HlB & HlA) Hd.
  cbn [inet_step]. unfold propagate.
  rewrite settle_both_B by exact (proj2 HwA). rewrite seg_B_with_B.
  change (wire_settle SETTLE_FUEL (wire_send SideB d (seg_B n))) with (link_step (LSend SideB d) (seg_B n)).
  destruct (send_settle SideB d (seg_B n) HwB) as (Hw1 & Hr1 & Hr0).
  pose proof (link_step_addrs (LSend SideB d) (seg_B n) SideB) as Ha1.
  set (W1 := link_step (LSend SideB d) (seg_B n)) in *. clearbody W1.
  cbn [host other seg_B host_a host_b] in Hr1, Hr0, Ha1.
  rewrite HgB in Hr1. cbn [app] in Hr1.
  unfold route_inet. cbn [gw_A gw_B tables with_seg_B host_A host_B medium_A medium_B].
  rewrite (route_1_to_0 (tables n) (gw_A n) (host_a W1) d HgA Hr1) by (rewrite Hd; exact HlA).
  rewrite forwarded_one. destruct (ttl (header d) <=? 1)%Z eqn:Ht.
  - cbn [frames_of omap list_omap].
    rewrite settle_both_quiet by (cbn; rewrite ?app_nil_r; first [exact (proj2 Hw1) | exact (proj2 HwA)]).
    eexists; split; [reflexivity|]. cbn [host_A host_B]. rewrite !app_nil_r.
    split_conj; [apply inet_ok_mk | reflexivity | exact Hr0 | reflexivity | exact Ha1].
    + exact HwA.
    + exact (wire_ok_clear_a W1 Hw1).
    + exact HgA.
    + reflexivity.
    + rewrite (addrs_ip _ _ Ha1). exact HlB.
    + exact HlA.
  - rewrite (frames_of_other 1 0) by lia. rewrite frames_of_same. rewrite (proj2 Hw1), Hd.
    assert (HsA : forall R, host_A R = host_A n ->
              gw_A R = (send_datagram (fwd d) (ip_address_ (host_A n)) (gw_A n)).1 ->
              medium_A R = medium_A n ++ map (λ f, (SideB, f))
                                        (send_datagram (fwd d) (ip_address_ (host_A n)) (gw_A n)).2 ->
              seg_A R = wire_send SideB (fwd d) (seg_A n)).
    { intros R H1 H2 H3. unfold seg_A. rewrite H1, H2, H3, wire_send_B. reflexivity. }
    rewrite settle_both_A, HsA by reflexivity.
    change (wire_settle SETTLE_FUEL (wire_send SideB (fwd d) (seg_A n)))
      with (link_step (LSend SideB (fwd d)) (seg_A n)).
    destruct (send_settle SideB (fwd d) (seg_A n) HwA) as (Hw2 & Hr2 & Hr2').
    pose proof (link_step_addrs (LSend SideB (fwd d)) (seg_A n) SideA) as Ha2.
    set (W2 := link_step (LSend SideB (fwd d)) (seg_A n)) in *. clearbody W2.
    cbn [host other seg_A host_a host_b] in Hr2, Hr2', Ha2. rewrite HgA in Hr2'.
    eexists; split; [reflexivity|]. cbn [with_seg_A host_A host_B].
    split_conj; [apply inet_ok_mk | exact Hr2 | exact Hr0 | exact Ha2 | exact Ha1].
    + rewrite wire_eta. exact Hw2.
    + pose proof (wire_ok_clear_a W1 Hw1) as H. rewrite (proj2 Hw1) in H. exact H.
    + exact Hr2'.
    + reflexivity.
    + cbn [host_B]. rewrite (addrs_ip _ _ Ha1). exact HlB.
    + rewrite (addrs_ip _ _ Ha2). exact HlA.
Qed.

(** Time passing ages every ARP entry and request on the four
    interfaces and keeps the internetwork settled. *)
Lemma step_tick n ms :
  inet_ok n ->
  exists n', inet_step (ITick ms) n = Some n' /\ inet_ok n' /\
    datagrams_received_ (host_A n') = datagrams_received_ (host_A n) /\
    datagrams_received_ (host_B n') = datagrams_received_ (host_B n) /\
    addrs (host_A n') = addrs (host_A n) /\ addrs (host_B n') = addrs (host_B n).
Proof.
  intros (HwA & HwB & HgA & HgB & HlB & HlA). eexists; split; [reflexivity|].
  split_conj; [apply inet_ok_mk | reflexivity..].
  - exact (proj1 (tick_settled ms (seg_A n) HwA)).
  - exact (proj1 (tick_settled ms (seg_B n) HwB)).
  - exact HgA.
  - exact HgB.
  - exact HlB.
  - exact HlA.
Qed.

(** The sends of a run go to the other host. *)
Definition addressed (n : inet) (e : inet_event) : Prop :=
  match e with
  | ISend SideA d => dst (header d) = ip_address_ (host_B n)
  | ISend SideB d => dst (header d) = ip_address_ (host_A n)
  | ITick _ => True
  end.

Lemma addressed_addrs n n' es :
  addrs (host_A n') = addrs (host_A n) -> addrs (host_B n') = addrs (host_B n) ->
  Forall (addressed n) es -> Forall (addressed n') es.
Proof.
  intros HA HB Hf. apply (Forall_impl _ _ _ Hf). intros [[|] d|ms]; cbn; [rewrite (addrs_ip _ _ HB) | rewrite (addrs_ip _ _ HA) |]; auto.
Qed.

Lemma forwarded_nil : forwarded [] = [].
Proof. reflexivity. Qed.

Lemma forwarded_cons d ds : forwarded (d :: ds) = forwarded [d] ++ forwarded ds.
Proof. unfold forwarded. now rewrite <- map_app, <- filter_app. Qed.

(** (C17) Two hosts on two Ethernet segments joined by the router: with a
    table routing each host's address directly out of the router's
    interface on its segment, from a settled state, over any sequence of
    sends between the hosts (each to the other's address through its
    gateway) and of time passing on all four interfaces, the run never
    reaches an undefined interface, the internetwork is settled again,
    and each host has received exactly the datagrams the other sent it
    with a TTL above 1, in the order they were sent, with the TTL
    decremented and the checksum recomputed by the router. *)
Theorem internet_delivers es n :
  inet_ok n -> Forall (addressed n) es ->
  exists n', inet_run es n = Some n' /\ inet_ok n' /\
    datagrams_received_ (host_B n') = datagrams_received_ (host_B n) ++ forwarded (isent_by SideA es) /\
    datagrams_received_ (host_A n') = datagrams_received_ (host_A n) ++ forwarded (isent_by SideB es).
Proof.
  revert n. induction es as [|e es IH]; intros n Hn Hes.
  - exists n. cbn. now rewrite !app_nil_r.
  - inversion Hes as [|e' es' He Hes']; subst e' es'.
    assert (Hstep : exists n1, inet_step e n = Some n1 /\ inet_ok n1 /\
              datagrams_received_ (host_B n1) =
                datagrams_received_ (host_B n) ++ forwarded (isent_by SideA [e]) /\
              datagrams_received_ (host_A n1) =
                datagrams_received_ (host_A n) ++ forwarded (isent_by SideB [e]) /\
              addrs (host_A n1) = addrs (host_A n) /\ addrs (host_B n1) = addrs (host_B n)).
    { destruct e as [[|] d|ms]; cbn [isent_by];
        repeat first [rewrite decide_True by congruence | rewrite decide_False by congruence].
      - destruct (step_A_to_B n d Hn He) as (n1 & ? & ? & ? & ? & ? & ?).
        exists n1. rewrite forwarded_nil, app_nil_r. split_conj; assumption.
      - destruct (step_B_to_A n d Hn He) as (n1 & ? & ? & ? & ? & ? & ?).
        exists n1. rewrite forwarded_nil, app_nil_r. split_conj; assumption.
      - destruct (step_tick n ms Hn) as (n1 & ? & ? & ? & ? & ? & ?).
        exists n1. rewrite forwarded_nil, !app_nil_r. split_conj; assumption. }
    destruct Hstep as (n1 & Hs & Hn1 & HB1 & HA1 & Ha & Hb).
    destruct (IH n1 Hn1 (addressed_addrs n n1 es Ha Hb Hes')) as (n2 & Hr & Hn2 & HB2 & HA2).
    exists n2. cbn [inet_run]. rewrite Hs. split_conj; [exact Hr | exact Hn2 | |].
    + rewrite HB2, HB1, <- app_assoc. f_equal.
      destruct e as [[|] d|ms]; cbn [isent_by];
        repeat first [rewrite decide_True by congruence | rewrite decide_False by congruence];
        rewrite ?(forwarded_cons d (isent_by _ es)); reflexivity.
    + rewrite HA2, HA1, <- app_assoc. f_equal.
      destruct e as [[|] d|ms]; cbn [isent_by];
        repeat first [rewrite decide_True by congruence | rewrite decide_False by congruence];
        rewrite ?(forwarded_cons d (isent_by _ es)); reflexivity.
Qed.

End Internet.
End Internet.

(** ** Two subnets and a router *)
Module InternetScenario.
Import NetworkInterface EthernetLink Internet RouterScenario.

(** The checksum the codec would compute; any function does here. *)
Definition cksum_of (h : IPv4Header) : Z := (ttl h + src h + dst h) mod 65536.

(** Host A 10.0.0.2 (Ethernet address 17) behind router interface 0,
    10.0.0.1 (18); host B 192.168.0.2 (20) behind router interface 1,
    192.168.0.1 (19).  Routes: 10.0.0.0/8 and 192.168.0.0/16, direct. *)
Definition tables0 : list (gmap Z meg) :=
  default [] (routable <$> add_routes [mkRoute (ip 10 0 0 0) 8 None 0; mkRoute (ip 192 168 0 0) 16 None 1]
                                      (mkRouter [] (replicate 32 ∅))).

Definition inet0 : inet :=
  mkInet (create 17 (ip 10 0 0 2)) (create 20 (ip 192 168 0 2)) (create 18 (ip 10 0 0 1))
         (create 19 (ip 192 168 0 1)) tables0 [] [].

Definition ping (ttl0 : Z) (p : String.string) : InternetDatagram :=
  mkDatagram (mkIPv4Header ttl0 (ip 10 0 0 2) (ip 192 168 0 2) 0) (bstr p).
Arguments ping ttl0%_Z p%_string_scope.
Definition pong : InternetDatagram :=
  mkDatagram (mkIPv4Header 64 (ip 192 168 0 2) (ip 10 0 0 2) 0) (bstr "pong").

(** A pings, B answers, 40 s pass (every ARP entry expires), A sends a
    datagram with TTL 1 (dropped by the router) and pings again. *)
Definition inet_schedule : list inet_event :=
  [ISend SideA (ping 64 "ping"); ISend SideB pong; ITick 40000;
   ISend SideA (ping 1 "late"); ISend SideA (ping 64 "again")].

Example inet_schedule_delivers :
  option_map (λ n, (datagrams_received_ (host_B n), datagrams_received_ (host_A n), medium_A n, medium_B n))
             (inet_run cksum_of inet_schedule inet0) =
  Some ([fwd cksum_of (ping 64 "ping"); fwd cksum_of (ping 64 "again")], [fwd cksum_of pong], [], []).
Proof. vm_compute. reflexivity. Qed.

Lemma inet0_ok : inet_ok inet0.
Proof.
  unfold inet_ok. cbn [seg_A seg_B gw_A gw_B host_A host_B tables inet0 medium_A medium_B].
  split_conj; [apply create_wire_ok | apply create_wire_ok | reflexivity | reflexivity | vm_compute; reflexivity ..].
Qed.

Lemma internet_delivers_witness :
  (inet_ok inet0 /\ Forall (addressed inet0) inet_schedule) /\
  exists n', inet_run cksum_of inet_schedule inet0 = Some n' /\ inet_ok n' /\
    datagrams_received_ (host_B n') = datagrams_received_ (host_B inet0) ++ forwarded cksum_of (isent_by SideA inet_schedule) /\
    datagrams_received_ (host_A n') = datagrams_received_ (host_A inet0) ++ forwarded cksum_of (isent_by SideB inet_schedule).
Proof.
  assert (Ha : Forall (addressed inet0) inet_schedule) by (repeat constructor).
  split; [split; [exact inet0_ok | exact Ha] | exact (internet_delivers cksum_of inet_schedule inet0 inet0_ok Ha)].
Defined.

End InternetScenario.
