(* ===== verification/LossyLink.v ===== *)
(** * LossyLink: a TCP sender and a TCP receiver over an unreliable link

    Connection.v joins [TCPSender] (tcp_sender.cc) and [TCPReceiver]
    (tcp_receiver.cc) by a link that delivers every segment once and in
    order.  Here the link is a message soup, as network semantics usually
    have it: every segment [push] or [tick] hands to [transmit] is added
    to [segments], every acknowledgement [TCPReceiver::send] produces to
    [acks], and a delivery picks any message ever sent, so that segments
    and acknowledgements may be lost (never picked), duplicated (picked
    again) and reordered (picked in any order).  Retransmission by
    [tick] only adds copies of segments already sent.

    The state also carries three logs that are not program state: the
    bytes the sender has read from its input ([sent]), the bytes its
    input accepted ([written]) and the bytes the receiving application
    has read ([read_log]).  The invariant [net_inv] relates every segment
    in the soup to [sent] ([seg_ok]: its sequence number wraps the
    absolute sequence number of its first byte, its payload is the slice
    of [sent] there) and the receiver's reassembler to [sent]
    ([stream_ok]: what it pushed is a prefix of [sent], what it stores
    agrees with [sent], its end is the end of [sent]).  The theorem
    [lossy_link_safe]: whatever the link does, the receiving
    application only ever sees a prefix of what was written, and a
    closed stream at the receiver holds all of it.

    A second invariant [acks_inv] bounds every acknowledgement in the
    soup by [ack_abs] of the current receiver (the absolute ackno
    [TCPReceiver::send] would report now, which never decreases), and
    the sender's [ack_sequence_number_] by the same.  [net_bounds] keeps
    every sequence number below [2^31] (the [MAX_STREAM] guard on
    [Write]), so [Wrap32.unwrap_near] recovers the absolute ackno the
    receiver meant.  The theorem [lossy_acks_received]: what the sender
    counts as acknowledged, and drops from its retransmission queue, has
    reached the receiver's stream; and, by [syn_inv] (nothing is on the
    wire or outstanding and no ISN is known before SYN leaves), the
    receiver acknowledges only sequence numbers the sender has used. *)

From Stdlib Require Import ZArith List Lia Bool Arith.
From S2P Require Import Prelude ByteStream Wrap32 Reassembler TCPReceiver TCPSender Connection.
Import ListNotations.

Module LossyLink.
Import TCPSender.

(** ** Segments the sender can have produced *)

(** The stream index of the first payload byte of a segment whose
    absolute sequence number is [a]: [absolute_seq + SYN - 1], as
    [TCPReceiver::receive] computes it. *)
Definition seg_index (a : nat) (m : TCPSenderMessage) : nat :=
  a + (if TCPReceiver.SYN m then 1 else 0) - 1.

(** A segment that is part of the stream [sent] with ISN [isn]: it is
    numbered with the wrapped absolute sequence number [a] of its first
    sequence number, carries SYN exactly at [a = 0], no RST, a payload
    that is the slice of [sent] at its stream index, and FIN only at the
    end of [sent]. *)
Definition seg_ok (isn : Z) (sent : bytes) (m : TCPSenderMessage) : Prop :=
  exists a : nat,
    TCPReceiver.seqno m = Wrap32.wrap (Z.of_nat a) isn /\
    TCPReceiver.SYN m = (a =? 0) /\
    TCPReceiver.RST m = false /\
    seg_index a m + length (TCPReceiver.payload m) <= length sent /\
    TCPReceiver.payload m =
      firstn (length (TCPReceiver.payload m)) (skipn (seg_index a m) sent) /\
    (TCPReceiver.FIN m = true -> seg_index a m + length (TCPReceiver.payload m) = length sent).

(** A segment without FIN stays part of a stream that grows. *)
Lemma seg_ok_app isn sent x m :
  seg_ok isn sent m -> TCPReceiver.FIN m = false -> seg_ok isn (sent ++ x) m.
Proof.
  intros (a & Hs & Hsyn & Hr & Hlen & Hp & _) Hf. exists a. split_conj; auto.
  - rewrite length_app. lia.
  - rewrite skipn_app_lt by lia. rewrite firstn_app_le by (rewrite length_skipn; lia). exact Hp.
  - congruence.
Qed.

(** ** The receiver's stream against [sent] *)

Abbreviation reassembler_t := (@Reassembler ByteStream.t).

(** What the receiver's reassembler holds is part of the stream [sent]
    (whose end is known when [fin]): the bytes read and buffered are the
    first [bytes_pushed] bytes of [sent], every stored byte is the byte
    of [sent] at its index, a recorded end is the end of [sent], and a
    closed output was closed at the recorded end. *)
Record stream_ok (fin : bool) (sent log : bytes) (rr : reassembler_t) : Prop := {
  st_rinv : rinv rr;
  st_prefix : log ++ writer_buffer (output_ rr) = firstn (writer_bytes_pushed (output_ rr)) sent;
  st_pushed : writer_bytes_pushed (output_ rr) <= length sent;
  st_stored : forall k x, lookup (databuf rr) k = Some x -> nth_error sent k = Some x;
  st_end : forall e, end_pos rr = Some e -> fin = true /\ e = length sent;
  st_closed : writer_is_closed (output_ rr) = true -> end_pos rr = Some (writer_bytes_pushed (output_ rr))
}.

(** The merged stream of an [insert] of a slice of [sent] agrees with
    [sent]. *)
Lemma merged_agrees rr i d sent :
  (forall k x, lookup (databuf rr) k = Some x -> nth_error sent k = Some x) ->
  d = firstn (length d) (skipn i sent) ->
  forall k x, merged rr i d k = Some x -> nth_error sent k = Some x.
Proof.
  intros Hst Hd k x. unfold merged. destruct (_ && _ && _) eqn:E; [|apply Hst].
  bool_prop. rewrite Hd, nth_error_firstn, nth_error_skipn.
  destruct (Nat.ltb_spec (k - i) (length d)); [|lia]. now replace (i + (k - i)) with k by lia.
Qed.

(** [insert] of a slice of [sent] keeps [stream_ok]: it delivers only
    bytes of [sent], at their places, stores only bytes of [sent], and
    records only the end of [sent]. *)
Lemma insert_stream_ok fin sent log i d last rr :
  stream_ok fin sent log rr ->
  i + length d <= length sent -> d = firstn (length d) (skipn i sent) ->
  (last = true -> fin = true /\ i + length d = length sent) ->
  stream_ok fin sent log (insert i d last rr).
Proof.
  intros [I Hpre Hpu Hst He Hcl] Hi Hd Hlast.
  pose proof (insert_rinv i d last rr I) as I'.
  destruct (writer_is_closed (output_ rr)) eqn:Ec.
  - destruct (insert_closed i d last rr Ec (Hcl eq_refl)) as (Hc' & Hp' & Hb' & Hdb' & He').
    split; auto; rewrite ?Hp', ?Hb', ?Hdb', ?He'; auto.
  - destruct (insert_spec i d last rr I Ec) as (D & Hbuf & Hp' & Hnth & Hlk & _).
    set (P := writer_bytes_pushed (output_ rr)) in *.
    pose proof (merged_agrees rr i d sent Hst Hd) as Hm.
    assert (HD : forall j, j < length D -> nth_error sent (P + j) = nth_error D j).
    { intros j Hj. pose proof (Hnth (P + j) ltac:(lia)) as Hj'.
      replace (P + j - P) with j in Hj' by lia.
      destruct (nth_error D j) as [x|] eqn:Ex; [|apply nth_error_None in Ex; lia].
      symmetry in Hj'. exact (Hm _ _ Hj'). }
    assert (Hlen : length (log ++ writer_buffer (output_ rr)) = P)
      by (rewrite Hpre, length_firstn; lia).
    assert (Hpre' : log ++ writer_buffer (output_ (insert i d last rr)) =
                    firstn (writer_bytes_pushed (output_ (insert i d last rr))) sent)
      by (rewrite Hbuf, Hp', app_assoc, Hpre; apply firstn_extend, HD).
    split; auto.
    + pose proof (f_equal (@length _) Hpre') as HL.
      rewrite length_firstn, length_app, Hbuf, length_app, Hp' in HL. rewrite length_app in Hlen. lia.
    + intros k x Hk. destruct (Nat.le_gt_cases (P + length D) k) as [Hge|Hlt].
      * rewrite Hlk in Hk by exact Hge. exact (Hm _ _ Hk).
      * rewrite (lookup_below _ _ k (rinv_chain _ I')) in Hk; [discriminate|]. lia.
    + intros e He'. destruct (insert_end_pos i d last rr e He') as [Ho|[Hl ->]]; auto.
    + apply insert_closes_at_end; auto.
Qed.

(** ** The receiver against [sent] *)

(** The receiver is healthy, knows no ISN or the sender's one, and its
    reassembler holds part of [sent]. *)
Record rcv_ok (isn : Z) (fin : bool) (sent log : bytes) (r : TCPReceiver.t) : Prop := {
  ro_stream : stream_ok fin sent log (TCPReceiver.reassembler_ r);
  ro_err : ByteStream.has_error (TCPReceiver.writer r) = false;
  ro_base : TCPReceiver.base_seqno_ r = None \/ TCPReceiver.base_seqno_ r = Some isn
}.

(** [insert] never sets the error flag of the stream. *)
Lemma insert_has_error i d last (rr : reassembler_t) :
  ByteStream.has_error (output_ rr) = false ->
  ByteStream.has_error (output_ (insert i d last rr)) = false.
Proof.
  apply (insert_preserved (fun w => ByteStream.has_error w = false)).
  - intros d' w H. change (ByteStream.has_error (ByteStream.push d' w) = false).
    rewrite Connection.push_has_error. exact H.
  - intros w H. exact H.
Qed.

(** The receiver recovers the stream index of a segment of the stream:
    the checkpoint [bytes_pushed + 1] is within [2^31] of the segment's
    absolute sequence number while the stream is shorter than [2^31 - 2]
    bytes, so [unwrap] is exact, and the 64-bit index does not wrap. *)
Lemma receive_index isn (sent : bytes) m a P :
  TCPReceiver.seqno m = Wrap32.wrap (Z.of_nat a) isn -> TCPReceiver.SYN m = (a =? 0) ->
  seg_index a m + length (TCPReceiver.payload m) <= length sent -> P <= length sent ->
  (Z.of_nat (length sent) + 2 < 2 ^ 31)%Z ->
  Z.to_nat (u64 (Wrap32.unwrap (TCPReceiver.seqno m) isn (Z.of_nat P + 1) +
                 (if TCPReceiver.SYN m then 1 else 0) - 1)) = seg_index a m.
Proof.
  intros Hs Hsyn Hi HP Hb. unfold seg_index in *. rewrite Hsyn in *.
  destruct (Nat.eqb_spec a 0) as [->|Ha].
  - rewrite Hs, Wrap32.unwrap_near by lia. reflexivity.
  - rewrite Hs, Wrap32.unwrap_near by lia. rewrite u64_small by lia. lia.
Qed.

(** Receiving a segment of the stream keeps [rcv_ok]: whether it brings
    the SYN, repeats one, comes early, late or twice, the receiver
    inserts it at its place in the stream or ignores it. *)
Lemma receive_ok isn fin sent log m r :
  (0 <= isn < 2 ^ 32)%Z -> (Z.of_nat (length sent) + 2 < 2 ^ 31)%Z ->
  rcv_ok isn fin sent log r -> seg_ok isn sent m -> (TCPReceiver.FIN m = true -> fin = true) ->
  rcv_ok isn fin sent log (TCPReceiver.receive m r).
Proof.
  intros Hisn Hb [St He Hbase] Hm Hfin. pose proof Hm as (a & Hs & Hsyn & Hr & Hlen & Hp & Hf).
  assert (Hins : rcv_ok isn fin sent log
    (TCPReceiver.mk (insert (Z.to_nat (u64 (Wrap32.unwrap (TCPReceiver.seqno m) isn
       (Z.of_nat (ByteStream.bytes_pushed (TCPReceiver.writer r)) + 1) +
       (if TCPReceiver.SYN m then 1 else 0) - 1)))
       (TCPReceiver.payload m) (TCPReceiver.FIN m) (TCPReceiver.reassembler_ r)) (Some isn))).
  { rewrite (receive_index isn sent m a) by (auto; exact (st_pushed _ _ _ _ St)).
    split; [| apply insert_has_error, He | right; reflexivity].
    apply insert_stream_ok; auto. }
  unfold TCPReceiver.receive. rewrite He, Hr.
  destruct Hbase as [Hn|Hsome]; rewrite ?Hn, ?Hsome; [|exact Hins].
  destruct (TCPReceiver.SYN m) eqn:Hsy; [|split; auto].
  destruct (Nat.eqb_spec a 0) as [->|]; [|discriminate].
  replace (TCPReceiver.seqno m) with isn in *; [exact Hins|].
  rewrite Hs. unfold Wrap32.wrap. cbn. rewrite Z.add_0_r. symmetry. apply u32_small, Hisn.
Qed.

(** The application reading [n] buffered bytes moves them to its log. *)
Lemma read_ok isn fin sent log r n :
  rcv_ok isn fin sent log r -> n <= ByteStream.bytes_buffered (TCPReceiver.writer r) ->
  rcv_ok isn fin sent (log ++ firstn n (ByteStream.contents (TCPReceiver.writer r)))
         (TCPReceiver.read n r).
Proof.
  intros [[I Hpre Hpu Hst He Hcl] Her Hbase] Hn. pose proof (rinv_ok _ I) as Ho.
  pose proof (ByteStream.pop_fields _ n Ho Hn) as (Hp & _ & Hc & Herr).
  pose proof (f_equal StreamSpec.buf (ByteStream.pop_refines _ n Ho Hn)) as Hb.
  pose proof (TCPReceiver.read_inv n r I Hn) as I'.
  split; [split|..]; cbn -[ByteStream.pop] in *; unfold TCPReceiver.writer in *; cbn -[ByteStream.pop] in *;
    rewrite ?Hp, ?Hc, ?Herr; auto.
  change (writer_buffer (ByteStream.pop n (output_ (TCPReceiver.reassembler_ r)))) with
    (ByteStream.contents (ByteStream.pop n (output_ (TCPReceiver.reassembler_ r)))).
  rewrite Hb. cbn. rewrite <- app_assoc, firstn_skipn. exact Hpre.
Qed.

(** A receiver of a stream whose end is not yet known stays [rcv_ok]
    when the stream grows, and when its end becomes known. *)
Lemma rcv_ok_app isn fin sent x log r :
  rcv_ok isn false sent log r -> rcv_ok isn fin (sent ++ x) log r.
Proof.
  intros [[I Hpre Hpu Hst He Hcl] Her Hbase]. split; [split|..]; auto.
  - rewrite firstn_app_le by exact Hpu. exact Hpre.
  - rewrite length_app. lia.
  - intros k c Hk. apply Hst in Hk. rewrite nth_error_app1; [exact Hk|].
    apply nth_error_Some. congruence.
  - intros e Hend. destruct (He e Hend) as [Hf _]. discriminate.
Qed.

(** ** The sender against [sent] *)

(** A segment the sender of ISN [isn] may have sent: a part of [sent],
    with FIN only once FIN is out ([fin]). *)
Definition msg_ok (isn : Z) (fin : bool) (sent : bytes) (m : TCPSenderMessage) : Prop :=
  seg_ok isn sent m /\ (TCPReceiver.FIN m = true -> fin = true).

(** The sender has read [sent] from its input, which accepted [written]
    in all; FIN is out only once the input is closed and drained; every
    segment of the soup and of the retransmission queue is one of the
    stream. *)
Record snd_ok (s : TCPSender.t) (sent written : bytes) (soup : list TCPSenderMessage) : Prop := {
  sd_sinv : sinv s;
  sd_isn : (0 <= isn_ s < 2 ^ 32)%Z;
  sd_err : ByteStream.has_error (input_ s) = false;
  sd_written : written = sent ++ ByteStream.contents (input_ s);
  sd_popped : length sent = ByteStream.bytes_popped (input_ s);
  sd_fresh : SYN_sent_flag_ s = false -> FIN_sent_flag_ s = false /\ sent = [];
  sd_fin : FIN_sent_flag_ s = true ->
           ByteStream.is_closed (input_ s) = true /\ ByteStream.contents (input_ s) = [];
  sd_soup : Forall (msg_ok (isn_ s) (FIN_sent_flag_ s) sent) soup;
  sd_pending : Forall (msg_ok (isn_ s) (FIN_sent_flag_ s) sent) (pending_messages_ s)
}.

Lemma Forall_incl {A} (P : A -> Prop) l l' : Forall P l -> incl l' l -> Forall P l'.
Proof. rewrite !Forall_forall. intros H Hi x Hx. exact (H x (Hi x Hx)). Qed.

(** A call that leaves the input, the ISN and the flags alone, and only
    drops segments from the queue or copies them to the soup, keeps
    [snd_ok]. *)
Lemma snd_ok_frame s s' sent written soup soup' :
  snd_ok s sent written soup -> sinv s' -> input_ s' = input_ s -> isn_ s' = isn_ s ->
  SYN_sent_flag_ s' = SYN_sent_flag_ s -> FIN_sent_flag_ s' = FIN_sent_flag_ s ->
  incl (pending_messages_ s') (pending_messages_ s) -> incl soup' (soup ++ pending_messages_ s) ->
  snd_ok s' sent written soup'.
Proof.
  intros [I Hisn He Hw Hp Hfr Hf Hsoup Hq] I' Hi Hn Hs Hfl Hinc Hinc'.
  split; rewrite ?Hi, ?Hn, ?Hs, ?Hfl; auto.
  - apply (Forall_incl _ (soup ++ pending_messages_ s)); [apply Forall_app; auto | exact Hinc'].
  - apply (Forall_incl _ _ _ Hq Hinc).
Qed.

(** The acknowledgement loop keeps a suffix of the queue. *)
Lemma ack_loop_incl received a tot q acked :
  incl (snd (fst (ack_loop received a tot q acked))) q.
Proof.
  revert a tot acked. induction q as [|m q IH]; intros a tot acked; cbn [ack_loop]; [apply incl_refl|].
  destruct (_ <? _)%Z; [apply incl_refl|]. apply incl_tl, IH.
Qed.

(** [receive] of a message without RST, by a healthy sender, changes
    neither the input nor the flags and only drops acknowledged
    segments. *)
Lemma receive_frame msg s :
  TCPReceiver.RST_flag msg = false -> ByteStream.has_error (input_ s) = false ->
  let s' := receive msg s in
  input_ s' = input_ s /\ isn_ s' = isn_ s /\ SYN_sent_flag_ s' = SYN_sent_flag_ s /\
  FIN_sent_flag_ s' = FIN_sent_flag_ s /\ incl (pending_messages_ s') (pending_messages_ s).
Proof.
  intros Hr He. cbv zeta. unfold receive. rewrite Hr, He. cbn [orb].
  destruct (TCPReceiver.ackno msg) as [a|]; [|cbn; split_conj; auto using incl_refl].
  destruct (_ <? _)%Z; [cbn; split_conj; auto using incl_refl|].
  match goal with |- context [ack_loop ?x ?y ?z ?q ?b] =>
    pose proof (ack_loop_incl x y z q b) as Hi; destruct (ack_loop x y z q b) as [[[a' t'] q'] k] end.
  destruct k; cbn in *; split_conj; auto.
Qed.

(** [tick] changes neither the input, the flags nor the queue, and
    retransmits a segment of the queue. *)
Lemma tick_frame ms s :
  let '(s', out) := tick ms s in
  input_ s' = input_ s /\ isn_ s' = isn_ s /\ SYN_sent_flag_ s' = SYN_sent_flag_ s /\
  FIN_sent_flag_ s' = FIN_sent_flag_ s /\ pending_messages_ s' = pending_messages_ s /\
  incl out (pending_messages_ s).
Proof.
  unfold tick. destruct (RetryTimer.has_timer_expired _); [|cbn; split_conj; auto using incl_nil_l].
  destruct (pending_messages_ s) as [|front rest] eqn:Hq; [cbn; split_conj; auto using incl_nil_l|].
  destruct (if negb _ then _ else _) as [count tm]. cbn. split_conj; auto.
  intros x [<-|[]]. now left.
Qed.

(** A turn of [push] that sends FIN leaves the input finished. *)
Lemma push_body_fin s s1 m :
  push_body s = (s1, Some m) -> TCPReceiver.FIN m = true -> ByteStream.is_finished (input_ s1) = true.
Proof.
  unfold push_body. destruct (FIN_sent_flag_ s); [discriminate|].
  destruct (negb (SYN_sent_flag_ s)); destruct (fill _ _ _ _) as [pl inp];
    destruct (_ && _ && ByteStream.is_finished inp) eqn:E; destruct (_ =? 0); intros H;
    try discriminate; injection H as <- <-; cbn; intros Hf; try discriminate;
    apply andb_true_iff in E as [_ E]; exact E.
Qed.

(** Once FIN is out, [push] sends nothing and changes nothing. *)
Lemma push_loop_after_fin f s : FIN_sent_flag_ s = true -> push_loop f s = (s, []).
Proof.
  intros H. destruct f; cbn [push_loop]; [reflexivity|].
  destruct (_ <? _); [|reflexivity]. unfold push_body. rewrite H. reflexivity.
Qed.

(** A transmitting turn of [push] reads the segment's payload from the
    input onto [sent], and the segment is the slice of the longer stream
    at its sequence number; the segments already out had no FIN and stay
    part of the stream. *)
Lemma push_body_ok s s1 m sent written soup :
  snd_ok s sent written soup -> push_body s = (s1, Some m) ->
  snd_ok s1 (sent ++ TCPReceiver.payload m) written (soup ++ [m]).
Proof.
  intros [I Hisn He Hw Hp Hfr Hf Hsoup Hq] Hb.
  destruct (push_body_some s s1 m (sinv_input _ I) Hb)
    as (HF & Hseq & Hsyn & I1 & _ & Hc & _ & _ & _ & Heq).
  destruct (push_body_error s s1 m Hb) as [Hrst Her].
  pose proof (push_body_sinv s I) as I1'. rewrite Hb in I1'. cbn [fst] in I1'.
  pose proof (f_equal isn_ Heq) as Ei. pose proof (f_equal SYN_sent_flag_ Heq) as Es.
  pose proof (f_equal FIN_sent_flag_ Heq) as Ef. pose proof (f_equal pending_messages_ Heq) as Eq.
  pose proof (f_equal next_seq_number_ Heq) as En.
  cbn [isn_ SYN_sent_flag_ FIN_sent_flag_ pending_messages_ next_seq_number_] in Ei, Es, Ef, Eq, En.
  pose proof (sinv_read _ I) as Hr. pose proof (sinv_read _ I1') as Hr1. rewrite HF in Hr.
  rewrite En, Es, Ef in Hr1.
  assert (Hnew : msg_ok (isn_ s) (TCPReceiver.FIN m) (sent ++ TCPReceiver.payload m) m).
  { split; [|auto]. exists (next_seq_number_ s).
    assert (Hidx : seg_index (next_seq_number_ s) m = length sent).
    { unfold seg_index. rewrite Hsyn. destruct (SYN_sent_flag_ s) eqn:HS; cbn in Hr |- *; [lia|].
      destruct (Hfr eq_refl) as [_ ->]. cbn in Hp, Hr |- *. lia. }
    rewrite Hidx, length_app, skipn_app, skipn_all, Nat.sub_diag, skipn_O, firstn_all.
    split_conj; auto; [|congruence].
    rewrite Hsyn. destruct (SYN_sent_flag_ s) eqn:HS; cbn.
    - symmetry. apply Nat.eqb_neq. lia.
    - destruct (Hfr eq_refl) as [_ ->]. cbn in Hr. rewrite <- Hp in Hr. cbn in Hr. now rewrite Hr. }
  assert (Hold : forall m', msg_ok (isn_ s) false sent m' -> msg_ok (isn_ s) (TCPReceiver.FIN m) (sent ++ TCPReceiver.payload m) m').
  { intros m' [Hm' Hf']. destruct (TCPReceiver.FIN m') eqn:E; [specialize (Hf' eq_refl); discriminate|].
    split; [apply seg_ok_app; auto|congruence]. }
  rewrite HF in Hsoup, Hq.
  split; rewrite ?Ei, ?Es, ?Ef, ?Eq; auto.
  - congruence.
  - rewrite Hw, Hc. apply app_assoc.
  - unfold sequence_length in Hr1. rewrite length_app, Hp. rewrite Hsyn in Hr1.
    destruct (SYN_sent_flag_ s), (TCPReceiver.FIN m); cbn in *; lia.
  - discriminate.
  - intros Hfin. pose proof (push_body_fin s s1 m Hb Hfin) as Hfi.
    unfold ByteStream.is_finished in Hfi. apply andb_true_iff in Hfi as [Hcl Hz].
    split; [exact Hcl|]. apply length_zero_iff_nil. rewrite ByteStream.contents_length by exact I1.
    now apply Nat.eqb_eq.
  - apply Forall_app. split; [exact (Forall_impl _ Hold Hsoup)|]. constructor; auto.
  - apply Forall_app. split; [exact (Forall_impl _ Hold Hq)|]. constructor; auto.
Qed.

(** [push] as a whole: the payloads it transmits go onto [sent] in
    order and into the soup, and [snd_ok] holds of the new state. *)
Lemma push_loop_ok f s sent written soup :
  snd_ok s sent written soup ->
  snd_ok (fst (push_loop f s)) (sent ++ concat (map TCPReceiver.payload (snd (push_loop f s))))
         written (soup ++ snd (push_loop f s)) /\
  isn_ (fst (push_loop f s)) = isn_ s.
Proof.
  revert s sent soup. induction f as [|f IH]; intros s sent soup So; cbn [push_loop];
    [cbn; rewrite !app_nil_r; auto|].
  destruct (_ <? _); [|cbn; rewrite !app_nil_r; auto].
  destruct (push_body s) as [s1 [m|]] eqn:Hb.
  - pose proof (push_body_ok s s1 m sent written soup So Hb) as So1.
    destruct (push_body_some s s1 m (sinv_input _ (sd_sinv _ _ _ _ So)) Hb) as (_ & _ & _ & _ & _ & _ & _ & _ & _ & Heq).
    destruct (IH s1 _ _ So1) as [So2 Hi2]. destruct (push_loop f s1) as [s2 out]. cbn [fst snd map concat] in *.
    rewrite <- !app_assoc in So2. split; [exact So2|]. rewrite Hi2, Heq. reflexivity.
  - rewrite (push_body_none s s1 (sinv_input _ (sd_sinv _ _ _ _ So)) Hb). cbn. rewrite !app_nil_r. auto.
Qed.

(** The application writing to the sender's input: the input accepts
    what fits, after the bytes already there; a closed input accepts
    nothing. *)
Lemma write_ok s sent written soup data :
  snd_ok s sent written soup ->
  snd_ok (fst (TCPSender.step (WriterPush data) s)) sent
         (written ++ accepted data (input_ s)) soup.
Proof.
  intros [I Hisn He Hw Hp Hfr Hf Hsoup Hq]. cbn [TCPSender.step fst].
  pose proof (ByteStream.push_fields data (input_ s) (sinv_input _ I)) as (_ & _ & Hc).
  assert (Hpop : ByteStream.bytes_popped (ByteStream.push data (input_ s)) =
                 ByteStream.bytes_popped (input_ s))
    by (unfold ByteStream.push; destruct (_ || _ || _); reflexivity).
  split; cbn [input_ isn_ SYN_sent_flag_ FIN_sent_flag_ pending_messages_ set_input]; auto.
  - apply writer_sinv; [exact I | apply ByteStream.push_inv, (sinv_input _ I) | exact Hpop].
  - rewrite Connection.push_has_error. exact He.
  - rewrite Hc, Hw. symmetry. apply app_assoc.
  - congruence.
  - intros HF. destruct (Hf HF) as [Hcl Hnil].
    assert (Ha : accepted data (input_ s) = []) by (unfold accepted; cbn; rewrite Hcl; reflexivity).
    rewrite Hc, Ha, Hnil. split; [|reflexivity].
    exact (eq_trans (push_is_closed data (input_ s)) Hcl).
Qed.

(** The application closing the sender's input. *)
Lemma close_ok s sent written soup :
  snd_ok s sent written soup -> snd_ok (fst (TCPSender.step WriterClose s)) sent written soup.
Proof.
  intros [I Hisn He Hw Hp Hfr Hf Hsoup Hq]. cbn [TCPSender.step fst].
  split; cbn [input_ isn_ SYN_sent_flag_ FIN_sent_flag_ pending_messages_ set_input]; auto.
  - apply writer_sinv; [exact I | apply ByteStream.close_inv, (sinv_input _ I) | reflexivity].
  - intros HF. split; [reflexivity | exact (proj2 (Hf HF))].
Qed.

(** ** The connection over the unreliable link *)

(** The calls of the connection.  [Write], [Close] and [Read] are the
    two applications; [Push] and [Tick] the sender's [push] and [tick];
    [Deliver i] hands the [i]-th segment ever sent to
    [TCPReceiver::receive] and sends the receiver's answer back;
    [Ack j] hands the [j]-th answer ever sent to [TCPSender::receive]. *)
Inductive event :=
| Write (data : bytes)
| Close
| Push
| Tick (ms : Z)
| Deliver (i : nat)
| Ack (j : nat)
| Read (n : nat).

(** The two endpoints, the soup of segments and of acknowledgements, and
    the three logs. *)
Record net := mkNet {
  sender : TCPSender.t;
  receiver : TCPReceiver.t;
  segments : list TCPSenderMessage;
  acks : list TCPReceiverMessage;
  sent : bytes;
  read_log : bytes;
  written : bytes
}.

Definition init (cap cap' : nat) (isn rto : Z) : net :=
  mkNet (create (ByteStream.create cap) isn rto) (TCPReceiver.create cap') [] [] [] [] [].

(** The longest stream the theorems cover: [2^31 - 2] bytes, so that
    every absolute sequence number stays within [2^31] of the
    receiver's checkpoint. *)
Definition MAX_STREAM : Z := 2 ^ 31 - 2.

(** A call, or [None] when the schedule leaves what the theorems cover:
    a write past [MAX_STREAM] bytes in all, a delivery of a message never
    sent, or a read of more than is buffered (undefined in the C++). *)
Definition step (e : event) (c : net) : option net :=
  let s := sender c in let r := receiver c in
  match e with
  | Write data =>
      let w := written c ++ accepted data (input_ s) in
      if (Z.of_nat (length w) <? MAX_STREAM)%Z
      then Some (mkNet (fst (TCPSender.step (WriterPush data) s)) r (segments c) (acks c)
                       (sent c) (read_log c) w)
      else None
  | Close =>
      Some (mkNet (fst (TCPSender.step WriterClose s)) r (segments c) (acks c)
                  (sent c) (read_log c) (written c))
  | Push =>
      let '(s', out) := TCPSender.step TCPSender.Push s in
      Some (mkNet s' r (segments c ++ out) (acks c)
                  (sent c ++ concat (map TCPReceiver.payload out)) (read_log c) (written c))
  | Tick ms =>
      let '(s', out) := TCPSender.step (TCPSender.Tick ms) s in
      Some (mkNet s' r (segments c ++ out) (acks c) (sent c) (read_log c) (written c))
  | Deliver i =>
      match nth_error (segments c) i with
      | Some m =>
          let r' := TCPReceiver.receive m r in
          Some (mkNet s r' (segments c) (acks c ++ [TCPReceiver.send r'])
                      (sent c) (read_log c) (written c))
      | None => None
      end
  | Ack j =>
      match nth_error (acks c) j with
      | Some a =>
          Some (mkNet (fst (TCPSender.step (TCPSender.Receive a) s)) r (segments c) (acks c)
                      (sent c) (read_log c) (written c))
      | None => None
      end
  | Read n =>
      if n <=? ByteStream.bytes_buffered (TCPReceiver.writer r)
      then Some (mkNet s (TCPReceiver.read n r) (segments c) (acks c) (sent c)
                       (read_log c ++ firstn n (ByteStream.contents (TCPReceiver.writer r)))
                       (written c))
      else None
  end.

Fixpoint run (es : list event) (c : net) : option net :=
  match es with
  | [] => Some c
  | e :: es' => match step e c with Some c' => run es' c' | None => None end
  end.

(** ** The invariant of the connection *)

(** What every reachable state satisfies: the sender and every segment
    in the soup are part of the stream [sent], the receiver holds part of
    it, no acknowledgement carries RST, and the stream is short enough
    for [unwrap]. *)
Record net_inv (c : net) : Prop := {
  ni_snd : snd_ok (sender c) (sent c) (written c) (segments c);
  ni_rcv : rcv_ok (isn_ (sender c)) (FIN_sent_flag_ (sender c)) (sent c) (read_log c) (receiver c);
  ni_acks : Forall (fun a => TCPReceiver.RST_flag a = false) (acks c);
  ni_bound : (Z.of_nat (length (written c)) < MAX_STREAM)%Z
}.

Lemma init_inv cap cap' isn rto : (0 <= isn < 2 ^ 32)%Z -> net_inv (init cap cap' isn rto).
Proof.
  intros Hisn. split; cbn.
  - split; cbn; auto using create_sinv.
  - split; [split|..]; cbn; auto using ByteStream.inv_create.
    + apply create_rinv, ByteStream.inv_create.
    + intros k x H. discriminate.
    + intros e H. discriminate.
    + discriminate.
  - constructor.
  - unfold MAX_STREAM. lia.
Qed.

(** The stream the sender has read is no longer than what was written. *)
Lemma sent_le_written c : net_inv c -> length (sent c) <= length (written c).
Proof. intros [[_ _ _ Hw _ _ _ _ _] _ _ _]. rewrite Hw, length_app. lia. Qed.

Lemma net_step_inv e c c' : net_inv c -> step e c = Some c' -> net_inv c'.
Proof.
  intros Inv H. pose proof (sent_le_written c Inv) as Hle.
  destruct Inv as [So Ro Ha Hb]. destruct c as [s r segs acs snt lg wr].
  cbn [sender receiver segments acks sent read_log written] in *.
  pose proof So as [I Hisn He _ _ _ _ Hsoup Hq].
  destruct e as [data| | |ms|i|j|n]; cbn [step sender receiver segments acks sent read_log written] in H.
  - destruct (Z.ltb_spec (Z.of_nat (length (wr ++ accepted data (input_ s)))) MAX_STREAM); [|discriminate].
    injection H as <-. split; cbn; auto. exact (write_ok s snt wr segs data So).
  - injection H as <-. split; cbn; auto. exact (close_ok s snt wr segs So).
  - cbn [TCPSender.step] in H. unfold push in H.
    destruct (FIN_sent_flag_ s) eqn:HF.
    + rewrite push_loop_after_fin in H by exact HF. injection H as <-. cbn. rewrite !app_nil_r.
      split; cbn; auto. rewrite HF. exact Ro.
    + destruct (push_loop_ok (S (effective_window s)) s snt wr segs So) as [So' Hi].
      destruct (push_loop _ s) as [s' out]. injection H as <-. cbn [fst snd] in *.
      split; cbn; auto. rewrite Hi. apply rcv_ok_app. exact Ro.
  - cbn [TCPSender.step] in H. pose proof (tick_frame ms s) as Hf. pose proof (tick_sinv ms s I) as I'.
    destruct (tick ms s) as [s' out]. injection H as <-. cbn [fst] in I'.
    destruct Hf as (Hin & Hi & Hs & Hfl & Hq' & Hout). split; cbn; auto.
    + apply (snd_ok_frame s s' snt wr segs); auto.
      * rewrite Hq'. apply incl_refl.
      * apply incl_app; [apply incl_appl, incl_refl | apply incl_appr, Hout].
    + rewrite Hi, Hfl. exact Ro.
  - destruct (nth_error segs i) as [m|] eqn:Hm; [|discriminate]. injection H as <-.
    apply nth_error_In in Hm. destruct (proj1 (Forall_forall _ _) Hsoup m Hm) as [Hok Hfin].
    assert (Ro' : rcv_ok (isn_ s) (FIN_sent_flag_ s) snt lg (TCPReceiver.receive m r))
      by (apply receive_ok; auto; unfold MAX_STREAM in Hb; lia).
    split; cbn; auto. apply Forall_app. split; [exact Ha|]. constructor; [|constructor].
    rewrite TCPReceiver.send_RST. exact (ro_err _ _ _ _ _ Ro').
  - destruct (nth_error acs j) as [a|] eqn:Hj; [|discriminate]. injection H as <-.
    apply nth_error_In in Hj. pose proof (proj1 (Forall_forall _ _) Ha a Hj) as Hr.
    cbn [TCPSender.step fst]. destruct (receive_frame a s Hr He) as (Hin & Hi & Hs & Hfl & Hq').
    split; cbn; auto.
    + apply (snd_ok_frame s _ snt wr segs); auto using receive_sinv.
      apply incl_appl, incl_refl.
    + rewrite Hi, Hfl. exact Ro.
  - destruct (Nat.leb_spec n (ByteStream.bytes_buffered (TCPReceiver.writer r))) as [Hn|]; [|discriminate].
    injection H as <-. split; cbn; auto using read_ok.
Qed.

Lemma net_run_inv es c c' : net_inv c -> run es c = Some c' -> net_inv c'.
Proof.
  revert c. induction es as [|e es IH]; intros c I H; cbn in H; [now injection H as <-|].
  destruct (step e c) as [c1|] eqn:Hs; [|discriminate]. exact (IH c1 (net_step_inv e c c1 I Hs) H).
Qed.

(** (C3) Safety over an unreliable link: in every state reached from a
    fresh sender and a fresh receiver, whatever segments and
    acknowledgements the link loses, duplicates or reorders, whatever
    the sender retransmits, and however the applications write, close
    and read, the bytes the receiving application has read, followed by
    those waiting in the receiver's stream, are exactly the first
    [bytes_pushed] bytes written to the sender; and once the receiver's
    stream is closed they are all the bytes written. *)
Theorem lossy_link_safe es cap cap' isn rto c :
  (0 <= isn < 2 ^ 32)%Z -> run es (init cap cap' isn rto) = Some c ->
  read_log c ++ ByteStream.contents (TCPReceiver.writer (receiver c)) =
    firstn (ByteStream.bytes_pushed (TCPReceiver.writer (receiver c))) (written c) /\
  (ByteStream.is_closed (TCPReceiver.writer (receiver c)) = true ->
   read_log c ++ ByteStream.contents (TCPReceiver.writer (receiver c)) = written c).
Proof.
  intros Hisn Hrun. destruct (net_run_inv es _ c (init_inv cap cap' isn rto Hisn) Hrun)
    as [[_ _ _ Hw _ _ Hf _ _] [[_ Hpre Hpu _ He Hcl] _ _] _ _].
  change (writer_buffer (output_ (TCPReceiver.reassembler_ (receiver c)))) with
    (ByteStream.contents (TCPReceiver.writer (receiver c))) in Hpre.
  split.
  - rewrite Hw, firstn_app_le by exact Hpu. exact Hpre.
  - intros Hc. destruct (He _ (Hcl Hc)) as [HF Hn]. destruct (Hf HF) as [_ Hnil].
    rewrite Hw, Hnil, app_nil_r, Hpre, Hn. apply firstn_all.
Qed.

(** ** Acknowledged means received *)

(** The absolute acknowledgement number the receiver sends: [bytes_pushed
    + 1], plus one once FIN is in; 0 while it knows no ISN. *)
Definition ack_abs (r : TCPReceiver.t) : nat :=
  match TCPReceiver.base_seqno_ r with
  | Some _ => ByteStream.bytes_pushed (TCPReceiver.writer r) + 1 +
              (if ByteStream.is_closed (TCPReceiver.writer r) then 1 else 0)
  | None => 0
  end.

(** An acknowledgement of at most [bound], for the ISN [isn]. *)
Definition ack_ok (isn : Z) (bound : nat) (a : TCPReceiverMessage) : Prop :=
  forall raw, TCPReceiver.ackno a = Some raw -> exists k, raw = Wrap32.wrap (Z.of_nat k) isn /\ k <= bound.

Lemma ack_ok_mono isn b b' a : b <= b' -> ack_ok isn b a -> ack_ok isn b' a.
Proof. intros Hb H raw Hr. destruct (H raw Hr) as (k & -> & Hk). exists k. split; [reflexivity|lia]. Qed.

(** What [send] reports is acknowledgement [ack_abs]. *)
Lemma send_ack_ok isn r :
  TCPReceiver.base_seqno_ r = None \/ TCPReceiver.base_seqno_ r = Some isn ->
  ack_ok isn (ack_abs r) (TCPReceiver.send r).
Proof.
  intros Hb raw. unfold TCPReceiver.send, ack_abs.
  destruct Hb as [-> | ->]; cbn [TCPReceiver.ackno]; [discriminate|].
  intros [= <-]. eexists. split; [|reflexivity]. f_equal.
  destruct (ByteStream.is_closed _); lia.
Qed.

(** A receiver that advances acknowledges no less. *)
Lemma advances_ack_abs r r' : TCPReceiver.advances r r' -> ack_abs r <= ack_abs r'.
Proof.
  intros (Hp & Hc & _ & Hb). unfold ack_abs.
  cbn [writer_bytes_pushed writer_is_closed byte_stream_writer] in Hp, Hc.
  destruct (TCPReceiver.base_seqno_ r) as [b|]; [rewrite (Hb b eq_refl)|lia].
  destruct (ByteStream.is_closed (TCPReceiver.writer r)); [rewrite (Hc eq_refl)|destruct (ByteStream.is_closed _)]; lia.
Qed.

(** [push] does not move [ack_sequence_number_]. *)
Lemma push_loop_ack f s :
  ByteStream.inv (input_ s) -> ack_sequence_number_ (fst (push_loop f s)) = ack_sequence_number_ s.
Proof.
  revert s. induction f as [|f IH]; intros s I; cbn [push_loop]; [reflexivity|].
  destruct (_ <? _); [|reflexivity]. destruct (push_body s) as [s1 [m|]] eqn:Hb.
  - destruct (push_body_some s s1 m I Hb) as (_ & _ & _ & I1 & _ & _ & _ & _ & _ & Heq).
    specialize (IH s1 I1). destruct (push_loop f s1). cbn in *. rewrite IH, Heq. reflexivity.
  - rewrite (push_body_none s s1 I Hb). reflexivity.
Qed.

(** [receive] of an acknowledgement of at most [k] leaves the sender's
    acknowledged point at most [k], when it was: the loop stops before
    the first segment [k] does not cover. *)
Lemma receive_ack_bound msg s k :
  sinv s -> ack_sequence_number_ s <= k ->
  (forall raw, TCPReceiver.ackno msg = Some raw ->
     (Wrap32.unwrap raw (isn_ s) (Z.of_nat (next_seq_number_ s)) <= Z.of_nat k)%Z \/
     (Z.of_nat (next_seq_number_ s) < Wrap32.unwrap raw (isn_ s) (Z.of_nat (next_seq_number_ s)))%Z) ->
  ack_sequence_number_ (receive msg s) <= k.
Proof.
  intros I Hle Hk. unfold receive.
  destruct (_ || _); [destruct (TCPReceiver.RST_flag msg); exact Hle|].
  destruct (TCPReceiver.ackno msg) as [raw|] eqn:Ha; [|exact Hle].
  destruct (Z.ltb_spec (Z.of_nat (next_seq_number_ s)) (Wrap32.unwrap raw (isn_ s) (Z.of_nat (next_seq_number_ s))));
    [exact Hle|].
  destruct (Hk raw eq_refl) as [Hu|Hu]; [|lia].
  pose proof (ack_loop_prefix (isn_ s) (Wrap32.unwrap raw (isn_ s) (Z.of_nat (next_seq_number_ s)))
                (ack_sequence_number_ s) (total_outgoing_seq_ s) (pending_messages_ s) false (sinv_contig _ I)) as Hl.
  destruct (ack_loop _ _ _ _ _) as [[[a' tot'] q'] acked'].
  destruct Hl as (pre & _ & Ha' & _ & Hpre & _). destruct (if acked' then _ else _) as [count tm].
  cbn [ack_sequence_number_].
  destruct Hpre as [->|Hpre]; [unfold in_flight in Ha'; cbn in Ha'; lia|]. lia.
Qed.

(** [tick] does not move [ack_sequence_number_]. *)
Lemma tick_ack ms s : ack_sequence_number_ (fst (tick ms s)) = ack_sequence_number_ s.
Proof.
  unfold tick. destruct (RetryTimer.has_timer_expired _); [|reflexivity].
  destruct (pending_messages_ s); [reflexivity|]. destruct (if negb _ then _ else _). reflexivity.
Qed.

(** What the connection's acknowledgements satisfy: each one in the soup
    acknowledges at most what the receiver acknowledges now, and so does
    the sender's [ack_sequence_number_]. *)
Record acks_inv (c : net) : Prop := {
  ai_acks : Forall (ack_ok (isn_ (sender c)) (ack_abs (receiver c))) (acks c);
  ai_sender : ack_sequence_number_ (sender c) <= ack_abs (receiver c)
}.

(** The sequence numbers in play are below [2^31]: the receiver's
    acknowledgement and the sender's next sequence number are at most
    [|sent| + 2]. *)
Lemma net_bounds c :
  net_inv c ->
  ack_abs (receiver c) <= length (sent c) + 2 /\ next_seq_number_ (sender c) <= length (sent c) + 2 /\
  (Z.of_nat (length (sent c)) + 2 < 2 ^ 31)%Z.
Proof.
  intros Inv. pose proof (sent_le_written c Inv) as Hle.
  destruct Inv as [[I _ _ _ Hp _ _ _ _] [[_ _ Hpu _ _ _] _ _] _ Hb]. unfold MAX_STREAM in Hb.
  pose proof (sinv_read _ I) as Hr. unfold ack_abs, TCPReceiver.writer.
  cbn [writer_bytes_pushed byte_stream_writer] in Hpu.
  assert (E : (2 ^ 31 = 2147483648)%Z) by reflexivity. split_conj; [| |lia].
  - destruct (TCPReceiver.base_seqno_ _); [destruct (ByteStream.is_closed _)|]; lia.
  - destruct (SYN_sent_flag_ _), (FIN_sent_flag_ _); lia.
Qed.

Lemma net_step_acks e c c' : net_inv c -> acks_inv c -> step e c = Some c' -> acks_inv c'.
Proof.
  intros Inv [Ha Hs] H. pose proof (net_bounds c Inv) as (Hab & Hn & Hb).
  pose proof (net_step_inv e c c' Inv H) as Inv'.
  destruct Inv as [So Ro Hrst _]. destruct c as [s r segs acs snt lg wr].
  cbn [sender receiver segments acks sent read_log written] in *.
  destruct e as [data| | |ms|i|j|n]; cbn [step sender receiver segments acks sent read_log written] in H.
  - destruct (_ <? _)%Z; [|discriminate]. injection H as <-. split; cbn; auto.
  - injection H as <-. split; cbn; auto.
  - cbn [TCPSender.step] in H. unfold push in H.
    destruct (push_loop_ok (S (effective_window s)) s snt wr segs So) as [_ Hi].
    pose proof (push_loop_ack (S (effective_window s)) s (sinv_input _ (sd_sinv _ _ _ _ So))) as Hk.
    destruct (push_loop _ s) as [s' out]. injection H as <-. cbn [fst] in *.
    split; cbn; rewrite ?Hi, ?Hk; auto.
  - cbn [TCPSender.step] in H. pose proof (tick_frame ms s) as Hf. pose proof (tick_ack ms s) as Hk.
    destruct (tick ms s) as [s' out]. injection H as <-. destruct Hf as (_ & Hi & _).
    cbn [fst] in Hk. split; cbn; rewrite ?Hi, ?Hk; auto.
  - destruct (nth_error segs i) as [m|] eqn:Hm; [|discriminate]. injection H as <-.
    pose proof (TCPReceiver.receive_advances m r (st_rinv _ _ _ _ (ro_stream _ _ _ _ _ Ro))) as Hadv.
    apply advances_ack_abs in Hadv. cbn [receiver acks sender] in *.
    split; cbn; [|lia]. apply Forall_app. split.
    + exact (Forall_impl _ (fun a => ack_ok_mono _ _ _ a Hadv) Ha).
    + constructor; [|constructor]. apply send_ack_ok. exact (ro_base _ _ _ _ _ (ni_rcv _ Inv')).
  - destruct (nth_error acs j) as [a|] eqn:Hj; [|discriminate]. injection H as <-.
    apply nth_error_In in Hj. pose proof (proj1 (Forall_forall _ _) Ha a Hj) as Hok.
    pose proof (proj1 (Forall_forall _ _) Hrst a Hj) as Hr.
    cbn [TCPSender.step fst]. destruct (receive_frame a s Hr (sd_err _ _ _ _ So)) as (_ & Hi & _).
    split; cbn; rewrite ?Hi; auto.
    apply (receive_ack_bound a s (ack_abs r) (sd_sinv _ _ _ _ So) Hs).
    intros raw Hraw. destruct (Hok raw Hraw) as (k & -> & Hk). left.
    rewrite Wrap32.unwrap_near by lia. lia.
  - destruct (Nat.leb_spec n (ByteStream.bytes_buffered (TCPReceiver.writer r))) as [Hrd|]; [|discriminate].
    injection H as <-.
    pose proof (TCPReceiver.read_advances n r (st_rinv _ _ _ _ (ro_stream _ _ _ _ _ Ro)) Hrd) as Hadv.
    apply advances_ack_abs in Hadv. split; cbn; [|lia].
    exact (Forall_impl _ (fun a => ack_ok_mono _ _ _ a Hadv) Ha).
Qed.

Lemma net_run_acks es c c' : net_inv c -> acks_inv c -> run es c = Some c' -> acks_inv c'.
Proof.
  revert c. induction es as [|e es IH]; intros c I A H; cbn in H; [now injection H as <-|].
  destruct (step e c) as [c1|] eqn:Hs; [|discriminate].
  exact (IH c1 (net_step_inv e c c1 I Hs) (net_step_acks e c c1 I A Hs) H).
Qed.

(** [push] leaves SYN unsent only when it sends nothing at all. *)
Lemma push_loop_syn f s :
  ByteStream.inv (input_ s) -> SYN_sent_flag_ (fst (push_loop f s)) = false ->
  SYN_sent_flag_ s = false /\ push_loop f s = (s, []).
Proof.
  revert s. induction f as [|f IH]; intros s I Hs; cbn [push_loop] in *; [auto|].
  destruct (_ <? _); [|auto]. destruct (push_body s) as [s1 [m|]] eqn:Hb.
  - destruct (push_body_some s s1 m I Hb) as (_ & _ & _ & I1 & _ & _ & _ & _ & _ & Heq).
    destruct (push_loop f s1) as [s2 out] eqn:Hl. cbn [fst] in Hs.
    assert (Hs1 : SYN_sent_flag_ (fst (push_loop f s1)) = false) by now rewrite Hl.
    destruct (IH s1 I1 Hs1) as [Hsyn _]. rewrite Heq in Hsyn. discriminate.
  - rewrite (push_body_none s s1 I Hb) in *. auto.
Qed.

(** Before SYN leaves, nothing is on the wire, nothing is outstanding
    and the receiver knows no ISN. *)
Definition syn_inv (c : net) : Prop :=
  SYN_sent_flag_ (sender c) = false ->
  segments c = [] /\ pending_messages_ (sender c) = [] /\ TCPReceiver.base_seqno_ (receiver c) = None.

Lemma net_step_syn e c c' : net_inv c -> syn_inv c -> step e c = Some c' -> syn_inv c'.
Proof.
  intros Inv Hs H. destruct Inv as [So Ro Hrst _]. destruct c as [s r segs acs snt lg wr].
  unfold syn_inv in *. cbn [sender receiver segments acks sent read_log written] in *.
  destruct e as [data| | |ms|i|j|n]; cbn [step sender receiver segments acks sent read_log written] in H.
  - destruct (_ <? _)%Z; [|discriminate]. injection H as <-. exact Hs.
  - injection H as <-. exact Hs.
  - cbn [TCPSender.step] in H. unfold push in H.
    destruct (push_loop _ s) as [s' out] eqn:Hl. injection H as <-. cbn. intros Hf.
    assert (Hf' : SYN_sent_flag_ (fst (push_loop (S (effective_window s)) s)) = false) by now rewrite Hl.
    destruct (push_loop_syn _ s (sinv_input _ (sd_sinv _ _ _ _ So)) Hf') as [H0 Hp].
    rewrite Hl in Hp. injection Hp as -> ->. rewrite app_nil_r. exact (Hs H0).
  - cbn [TCPSender.step] in H. pose proof (tick_frame ms s) as Hf.
    destruct (tick ms s) as [s' out]. injection H as <-. destruct Hf as (_ & _ & Hsy & _ & Hp & Hi).
    cbn. rewrite Hsy, Hp. intros H0. destruct (Hs H0) as (-> & Hq & Hb).
    rewrite Hq in Hi. apply incl_l_nil in Hi as ->. auto.
  - destruct (nth_error segs i) as [m|] eqn:Hm; [|discriminate]. injection H as <-. cbn.
    intros H0. destruct (Hs H0) as (-> & _). destruct i; discriminate.
  - destruct (nth_error acs j) as [a|] eqn:Hj; [|discriminate]. injection H as <-.
    apply nth_error_In in Hj. pose proof (proj1 (Forall_forall _ _) Hrst a Hj) as Hr.
    cbn [TCPSender.step fst]. destruct (receive_frame a s Hr (sd_err _ _ _ _ So)) as (_ & _ & Hsy & _ & Hi).
    cbn. rewrite Hsy. intros H0. destruct (Hs H0) as (-> & Hq & Hb). rewrite Hq in Hi.
    apply incl_l_nil in Hi as ->. auto.
  - destruct (n <=? _); [|discriminate]. injection H as <-. exact Hs.
Qed.

Lemma net_run_syn es c c' : net_inv c -> syn_inv c -> run es c = Some c' -> syn_inv c'.
Proof.
  revert c. induction es as [|e es IH]; intros c I A H; cbn in H; [now injection H as <-|].
  destruct (step e c) as [c1|] eqn:Hs; [|discriminate].
  exact (IH c1 (net_step_inv e c c1 I Hs) (net_step_syn e c c1 I A Hs) H).
Qed.

(** The receiver acknowledges only sequence numbers the sender has
    used: SYN once it knows the ISN, the bytes it pushed, and FIN once
    its stream is closed. *)
Lemma ack_abs_le_next c : net_inv c -> syn_inv c -> ack_abs (receiver c) <= next_seq_number_ (sender c).
Proof.
  intros Inv Hs. destruct Inv as [[I _ _ _ Hp _ _ _ _] [[_ _ Hpu _ Hend Hcl] _ _] _ _].
  pose proof (sinv_read _ I) as Hr. unfold ack_abs, TCPReceiver.writer.
  destruct (TCPReceiver.base_seqno_ _) eqn:Hb; [|lia].
  destruct (SYN_sent_flag_ (sender c)) eqn:Hsyn; [|destruct (Hs Hsyn) as (_ & _ & Hn); congruence].
  cbn [writer_bytes_pushed writer_is_closed byte_stream_writer] in Hpu, Hcl.
  destruct (ByteStream.is_closed _) eqn:Hc; [|destruct (FIN_sent_flag_ _); lia].
  destruct (Hend _ (Hcl eq_refl)) as [HF _]. rewrite HF in Hr. lia.
Qed.

(** (C4) Acknowledged means received, and only what was sent is
    acknowledged: over the unreliable link, whatever is lost, duplicated
    or reordered, every sequence number the sender counts as
    acknowledged (and has dropped from its retransmission queue) has
    reached the receiver, and every one the receiver acknowledges has
    been used by the sender: the sender's [ack_sequence_number_] never
    exceeds the absolute acknowledgement number the receiver would send
    now, which never exceeds the sender's [next_seq_number_].  Stale or
    duplicated acknowledgements never make the sender discard data the
    receiver has not got. *)
Theorem lossy_acks_received es cap cap' isn rto c :
  (0 <= isn < 2 ^ 32)%Z -> run es (init cap cap' isn rto) = Some c ->
  ack_sequence_number_ (sender c) <= ack_abs (receiver c) <= next_seq_number_ (sender c).
Proof.
  intros Hisn Hrun. pose proof (init_inv cap cap' isn rto Hisn) as I0.
  assert (A0 : acks_inv (init cap cap' isn rto)) by (split; cbn; [constructor | lia]).
  assert (S0 : syn_inv (init cap cap' isn rto)) by (intros _; cbn; auto).
  split; [exact (ai_sender _ (net_run_acks es _ c I0 A0 Hrun))|].
  exact (ack_abs_le_next c (net_run_inv es _ c I0 Hrun) (net_run_syn es _ c I0 S0 Hrun)).
Qed.

End LossyLink.

(** ** A connection over a link that reorders, duplicates and loses *)

Module LossyLinkScenario.
Import TCPSender LossyLink.

(** The SYN crosses and is acknowledged; "hello" and " world" leave as
    two segments and arrive in the wrong order, the second one twice;
    FIN leaves, the timer expires and "hello" is retransmitted; the old
    copy arrives again before FIN; the application reads everything.
    The acknowledgements of the data are all lost. *)
Definition lossy_schedule : list LossyLink.event :=
  [Push; Deliver 0; Ack 0;
   Write (bstr "hello"); Push; Write (bstr " world"); Push;
   Deliver 2; Deliver 2; Deliver 1;
   Close; Push; Tick 1000; Deliver 4; Deliver 3; Read 11].

(** The run: five segments on the wire (SYN, the two payloads, FIN and
    the retransmitted "hello"), the application has read "hello world",
    nothing is left buffered and the receiver's stream is closed. *)
Example lossy_schedule_delivers :
  option_map (fun c => (length (segments c), read_log c,
                        ByteStream.contents (TCPReceiver.writer (receiver c)),
                        ByteStream.is_closed (TCPReceiver.writer (receiver c))))
             (LossyLink.run lossy_schedule (init 100 100 7 1000)) =
  Some (5, bstr "hello world", [], true).
Proof. vm_compute. reflexivity. Qed.

Definition lossy_final : net :=
  match LossyLink.run lossy_schedule (init 100 100 7 1000) with
  | Some c => c | None => init 100 100 7 1000 end.

Lemma lossy_link_safe_witness :
  let c := lossy_final in
  read_log c ++ ByteStream.contents (TCPReceiver.writer (receiver c)) =
    firstn (ByteStream.bytes_pushed (TCPReceiver.writer (receiver c))) (written c) /\
  (ByteStream.is_closed (TCPReceiver.writer (receiver c)) = true ->
   read_log c ++ ByteStream.contents (TCPReceiver.writer (receiver c)) = written c).
Proof. apply (lossy_link_safe lossy_schedule 100 100 7 1000); [lia | vm_compute; reflexivity]. Defined.

Lemma lossy_acks_received_witness :
  ((0 <= 7 < 2 ^ 32)%Z /\ LossyLink.run lossy_schedule (init 100 100 7 1000) = Some lossy_final) /\
  (ack_sequence_number_ (sender lossy_final) <= ack_abs (receiver lossy_final) <=
   next_seq_number_ (sender lossy_final))%nat.
Proof.
  assert (H : LossyLink.run lossy_schedule (init 100 100 7 1000) = Some lossy_final)
    by (vm_compute; reflexivity).
  split; [split; [lia | exact H] | exact (lossy_acks_received lossy_schedule 100 100 7 1000 lossy_final ltac:(lia) H)].
Defined.

End LossyLinkScenario.
